(** * SortedSet: a skip list with spans plus a hash table (sorted_set.hh)

    Shallow embedding of the C++ template class [SortedSet<KeyType>] and
    the properties of its public commands.

    - scores are IEEE binary64 numbers ([double]): Rocq's primitive floats,
      compared with [PrimFloat.ltb], [PrimFloat.leb] and [PrimFloat.eqb];
    - [unsigned int] and [unsigned long] arithmetic is written with its
      wrap-around ([wrap32], [wrap64]), [long] arguments are integers in
      the signed 64-bit range;
    - the nodes live in a heap addressed by pointers; [mDict] is a finite
      map from keys to scores. *)

From Stdlib Require Import ZArith Lia Bool List.
From Stdlib Require Import Floats.
From stdpp Require Import base option list gmap strings.

Local Open Scope Z_scope.

(** ** Machine integers *)

Definition wrap32 (z : Z) : Z := z mod 2 ^ 32.
Definition wrap64 (z : Z) : Z := z mod 2 ^ 64.

(** Conversion of an [unsigned long] (or an out-of-range sum) to [long]. *)
Definition to_long (z : Z) : Z :=
  let w := wrap64 z in if w <? 2 ^ 63 then w else w - 2 ^ 64.

Definition is_long (z : Z) : Prop := - 2 ^ 63 <= z < 2 ^ 63.

(** ** Scores: binary64 numbers *)

Definition score := float.

Definition flt (x y : score) : bool := PrimFloat.ltb x y.
Definition fle (x y : score) : bool := PrimFloat.leb x y.
Definition feq (x y : score) : bool := PrimFloat.eqb x y.

(** [x == x] fails exactly for NaN. *)
Definition not_nan (x : score) : Prop := feq x x = true.

(** The rank of a non-NaN number in a lexicographic order that
    [SFcompare] decides. *)
Definition sf_key (x : spec_float) : Z * Z * Z :=
  match x with
  | S754_nan => (0, 0, 0)
  | S754_infinity true => (-2, 0, 0)
  | S754_infinity false => (2, 0, 0)
  | S754_zero _ => (0, 0, 0)
  | S754_finite true m e => (-1, - e, - Z.pos m)
  | S754_finite false m e => (1, e, Z.pos m)
  end.

Definition key_cmp (a b : Z * Z * Z) : comparison :=
  let '(a1, a2, a3) := a in
  let '(b1, b2, b3) := b in
  match a1 ?= b1 with
  | Eq => match a2 ?= b2 with Eq => a3 ?= b3 | c => c end
  | c => c
  end.

(** The length of the longest prefix of [l] whose elements satisfy [P]. *)
Fixpoint prefix_len {A : Type} (P : A -> bool) (l : list A) : nat :=
  match l with
  | [] => O
  | x :: r => if P x then S (prefix_len P r) else O
  end.

(** A test on scores that passes from a score to every smaller one. *)
Definition down_closed (P : score -> bool) : Prop :=
  forall x y, not_nan x -> not_nan y -> fle x y = true ->
              P y = true -> P x = true.

(** ** Data model *)

(** A pointer is an address in the heap of nodes. *)
Definition ptr := nat.

Definition SKIPLIST_MAXLEVEL : nat := 32.

(** [for (i = lo; i < lo + n; i++) body], on a state that [body] may
    fail to update. *)
Fixpoint for_loop {St : Type} (body : nat -> St -> option St)
    (lo n : nat) (s : St) : option St :=
  match n with
  | O => Some s
  | S n' => s' ← body lo s; for_loop body (S lo) n' s'
  end.

(** [randomlevel]: [draws] are the values [random()] returns, in order. The
    loop stops at the first draw that fails the test (or when the recorded
    draws end). *)
Definition draw_small (r : Z) : bool :=
  PrimFloat.ltb (PrimFloat.of_uint63 (Uint63.of_Z (Z.land r 65535)))
                (PrimFloat.mul 0.25%float 65535%float).

Fixpoint randomlevel_loop (draws : list Z) (level : nat) : nat :=
  match draws with
  | [] => level
  | r :: rest =>
      if draw_small r then randomlevel_loop rest (level + 1)%nat else level
  end.

Definition randomlevel (draws : list Z) : nat :=
  let level := randomlevel_loop draws 1 in
  if (level <? SKIPLIST_MAXLEVEL)%nat then level else SKIPLIST_MAXLEVEL.

Record SkipListLevel := mkLevel {
  mForward : option ptr;
  mSpan : Z                      (* unsigned int *)
}.

Record RangeSpec := mkRange {
  mMin : score;
  mMax : score;
  mMinex : bool;
  mMaxex : bool
}.

Definition score_gte_min (sc : score) (spec : RangeSpec) : bool :=
  if mMinex spec then flt (mMin spec) sc else fle (mMin spec) sc.

Definition score_lte_max (sc : score) (spec : RangeSpec) : bool :=
  if mMaxex spec then flt sc (mMax spec) else fle sc (mMax spec).

Section SortedSet.
Context {K : Type} `{Countable K} `{Inhabited K}.

Record SkipListNode := mkNode {
  mIsHeader : bool;
  mScore : score;
  mKey : K;
  mBackward : option ptr;
  mLevel : list SkipListLevel
}.

(** The members of [SortedSet]; [mLevels] is the member [mLevel] of the
    class (the node's array has that name too), [heap] holds the nodes
    that [new] allocated and [delete] has not freed. *)
Record SortedSet := mkSet {
  heap : gmap ptr SkipListNode;
  mHeader : ptr;
  mTail : option ptr;
  mLength : Z;                   (* unsigned long *)
  mLevels : nat;                 (* int mLevel *)
  mDict : gmap K score
}.

Definition set_heap (h : gmap ptr SkipListNode) (s : SortedSet) : SortedSet :=
  mkSet h (mHeader s) (mTail s) (mLength s) (mLevels s) (mDict s).
Definition set_mTail (t : option ptr) (s : SortedSet) : SortedSet :=
  mkSet (heap s) (mHeader s) t (mLength s) (mLevels s) (mDict s).
Definition set_mLength (n : Z) (s : SortedSet) : SortedSet :=
  mkSet (heap s) (mHeader s) (mTail s) n (mLevels s) (mDict s).
Definition set_mLevels (n : nat) (s : SortedSet) : SortedSet :=
  mkSet (heap s) (mHeader s) (mTail s) (mLength s) n (mDict s).
Definition set_mDict (d : gmap K score) (s : SortedSet) : SortedSet :=
  mkSet (heap s) (mHeader s) (mTail s) (mLength s) (mLevels s) d.

(** *** Heap accesses; reading or writing through a dangling pointer or
    outside a level array has no result. *)

(** [x->mLevel[i]] *)
Definition level_at (h : gmap ptr SkipListNode) (x : ptr) (i : nat)
    : option SkipListLevel :=
  n ← h !! x; mLevel n !! i.

(** [x->mLevel[i] = f (x->mLevel[i])] *)
Definition upd_level (x : ptr) (i : nat) (f : SkipListLevel -> SkipListLevel)
    (h : gmap ptr SkipListNode) : option (gmap ptr SkipListNode) :=
  n ← h !! x;
  lv ← mLevel n !! i;
  Some (<[x := mkNode (mIsHeader n) (mScore n) (mKey n) (mBackward n)
                      (<[i := f lv]> (mLevel n))]> h).

Definition set_forward (fw : option ptr) (lv : SkipListLevel) : SkipListLevel :=
  mkLevel fw (mSpan lv).
Definition set_span (sp : Z) (lv : SkipListLevel) : SkipListLevel :=
  mkLevel (mForward lv) sp.

(** [x->mBackward = b] *)
Definition upd_backward (x : ptr) (b : option ptr)
    (h : gmap ptr SkipListNode) : option (gmap ptr SkipListNode) :=
  n ← h !! x;
  Some (<[x := mkNode (mIsHeader n) (mScore n) (mKey n) b (mLevel n)]> h).

(** The constructor: a header with [SKIPLIST_MAXLEVEL] empty levels. *)
Definition header_node : SkipListNode :=
  mkNode true 0%float inhabitant None
         (replicate SKIPLIST_MAXLEVEL (mkLevel None 0)).

Definition new_node (level : nat) (sc : score) (key : K) : SkipListNode :=
  mkNode false sc key None (replicate level (mkLevel None 0)).

Definition empty_set : SortedSet :=
  mkSet {[ 0%nat := header_node ]} 0%nat None 0 1 ∅.

(** A walk that visits more nodes than the heap holds is in a cycle and
    does not end: loops over links run on this fuel. *)
Definition fuel_of (h : gmap ptr SkipListNode) : nat := S (size h).

(** *** The descent shared by the skip-list searches

    [while (x->mLevel[i].mForward && cond) { acc = step acc span; x = forward; }]
    where [cond] reads the forward node, the span of the link and the
    accumulator. *)
Fixpoint advance (fuel : nat) (h : gmap ptr SkipListNode)
    (cond : SkipListNode -> Z -> Z -> bool) (step : Z -> Z -> Z)
    (i : nat) (x : ptr) (acc : Z) : option (ptr * Z) :=
  match fuel with
  | O => None
  | S fuel' =>
      lv ← level_at h x i;
      match mForward lv with
      | None => Some (x, acc)
      | Some y =>
          ny ← h !! y;
          if cond ny (mSpan lv) acc
          then advance fuel' h cond step i y (step acc (mSpan lv))
          else Some (x, acc)
      end
  end.

(** [for (i = n-1; i >= 0; i--) { while ...; update[i] = x; rank[i] = acc; }]:
    the node reached, the accumulator, [update[0..n-1]] and [rank[0..n-1]]. *)
Fixpoint descend (fuel : nat) (h : gmap ptr SkipListNode)
    (cond : SkipListNode -> Z -> Z -> bool) (step : Z -> Z -> Z)
    (n : nat) (x : ptr) (acc : Z) : option (ptr * Z * list ptr * list Z) :=
  match n with
  | O => Some (x, acc, [], [])
  | S i =>
      '(x', acc') ← advance fuel h cond step i x acc;
      '(x'', acc'', update, rank) ← descend fuel h cond step i x' acc';
      Some (x'', acc'', update ++ [x'], rank ++ [acc'])
  end.

Definition no_acc (acc span : Z) : Z := acc.
Definition add32 (acc span : Z) : Z := wrap32 (acc + span).
Definition add64 (acc span : Z) : Z := wrap64 (acc + span).

(** *** The skip list *)

(** [private_insert] runs in three phases: the descent that fills
    [update] and [rank], [insert_raise] and [insert_link]. [level] is the
    value that [randomlevel()] returned. *)

(** [if (level > mLevel) { for (i = mLevel; i < level; i++) { rank[i] = 0;
      update[i] = mHeader; update[i]->mLevel[i].mSpan = mLength; } mLevel = level; }] *)
Definition insert_raise (level : nat) (update : list ptr) (rank : list Z)
    (s : SortedSet) : option (list ptr * list Z * SortedSet) :=
  if (mLevels s <? level)%nat then
    h ← for_loop
          (fun i => upd_level (mHeader s) i (set_span (wrap32 (mLength s))))
          (mLevels s) (level - mLevels s) (heap s);
    Some (update ++ replicate (level - mLevels s) (mHeader s),
          rank ++ replicate (level - mLevels s) 0,
          set_mLevels level (set_heap h s))
  else Some (update, rank, s).

(** The allocation of the node [x] and the rest of [private_insert]. The
    four assignments of the linking loop write two entries: level [i] of [x]
    and of [update[i]], which are different nodes. *)
Definition insert_link (level : nat) (sc : score) (key : K)
    (update : list ptr) (rank : list Z) (s : SortedSet)
    : option (ptr * SortedSet) :=
  let x := fresh (dom (heap s)) in
  let h := <[x := new_node level sc key]> (heap s) in
  rank0 ← rank !! 0%nat;
  h ← for_loop
        (fun i h =>
           u ← update !! i;
           ri ← rank !! i;
           ulv ← level_at h u i;
           h ← upd_level x i
                 (fun _ => mkLevel (mForward ulv)
                             (wrap32 (mSpan ulv - wrap32 (rank0 - ri)))) h;
           upd_level u i
             (fun _ => mkLevel (Some x) (wrap32 (wrap32 (rank0 - ri) + 1))) h)
        0 level h;
  h ← for_loop
        (fun i h =>
           u ← update !! i;
           upd_level u i (fun lv => set_span (wrap32 (mSpan lv + 1)) lv) h)
        level (mLevels s - level) h;
  u0 ← update !! 0%nat;
  h ← upd_backward x (if decide (u0 = mHeader s) then None else Some u0) h;
  xlv ← level_at h x 0;
  '(h, tail) ←
    match mForward xlv with
    | Some f => h' ← upd_backward f (Some x) h; Some (h', mTail s)
    | None => Some (h, Some x)
    end;
  Some (x, mkSet h (mHeader s) tail (wrap64 (mLength s + 1)) (mLevels s)
                 (mDict s)).

Definition private_insert (level : nat) (sc : score) (key : K)
    (s : SortedSet) : option (ptr * SortedSet) :=
  let h := heap s in
  '(_, _, update, rank) ←
    descend (fuel_of h) h (fun ny _ _ => flt (mScore ny) sc) add32
            (mLevels s) (mHeader s) 0;
  '(update, rank, s) ← insert_raise level update rank s;
  insert_link level sc key update rank s.

(** [while (mLevel > 1 && mHeader->mLevel[mLevel-1].mForward == NULL) mLevel--;] *)
Fixpoint shrink_level (hd : SkipListNode) (lvl : nat) : option nat :=
  match lvl with
  | S (S _ as l) =>
      lv ← mLevel hd !! l;
      match mForward lv with
      | None => shrink_level hd l
      | Some _ => Some lvl
      end
  | _ => Some lvl
  end.

(** [private_delete_node]: unlinks [x]; the callers free it. *)
Definition private_delete_node (x : ptr) (update : list ptr)
    (s : SortedSet) : option SortedSet :=
  h ← for_loop
        (fun i h =>
           u ← update !! i;
           ulv ← level_at h u i;
           if decide (mForward ulv = Some x) then
             xlv ← level_at h x i;
             upd_level u i
               (fun _ => mkLevel (mForward xlv)
                           (wrap32 (mSpan ulv + wrap32 (mSpan xlv - 1)))) h
           else
             upd_level u i (set_span (wrap32 (mSpan ulv - 1))) h)
        0 (mLevels s) (heap s);
  xlv ← level_at h x 0;
  xn ← h !! x;
  '(h, tail) ←
    match mForward xlv with
    | Some f => h' ← upd_backward f (mBackward xn) h; Some (h', mTail s)
    | None => Some (h, mBackward xn)
    end;
  hd ← h !! mHeader s;
  lvls ← shrink_level hd (mLevels s);
  Some (mkSet h (mHeader s) tail (wrap64 (mLength s - 1)) lvls (mDict s)).

(** [private_delete]: the flag tells whether a node was removed. *)
Definition private_delete (sc : score) (key : K) (s : SortedSet)
    : option (bool * SortedSet) :=
  let h := heap s in
  '(x, _, update, _) ←
    descend (fuel_of h) h (fun ny _ _ => flt (mScore ny) sc) no_acc
            (mLevels s) (mHeader s) 0;
  xlv ← level_at h x 0;
  match mForward xlv with
  | Some y =>
      ny ← h !! y;
      if feq sc (mScore ny) && bool_decide (mKey ny = key) then
        s' ← private_delete_node y update s;
        Some (true, set_heap (delete y (heap s')) s')
      else Some (false, s)
  | None => Some (false, s)
  end.

Definition is_in_range (range : RangeSpec) (s : SortedSet) : option bool :=
  if flt (mMax range) (mMin range)
     || (feq (mMin range) (mMax range) && (mMinex range || mMaxex range))
  then Some false
  else
    match mTail s with
    | None => Some false
    | Some t =>
        nt ← heap s !! t;
        if negb (score_gte_min (mScore nt) range) then Some false
        else
          hlv ← level_at (heap s) (mHeader s) 0;
          match mForward hlv with
          | None => Some false
          | Some f =>
              nf ← heap s !! f;
              Some (score_lte_max (mScore nf) range)
          end
    end.

(** [first_in_range]; the outer [None] is the failed [assert]. *)
Definition first_in_range (range : RangeSpec) (s : SortedSet)
    : option (option ptr) :=
  let h := heap s in
  b ← is_in_range range s;
  if negb b then Some None
  else
    '(x, _, _, _) ←
      descend (fuel_of h) h
              (fun ny _ _ => negb (score_gte_min (mScore ny) range)) no_acc
              (mLevels s) (mHeader s) 0;
    xlv ← level_at h x 0;
    y ← mForward xlv;
    ny ← h !! y;
    if negb (score_lte_max (mScore ny) range) then Some None
    else Some (Some y).

Definition last_in_range (range : RangeSpec) (s : SortedSet)
    : option (option ptr) :=
  let h := heap s in
  b ← is_in_range range s;
  if negb b then Some None
  else
    '(x, _, _, _) ←
      descend (fuel_of h) h
              (fun ny _ _ => score_lte_max (mScore ny) range) no_acc
              (mLevels s) (mHeader s) 0;
    nx ← h !! x;
    if negb (score_gte_min (mScore nx) range) then Some None
    else Some (Some x).

(** The deleting loop of both range deletions:
    [while (x && keep) { next = x->mLevel[0].mForward; private_delete_node(x, update);
       mDict.erase(x->mKey); delete x; removed++; traversed++; x = next; }]
    ([traversed] is only read by the rank variant). *)
Fixpoint delete_range_loop (fuel : nat) (keep : SkipListNode -> Z -> bool)
    (update : list ptr) (x : option ptr) (traversed removed : Z)
    (s : SortedSet) : option (Z * SortedSet) :=
  match x with
  | None => Some (removed, s)
  | Some p =>
      match fuel with
      | O => None
      | S fuel' =>
          np ← heap s !! p;
          if keep np traversed then
            plv ← mLevel np !! 0%nat;
            s ← private_delete_node p update s;
            let s := set_mDict (delete (mKey np) (mDict s)) s in
            let s := set_heap (delete p (heap s)) s in
            delete_range_loop fuel' keep update (mForward plv)
              (wrap64 (traversed + 1)) (wrap64 (removed + 1)) s
          else Some (removed, s)
      end
  end.

Definition private_delete_range_by_score (range : RangeSpec) (s : SortedSet)
    : option (Z * SortedSet) :=
  let h := heap s in
  '(x, _, update, _) ←
    descend (fuel_of h) h
            (fun ny _ _ => if mMinex range then fle (mScore ny) (mMin range)
                           else flt (mScore ny) (mMin range)) no_acc
            (mLevels s) (mHeader s) 0;
  xlv ← level_at h x 0;
  delete_range_loop (fuel_of h)
    (fun np _ => if mMaxex range then flt (mScore np) (mMax range)
                 else fle (mScore np) (mMax range))
    update (mForward xlv) 0 0 s.

(** [start] and [end] are [unsigned int]. *)
Definition private_delete_range_by_rank (start end_ : Z) (s : SortedSet)
    : option (Z * SortedSet) :=
  let h := heap s in
  '(x, traversed, update, _) ←
    descend (fuel_of h) h
            (fun _ span traversed => wrap64 (traversed + span) <? start) add64
            (mLevels s) (mHeader s) 0;
  xlv ← level_at h x 0;
  delete_range_loop (fuel_of h) (fun _ traversed => traversed <=? end_)
    update (mForward xlv) (wrap64 (traversed + 1)) 0 s.

(** [get_rank]: the loop over the levels returns from inside. *)
Fixpoint get_rank_from (fuel : nat) (h : gmap ptr SkipListNode)
    (sc : score) (key : K) (n : nat) (x : ptr) (rank : Z) : option Z :=
  match n with
  | O => Some 0
  | S i =>
      '(x', rank') ←
        advance fuel h (fun ny _ _ => fle (mScore ny) sc) add64 i x rank;
      nx ← h !! x';
      if negb (mIsHeader nx) && bool_decide (mKey nx = key) then Some rank'
      else get_rank_from fuel h sc key i x' rank'
  end.

Definition get_rank (sc : score) (key : K) (s : SortedSet) : option Z :=
  get_rank_from (fuel_of (heap s)) (heap s) sc key (mLevels s) (mHeader s) 0.

Fixpoint get_element_by_rank_from (fuel : nat) (h : gmap ptr SkipListNode)
    (rank : Z) (n : nat) (x : ptr) (traversed : Z) : option (option ptr) :=
  match n with
  | O => Some None
  | S i =>
      '(x', traversed') ←
        advance fuel h
                (fun _ span traversed => wrap64 (traversed + span) <=? rank)
                add64 i x traversed;
      if traversed' =? rank then Some (Some x')
      else get_element_by_rank_from fuel h rank i x' traversed'
  end.

Definition get_element_by_rank (rank : Z) (s : SortedSet)
    : option (option ptr) :=
  get_element_by_rank_from (fuel_of (heap s)) (heap s) rank
    (mLevels s) (mHeader s) 0.

(** *** The commands *)

Definition zadd_generic (level : nat) (key : K) (sc : score) (incr : bool)
    (s : SortedSet) : option SortedSet :=
  match (mDict s !! key : option score) with
  | Some curscore =>
      let sc := if incr then PrimFloat.add sc curscore else sc in
      if negb (feq sc curscore) then
        '(_, s) ← private_delete curscore key s;
        '(_, s) ← private_insert level sc key s;
        Some (set_mDict (<[key := sc]> (mDict s)) s)
      else Some s
  | None =>
      '(_, s) ← private_insert level sc key s;
      Some (set_mDict (<[key := sc]> (mDict s)) s)
  end.

(** [while (rangelen--) { assert(ln != NULL); result.push_back(..); ln = ..; }] *)
Fixpoint range_walk {A : Type} (emit : SkipListNode -> A) (rangelen : nat)
    (h : gmap ptr SkipListNode) (reverse : bool) (ln : option ptr)
    : option (list A) :=
  match rangelen with
  | O => Some []
  | S n =>
      p ← ln;
      np ← h !! p;
      next ← (if reverse then Some (mBackward np)
              else lv ← mLevel np !! 0%nat; Some (mForward lv));
      rest ← range_walk emit n h reverse next;
      Some (emit np :: rest)
  end.

(** [zrange_generic] and [zrange_withscores_generic] differ in what they
    push: [emit]. [start] and [end] are [long]. *)
Definition zrange_with {A : Type} (emit : SkipListNode -> A)
    (start end_ : Z) (reverse : bool) (s : SortedSet) : option (list A) :=
  let llen := to_long (mLength s) in
  let start := if start <? 0 then llen + start else start in
  let end_ := if end_ <? 0 then llen + end_ else end_ in
  let start := if start <? 0 then 0 else start in
  if (end_ <? start) || (llen <=? start) then Some []
  else
    let end_ := if llen <=? end_ then llen - 1 else end_ in
    let rangelen := wrap64 ((end_ - start) + 1) in
    ln ← (if reverse then
            if 0 <? start then get_element_by_rank (wrap64 (llen - start)) s
            else Some (mTail s)
          else
            if 0 <? start then get_element_by_rank (wrap64 (start + 1)) s
            else hlv ← level_at (heap s) (mHeader s) 0; Some (mForward hlv));
    range_walk emit (Z.to_nat rangelen) (heap s) reverse ln.

Definition zrange_generic := zrange_with mKey.
Definition zrange_withscores_generic :=
  zrange_with (fun n => (mKey n, mScore n)).

Fixpoint byscore_walk {A : Type} (emit : SkipListNode -> A) (fuel : nat)
    (h : gmap ptr SkipListNode) (range : RangeSpec) (reverse : bool)
    (ln : option ptr) : option (list A) :=
  match ln with
  | None => Some []
  | Some p =>
      match fuel with
      | O => None
      | S fuel' =>
          np ← h !! p;
          if (if reverse then negb (score_gte_min (mScore np) range)
              else negb (score_lte_max (mScore np) range))
          then Some []
          else
            next ← (if reverse then Some (mBackward np)
                    else lv ← mLevel np !! 0%nat; Some (mForward lv));
            rest ← byscore_walk emit fuel' h range reverse next;
            Some (emit np :: rest)
      end
  end.

Definition zrangebyscore_with {A : Type} (emit : SkipListNode -> A)
    (min max : score) (reverse minex maxex : bool) (s : SortedSet)
    : option (list A) :=
  let range := mkRange (if reverse then max else min)
                       (if reverse then min else max)
                       (if reverse then maxex else minex)
                       (if reverse then minex else maxex) in
  ln ← (if reverse then last_in_range range s else first_in_range range s);
  byscore_walk emit (fuel_of (heap s)) (heap s) range reverse ln.

Definition zrangebyscore_generic := zrangebyscore_with mKey.
Definition zrangebyscore_withscores_generic :=
  zrangebyscore_with (fun n => (mKey n, mScore n)).

(** [zrank_generic]: the inner [None] is the result [false]. *)
Definition zrank_generic (key : K) (reverse : bool) (s : SortedSet)
    : option (option Z) :=
  let llen := mLength s in
  match mDict s !! key with
  | Some sc =>
      rank ← get_rank sc key s;
      Some (Some (if reverse then wrap64 (llen - rank) else wrap64 (rank - 1)))
  | None => Some None
  end.

Definition zadd (key : K) (sc : score) (draws : list Z) :=
  zadd_generic (randomlevel draws) key sc false.

Definition zincrby (key : K) (sc : score) (draws : list Z) :=
  zadd_generic (randomlevel draws) key sc true.

Definition zrem (key : K) (s : SortedSet) : option SortedSet :=
  match mDict s !! key with
  | Some sc =>
      '(_, s) ← private_delete sc key s;
      Some (set_mDict (delete key (mDict s)) s)
  | None => Some s
  end.

Definition zremrangebyscore (min max : score) (minex maxex : bool)
    (s : SortedSet) : option SortedSet :=
  '(_, s) ← private_delete_range_by_score (mkRange min max minex maxex) s;
  Some s.

Definition zremrangebyrank (start end_ : Z) (s : SortedSet)
    : option SortedSet :=
  let llen := to_long (mLength s) in
  let start := if start <? 0 then llen + start else start in
  let end_ := if end_ <? 0 then llen + end_ else end_ in
  let start := if start <? 0 then 0 else start in
  if (end_ <? start) || (llen <=? start) then Some s
  else
    let end_ := if llen <=? end_ then llen - 1 else end_ in
    '(_, s) ← private_delete_range_by_rank (wrap32 (start + 1))
                                           (wrap32 (end_ + 1)) s;
    Some s.

Definition zrange (start end_ : Z) := zrange_generic start end_ false.
Definition zrevrange (start end_ : Z) := zrange_generic start end_ true.
Definition zrange_withscores (start end_ : Z) :=
  zrange_withscores_generic start end_ false.
Definition zrevrange_withscores (start end_ : Z) :=
  zrange_withscores_generic start end_ true.

Definition zrangebyscore (min max : score) (minex maxex : bool) :=
  zrangebyscore_generic min max false minex maxex.
Definition zrevrangebyscore (min max : score) (minex maxex : bool) :=
  zrangebyscore_generic min max true minex maxex.
Definition zrangebyscore_withscores (min max : score) (minex maxex : bool) :=
  zrangebyscore_withscores_generic min max false minex maxex.
Definition zrevrangebyscore_withscores (min max : score) (minex maxex : bool) :=
  zrangebyscore_withscores_generic min max true minex maxex.

Definition zcount (min max : score) (minex maxex : bool) (s : SortedSet)
    : option Z :=
  let range := mkRange min max minex maxex in
  zn ← first_in_range range s;
  match zn with
  | None => Some 0
  | Some p =>
      np ← heap s !! p;
      rank ← get_rank (mScore np) (mKey np) s;
      let count := wrap64 (mLength s - wrap64 (rank - 1)) in
      zn ← last_in_range range s;
      match zn with
      | None => Some count
      | Some q =>
          nq ← heap s !! q;
          rank ← get_rank (mScore nq) (mKey nq) s;
          Some (wrap64 (count - wrap64 (mLength s - rank)))
      end
  end.

Definition zcard (s : SortedSet) : Z := mLength s.

Definition zscore (key : K) (s : SortedSet) : option score := mDict s !! key.

Definition zrank (key : K) := zrank_generic key false.
Definition zrevrank (key : K) := zrank_generic key true.

(** *** Runs of the mutating commands *)

Inductive op :=
  | Zadd (key : K) (sc : score) (draws : list Z)
  | Zincrby (key : K) (sc : score) (draws : list Z)
  | Zrem (key : K)
  | Zremrangebyscore (min max : score) (minex maxex : bool)
  | Zremrangebyrank (start end_ : Z).

Definition step (s : SortedSet) (o : op) : option SortedSet :=
  match o with
  | Zadd key sc draws => zadd key sc draws s
  | Zincrby key sc draws => zincrby key sc draws s
  | Zrem key => zrem key s
  | Zremrangebyscore min max minex maxex =>
      zremrangebyscore min max minex maxex s
  | Zremrangebyrank start end_ => zremrangebyrank start end_ s
  end.

Fixpoint run (ops : list op) (s : SortedSet) : option SortedSet :=
  match ops with
  | [] => Some s
  | o :: rest => s' ← step s o; run rest s'
  end.

(** The nodes along level 0, first to last. *)
Fixpoint chain (fuel : nat) (h : gmap ptr SkipListNode) (x : option ptr)
    : list ptr :=
  match fuel, x with
  | S fuel', Some p =>
      p :: chain fuel' h (lv ← level_at h p 0; mForward lv)
  | _, _ => []
  end.

Definition node_list (s : SortedSet) : list ptr :=
  chain (size (heap s)) (heap s)
        (lv ← level_at (heap s) (mHeader s) 0; mForward lv).

(** The stored (key, score) pairs in list order. *)
Definition contents (s : SortedSet) : list (K * score) :=
  omap (fun p => n ← heap s !! p; Some (mKey n, mScore n)) (node_list s).

End SortedSet.

Arguments SkipListNode K : clear implicits.
Arguments SortedSet K {_ _}.
Arguments op K : clear implicits.

(** ** The representation invariant of the skip list *)

Section Invariant.
Context {K : Type} `{Countable K} `{Inhabited K}.

Implicit Types (h : gmap ptr (SkipListNode K)) (s : SortedSet K).

(** What the loops over the levels leave alone in a node. *)
Definition attrs h (p : ptr) : option (bool * score * K * nat) :=
  n ← h !! p; Some (mIsHeader n, mScore n, mKey n, length (mLevel n)).

Definition bwd h (p : ptr) : option (option ptr) := mBackward <$> h !! p.

(** The number of levels of the node at [p]. *)
Definition hgt h (p : ptr) : nat :=
  match h !! p with Some n => length (mLevel n) | None => 0%nat end.

Definition score_of h (p : ptr) : score :=
  match h !! p with Some n => mScore n | None => 0%float end.

Definition key_of h (p : ptr) : K :=
  match h !! p with Some n => mKey n | None => inhabitant end.

Definition ks_of h (p : ptr) : K * score := (key_of h p, score_of h p).

(** [nodes] lists the header and then the nodes in level-0 order, so that
    the position of a node is its rank. The link at level [i] of the node at
    position [a] leads to the next node with more than [i] levels, and its
    span is the distance to it. *)
Definition link_ok (nodes : list ptr) h (a i : nat) (lv : SkipListLevel)
    : Prop :=
  match mForward lv with
  | Some q =>
      exists b, (a < b)%nat /\ nodes !! b = Some q /\ (i < hgt h q)%nat /\
        (forall c pc, (a < c < b)%nat -> nodes !! c = Some pc ->
                      (hgt h pc <= i)%nat) /\
        mSpan lv = Z.of_nat b - Z.of_nat a
  | None =>
      forall c pc, (a < c)%nat -> nodes !! c = Some pc -> (hgt h pc <= i)%nat
  end.

Record inv s (l : list ptr) : Prop := {
  inv_nodup : NoDup (mHeader s :: l);
  inv_dom : forall p, is_Some (heap s !! p) <-> p ∈ mHeader s :: l;
  inv_header : exists sc k,
      attrs (heap s) (mHeader s) = Some (true, sc, k, SKIPLIST_MAXLEVEL);
  inv_node : forall p, p ∈ l -> exists sc k n,
      attrs (heap s) p = Some (false, sc, k, n) /\
      (1 <= n <= mLevels s)%nat /\ not_nan sc;
  inv_levels : (1 <= mLevels s <= SKIPLIST_MAXLEVEL)%nat;
  inv_length : mLength s = Z.of_nat (length l) /\ Z.of_nat (length l) < 2 ^ 32;
  inv_sorted : forall a b pa pb, (a <= b)%nat ->
      l !! a = Some pa -> l !! b = Some pb ->
      fle (score_of (heap s) pa) (score_of (heap s) pb) = true;
  inv_links : forall a p i lv,
      (mHeader s :: l) !! a = Some p -> level_at (heap s) p i = Some lv ->
      link_ok (mHeader s :: l) (heap s) a i lv;
  inv_back : forall a p, l !! a = Some p ->
      bwd (heap s) p = Some (match a with O => None | S a' => l !! a' end);
  inv_tail : mTail s = last l
}.

(** *** Reachable states

    A command that stores a score is run with a score that is a number, in
    a set that has room for one more node below the range of the
    [unsigned int] spans; the arguments of [zremrangebyrank] are [long]. *)
Definition op_ok s (o : op K) : Prop :=
  match o with
  | Zadd key sc _ => not_nan sc /\ mLength s < 2 ^ 32 - 1
  | Zincrby key sc _ =>
      not_nan (match mDict s !! key with
               | Some cur => PrimFloat.add sc cur
               | None => sc
               end) /\ mLength s < 2 ^ 32 - 1
  | Zrem _ => True
  | Zremrangebyscore _ _ _ _ => True
  | Zremrangebyrank start end_ => is_long start /\ is_long end_
  end.

Inductive reachable : SortedSet K -> Prop :=
  | reachable_empty : reachable empty_set
  | reachable_step s o s' :
      reachable s -> op_ok s o -> step s o = Some s' -> reachable s'.

(** The positions [<= t] with more than [i] levels end at [a]. *)
Definition lastle (nodes : list ptr) h (i t a : nat) : Prop :=
  (a <= t)%nat /\
  (exists p, nodes !! a = Some p /\ (i < hgt h p)%nat) /\
  forall c pc, (a < c <= t)%nat -> nodes !! c = Some pc -> (hgt h pc <= i)%nat.

(** Two heaps with the same nodes, up to the level arrays' entries. *)
Definition same_shape h h' : Prop :=
  forall p, attrs h' p = attrs h p /\ bwd h' p = bwd h p.

End Invariant.

Section InvariantMore.
Context {K : Type} `{Countable K} `{Inhabited K}.

(** [update[i]], for [i < k], is the last node with more than [i] levels at
    a position [<= t]. *)
Definition update_ok (nodes : list ptr) (h : gmap ptr (SkipListNode K))
    (k t : nat) (update : list ptr) : Prop :=
  forall i, (i < k)%nat -> exists ai ui,
    update !! i = Some ui /\ nodes !! ai = Some ui /\ lastle nodes h i t ai.

(** The tests of the descents by rank: [traversed + span < bound] and
    [traversed + span <= bound]. *)
Definition rank_cond (strict : bool) (bound : Z) (_ : SkipListNode K)
    (span traversed : Z) : bool :=
  if strict then wrap64 (traversed + span) <? bound
  else wrap64 (traversed + span) <=? bound.

(** How many nodes the deleting loop removes from the front of [l]. *)
Fixpoint count_keep (keepf : ptr -> Z -> bool) (l : list ptr)
    (traversed : Z) : nat :=
  match l with
  | [] => O
  | p :: r =>
      if keepf p traversed then S (count_keep keepf r (traversed + 1)) else O
  end.

(** [mDict.erase] of the keys of the nodes [ps]. *)
Definition erase_keys (h : gmap ptr (SkipListNode K)) (ps : list ptr)
    (d : gmap K score) : gmap K score :=
  foldl (fun d p => delete (key_of h p) d) d ps.

(** The node at [p] (the header's fields for a dangling [p]). *)
Definition node_at (h : gmap ptr (SkipListNode K)) (p : ptr)
    : SkipListNode K :=
  default header_node (h !! p).

(** The normalised indexes of the commands that take ranks: [None] for an
    empty range, else the 0-based first and last index. *)
Definition norm_range (llen start end_ : Z) : option (Z * Z) :=
  let start := if start <? 0 then llen + start else start in
  let end_ := if end_ <? 0 then llen + end_ else end_ in
  let start := if start <? 0 then 0 else start in
  if (end_ <? start) || (llen <=? start) then None
  else Some (start, if llen <=? end_ then llen - 1 else end_).

(** What a walk over the ranks [start..end] of the list [l] yields. *)
Definition zrange_abs {X A : Type} (f : X -> A) (l : list X)
    (start end_ : Z) (reverse : bool) : list A :=
  match norm_range (Z.of_nat (length l)) start end_ with
  | None => []
  | Some (first, last) =>
      let len := Z.to_nat (last - first + 1) in
      if reverse
      then f <$> List.rev (take len (drop (length l - 1 - Z.to_nat last) l))
      else f <$> take len (drop (Z.to_nat first) l)
  end.

(** The test for ranges that are always empty. *)
Definition range_is_empty (range : RangeSpec) : bool :=
  flt (mMax range) (mMin range)
  || (feq (mMin range) (mMax range) && (mMinex range || mMaxex range)).

(** Whether a score lies in the range. *)
Definition in_range (range : RangeSpec) (sc : score) : bool :=
  score_gte_min sc range && score_lte_max sc range.

(** [is_in_range] on the scores in list order. *)
Definition in_range_abs (range : RangeSpec) (scs : list score) : bool :=
  if range_is_empty range then false
  else
    match last scs with
    | None => false
    | Some st =>
        if negb (score_gte_min st range) then false
        else match head scs with
             | None => false
             | Some sf => score_lte_max sf range
             end
    end.

(** The tie-break of [private_insert] on the list of stored pairs: the new
    pair goes before the first pair whose score is not below the new one. *)
Definition ins_sorted (key : K) (sc : score) (c : list (K * score))
    : list (K * score) :=
  take (prefix_len (fun ks => flt ks.2 sc) c) c
  ++ (key, sc) :: drop (prefix_len (fun ks => flt ks.2 sc) c) c.

(** What [zrangebyscore] yields on the list of stored pairs. *)
Definition byscore_abs (range : RangeSpec) (c : list (K * score))
    : list (K * score) :=
  if in_range_abs range (snd <$> c) then
    take (prefix_len (fun ks => score_lte_max ks.2 range)
            (drop (prefix_len (fun ks => negb (score_gte_min ks.2 range)) c) c))
         (drop (prefix_len (fun ks => negb (score_gte_min ks.2 range)) c) c)
  else [].

(** Scores that increase strictly along the list. *)
Fixpoint increasing (scs : list score) : Prop :=
  match scs with
  | [] => True
  | x :: r => Forall (fun y => flt x y = true) r /\ increasing r
  end.

(** [op_ok] as a test, and the runs that pass it at every step. *)
Definition op_okb (s : SortedSet K) (o : op K) : bool :=
  match o with
  | Zadd key sc _ => feq sc sc && (mLength s <? 2 ^ 32 - 1)
  | Zincrby key sc _ =>
      (let sc' := match mDict s !! key with
                  | Some cur => PrimFloat.add sc cur
                  | None => sc
                  end in feq sc' sc')
      && (mLength s <? 2 ^ 32 - 1)
  | Zrem _ => true
  | Zremrangebyscore _ _ _ _ => true
  | Zremrangebyrank start end_ =>
      (- 2 ^ 63 <=? start) && (start <? 2 ^ 63)
      && (- 2 ^ 63 <=? end_) && (end_ <? 2 ^ 63)
  end.

Fixpoint run_ok (ops : list (op K)) (s : SortedSet K)
    : option (SortedSet K) :=
  match ops with
  | [] => Some s
  | o :: rest =>
      if op_okb s o then s' ← step s o; run_ok rest s' else None
  end.

(** How many elements of [l] pass the test [P]. *)
Fixpoint count_if {A : Type} (P : A -> bool) (l : list A) : nat :=
  match l with
  | [] => O
  | x :: r => if P x then S (count_if P r) else count_if P r
  end.

(** The list of stored pairs after one [zadd] of a new key per element of
    [elems]. *)
Definition ins_all (c : list (K * score)) (elems : list (K * score * list Z))
    : list (K * score) :=
  foldl (fun c e => ins_sorted e.1.1 e.1.2 c) c elems.

(** The dictionary and the list hold the same pairs, each key once. *)
Definition synced (s : SortedSet K) : Prop :=
  NoDup (contents s).*1 /\
  forall k sc, mDict s !! k = Some sc <-> (k, sc) ∈ contents s.

(** The number of nodes a walk over the ranks [start..end] visits. *)
Definition rangelen (s : SortedSet K) (start end_ : Z) : nat :=
  match norm_range (zcard s) start end_ with
  | None => O
  | Some (first, last) => Z.to_nat (last - first + 1)
  end.

(** The state after a run from the empty set (the empty set if the run
    fails or a command is not [op_ok]). *)
Definition state_after (ops : list (op K)) : SortedSet K :=
  default empty_set (run_ok ops empty_set).

(** One [zadd] per element of [elems], in order. *)
Definition adds (elems : list (K * score * list Z)) : list (op K) :=
  (fun e => Zadd e.1.1 e.1.2 e.2) <$> elems.

End InvariantMore.

(** ** Concrete runs

    Recorded values of [random()]: [lvl1] makes [randomlevel] return 1 and
    [lvl2] makes it return 2. *)
Definition lvl1 : list Z := [65535].
Definition lvl2 : list Z := [0; 65535].

(** Two keys with one score, both nodes with one level. *)
Definition tie_ops : list (op string) :=
  [Zadd "x" 5%float lvl1; Zadd "y" 5%float lvl1].

(** The same commands, the second node with two levels. *)
Definition tie_ops_tall : list (op string) :=
  [Zadd "x" 5%float lvl1; Zadd "y" 5%float lvl2].

(** Three keys with three scores. *)
Definition abc_ops : list (op string) :=
  [Zadd "a" 1%float lvl1; Zadd "b" 2%float lvl2; Zadd "c" 3%float lvl1].

(** Ten keys with the scores 0 to 9, added in that order. *)
Definition ten : list (string * score * list Z) :=
  [("k0", 0%float, lvl1); ("k1", 1%float, lvl2); ("k2", 2%float, lvl1);
   ("k3", 3%float, lvl1); ("k4", 4%float, lvl2); ("k5", 5%float, lvl1);
   ("k6", 6%float, lvl1); ("k7", 7%float, lvl1); ("k8", 8%float, lvl2);
   ("k9", 9%float, lvl1)].

(** Three keys, added out of the order of their scores. *)
Definition bac : list (string * score * list Z) :=
  [("b", 2%float, lvl1); ("a", 1%float, lvl2); ("c", 3%float, lvl1)].

(** ** The commands on the list of stored pairs and the dictionary

    What each command does to [contents] and [mDict], written on a list of
    pairs and a finite map, without nodes, levels or spans. *)

(** Whether [f] holds on the [2^d] integers from [lo] on. *)
Fixpoint all_in_block (d : nat) (lo : Z) (f : Z -> bool) : bool :=
  match d with
  | O => f lo
  | S d' => all_in_block d' lo f && all_in_block d' (lo + 2 ^ Z.of_nat d') f
  end.

Section Abstract.
Context {K : Type} `{Countable K} `{Inhabited K}.

(** A test that holds on a prefix of the list: [prefix_len] splits the
    list into the elements that pass and the elements that fail. *)
Definition prefix_closed {A} (P : A -> bool) (c : list A) : Prop :=
  forall i j x y, (i <= j)%nat -> c !! i = Some x -> c !! j = Some y ->
                  P y = true -> P x = true.

(** A list of pairs in non-decreasing order of scores that are numbers. *)
Definition sorted_pairs (c : list (K * score)) : Prop :=
  (forall a b ka kb, (a <= b)%nat -> c !! a = Some ka -> c !! b = Some kb ->
                     fle ka.2 kb.2 = true) /\
  (forall i ks, c !! i = Some ks -> not_nan ks.2).

(** [private_delete]: the first pair whose score is not below [sc] is the
    only one compared with [sc] and [key]. *)
Definition del_first (key : K) (sc : score) (c : list (K * score))
    : list (K * score) :=
  let t := prefix_len (fun ks => flt ks.2 sc) c in
  match c !! t with
  | Some ks =>
      if feq sc ks.2 && bool_decide (ks.1 = key)
      then take t c ++ drop (S t) c else c
  | None => c
  end.

(** [mDict.erase] of the keys of the pairs [ks]. *)
Definition erase_all (ks : list (K * score)) (d : gmap K score)
    : gmap K score :=
  foldl (fun d ks => delete ks.1 d) d ks.

Definition abs_state : Type := list (K * score) * gmap K score.

Definition abs_of (s : SortedSet K) : abs_state := (contents s, mDict s).

Definition abs_zadd_generic (key : K) (sc : score) (incr : bool)
    (st : abs_state) : abs_state :=
  match (st.2 !! key : option score) with
  | Some curscore =>
      let sc := if incr then PrimFloat.add sc curscore else sc in
      if negb (feq sc curscore)
      then (ins_sorted key sc (del_first key curscore st.1),
            <[key := sc]> st.2)
      else st
  | None => (ins_sorted key sc st.1, <[key := sc]> st.2)
  end.

Definition abs_zrem (key : K) (st : abs_state) : abs_state :=
  match (st.2 !! key : option score) with
  | Some sc => (del_first key sc st.1, delete key st.2)
  | None => st
  end.

(** The pairs below the lower bound stay; of the rest, the longest prefix
    within the upper bound goes. *)
Definition abs_zremrangebyscore (range : RangeSpec) (st : abs_state)
    : abs_state :=
  let t := prefix_len (fun ks => if mMinex range then fle ks.2 (mMin range)
                                 else flt ks.2 (mMin range)) st.1 in
  let k := prefix_len (fun ks => if mMaxex range then flt ks.2 (mMax range)
                                 else fle ks.2 (mMax range)) (drop t st.1) in
  (take t st.1 ++ drop (t + k) st.1, erase_all (take k (drop t st.1)) st.2).

Definition abs_zremrangebyrank (start end_ : Z) (st : abs_state)
    : abs_state :=
  match norm_range (Z.of_nat (length st.1)) start end_ with
  | None => st
  | Some (first, last) =>
      (take (Z.to_nat first) st.1 ++ drop (Z.to_nat last + 1) st.1,
       erase_all (take (Z.to_nat (last - first + 1))
                       (drop (Z.to_nat first) st.1)) st.2)
  end.

Definition abs_step (st : abs_state) (o : op K) : abs_state :=
  match o with
  | Zadd key sc _ => abs_zadd_generic key sc false st
  | Zincrby key sc _ => abs_zadd_generic key sc true st
  | Zrem key => abs_zrem key st
  | Zremrangebyscore min max minex maxex =>
      abs_zremrangebyscore (mkRange min max minex maxex) st
  | Zremrangebyrank start end_ => abs_zremrangebyrank start end_ st
  end.

Definition abs_run (ops : list (op K)) (st : abs_state) : abs_state :=
  foldl abs_step st ops.

(** A command without the values that [random()] returned. *)
Definition erase_draws (o : op K) : op K :=
  match o with
  | Zadd key sc _ => Zadd key sc []
  | Zincrby key sc _ => Zincrby key sc []
  | o => o
  end.

(** Every entry of the dictionary is a pair of the list. *)
Definition dict_sub (st : abs_state) : Prop :=
  forall k sc, st.2 !! k = Some sc -> (k, sc) ∈ st.1.

(** *** Runs that never store two equal scores

    A command that stores a score is [tie_free_op] when no other key is
    stored with an equal score. *)
Definition tie_free_op (s : SortedSet K) (o : op K) : Prop :=
  match o with
  | Zadd key sc _ =>
      forall k y, (k, y) ∈ contents s -> k <> key -> feq y sc = false
  | Zincrby key sc _ =>
      forall k y, (k, y) ∈ contents s -> k <> key ->
        feq y (match mDict s !! key with
               | Some cur => PrimFloat.add sc cur
               | None => sc
               end) = false
  | _ => True
  end.

Inductive reachable_tf : SortedSet K -> Prop :=
  | reachable_tf_empty : reachable_tf empty_set
  | reachable_tf_step s o s' :
      reachable_tf s -> op_ok s o -> tie_free_op s o ->
      step s o = Some s' -> reachable_tf s'.

(** [tie_free_op] as a test, and the runs that pass it and [op_okb] at
    every step. *)
Definition tie_free_opb (s : SortedSet K) (o : op K) : bool :=
  match o with
  | Zadd key sc _ =>
      forallb (fun ks => bool_decide (ks.1 = key) || negb (feq ks.2 sc))
              (contents s)
  | Zincrby key sc _ =>
      forallb (fun ks => bool_decide (ks.1 = key)
                         || negb (feq ks.2 (match mDict s !! key with
                                            | Some cur => PrimFloat.add sc cur
                                            | None => sc
                                            end)))
              (contents s)
  | _ => true
  end.

Fixpoint run_tf (ops : list (op K)) (s : SortedSet K)
    : option (SortedSet K) :=
  match ops with
  | [] => Some s
  | o :: rest =>
      if op_okb s o && tie_free_opb s o
      then s' ← step s o; run_tf rest s' else None
  end.

Definition state_tf (ops : list (op K)) : SortedSet K :=
  default empty_set (run_tf ops empty_set).

(** The stored pairs and the dictionary agree, each key is stored once and
    the scores increase strictly. *)
Definition abs_good (st : abs_state) : Prop :=
  NoDup st.1.*1 /\
  (forall k sc, st.2 !! k = Some sc <-> (k, sc) ∈ st.1) /\
  increasing st.1.*2 /\
  (forall ks, ks ∈ st.1 -> not_nan ks.2).

(** *** The destructor

    [~SortedSet]: frees the header and then the nodes along level 0; the
    result is the heap that is left. Reading a freed node has no result. *)
Fixpoint free_chain (fuel : nat) (h : gmap ptr (SkipListNode K))
    (node : option ptr) : option (gmap ptr (SkipListNode K)) :=
  match node with
  | None => Some h
  | Some p =>
      match fuel with
      | O => None
      | S fuel' =>
          np ← h !! p;
          lv ← mLevel np !! 0%nat;
          free_chain fuel' (delete p h) (mForward lv)
      end
  end.

Definition destroy (s : SortedSet K) : option (gmap ptr (SkipListNode K)) :=
  hlv ← level_at (heap s) (mHeader s) 0;
  hd ← heap s !! mHeader s;
  free_chain (fuel_of (heap s)) (delete (mHeader s) (heap s)) (mForward hlv).

End Abstract.

Arguments abs_state K {_ _}.
(** ** Machine integers: small values do not wrap *)

Lemma wrap32_small z : 0 <= z < 2 ^ 32 -> wrap32 z = z.
Proof. intros ?. unfold wrap32. by rewrite Z.mod_small. Qed.

Lemma wrap64_small z : 0 <= z < 2 ^ 64 -> wrap64 z = z.
Proof. intros ?. unfold wrap64. by rewrite Z.mod_small. Qed.

Lemma to_long_small z : is_long z -> to_long z = z.
Proof.
  unfold is_long, to_long, wrap64. intros Hz.
  destruct (Z.leb_spec 0 z) as [Hnn|Hneg].
  - rewrite Z.mod_small by lia.
    destruct (Z.ltb_spec z (2 ^ 63)); lia.
  - replace (z mod 2 ^ 64) with (z + 2 ^ 64).
    + destruct (Z.ltb_spec (z + 2 ^ 64) (2 ^ 63)); lia.
    + apply Z.mod_unique with (q := -1); lia.
Qed.

(** ** The order of the scores that are not NaN *)

Lemma SFcompare_refl_some x c :
  SFcompare x x = Some c -> c = Eq.
Proof.
  destruct x as [[]|[]| |[] m e]; simpl; try congruence.
  - rewrite Z.compare_refl. change (Pos.compare_cont Eq m m) with (Pos.compare m m).
    rewrite Pos.compare_refl. simpl. congruence.
  - rewrite Z.compare_refl. change (Pos.compare_cont Eq m m) with (Pos.compare m m).
    rewrite Pos.compare_refl. congruence.
Qed.

Lemma not_nan_spec x : not_nan x <-> Prim2SF x <> S754_nan.
Proof.
  unfold not_nan, feq. rewrite FloatAxioms.eqb_spec. unfold SFeqb.
  split.
  - intros H E. rewrite E in H. discriminate.
  - intros H. destruct (SFcompare (Prim2SF x) (Prim2SF x)) as [c|] eqn:E.
    + apply SFcompare_refl_some in E. by subst.
    + destruct (Prim2SF x) as [[]|[]| |[] m e]; simpl in E; congruence.
Qed.

Lemma SFcompare_total x y :
  x <> S754_nan -> y <> S754_nan ->
  exists c, SFcompare x y = Some c /\ SFcompare y x = Some (CompOpp c).
Proof.
  intros Hx Hy.
  destruct x as [[]|[]| |[] m e], y as [[]|[]| |[] m' e'];
    try congruence; simpl; try (eexists; split; reflexivity).
  all: rewrite (Z.compare_antisym e e');
       change (Pos.compare_cont Eq m' m) with (Pos.compare m' m);
       change (Pos.compare_cont Eq m m') with (Pos.compare m m');
       rewrite (Pos.compare_antisym m m');
       destruct (e ?= e'); simpl; try (eexists; split; reflexivity).
  all: destruct (m ?= m')%positive; simpl; eexists; split; reflexivity.
Qed.

Lemma SFcompare_key x y :
  x <> S754_nan -> y <> S754_nan ->
  SFcompare x y = Some (key_cmp (sf_key x) (sf_key y)).
Proof.
  intros Hx Hy.
  destruct x as [[]|[]| |[] m e], y as [[]|[]| |[] m' e'];
    try congruence; try reflexivity.
  - cbn [SFcompare sf_key key_cmp]. rewrite Z.compare_refl.
    rewrite Z.compare_opp. rewrite (Z.compare_antisym e e').
    destruct (e ?= e'); simpl; reflexivity.
Qed.

Lemma key_cmp_le_trans a b c :
  key_cmp a b <> Gt -> key_cmp b c <> Gt -> key_cmp a c <> Gt.
Proof.
  destruct a as [[a1 a2] a3], b as [[b1 b2] b3], c as [[c1 c2] c3].
  unfold key_cmp.
  destruct (Z.compare_spec a1 b1), (Z.compare_spec b1 c1),
    (Z.compare_spec a1 c1); try lia; try congruence;
  destruct (Z.compare_spec a2 b2), (Z.compare_spec b2 c2),
    (Z.compare_spec a2 c2); try lia; try congruence;
  destruct (Z.compare_spec a3 b3), (Z.compare_spec b3 c3),
    (Z.compare_spec a3 c3); try lia; congruence.
Qed.

Lemma flt_fle_neg x y : not_nan x -> not_nan y -> flt x y = negb (fle y x).
Proof.
  rewrite !not_nan_spec. intros Hx Hy.
  unfold flt, fle. rewrite FloatAxioms.ltb_spec, FloatAxioms.leb_spec.
  unfold SFltb, SFleb.
  destruct (SFcompare_total _ _ Hx Hy) as (c & -> & ->).
  by destruct c.
Qed.

Lemma fle_flt_neg x y : not_nan x -> not_nan y -> fle x y = negb (flt y x).
Proof.
  intros Hx Hy. rewrite (flt_fle_neg y x) by done. by rewrite negb_involutive.
Qed.

Lemma feq_fle x y : not_nan x -> not_nan y -> feq x y = fle x y && fle y x.
Proof.
  rewrite !not_nan_spec. intros Hx Hy.
  unfold feq, fle. rewrite FloatAxioms.eqb_spec, !FloatAxioms.leb_spec.
  unfold SFeqb, SFleb.
  destruct (SFcompare_total _ _ Hx Hy) as (c & -> & ->).
  by destruct c.
Qed.

Lemma fle_refl x : not_nan x -> fle x x = true.
Proof.
  intros Hx. pose proof Hx as Hx'. unfold not_nan in Hx'.
  rewrite feq_fle in Hx' by done. by apply andb_true_iff in Hx' as [? _].
Qed.

Lemma fle_trans x y z :
  not_nan x -> not_nan y -> not_nan z ->
  fle x y = true -> fle y z = true -> fle x z = true.
Proof.
  rewrite !not_nan_spec. intros Hx Hy Hz.
  unfold fle. rewrite !FloatAxioms.leb_spec. unfold SFleb.
  rewrite !SFcompare_key by done.
  pose proof (key_cmp_le_trans (sf_key (Prim2SF x)) (sf_key (Prim2SF y))
                (sf_key (Prim2SF z))) as Ht.
  destruct (key_cmp (sf_key (Prim2SF x)) (sf_key (Prim2SF y))),
    (key_cmp (sf_key (Prim2SF y)) (sf_key (Prim2SF z))),
    (key_cmp (sf_key (Prim2SF x)) (sf_key (Prim2SF z)));
    try done; exfalso; apply Ht; congruence.
Qed.

Lemma flt_fle x y : flt x y = true -> fle x y = true.
Proof.
  unfold flt, fle. rewrite FloatAxioms.ltb_spec, FloatAxioms.leb_spec.
  unfold SFltb, SFleb. by destruct (SFcompare _ _) as [[]|].
Qed.

Lemma flt_fle_trans x y z :
  not_nan x -> not_nan y -> not_nan z ->
  flt x y = true -> fle y z = true -> flt x z = true.
Proof.
  intros Hx Hy Hz Hxy Hyz.
  rewrite flt_fle_neg in Hxy |- * by done.
  apply negb_true_iff in Hxy. apply negb_true_iff.
  destruct (fle z x) eqn:E; [|done].
  rewrite <- Hxy. symmetry. by apply (fle_trans y z x).
Qed.

Lemma fle_flt_trans x y z :
  not_nan x -> not_nan y -> not_nan z ->
  fle x y = true -> flt y z = true -> flt x z = true.
Proof.
  intros Hx Hy Hz Hxy Hyz.
  rewrite flt_fle_neg in Hyz |- * by done.
  apply negb_true_iff in Hyz. apply negb_true_iff.
  destruct (fle z x) eqn:E; [|done].
  rewrite <- Hyz. symmetry. by apply (fle_trans z x y).
Qed.


Lemma flt_not_nan_l x y : flt x y = true -> not_nan x.
Proof.
  unfold flt. rewrite FloatAxioms.ltb_spec. unfold SFltb. intros Hxy.
  apply not_nan_spec. intros E. rewrite E in Hxy. discriminate.
Qed.

Lemma fle_not_nan_l x y : fle x y = true -> not_nan x.
Proof.
  unfold fle. rewrite FloatAxioms.leb_spec. unfold SFleb. intros Hxy.
  apply not_nan_spec. intros E. rewrite E in Hxy. discriminate.
Qed.

Lemma fle_not_nan_r x y : fle x y = true -> not_nan y.
Proof.
  unfold fle. rewrite FloatAxioms.leb_spec. unfold SFleb. intros Hxy.
  apply not_nan_spec. intros E. rewrite E in Hxy.
  by destruct (Prim2SF x).
Qed.

Lemma flt_not_nan_r x y : flt x y = true -> not_nan y.
Proof. intros Hxy. apply flt_fle in Hxy. by eapply fle_not_nan_r. Qed.

Lemma not_nan_dec x : {not_nan x} + {~ not_nan x}.
Proof. unfold not_nan. destruct (feq x x); [by left|by right]. Qed.

Lemma flt_nan_r x c : ~ not_nan c -> flt x c = false.
Proof.
  intros Hc. destruct (flt x c) eqn:E; [|done].
  by apply flt_not_nan_r in E.
Qed.

Lemma fle_nan_r x c : ~ not_nan c -> fle x c = false.
Proof.
  intros Hc. destruct (fle x c) eqn:E; [|done].
  by apply fle_not_nan_r in E.
Qed.

Lemma flt_nan_l x c : ~ not_nan c -> flt c x = false.
Proof.
  intros Hc. destruct (flt c x) eqn:E; [|done].
  by apply flt_not_nan_l in E.
Qed.

Lemma fle_nan_l x c : ~ not_nan c -> fle c x = false.
Proof.
  intros Hc. destruct (fle c x) eqn:E; [|done].
  by apply fle_not_nan_l in E.
Qed.

Lemma down_closed_flt c : down_closed (fun x => flt x c).
Proof.
  intros x y Hx Hy Hxy Hyc.
  apply (fle_flt_trans x y c); try done. by eapply flt_not_nan_r.
Qed.

Lemma down_closed_fle c : down_closed (fun x => fle x c).
Proof.
  intros x y Hx Hy Hxy Hyc.
  apply (fle_trans x y c); try done. by eapply fle_not_nan_r.
Qed.

Lemma down_closed_not_flt c : down_closed (fun x => negb (flt c x)).
Proof.
  intros x y Hx Hy Hxy Hyc. destruct (not_nan_dec c) as [Hc|Hc].
  - rewrite <- fle_flt_neg in Hyc |- * by done.
    by apply (fle_trans x y c).
  - by rewrite flt_nan_l.
Qed.

Lemma down_closed_not_fle c : down_closed (fun x => negb (fle c x)).
Proof.
  intros x y Hx Hy Hxy Hyc. destruct (not_nan_dec c) as [Hc|Hc].
  - rewrite <- flt_fle_neg in Hyc |- * by done.
    by apply (fle_flt_trans x y c).
  - by rewrite fle_nan_l.
Qed.

(** ** Prefixes *)

Lemma prefix_len_le {A} (P : A -> bool) l : (prefix_len P l <= length l)%nat.
Proof. induction l as [|x l IH]; simpl; [lia|]. destruct (P x); simpl; lia. Qed.

Lemma prefix_len_spec {A} (P : A -> bool) (l : list A) :
  (forall i j x y, (i <= j)%nat -> l !! i = Some x -> l !! j = Some y ->
                   P y = true -> P x = true) ->
  forall j x, l !! j = Some x ->
              P x = bool_decide (j < prefix_len P l)%nat.
Proof.
  induction l as [|z l IH]; intros Hmono j x Hj; [done|].
  simpl. destruct j as [|j]; simpl in Hj.
  - injection Hj as ->. destruct (P x) eqn:E.
    + by rewrite bool_decide_eq_true_2 by lia.
    + by rewrite bool_decide_eq_false_2 by lia.
  - destruct (P z) eqn:E.
    + rewrite (IH (fun i j' x' y' Hij Hi Hj' => Hmono (S i) (S j') x' y'
                     ltac:(lia) Hi Hj') j x Hj).
      apply bool_decide_ext. lia.
    + rewrite bool_decide_eq_false_2 by lia.
      destruct (P x) eqn:Ex; [|done].
      rewrite <- E. symmetry. apply (Hmono 0%nat (S j) z x); try done. lia.
Qed.

Lemma prefix_len_take_drop {A} (P : A -> bool) (l : list A) :
  Forall (fun x => P x = true) (take (prefix_len P l) l) /\
  (match drop (prefix_len P l) l with
   | [] => True
   | y :: _ => P y = false
   end).
Proof.
  induction l as [|x l [IH1 IH2]]; simpl; [by split|].
  destruct (P x) eqn:E; simpl; [|by split].
  split; [by constructor|done].
Qed.

Lemma prefix_len_eq {A} (P : A -> bool) (l : list A) (m : nat) :
  (m <= length l)%nat ->
  (forall c x, (c < m)%nat -> l !! c = Some x -> P x = true) ->
  (forall y, l !! m = Some y -> P y = false) ->
  prefix_len P l = m.
Proof.
  revert m. induction l as [|z l IH]; intros m Hm Hlt Hat; simpl in *.
  - lia.
  - destruct m as [|m].
    + by rewrite (Hat z eq_refl).
    + rewrite (Hlt 0%nat z) by (done || lia). f_equal. apply IH.
      * lia.
      * intros c x Hc Hx. apply (Hlt (S c) x); [lia|done].
      * intros y Hy. by apply Hat.
Qed.

Lemma prefix_len_fmap {A B} (f : A -> B) (P : B -> bool) (l : list A) :
  prefix_len P (f <$> l) = prefix_len (fun x => P (f x)) l.
Proof.
  induction l as [|x l IH]; [done|].
  cbn [fmap list_fmap prefix_len]. destruct (P (f x)); [|done].
  f_equal. apply IH.
Qed.

(** ** Reads and writes of the heap *)

Section HeapLemmas.
Context {K : Type} `{Countable K} `{Inhabited K}.

Implicit Types (h : gmap ptr (SkipListNode K)) (s : SortedSet K).

Lemma level_at_Some h x i lv :
  level_at h x i = Some lv <->
  exists n, h !! x = Some n /\ mLevel n !! i = Some lv.
Proof.
  unfold level_at. destruct (h !! x) as [n|]; simpl.
  - split; [eauto|]. by intros (? & [= <-] & ?).
  - split; [done|]. by intros (? & ? & ?).
Qed.

Lemma level_at_hgt h x i lv : level_at h x i = Some lv -> (i < hgt h x)%nat.
Proof.
  intros (n & Hn & Hlv)%level_at_Some. unfold hgt. rewrite Hn.
  by apply lookup_lt_Some in Hlv.
Qed.

Lemma hgt_level_at h x i : (i < hgt h x)%nat -> is_Some (level_at h x i).
Proof.
  unfold hgt, level_at. destruct (h !! x) as [n|]; simpl; [|lia].
  apply lookup_lt_is_Some_2.
Qed.

Lemma attrs_hgt h h' p : attrs h' p = attrs h p -> hgt h' p = hgt h p.
Proof.
  unfold attrs, hgt.
  destruct (h' !! p), (h !! p); simpl; congruence.
Qed.

Lemma attrs_score_of h h' p :
  attrs h' p = attrs h p -> score_of h' p = score_of h p.
Proof.
  unfold attrs, score_of.
  destruct (h' !! p), (h !! p); simpl; congruence.
Qed.

Lemma attrs_key_of h h' p : attrs h' p = attrs h p -> key_of h' p = key_of h p.
Proof.
  unfold attrs, key_of.
  destruct (h' !! p), (h !! p); simpl; congruence.
Qed.

Lemma attrs_Some h p b sc k n :
  attrs h p = Some (b, sc, k, n) ->
  hgt h p = n /\ score_of h p = sc /\ key_of h p = k /\
  exists nd, h !! p = Some nd /\ mIsHeader nd = b /\ mScore nd = sc /\
             mKey nd = k /\ length (mLevel nd) = n.
Proof.
  unfold attrs, hgt, score_of, key_of.
  destruct (h !! p) as [nd|]; simpl; [|done].
  intros [= <- <- <- <-]. repeat split; try done. by exists nd.
Qed.

Lemma attrs_is_Some h p : is_Some (attrs h p) <-> is_Some (h !! p).
Proof.
  unfold attrs. destruct (h !! p); simpl; split; eauto;
    intros [? ?]; done.
Qed.

Lemma same_shape_refl h : same_shape h h.
Proof. by intros p. Qed.

Lemma same_shape_trans h1 h2 h3 :
  same_shape h1 h2 -> same_shape h2 h3 -> same_shape h1 h3.
Proof.
  intros H12 H23 p. destruct (H12 p) as [E1 E2], (H23 p) as [E3 E4].
  split; congruence.
Qed.

Lemma same_shape_dom h h' p :
  same_shape h h' -> is_Some (h' !! p) <-> is_Some (h !! p).
Proof. intros Hs. rewrite <- !attrs_is_Some. by destruct (Hs p) as [-> _]. Qed.

Lemma same_shape_hgt h h' p : same_shape h h' -> hgt h' p = hgt h p.
Proof. intros Hs. apply attrs_hgt, Hs. Qed.

Lemma upd_level_spec h x i f lv :
  level_at h x i = Some lv ->
  exists h', upd_level x i f h = Some h' /\ same_shape h h' /\
    forall p j, level_at h' p j =
                if decide (p = x /\ j = i) then Some (f lv) else level_at h p j.
Proof.
  intros (n & Hn & Hlv)%level_at_Some.
  unfold upd_level. rewrite Hn. simpl. rewrite Hlv. simpl.
  eexists. split; [done|]. split.
  - intros p. unfold attrs, bwd. destruct (decide (p = x)) as [->|Hne].
    + rewrite lookup_insert_eq, Hn. simpl. by rewrite length_insert.
    + by rewrite lookup_insert_ne.
  - intros p j. unfold level_at. destruct (decide (p = x)) as [->|Hne].
    + rewrite lookup_insert_eq, Hn. simpl.
      destruct (decide (j = i)) as [->|Hji].
      * rewrite decide_True by done.
        apply list_lookup_insert_eq. by apply lookup_lt_Some in Hlv.
      * rewrite decide_False by (intros [_ ?]; done).
        by apply list_lookup_insert_ne.
    + rewrite lookup_insert_ne by done.
      by rewrite decide_False by (intros [? _]; done).
Qed.

Lemma upd_backward_spec h x b :
  is_Some (h !! x) ->
  exists h', upd_backward x b h = Some h' /\
    (forall p j, level_at h' p j = level_at h p j) /\
    (forall p, attrs h' p = attrs h p) /\
    (forall p, bwd h' p = if decide (p = x) then Some b else bwd h p).
Proof.
  intros [n Hn]. unfold upd_backward. rewrite Hn. simpl.
  eexists. split; [done|]. repeat split.
  - intros p j. unfold level_at. destruct (decide (p = x)) as [->|Hne].
    + by rewrite lookup_insert_eq, Hn.
    + by rewrite lookup_insert_ne.
  - intros p. unfold attrs. destruct (decide (p = x)) as [->|Hne].
    + by rewrite lookup_insert_eq, Hn.
    + by rewrite lookup_insert_ne.
  - intros p. unfold bwd. destruct (decide (p = x)) as [->|Hne].
    + by rewrite lookup_insert_eq.
    + by rewrite lookup_insert_ne.
Qed.

(** A loop over the levels whose pass [i] writes entries [i] only: every
    pass sees the entries of its level as they were before the loop. *)
Lemma for_loop_cells_from
    (body : nat -> gmap ptr (SkipListNode K) -> option (gmap ptr (SkipListNode K)))
    h0 (E : nat -> ptr -> option SkipListLevel) (lo0 : nat) :
  forall (n lo : nat) h,
  (lo0 <= lo)%nat ->
  (forall i hc, (lo0 <= i < lo + n)%nat -> same_shape h0 hc ->
     (forall p, level_at hc p i = level_at h0 p i) ->
     exists h', body i hc = Some h' /\ same_shape hc h' /\
       (forall p, level_at h' p i = E i p) /\
       (forall p j, j <> i -> level_at h' p j = level_at hc p j)) ->
  same_shape h0 h ->
  (forall p j, level_at h p j =
               if decide (lo0 <= j < lo)%nat then E j p else level_at h0 p j) ->
  exists h', for_loop body lo n h = Some h' /\ same_shape h0 h' /\
    forall p j, level_at h' p j =
      if decide (lo0 <= j < lo + n)%nat then E j p else level_at h0 p j.
Proof.
  induction n as [|n IH]; intros lo h Hlo Hbody Hsh Hcells.
  - exists h. split; [done|]. split; [done|].
    intros p j. rewrite Hcells. by replace (lo + 0)%nat with lo by lia.
  - simpl.
    destruct (Hbody lo h) as (h1 & Hb & Hsh1 & Hat & Hother); [lia|done| |].
    { intros p. rewrite Hcells. by rewrite decide_False by lia. }
    rewrite Hb. simpl.
    destruct (IH (S lo) h1) as (h' & Hf & Hsh' & Hc'); [lia| | | |].
    + intros i hc Hi. apply Hbody. lia.
    + by eapply same_shape_trans.
    + intros p j. destruct (decide (j = lo)) as [->|Hj].
      * rewrite Hat. by rewrite decide_True by lia.
      * rewrite Hother by done. rewrite Hcells.
        destruct (decide (lo0 <= j < lo)%nat), (decide (lo0 <= j < S lo)%nat);
          try done; lia.
    + exists h'. split; [done|]. split; [done|].
      intros p j. rewrite Hc'.
      destruct (decide (lo0 <= j < S lo + n)%nat),
        (decide (lo0 <= j < lo + S n)%nat); try done; lia.
Qed.

Lemma for_loop_cells
    (body : nat -> gmap ptr (SkipListNode K) -> option (gmap ptr (SkipListNode K)))
    h0 (E : nat -> ptr -> option SkipListLevel) (lo n : nat) :
  (forall i hc, (lo <= i < lo + n)%nat -> same_shape h0 hc ->
     (forall p, level_at hc p i = level_at h0 p i) ->
     exists h', body i hc = Some h' /\ same_shape hc h' /\
       (forall p, level_at h' p i = E i p) /\
       (forall p j, j <> i -> level_at h' p j = level_at hc p j)) ->
  exists h', for_loop body lo n h0 = Some h' /\ same_shape h0 h' /\
    forall p j, level_at h' p j =
      if decide (lo <= j < lo + n)%nat then E j p else level_at h0 p j.
Proof.
  intros Hbody.
  apply (for_loop_cells_from body h0 E lo n lo h0); [lia|done| |].
  - apply same_shape_refl.
  - intros p j. by rewrite decide_False by lia.
Qed.

End HeapLemmas.

(** ** The descent through the levels *)

Section Walk.
Context {K : Type} `{Countable K} `{Inhabited K}.

Variables (s : SortedSet K) (l : list ptr).
Hypothesis Hinv : inv s l.

Lemma inv_heap_size : size (heap s) = S (length l).
Proof.
  pose proof (inv_nodup _ _ Hinv) as Hnd.
  pose proof (inv_dom _ _ Hinv) as Hdom.
  rewrite <- size_dom.
  assert (dom (heap s) = list_to_set (mHeader s :: l)) as ->.
  { apply set_eq. intros p. rewrite elem_of_dom, Hdom.
    by rewrite elem_of_list_to_set. }
  by rewrite size_list_to_set.
Qed.

Lemma inv_fuel_of : fuel_of (heap s) = S (S (length l)).
Proof. unfold fuel_of. by rewrite inv_heap_size. Qed.

Lemma inv_lookup_node a p :
  (mHeader s :: l) !! a = Some p -> is_Some (heap s !! p).
Proof.
  intros Ha. apply (inv_dom _ _ Hinv). by eapply list_elem_of_lookup_2.
Qed.

Lemma inv_pos_inj a b p :
  (mHeader s :: l) !! a = Some p -> (mHeader s :: l) !! b = Some p -> a = b.
Proof. intros Ha Hb. eapply NoDup_lookup; eauto. apply Hinv. Qed.

Lemma inv_pos_bound a p :
  (mHeader s :: l) !! a = Some p -> (a <= length l)%nat.
Proof. intros Ha%lookup_lt_Some. simpl in Ha. lia. Qed.

Lemma inv_hgt_le a p :
  (mHeader s :: l) !! (S a) = Some p ->
  (1 <= hgt (heap s) p <= mLevels s)%nat.
Proof.
  simpl. intros Ha. apply list_elem_of_lookup_2 in Ha.
  destruct (inv_node _ _ Hinv p Ha) as (sc & k & n & Hn & Hl & _).
  apply attrs_Some in Hn as (-> & _). done.
Qed.

Lemma inv_hgt_header : hgt (heap s) (mHeader s) = SKIPLIST_MAXLEVEL.
Proof.
  destruct (inv_header _ _ Hinv) as (sc & k & Hhd).
  by apply attrs_Some in Hhd as (-> & _).
Qed.

Lemma inv_level0 a p :
  (mHeader s :: l) !! a = Some p -> is_Some (level_at (heap s) p 0).
Proof.
  intros Ha. apply hgt_level_at. destruct a as [|a].
  - injection Ha as <-. rewrite inv_hgt_header. unfold SKIPLIST_MAXLEVEL. lia.
  - pose proof (inv_hgt_le a p Ha). lia.
Qed.

(** At level 0 every node is linked to the next one. *)
Lemma inv_forward0 a p lv :
  (mHeader s :: l) !! a = Some p -> level_at (heap s) p 0 = Some lv ->
  mForward lv = l !! a.
Proof.
  intros Ha Hlv.
  pose proof (inv_links _ _ Hinv a p 0%nat lv Ha Hlv) as Hlk.
  unfold link_ok in Hlk. destruct (mForward lv) as [q|].
  - destruct Hlk as (b & Hab & Hb & Hhq & Hmid & _).
    destruct (decide (b = S a)) as [->|Hne]; [done|].
    assert (is_Some ((mHeader s :: l) !! (S a))) as [pc Hpc].
    { apply lookup_lt_is_Some. apply lookup_lt_Some in Hb. lia. }
    specialize (Hmid (S a) pc ltac:(lia) Hpc).
    pose proof (inv_hgt_le a pc Hpc). lia.
  - destruct (l !! a) as [pc|] eqn:Hpc; [|done].
    specialize (Hlk (S a) pc ltac:(lia) Hpc).
    pose proof (inv_hgt_le a pc Hpc). lia.
Qed.

Lemma header_level_None j lv :
  (mLevels s <= j)%nat -> level_at (heap s) (mHeader s) j = Some lv ->
  mForward lv = None.
Proof.
  intros Hj Hlv.
  pose proof (inv_links _ _ Hinv 0%nat (mHeader s) j lv eq_refl Hlv) as Hlk.
  unfold link_ok in Hlk. destruct (mForward lv) as [q|]; [|done].
  destruct Hlk as (b & Hb & Hq & Hhq & _).
  destruct b as [|b]; [lia|].
  pose proof (inv_hgt_le b q Hq). lia.
Qed.

Lemma chain_spec fuel a :
  (length l - a <= fuel)%nat ->
  chain fuel (heap s) (l !! a) = drop a l.
Proof.
  revert a. induction fuel as [|fuel IH]; intros a Hf.
  - simpl. by rewrite drop_ge by lia.
  - simpl. destruct (l !! a) as [p|] eqn:Hp.
    + destruct (inv_level0 (S a) p Hp) as [lv Hlv].
      rewrite Hlv. simpl.
      rewrite (inv_forward0 (S a) p lv Hp Hlv).
      rewrite IH by lia. by rewrite (drop_S _ _ _ Hp).
    + apply lookup_ge_None_1 in Hp. by rewrite drop_ge by lia.
Qed.

Lemma inv_node_list : node_list s = l.
Proof.
  unfold node_list.
  destruct (inv_level0 0%nat (mHeader s) eq_refl) as [lv Hlv].
  rewrite Hlv. simpl. rewrite (inv_forward0 0%nat _ lv eq_refl Hlv).
  rewrite chain_spec; [done|]. rewrite inv_heap_size. lia.
Qed.

Section Advance.
Variables (cond : SkipListNode K -> Z -> Z -> bool) (step : Z -> Z -> Z).
Variables (accI : nat -> Z -> Prop) (t : nat).

Hypothesis cond_sem : forall a b pb nb acc,
  (a < b)%nat -> (mHeader s :: l) !! b = Some pb -> heap s !! pb = Some nb ->
  accI a acc ->
  cond nb (Z.of_nat b - Z.of_nat a) acc = bool_decide (b <= t)%nat.

Hypothesis step_sem : forall a b acc,
  (a < b <= length l)%nat -> accI a acc ->
  accI b (step acc (Z.of_nat b - Z.of_nat a)).

Lemma advance_spec i : forall fuel a x acc,
  (length l - a < fuel)%nat ->
  (mHeader s :: l) !! a = Some x -> (i < hgt (heap s) x)%nat ->
  (a <= t)%nat -> accI a acc ->
  exists a' x' acc',
    advance fuel (heap s) cond step i x acc = Some (x', acc') /\
    (mHeader s :: l) !! a' = Some x' /\ (a <= a')%nat /\
    lastle (mHeader s :: l) (heap s) i t a' /\ accI a' acc'.
Proof.
  induction fuel as [|fuel IH]; intros a x acc Hfuel Ha Hh Hat Hacc; [lia|].
  destruct (hgt_level_at _ _ _ Hh) as [lv Hlv].
  pose proof (inv_links _ _ Hinv a x i lv Ha Hlv) as Hlink.
  simpl. rewrite Hlv. simpl. unfold link_ok in Hlink.
  destruct (mForward lv) as [q|] eqn:Hfw.
  - destruct Hlink as (b & Hab & Hb & Hhq & Hmid & Hspan).
    destruct (inv_lookup_node _ _ Hb) as [nq Hnq]. rewrite Hnq. simpl.
    rewrite Hspan, (cond_sem a b q nq acc) by done.
    pose proof (inv_pos_bound _ _ Hb) as Hbn.
    case_bool_decide as Hbt.
    + destruct (IH b q (step acc (Z.of_nat b - Z.of_nat a)))
        as (a' & x' & acc' & Hadv & Ha' & Hba' & Hlast & Hacc');
        [lia|done|done|done|by apply step_sem; [lia|]|].
      exists a', x', acc'. split; [done|]. split; [done|].
      split; [lia|]. done.
    + exists a, x, acc. split; [done|]. split; [done|]. split; [lia|].
      split; [|done]. split; [done|]. split; [eauto|].
      intros c pc Hc Hpc. apply (Hmid c pc); [lia|done].
  - exists a, x, acc. split; [done|]. split; [done|]. split; [lia|].
    split; [|done]. split; [done|]. split; [eauto|].
    intros c pc Hc Hpc. apply (Hlink c pc); [lia|done].
Qed.

Lemma descend_spec : forall k fuel a x acc,
  (length l < fuel)%nat ->
  (mHeader s :: l) !! a = Some x -> (k <= hgt (heap s) x)%nat ->
  (a <= t)%nat -> accI a acc ->
  (forall c pc, (a < c <= t)%nat -> (mHeader s :: l) !! c = Some pc ->
                (hgt (heap s) pc <= k)%nat) ->
  exists x' acc' update rank,
    descend fuel (heap s) cond step k x acc = Some (x', acc', update, rank) /\
    length update = k /\ length rank = k /\
    (forall i, (i < k)%nat -> exists ai ui ri,
       update !! i = Some ui /\ rank !! i = Some ri /\
       (mHeader s :: l) !! ai = Some ui /\
       lastle (mHeader s :: l) (heap s) i t ai /\ accI ai ri) /\
    (k = 0%nat -> x' = x /\ acc' = acc) /\
    ((0 < k)%nat -> update !! 0%nat = Some x' /\ rank !! 0%nat = Some acc').
Proof.
  induction k as [|k IH]; intros fuel a x acc Hfuel Ha Hh Hat Hacc Htop.
  - exists x, acc, [], []. repeat split; try done; lia.
  - simpl.
    destruct (advance_spec k fuel a x acc)
      as (a1 & x1 & acc1 & Hadv & Ha1 & Haa1 & Hlast & Hacc1);
      [lia|done|lia|done|done|].
    rewrite Hadv. simpl.
    destruct Hlast as (Ha1t & (p1 & Hp1 & Hhp1) & Hafter).
    assert (p1 = x1) as -> by congruence.
    destruct (IH fuel a1 x1 acc1)
      as (x' & acc' & update & rank & Hd & Hlu & Hlr & Hall & Hz & Hnz);
      [done|done|lia|done|done|done|].
    rewrite Hd. simpl.
    exists x', acc', (update ++ [x1]), (rank ++ [acc1]).
    split; [done|]. rewrite !length_app, Hlu, Hlr. simpl.
    split; [lia|]. split; [lia|]. split; [|split].
    + intros i Hi. destruct (decide (i = k)) as [->|Hik].
      * exists a1, x1, acc1.
        rewrite !lookup_app_r by lia. rewrite Hlu, Hlr, Nat.sub_diag. simpl.
        repeat split; try done. eauto.
      * destruct (Hall i) as (ai & ui & ri & Hu & Hr & Hn & Hl & Hai); [lia|].
        exists ai, ui, ri.
        rewrite !lookup_app_l by lia. done.
    + lia.
    + intros _. destruct k as [|k].
      * destruct Hz as [-> ->]; [done|]. by destruct update, rank.
      * destruct Hnz as [Hu Hr]; [lia|].
        rewrite !lookup_app_l by lia. done.
Qed.

End Advance.
End Walk.

(** ** The descents of the searches, by score and by rank *)

Section Descents.
Context {K : Type} `{Countable K} `{Inhabited K}.

Variables (s : SortedSet K) (l : list ptr).
Hypothesis Hinv : inv s l.

Lemma lastle_unique i t a a' :
  lastle (mHeader s :: l) (heap s) i t a ->
  lastle (mHeader s :: l) (heap s) i t a' -> a = a'.
Proof.
  intros (Ha & (p & Hp & Hhp) & Hafter) (Ha' & (p' & Hp' & Hhp') & Hafter').
  destruct (Nat.lt_trichotomy a a') as [Hlt|[->|Hlt]]; [|done|].
  - specialize (Hafter a' p' ltac:(lia) Hp'). lia.
  - specialize (Hafter' a p ltac:(lia) Hp). lia.
Qed.

Lemma lastle_zero t a :
  (t <= length l)%nat ->
  lastle (mHeader s :: l) (heap s) 0 t a -> a = t.
Proof.
  intros Ht (Ha & _ & Hafter).
  destruct (decide (a = t)) as [|Hne]; [done|].
  assert (is_Some ((mHeader s :: l) !! t)) as [pt Hpt].
  { apply lookup_lt_is_Some. simpl. lia. }
  specialize (Hafter t pt ltac:(lia) Hpt).
  destruct t as [|t]; [lia|].
  pose proof (inv_hgt_le s l Hinv t pt Hpt). lia.
Qed.

Lemma inv_score_of p n :
  heap s !! p = Some n -> score_of (heap s) p = mScore n.
Proof. intros Hn. unfold score_of. by rewrite Hn. Qed.

Lemma inv_not_nan a p : l !! a = Some p -> not_nan (score_of (heap s) p).
Proof.
  intros Ha. apply list_elem_of_lookup_2 in Ha.
  destruct (inv_node _ _ Hinv p Ha) as (sc & k & n & Hn & _ & Hnn).
  by apply attrs_Some in Hn as (_ & -> & _).
Qed.

(** On the sorted list a downward closed test holds on a prefix. *)
Lemma score_test_prefix (P : score -> bool) b pb :
  down_closed P -> l !! b = Some pb ->
  P (score_of (heap s) pb) =
  bool_decide (b < prefix_len (fun p => P (score_of (heap s) p)) l)%nat.
Proof.
  intros HP Hb.
  apply (prefix_len_spec (fun p => P (score_of (heap s) p)) l); [|done].
  intros i j x y Hij Hi Hj. apply HP.
  - by eapply inv_not_nan.
  - by eapply inv_not_nan.
  - by eapply (inv_sorted _ _ Hinv).
Qed.

Section ByScore.
Variables (P : score -> bool) (step : Z -> Z -> Z) (accI : nat -> Z -> Prop).
Hypothesis HP : down_closed P.
Hypothesis step_sem : forall a b acc,
  (a < b <= length l)%nat -> accI a acc ->
  accI b (step acc (Z.of_nat b - Z.of_nat a)).

Let t := prefix_len (fun p => P (score_of (heap s) p)) l.

Lemma score_cond_sem a b pb nb acc :
  (a < b)%nat -> (mHeader s :: l) !! b = Some pb -> heap s !! pb = Some nb ->
  accI a acc ->
  (fun (ny : SkipListNode K) (_ _ : Z) => P (mScore ny))
    nb (Z.of_nat b - Z.of_nat a) acc = bool_decide (b <= t)%nat.
Proof.
  intros Hab Hb Hnb _. simpl.
  destruct b as [|b]; [lia|]. simpl in Hb.
  rewrite <- (inv_score_of pb nb Hnb).
  rewrite (score_test_prefix P b pb HP Hb).
  apply bool_decide_ext. unfold t. lia.
Qed.

Lemma descend_by_score acc0 :
  accI 0 acc0 ->
  exists x' acc' update rank,
    descend (fuel_of (heap s)) (heap s) (fun ny _ _ => P (mScore ny)) step
            (mLevels s) (mHeader s) acc0 = Some (x', acc', update, rank) /\
    length update = mLevels s /\ length rank = mLevels s /\
    (forall i, (i < mLevels s)%nat -> exists ai ui ri,
       update !! i = Some ui /\ rank !! i = Some ri /\
       (mHeader s :: l) !! ai = Some ui /\
       lastle (mHeader s :: l) (heap s) i t ai /\ accI ai ri) /\
    update !! 0%nat = Some x' /\ rank !! 0%nat = Some acc' /\
    (mHeader s :: l) !! t = Some x' /\ accI t acc' /\ (t <= length l)%nat.
Proof.
  intros Hacc0.
  pose proof (inv_levels _ _ Hinv) as HL.
  destruct (descend_spec s l Hinv (fun ny _ _ => P (mScore ny)) step accI t
              score_cond_sem step_sem (mLevels s) (fuel_of (heap s)) 0%nat
              (mHeader s) acc0)
    as (x' & acc' & update & rank & Hd & Hlu & Hlr & Hall & _ & Hnz).
  - rewrite (inv_fuel_of s l Hinv). lia.
  - done.
  - rewrite (inv_hgt_header s l Hinv). lia.
  - lia.
  - done.
  - intros c pc Hc Hpc. destruct c as [|c]; [lia|].
    pose proof (inv_hgt_le s l Hinv c pc Hpc). lia.
  - destruct Hnz as [Hu0 Hr0]; [lia|].
    assert (t <= length l)%nat as Ht by apply prefix_len_le.
    destruct (Hall 0%nat) as (a0 & u0 & r0 & Hu & Hr & Hn & Hl & Hai); [lia|].
    apply (lastle_zero t a0 Ht) in Hl as Ha0. subst a0.
    exists x', acc', update, rank.
    repeat split; try done; congruence.
Qed.

End ByScore.

Lemma rank_step_sem a b acc :
  (a < b <= length l)%nat -> acc = Z.of_nat a ->
  add64 acc (Z.of_nat b - Z.of_nat a) = Z.of_nat b.
Proof.
  intros Hab ->. unfold add64.
  destruct (inv_length _ _ Hinv) as [_ Hlen].
  replace (Z.of_nat a + (Z.of_nat b - Z.of_nat a)) with (Z.of_nat b) by lia.
  apply wrap64_small. lia.
Qed.

Section ByRank.
Variables (strict : bool) (bound : Z).
Hypothesis Hbound : 0 <= bound.

Let t : nat := if strict then Z.to_nat (bound - 1) else Z.to_nat bound.
Hypothesis Hstrict : strict = true -> 1 <= bound.

Lemma rank_cond_sem a b pb nb acc :
  (a < b)%nat -> (mHeader s :: l) !! b = Some pb -> heap s !! pb = Some nb ->
  acc = Z.of_nat a ->
  rank_cond strict bound nb (Z.of_nat b - Z.of_nat a) acc = bool_decide (b <= t)%nat.
Proof.
  intros Hab Hb Hnb ->. unfold rank_cond.
  pose proof (inv_pos_bound s l _ _ Hb) as Hbn.
  destruct (inv_length _ _ Hinv) as [_ Hlen].
  replace (Z.of_nat a + (Z.of_nat b - Z.of_nat a)) with (Z.of_nat b) by lia.
  rewrite wrap64_small by lia.
  unfold t. destruct strict.
  - specialize (Hstrict eq_refl).
    destruct (Z.ltb_spec (Z.of_nat b) bound).
    + by rewrite bool_decide_eq_true_2 by lia.
    + by rewrite bool_decide_eq_false_2 by lia.
  - destruct (Z.leb_spec (Z.of_nat b) bound).
    + by rewrite bool_decide_eq_true_2 by lia.
    + by rewrite bool_decide_eq_false_2 by lia.
Qed.

End ByRank.
End Descents.

(** The fuel is a number of steps, not a term to compute with in proofs. *)
#[global] Opaque fuel_of.

(** ** [private_insert] keeps the invariant *)

Section LinkLemmas.
Context {K : Type} `{Countable K} `{Inhabited K}.
Implicit Types (h : gmap ptr (SkipListNode K)) (s : SortedSet K).

Lemma link_ok_ext nodes h h' a j lv lv' :
  (forall p, hgt h' p = hgt h p) ->
  mForward lv' = mForward lv ->
  (mForward lv <> None -> mSpan lv' = mSpan lv) ->
  link_ok nodes h a j lv -> link_ok nodes h' a j lv'.
Proof.
  intros Hh Hf Hs. unfold link_ok. rewrite Hf.
  destruct (mForward lv) as [q|].
  - intros (b & ? & ? & ? & Hmid & ?). exists b.
    rewrite Hh, Hs by done. repeat split; try done.
    intros c pc ? ?. rewrite Hh. eauto.
  - intros Hall c pc ? ?. rewrite Hh. eauto.
Qed.

Lemma lastle_ext nodes h h' i t a :
  (forall p, hgt h' p = hgt h p) ->
  lastle nodes h i t a -> lastle nodes h' i t a.
Proof.
  intros Hh (Ha & (p & Hp & Hhp) & Hafter). split; [done|]. split.
  - exists p. by rewrite Hh.
  - intros c pc ? ?. rewrite Hh. eauto.
Qed.

End LinkLemmas.

Section InsertRaise.
Context {K : Type} `{Countable K} `{Inhabited K}.

Variables (s : SortedSet K) (l : list ptr) (level t : nat).
Variables (update : list ptr) (rank : list Z).
Hypothesis Hinv : inv s l.
Hypothesis Hlevel : (1 <= level <= SKIPLIST_MAXLEVEL)%nat.
Hypothesis Hlu : length update = mLevels s.
Hypothesis Hlr : length rank = mLevels s.
Hypothesis Hupd : forall i, (i < mLevels s)%nat -> exists ai ui,
  update !! i = Some ui /\ rank !! i = Some (Z.of_nat ai) /\
  (mHeader s :: l) !! ai = Some ui /\
  lastle (mHeader s :: l) (heap s) i t ai.

Lemma insert_raise_spec :
  exists update1 rank1 s1,
    insert_raise level update rank s = Some (update1, rank1, s1) /\
    inv s1 l /\ mHeader s1 = mHeader s /\ mTail s1 = mTail s /\
    mLength s1 = mLength s /\ mDict s1 = mDict s /\
    (level <= mLevels s1)%nat /\ same_shape (heap s) (heap s1) /\
    length update1 = mLevels s1 /\
    forall i, (i < mLevels s1)%nat -> exists ai ui,
      update1 !! i = Some ui /\ rank1 !! i = Some (Z.of_nat ai) /\
      (mHeader s :: l) !! ai = Some ui /\
      lastle (mHeader s :: l) (heap s1) i t ai.
Proof.
  unfold insert_raise.
  destruct (Nat.ltb_spec (mLevels s) level) as [Hlt|Hge].
  2: { exists update, rank, s.
       split_and!; try done; try lia; apply same_shape_refl. }
  pose proof (inv_levels _ _ Hinv) as HL.
  set (X := wrap32 (mLength s)).
  set (E := fun (i : nat) (p : ptr) =>
              if decide (p = mHeader s)
              then set_span X <$> level_at (heap s) (mHeader s) i
              else level_at (heap s) p i).
  destruct (for_loop_cells
              (fun i => upd_level (mHeader s) i (set_span X))
              (heap s) E (mLevels s) (level - mLevels s))
    as (h1 & Hloop & Hsh & Hcells).
  { intros i hc Hi Hshc Hrow.
    destruct (hgt_level_at (heap s) (mHeader s) i) as [lv Hlv].
    { rewrite (inv_hgt_header s l Hinv). lia. }
    destruct (upd_level_spec hc (mHeader s) i (set_span X) lv)
      as (h' & Hu & Hsh' & Hc').
    { by rewrite Hrow. }
    exists h'. split; [done|]. split; [done|]. split.
    - intros p. rewrite Hc'. unfold E.
      destruct (decide (p = mHeader s)) as [->|Hne].
      + rewrite decide_True by done. by rewrite Hlv.
      + rewrite decide_False by (intros [? _]; done). apply Hrow.
    - intros p j Hj. rewrite Hc'.
      by rewrite decide_False by (intros [_ ?]; done). }
  rewrite Hloop. simpl.
  assert (forall p, hgt h1 p = hgt (heap s) p) as Hhgt.
  { intros p. by apply same_shape_hgt. }
  eexists _, _, _. split; [done|]. simpl.
  split; [|split_and!; try done; try lia].
  - constructor; simpl.
    + apply Hinv.
    + intros p. rewrite (same_shape_dom _ _ p Hsh). apply Hinv.
    + destruct (Hsh (mHeader s)) as [-> _]. apply Hinv.
    + intros p Hp. destruct (Hsh p) as [-> _].
      destruct (inv_node _ _ Hinv p Hp) as (sc & k & n & Hn & Hl & Hnn).
      exists sc, k, n. repeat split; try done; lia.
    + lia.
    + apply Hinv.
    + intros a b pa pb Hab Hpa Hpb.
      rewrite !(attrs_score_of (heap s) h1) by apply Hsh.
      by eapply (inv_sorted _ _ Hinv).
    + intros a p j lv Hp Hlv. rewrite Hcells in Hlv.
      destruct (decide (mLevels s <= j < mLevels s + (level - mLevels s))%nat)
        as [Hj|Hj].
      * unfold E in Hlv. destruct (decide (p = mHeader s)) as [->|Hne].
        -- destruct (level_at (heap s) (mHeader s) j) as [lv0|] eqn:Hlv0;
             [|done].
           injection Hlv as <-.
           pose proof (header_level_None s l Hinv j lv0 ltac:(lia) Hlv0) as Hnone.
           apply (link_ok_ext _ (heap s) h1 _ _ lv0); [done|done| |].
           ++ by rewrite Hnone.
           ++ by eapply (inv_links _ _ Hinv).
        -- apply (link_ok_ext _ (heap s) h1 _ _ lv); [done|done|done|].
           by eapply (inv_links _ _ Hinv).
      * apply (link_ok_ext _ (heap s) h1 _ _ lv); [done|done|done|].
        by eapply (inv_links _ _ Hinv).
    + intros a p Hp. destruct (Hsh p) as [_ ->]. by apply (inv_back _ _ Hinv).
    + apply Hinv.
  - rewrite length_app, length_replicate. lia.
  - intros i Hi. destruct (decide (i < mLevels s)%nat) as [Hil|Hil].
    + destruct (Hupd i Hil) as (ai & ui & Hu & Hr & Hn & Hla).
      exists ai, ui. rewrite !lookup_app_l by lia.
      split_and!; try done. by eapply lastle_ext.
    + exists 0%nat, (mHeader s).
      rewrite !lookup_app_r by lia.
      rewrite !lookup_replicate_2 by lia.
      split_and!; try done. split; [lia|split].
      * exists (mHeader s). split; [done|].
        rewrite Hhgt, (inv_hgt_header s l Hinv). lia.
      * intros c pc Hc Hpc. rewrite Hhgt.
        destruct c as [|c]; [lia|].
        pose proof (inv_hgt_le s l Hinv c pc Hpc). lia.
Qed.

End InsertRaise.

Section ListInsert.
Context {A : Type}.
Implicit Types (l : list A).

Lemma lookup_ins_lt l t x c :
  (t <= length l)%nat -> (c < t)%nat ->
  (take t l ++ x :: drop t l) !! c = l !! c.
Proof.
  intros Ht Hc. rewrite lookup_app_l by (rewrite length_take; lia).
  by rewrite lookup_take_lt.
Qed.

Lemma lookup_ins_eq l t x :
  (t <= length l)%nat -> (take t l ++ x :: drop t l) !! t = Some x.
Proof.
  intros Ht. rewrite lookup_app_r by (rewrite length_take; lia).
  rewrite length_take. by replace (t - t `min` length l)%nat with 0%nat by lia.
Qed.

Lemma lookup_ins_gt l t x c :
  (t <= length l)%nat -> (t < c)%nat ->
  (take t l ++ x :: drop t l) !! c = l !! (c - 1)%nat.
Proof.
  intros Ht Hc. rewrite lookup_app_r by (rewrite length_take; lia).
  rewrite length_take.
  replace (c - t `min` length l)%nat with (S (c - 1 - t)) by lia.
  simpl. rewrite lookup_drop. f_equal. lia.
Qed.

Lemma lookup_del_lt l t c :
  (c < t)%nat -> (take t l ++ drop (S t) l) !! c = l !! c.
Proof.
  intros Hc. destruct (decide (t <= length l)%nat).
  - rewrite lookup_app_l by (rewrite length_take; lia).
    by rewrite lookup_take_lt.
  - rewrite take_ge by lia. rewrite drop_ge by lia. by rewrite app_nil_r.
Qed.

Lemma lookup_del_ge l t c :
  (t <= c)%nat -> (take t l ++ drop (S t) l) !! c = l !! (S c).
Proof.
  intros Hc. destruct (decide (t <= length l)%nat).
  - rewrite lookup_app_r by (rewrite length_take; lia).
    rewrite length_take, lookup_drop. f_equal. lia.
  - rewrite take_ge by lia. rewrite drop_ge by lia. rewrite app_nil_r.
    rewrite !lookup_ge_None_2 by lia. done.
Qed.

Lemma match_pred_lookup l (n : nat) :
  match n with O => None | S m => l !! m end =
  if decide (n = 0)%nat then None else l !! (n - 1)%nat.
Proof. destruct n as [|m]; [done|]. simpl. by rewrite Nat.sub_0_r. Qed.

End ListInsert.

Section InsertLink.
Context {K : Type} `{Countable K} `{Inhabited K}.

Variables (s : SortedSet K) (l : list ptr) (level t : nat).
Variables (sc : score) (key : K) (update : list ptr) (rank : list Z).
Hypothesis Hinv : inv s l.
Hypothesis Hlevel : (1 <= level <= mLevels s)%nat.
Hypothesis Ht : (t <= length l)%nat.
Hypothesis Hroom : Z.of_nat (length l) + 1 < 2 ^ 32.
Hypothesis Hsc : not_nan sc.
Hypothesis Hupd : forall i, (i < mLevels s)%nat -> exists ai ui,
  update !! i = Some ui /\ rank !! i = Some (Z.of_nat ai) /\
  (mHeader s :: l) !! ai = Some ui /\
  lastle (mHeader s :: l) (heap s) i t ai.
Hypothesis Hbefore : forall j p, l !! j = Some p ->
  flt (score_of (heap s) p) sc = bool_decide (j < t)%nat.

Let x : ptr := fresh (dom (heap s)).
Let h2 := <[x := new_node level sc key]> (heap s).
Let U (i : nat) : ptr := default (mHeader s) (update !! i).
Let A (i : nat) : nat := Z.to_nat (default 0 (rank !! i)).

Lemma ins_x_fresh : heap s !! x = None.
Proof. apply not_elem_of_dom. apply is_fresh. Qed.

Lemma ins_x_not_node : x ∉ mHeader s :: l.
Proof.
  intros Hx. apply (inv_dom _ _ Hinv) in Hx as [n Hn].
  by rewrite ins_x_fresh in Hn.
Qed.

Lemma ins_node_ne a p : (mHeader s :: l) !! a = Some p -> p <> x.
Proof.
  intros Ha ->. apply ins_x_not_node. by eapply list_elem_of_lookup_2.
Qed.

Lemma ins_upd i :
  (i < mLevels s)%nat ->
  update !! i = Some (U i) /\ rank !! i = Some (Z.of_nat (A i)) /\
  (mHeader s :: l) !! A i = Some (U i) /\
  lastle (mHeader s :: l) (heap s) i t (A i).
Proof.
  intros Hi. destruct (Hupd i Hi) as (ai & ui & Hu & Hr & Hn & Hl).
  unfold U, A. rewrite Hu, Hr. simpl. by rewrite Nat2Z.id.
Qed.

Lemma ins_A_le i : (i < mLevels s)%nat -> (A i <= t)%nat.
Proof. intros Hi. by destruct (ins_upd i Hi) as (_ & _ & _ & ? & _). Qed.

Lemma ins_A0 : A 0 = t.
Proof.
  destruct (ins_upd 0%nat) as (_ & _ & _ & Hl); [lia|].
  by apply (lastle_zero s l Hinv t) in Hl.
Qed.

Lemma ins_h2_level p j :
  level_at h2 p j =
  if decide (p = x)
  then (if decide (j < level)%nat then Some (mkLevel None 0) else None)
  else level_at (heap s) p j.
Proof.
  unfold level_at, h2. destruct (decide (p = x)) as [->|Hne].
  - rewrite lookup_insert_eq. simpl. destruct (decide (j < level)%nat).
    + by apply lookup_replicate_2.
    + apply lookup_ge_None_2. rewrite length_replicate. lia.
  - by rewrite lookup_insert_ne.
Qed.

Lemma ins_h2_attrs p :
  attrs h2 p =
  if decide (p = x) then Some (false, sc, key, level) else attrs (heap s) p.
Proof.
  unfold attrs, h2. destruct (decide (p = x)) as [->|Hne].
  - rewrite lookup_insert_eq. simpl. by rewrite length_replicate.
  - by rewrite lookup_insert_ne.
Qed.

Lemma ins_h2_bwd p :
  bwd h2 p = if decide (p = x) then Some None else bwd (heap s) p.
Proof.
  unfold bwd, h2. destruct (decide (p = x)) as [->|Hne].
  - by rewrite lookup_insert_eq.
  - by rewrite lookup_insert_ne.
Qed.

Lemma ins_U_level i :
  (i < mLevels s)%nat -> is_Some (level_at (heap s) (U i) i).
Proof.
  intros Hi. destruct (ins_upd i Hi) as (_ & _ & Hn & _ & (p & Hp & Hh) & _).
  apply hgt_level_at. congruence.
Qed.

Lemma ins_U_ne i : (i < mLevels s)%nat -> U i <> x.
Proof.
  intros Hi. destruct (ins_upd i Hi) as (_ & _ & Hn & _).
  by eapply ins_node_ne.
Qed.

(** What the linking loop leaves at level [i]. *)
Let ins_EC (i : nat) (p : ptr) : option SkipListLevel :=
  if decide (p = U i) then
    Some (mkLevel (Some x)
            (wrap32 (wrap32 (Z.of_nat t - Z.of_nat (A i)) + 1)))
  else if decide (p = x) then
    (fun ulv => mkLevel (mForward ulv)
       (wrap32 (mSpan ulv - wrap32 (Z.of_nat t - Z.of_nat (A i)))))
    <$> level_at (heap s) (U i) i
  else level_at h2 p i.

(** What the loop over the untouched levels leaves at level [i]. *)
Let ins_ED (i : nat) (p : ptr) : option SkipListLevel :=
  if decide (p = U i) then
    (fun lv => set_span (wrap32 (mSpan lv + 1)) lv) <$> level_at h2 p i
  else level_at h2 p i.

Lemma ins_loopC :
  exists h3,
    for_loop
      (fun i h =>
         u ← update !! i;
         ri ← rank !! i;
         ulv ← level_at h u i;
         h ← upd_level x i
               (fun _ => mkLevel (mForward ulv)
                           (wrap32 (mSpan ulv - wrap32 (Z.of_nat t - ri)))) h;
         upd_level u i
           (fun _ => mkLevel (Some x) (wrap32 (wrap32 (Z.of_nat t - ri) + 1))) h)
      0 level h2 = Some h3 /\
    same_shape h2 h3 /\
    forall p j, level_at h3 p j =
      if decide (0 <= j < 0 + level)%nat then ins_EC j p else level_at h2 p j.
Proof.
  apply for_loop_cells. intros i hc Hi Hsh Hrow.
  destruct (ins_upd i) as (Hu & Hr & Hn & Hl); [lia|].
  destruct (ins_U_level i) as [ulv Hulv]; [lia|].
  pose proof (ins_U_ne i ltac:(lia)) as Hne.
  rewrite Hu, Hr. simpl.
  assert (level_at hc (U i) i = Some ulv) as Hulv'.
  { rewrite Hrow, ins_h2_level. by rewrite decide_False. }
  rewrite Hulv'. simpl.
  destruct (upd_level_spec hc x i
              (fun _ => mkLevel (mForward ulv)
                 (wrap32 (mSpan ulv - wrap32 (Z.of_nat t - Z.of_nat (A i)))))
              (mkLevel None 0)) as (h' & Hu1 & Hsh1 & Hc1).
  { rewrite Hrow, ins_h2_level. rewrite decide_True by done.
    by rewrite decide_True by lia. }
  rewrite Hu1. simpl.
  destruct (upd_level_spec h' (U i) i
              (fun _ => mkLevel (Some x)
                 (wrap32 (wrap32 (Z.of_nat t - Z.of_nat (A i)) + 1)))
              ulv) as (h'' & Hu2 & Hsh2 & Hc2).
  { rewrite Hc1. by rewrite decide_False by (intros [? _]; done). }
  exists h''. split; [done|]. split; [by eapply same_shape_trans|]. split.
  - intros p. rewrite Hc2. unfold ins_EC.
    destruct (decide (p = U i)) as [->|Hpu].
    + by rewrite decide_True.
    + rewrite decide_False by (intros [? _]; done). rewrite Hc1.
      destruct (decide (p = x)) as [->|Hpx].
      * rewrite decide_True by done. by rewrite Hulv.
      * rewrite decide_False by (intros [? _]; done). apply Hrow.
  - intros p j Hj. rewrite Hc2, Hc1.
    by rewrite !decide_False by (intros [_ ?]; done).
Qed.

Lemma ins_loopD h3 :
  same_shape h2 h3 ->
  (forall p j, (level <= j)%nat -> level_at h3 p j = level_at h2 p j) ->
  exists h4,
    for_loop
      (fun i h =>
         u ← update !! i;
         upd_level u i (fun lv => set_span (wrap32 (mSpan lv + 1)) lv) h)
      level (mLevels s - level) h3 = Some h4 /\
    same_shape h3 h4 /\
    forall p j, level_at h4 p j =
      if decide (level <= j < level + (mLevels s - level))%nat
      then ins_ED j p else level_at h3 p j.
Proof.
  intros Hsh3 Hrow3.
  apply for_loop_cells. intros i hc Hi Hsh Hrow.
  destruct (ins_upd i) as (Hu & Hr & Hn & Hl); [lia|].
  destruct (ins_U_level i) as [ulv Hulv]; [lia|].
  pose proof (ins_U_ne i ltac:(lia)) as Hne.
  rewrite Hu. simpl.
  assert (level_at h2 (U i) i = Some ulv) as Hulv2.
  { rewrite ins_h2_level. by rewrite decide_False. }
  destruct (upd_level_spec hc (U i) i
              (fun lv => set_span (wrap32 (mSpan lv + 1)) lv) ulv)
    as (h' & Hu1 & Hsh1 & Hc1).
  { rewrite Hrow, Hrow3 by lia. done. }
  exists h'. split; [done|]. split; [done|]. split.
  - intros p. rewrite Hc1. unfold ins_ED.
    destruct (decide (p = U i)) as [->|Hpu].
    + rewrite decide_True by done. by rewrite Hulv2.
    + rewrite decide_False by (intros [? _]; done).
      rewrite Hrow, Hrow3 by lia. done.
  - intros p j Hj. rewrite Hc1.
    by rewrite decide_False by (intros [_ ?]; done).
Qed.

Lemma ins_forward0 ulv :
  level_at (heap s) (U 0) 0 = Some ulv -> mForward ulv = l !! t.
Proof.
  intros Hulv. destruct (ins_upd 0%nat) as (_ & _ & Hn & _); [lia|].
  rewrite ins_A0 in Hn. by eapply (inv_forward0 s l Hinv t).
Qed.

Lemma insert_link_run :
  exists hf,
    insert_link level sc key update rank s =
      Some (x, mkSet hf (mHeader s)
                 (match l !! t with Some _ => mTail s | None => Some x end)
                 (wrap64 (mLength s + 1)) (mLevels s) (mDict s)) /\
    (forall p j, level_at hf p j =
       if decide (j < level)%nat then ins_EC j p
       else if decide (j < mLevels s)%nat then ins_ED j p
       else level_at h2 p j) /\
    (forall p, attrs hf p = attrs h2 p) /\
    (forall p, bwd hf p =
       if decide (l !! t = Some p) then Some (Some x)
       else if decide (p = x)
            then Some (match t with O => None | S t' => l !! t' end)
            else bwd (heap s) p).
Proof.
  unfold insert_link. fold x. fold h2.
  destruct (ins_upd 0%nat) as (Hu0 & Hr0 & Hn0 & _); [lia|].
  rewrite ins_A0 in Hr0, Hn0.
  rewrite Hr0. simpl.
  destruct ins_loopC as (h3 & HloopC & Hsh3 & Hc3).
  rewrite HloopC. simpl.
  destruct (ins_loopD h3 Hsh3) as (h4 & HloopD & Hsh4 & Hc4).
  { intros p j Hj. rewrite Hc3. by rewrite decide_False by lia. }
  rewrite HloopD. simpl. rewrite Hu0. simpl.
  assert (same_shape h2 h4) as Hsh24 by (by eapply same_shape_trans).
  destruct (upd_backward_spec h4 x
              (if decide (U 0 = mHeader s) then None else Some (U 0)))
    as (h5 & Hb5 & Hl5 & Ha5 & Hbw5).
  { apply (same_shape_dom h2 h4 x Hsh24). unfold h2.
    by rewrite lookup_insert_eq. }
  rewrite Hb5. simpl.
  destruct (ins_U_level 0%nat) as [ulv Hulv]; [lia|].
  pose proof (ins_U_ne 0%nat ltac:(lia)) as Hne0.
  assert (level_at h5 x 0 =
          Some (mkLevel (mForward ulv)
                  (wrap32 (mSpan ulv - wrap32 (Z.of_nat t - Z.of_nat (A 0))))))
    as Hx0.
  { rewrite Hl5, Hc4. rewrite decide_False by lia. rewrite Hc3.
    rewrite decide_True by lia. unfold ins_EC.
    rewrite decide_False by done. rewrite decide_True by done.
    by rewrite Hulv. }
  rewrite Hx0. simpl. rewrite (ins_forward0 ulv Hulv).
  assert (forall p j, level_at h4 p j =
     if decide (j < level)%nat then ins_EC j p
     else if decide (j < mLevels s)%nat then ins_ED j p
     else level_at h2 p j) as Hcells.
  { intros p j. rewrite Hc4.
    destruct (decide (j < level)%nat) as [Hj|Hj].
    - rewrite decide_False by lia. rewrite Hc3. by rewrite decide_True by lia.
    - destruct (decide (j < mLevels s)%nat) as [Hj2|Hj2].
      + by rewrite decide_True by lia.
      + rewrite decide_False by lia. rewrite Hc3.
        by rewrite decide_False by lia. }
  assert ((if decide (U 0 = mHeader s) then None else Some (U 0)) =
          match t with O => None | S t' => l !! t' end) as Hback.
  { destruct t as [|t'].
    - simpl in Hn0. injection Hn0 as <-. by rewrite decide_True.
    - simpl in Hn0. rewrite decide_False; [done|].
      intros Heq. pose proof (inv_nodup _ _ Hinv) as Hnd.
      apply NoDup_cons in Hnd as [Hnotin _]. apply Hnotin.
      rewrite <- Heq. by eapply list_elem_of_lookup_2. }
  destruct (l !! t) as [f|] eqn:Hf.
  - destruct (upd_backward_spec h5 f (Some x)) as (h6 & Hb6 & Hl6 & Ha6 & Hbw6).
    { assert (is_Some (h2 !! f)) as Hf2.
      { unfold h2. rewrite lookup_insert_ne.
        - apply (inv_dom _ _ Hinv). right. by eapply list_elem_of_lookup_2.
        - intros <-. apply ins_x_not_node. right.
          by eapply list_elem_of_lookup_2. }
      rewrite <- attrs_is_Some in Hf2 |- *.
      rewrite Ha5. by destruct (Hsh24 f) as [-> _]. }
    rewrite Hb6. simpl. exists h6. split; [done|]. split; [|split].
    + intros p j. rewrite Hl6, Hl5. apply Hcells.
    + intros p. rewrite Ha6, Ha5. by destruct (Hsh24 p) as [-> _].
    + intros p. rewrite Hbw6.
      destruct (decide (p = f)) as [->|Hpf].
      * by rewrite decide_True.
      * rewrite decide_False by congruence. rewrite Hbw5.
        destruct (decide (p = x)) as [->|Hpx]; [by rewrite Hback|].
        destruct (Hsh24 p) as [_ ->]. rewrite ins_h2_bwd.
        by rewrite decide_False.
  - exists h5. split; [done|]. split; [|split].
    + intros p j. rewrite Hl5. apply Hcells.
    + intros p. rewrite Ha5. by destruct (Hsh24 p) as [-> _].
    + intros p. rewrite decide_False by done. rewrite Hbw5.
      destruct (decide (p = x)) as [->|Hpx]; [by rewrite Hback|].
      destruct (Hsh24 p) as [_ ->]. rewrite ins_h2_bwd.
      by rewrite decide_False.
Qed.

Section InsertInv.
Variable hf : gmap ptr (SkipListNode K).
Hypothesis Hcells : forall p j, level_at hf p j =
  if decide (j < level)%nat then ins_EC j p
  else if decide (j < mLevels s)%nat then ins_ED j p
  else level_at h2 p j.
Hypothesis Hattrs : forall p, attrs hf p = attrs h2 p.
Hypothesis Hbwd : forall p, bwd hf p =
  if decide (l !! t = Some p) then Some (Some x)
  else if decide (p = x)
       then Some (match t with O => None | S t' => l !! t' end)
       else bwd (heap s) p.

Let nodes := mHeader s :: l.
Let nodes' := mHeader s :: (take t l ++ x :: drop t l).

Lemma ins_nodes_le c : (c <= t)%nat -> nodes' !! c = nodes !! c.
Proof.
  intros Hc. unfold nodes', nodes. destruct c as [|c]; [done|].
  simpl. apply lookup_ins_lt; lia.
Qed.

Lemma ins_nodes_eq : nodes' !! (S t) = Some x.
Proof. unfold nodes'. simpl. by apply lookup_ins_eq. Qed.

Lemma ins_nodes_gt c : (S t < c)%nat -> nodes' !! c = nodes !! (c - 1)%nat.
Proof.
  intros Hc. unfold nodes', nodes. destruct c as [|c]; [lia|].
  simpl. rewrite lookup_ins_gt by lia.
  destruct c as [|c]; [lia|]. simpl. by rewrite Nat.sub_0_r.
Qed.

Lemma ins_attrs_old p : p <> x -> attrs hf p = attrs (heap s) p.
Proof. intros Hp. rewrite Hattrs, ins_h2_attrs. by rewrite decide_False. Qed.

Lemma ins_attrs_x : attrs hf x = Some (false, sc, key, level).
Proof. rewrite Hattrs, ins_h2_attrs. by rewrite decide_True. Qed.

Lemma ins_hgt_old p : p <> x -> hgt hf p = hgt (heap s) p.
Proof. intros Hp. by apply attrs_hgt, ins_attrs_old. Qed.

Lemma ins_hgt_x : hgt hf x = level.
Proof. by destruct (attrs_Some _ _ _ _ _ _ ins_attrs_x) as (-> & _). Qed.

Lemma ins_hgt_node c pc :
  nodes !! c = Some pc -> hgt hf pc = hgt (heap s) pc.
Proof. intros Hc. apply ins_hgt_old. by eapply ins_node_ne. Qed.

(** A link that does not cross the insertion point is kept. *)
Lemma ins_link_after a p j lv :
  (t < a)%nat -> nodes !! a = Some p -> level_at (heap s) p j = Some lv ->
  link_ok nodes' hf (S a) j lv.
Proof.
  intros Hat Ha Hlv.
  pose proof (inv_links _ _ Hinv a p j lv Ha Hlv) as Hlk.
  unfold link_ok in *. destruct (mForward lv) as [q|].
  - destruct Hlk as (b & Hab & Hb & Hhq & Hmid & Hspan).
    exists (S b). split; [lia|]. split.
    { rewrite ins_nodes_gt by lia. simpl. by rewrite Nat.sub_0_r. }
    split. { by rewrite (ins_hgt_node b q Hb). }
    split; [|lia].
    intros c pc Hc Hpc. rewrite ins_nodes_gt in Hpc by lia.
    rewrite (ins_hgt_node _ _ Hpc). apply (Hmid (c - 1)%nat); [lia|done].
  - intros c pc Hc Hpc. rewrite ins_nodes_gt in Hpc by lia.
    rewrite (ins_hgt_node _ _ Hpc). apply (Hlk (c - 1)%nat); [lia|done].
Qed.

Lemma ins_link_before a p j lv a1 p1 :
  nodes !! a = Some p -> level_at (heap s) p j = Some lv ->
  (a < a1 <= t)%nat -> nodes !! a1 = Some p1 -> (j < hgt (heap s) p1)%nat ->
  link_ok nodes' hf a j lv.
Proof.
  intros Ha Hlv Ha1 Hp1 Hh1.
  pose proof (inv_links _ _ Hinv a p j lv Ha Hlv) as Hlk.
  unfold link_ok in *. destruct (mForward lv) as [q|].
  - destruct Hlk as (b & Hab & Hb & Hhq & Hmid & Hspan).
    assert (b <= a1)%nat as Hba1.
    { destruct (decide (b <= a1)%nat); [done|].
      specialize (Hmid a1 p1 ltac:(lia) Hp1). lia. }
    exists b. split; [lia|]. split.
    { rewrite ins_nodes_le by lia. done. }
    split. { by rewrite (ins_hgt_node b q Hb). }
    split; [|lia].
    intros c pc Hc Hpc. rewrite ins_nodes_le in Hpc by lia.
    rewrite (ins_hgt_node _ _ Hpc). by apply (Hmid c).
  - specialize (Hlk a1 p1 ltac:(lia) Hp1). lia.
Qed.

Lemma ins_len_bound : Z.of_nat (length l) < 2 ^ 32 - 1.
Proof. lia. Qed.

Lemma ins_target_after j ulv q b :
  (j < mLevels s)%nat -> level_at (heap s) (U j) j = Some ulv ->
  (A j < b)%nat -> nodes !! b = Some q -> (j < hgt (heap s) q)%nat ->
  (t < b)%nat.
Proof.
  intros Hj Hulv Hab Hb Hhq.
  destruct (ins_upd j Hj) as (_ & _ & _ & _ & _ & Hafter).
  destruct (decide (t < b)%nat); [done|].
  specialize (Hafter b q ltac:(lia) Hb). lia.
Qed.

Lemma ins_link_x j ulv :
  (j < level)%nat -> level_at (heap s) (U j) j = Some ulv ->
  link_ok nodes' hf (S t) j
    (mkLevel (mForward ulv)
       (wrap32 (mSpan ulv - wrap32 (Z.of_nat t - Z.of_nat (A j))))).
Proof.
  intros Hj Hulv.
  destruct (ins_upd j ltac:(lia)) as (_ & _ & Hn & HAt & _ & Hafter).
  pose proof (inv_links _ _ Hinv (A j) (U j) j ulv Hn Hulv) as Hlk.
  unfold link_ok in *. simpl. destruct (mForward ulv) as [q|].
  - destruct Hlk as (b & Hab & Hb & Hhq & Hmid & Hspan).
    pose proof (ins_target_after j ulv q b ltac:(lia) Hulv Hab Hb Hhq) as Htb.
    pose proof (inv_pos_bound s l _ _ Hb) as Hbn.
    exists (S b). split; [lia|]. split.
    { rewrite ins_nodes_gt by lia. simpl. by rewrite Nat.sub_0_r. }
    split. { by rewrite (ins_hgt_node b q Hb). }
    split.
    + intros c pc Hc Hpc. rewrite ins_nodes_gt in Hpc by lia.
      rewrite (ins_hgt_node _ _ Hpc). apply (Hmid (c - 1)%nat); [lia|done].
    + rewrite Hspan.
      rewrite (wrap32_small (Z.of_nat t - Z.of_nat (A j))) by lia.
      rewrite wrap32_small by lia. lia.
  - intros c pc Hc Hpc. rewrite ins_nodes_gt in Hpc by lia.
    rewrite (ins_hgt_node _ _ Hpc). apply (Hlk (c - 1)%nat); [lia|done].
Qed.

Lemma ins_link_pred j :
  (j < level)%nat ->
  link_ok nodes' hf (A j) j
    (mkLevel (Some x) (wrap32 (wrap32 (Z.of_nat t - Z.of_nat (A j)) + 1))).
Proof.
  intros Hj.
  destruct (ins_upd j ltac:(lia)) as (_ & _ & Hn & HAt & _ & Hafter).
  unfold link_ok. simpl. exists (S t). split; [lia|].
  split; [apply ins_nodes_eq|]. split; [by rewrite ins_hgt_x|]. split.
  - intros c pc Hc Hpc. rewrite ins_nodes_le in Hpc by lia.
    rewrite (ins_hgt_node _ _ Hpc). apply (Hafter c); [lia|done].
  - rewrite (wrap32_small (Z.of_nat t - Z.of_nat (A j))) by lia.
    rewrite wrap32_small by lia. lia.
Qed.

Lemma ins_new_hgt_le c pc j :
  (level <= j)%nat -> nodes' !! c = Some pc ->
  (forall c0 pc0, nodes !! c0 = Some pc0 ->
     ((c0 = c /\ c <= t) \/ (S c0 = c /\ t < c0))%nat ->
     (hgt (heap s) pc0 <= j)%nat) ->
  (hgt hf pc <= j)%nat.
Proof.
  intros Hj Hpc Hold.
  destruct (Nat.lt_trichotomy c (S t)) as [Hc|[->|Hc]].
  - rewrite ins_nodes_le in Hpc by lia.
    rewrite (ins_hgt_node _ _ Hpc). apply (Hold c pc Hpc). left. lia.
  - rewrite ins_nodes_eq in Hpc. injection Hpc as <-.
    by rewrite ins_hgt_x.
  - rewrite ins_nodes_gt in Hpc by lia.
    rewrite (ins_hgt_node _ _ Hpc). apply (Hold _ pc Hpc). right. lia.
Qed.

Lemma ins_link_bump j lv0 :
  (level <= j < mLevels s)%nat -> level_at (heap s) (U j) j = Some lv0 ->
  link_ok nodes' hf (A j) j (set_span (wrap32 (mSpan lv0 + 1)) lv0).
Proof.
  intros Hj Hulv.
  destruct (ins_upd j ltac:(lia)) as (_ & _ & Hn & HAt & _ & Hafter).
  pose proof (inv_links _ _ Hinv (A j) (U j) j lv0 Hn Hulv) as Hlk.
  unfold link_ok in *. simpl. destruct (mForward lv0) as [q|].
  - destruct Hlk as (b & Hab & Hb & Hhq & Hmid & Hspan).
    pose proof (ins_target_after j lv0 q b ltac:(lia) Hulv Hab Hb Hhq) as Htb.
    pose proof (inv_pos_bound s l _ _ Hb) as Hbn.
    exists (S b). split; [lia|]. split.
    { rewrite ins_nodes_gt by lia. simpl. by rewrite Nat.sub_0_r. }
    split. { by rewrite (ins_hgt_node b q Hb). }
    split.
    + intros c pc Hc Hpc. apply (ins_new_hgt_le c pc j); [lia|done|].
      intros c0 pc0 Hpc0 Hc0. apply (Hmid c0 pc0); [lia|done].
    + rewrite Hspan. rewrite wrap32_small by lia. lia.
  - intros c pc Hc Hpc. apply (ins_new_hgt_le c pc j); [lia|done|].
    intros c0 pc0 Hpc0 Hc0. apply (Hlk c0 pc0); [lia|done].
Qed.

Lemma ins_link_top j lv :
  (mLevels s <= j)%nat -> level_at (heap s) (mHeader s) j = Some lv ->
  link_ok nodes' hf 0 j lv.
Proof.
  intros Hj Hlv.
  pose proof (header_level_None s l Hinv j lv Hj Hlv) as Hnone.
  unfold link_ok. rewrite Hnone.
  intros c pc Hc Hpc. apply (ins_new_hgt_le c pc j); [lia|done|].
  intros c0 pc0 Hpc0 Hc0. destruct c0 as [|c0]; [lia|].
  pose proof (inv_hgt_le s l Hinv c0 pc0 Hpc0). lia.
Qed.

Lemma ins_old_cell a p j lv :
  nodes !! a = Some p -> a <> A j \/ (mLevels s <= j)%nat ->
  level_at hf p j = Some lv -> level_at (heap s) p j = Some lv.
Proof.
  intros Ha Hne Hlv. pose proof (ins_node_ne a p Ha) as Hpx.
  assert (level_at h2 p j = level_at (heap s) p j) as Hh2.
  { rewrite ins_h2_level. by rewrite decide_False. }
  rewrite Hcells in Hlv.
  destruct (decide (j < mLevels s)%nat) as [Hj|Hj].
  - assert (p <> U j) as HpU.
    { intros ->. destruct (ins_upd j Hj) as (_ & _ & Hn & _).
      destruct Hne as [Hne|Hne]; [|lia].
      apply Hne. by apply (inv_pos_inj s l Hinv a (A j) (U j)). }
    destruct (decide (j < level)%nat).
    + unfold ins_EC in Hlv. rewrite !decide_False in Hlv by done. congruence.
    + unfold ins_ED in Hlv. rewrite decide_False in Hlv by done. congruence.
  - rewrite !decide_False in Hlv by lia. congruence.
Qed.

Lemma ins_links a' p j lv :
  nodes' !! a' = Some p -> level_at hf p j = Some lv ->
  link_ok nodes' hf a' j lv.
Proof.
  intros Ha' Hlv.
  destruct (Nat.lt_trichotomy a' (S t)) as [Hlt|[->|Hgt]].
  - (* a node before the new one *)
    rewrite ins_nodes_le in Ha' by lia.
    pose proof (ins_node_ne a' p Ha') as Hpx.
    destruct (decide (j < mLevels s)%nat) as [Hj|Hj].
    + destruct (ins_upd j Hj) as (_ & _ & Hn & HAt & _ & Hafter).
      destruct (decide (a' = A j)) as [->|Hne].
      * assert (p = U j) as -> by (unfold nodes in Ha'; congruence).
        destruct (ins_U_level j Hj) as [ulv Hulv].
        rewrite Hcells in Hlv. destruct (decide (j < level)%nat).
        -- unfold ins_EC in Hlv. rewrite decide_True in Hlv by done.
           injection Hlv as <-. by apply ins_link_pred.
        -- rewrite decide_True in Hlv by done.
           unfold ins_ED in Hlv. rewrite decide_True in Hlv by done.
           rewrite ins_h2_level in Hlv. rewrite decide_False in Hlv by done.
           rewrite Hulv in Hlv. injection Hlv as <-.
           apply ins_link_bump; [lia|done].
      * apply ins_old_cell with (a := a') in Hlv; [|done|by left].
        pose proof (level_at_hgt _ _ _ _ Hlv) as Hhp.
        assert (a' < A j)%nat as Hlt'.
        { destruct (decide (a' < A j)%nat); [done|].
          specialize (Hafter a' p ltac:(lia) Ha'). lia. }
        destruct (ins_upd j Hj) as (_ & _ & _ & _ & (pj & Hpj & Hhj) & _).
        by apply (ins_link_before a' p j lv (A j) pj).
    + apply ins_old_cell with (a := a') in Hlv; [|done|right; lia].
      pose proof (level_at_hgt _ _ _ _ Hlv) as Hhp.
      destruct a' as [|a'].
      * injection Ha' as <-. apply ins_link_top; [lia|done].
      * pose proof (inv_hgt_le s l Hinv a' p Ha'). lia.
  - (* the new node *)
    rewrite ins_nodes_eq in Ha'. injection Ha' as <-.
    rewrite Hcells in Hlv.
    destruct (decide (j < level)%nat) as [Hj|Hj].
    + pose proof (ins_U_ne j ltac:(lia)) as Hne.
      unfold ins_EC in Hlv. rewrite decide_False in Hlv by done.
      rewrite decide_True in Hlv by done.
      destruct (level_at (heap s) (U j) j) as [ulv|] eqn:Hulv; [|done].
      injection Hlv as <-. by apply ins_link_x.
    + assert (level_at h2 x j = None) as Hnone.
      { rewrite ins_h2_level. rewrite decide_True by done.
        by rewrite decide_False. }
      destruct (decide (j < mLevels s)%nat) as [Hj2|Hj2]; [|congruence].
      pose proof (ins_U_ne j Hj2) as Hne.
      unfold ins_ED in Hlv. rewrite decide_False in Hlv by done. congruence.
  - (* a node after the new one *)
    rewrite ins_nodes_gt in Ha' by lia.
    apply ins_old_cell with (a := (a' - 1)%nat) in Hlv; [|done|].
    + replace a' with (S (a' - 1)) by lia.
      apply (ins_link_after (a' - 1)%nat p j lv); [lia|done|done].
    + destruct (decide (j < mLevels s)%nat) as [Hj|Hj]; [|right; lia].
      left. pose proof (ins_A_le j Hj). lia.
Qed.

Lemma ins_score_old p : p <> x -> score_of hf p = score_of (heap s) p.
Proof. intros Hp. by apply attrs_score_of, ins_attrs_old. Qed.

Lemma ins_score_x : score_of hf x = sc.
Proof. by destruct (attrs_Some _ _ _ _ _ _ ins_attrs_x) as (_ & -> & _). Qed.

Lemma ins_l_ne a p : l !! a = Some p -> p <> x.
Proof. intros Ha. by apply (ins_node_ne (S a) p). Qed.

Lemma ins_keeps_sorted a b pa pb :
  (a <= b)%nat ->
  (take t l ++ x :: drop t l) !! a = Some pa ->
  (take t l ++ x :: drop t l) !! b = Some pb ->
  fle (score_of hf pa) (score_of hf pb) = true.
Proof.
  intros Hab Hpa Hpb.
  destruct (Nat.lt_trichotomy a t) as [Hat|[->|Hat]];
    destruct (Nat.lt_trichotomy b t) as [Hbt|[->|Hbt]]; try lia.
  - rewrite lookup_ins_lt in Hpa, Hpb by lia.
    rewrite !ins_score_old by by eapply ins_l_ne.
    by apply (inv_sorted _ _ Hinv a b).
  - rewrite lookup_ins_lt in Hpa by lia.
    rewrite lookup_ins_eq in Hpb by lia. injection Hpb as <-.
    rewrite ins_score_x, ins_score_old by by eapply ins_l_ne.
    apply flt_fle. rewrite (Hbefore a pa Hpa).
    by apply bool_decide_eq_true_2.
  - rewrite lookup_ins_lt in Hpa by lia.
    rewrite lookup_ins_gt in Hpb by lia.
    rewrite !ins_score_old by by eapply ins_l_ne.
    apply (inv_sorted _ _ Hinv a (b - 1)%nat); [lia|done|done].
  - rewrite lookup_ins_eq in Hpa, Hpb by lia.
    injection Hpa as <-. injection Hpb as <-.
    rewrite ins_score_x. by apply fle_refl.
  - rewrite lookup_ins_eq in Hpa by lia. injection Hpa as <-.
    rewrite lookup_ins_gt in Hpb by lia.
    rewrite ins_score_x, ins_score_old by by eapply ins_l_ne.
    rewrite fle_flt_neg; [|done|by eapply (inv_not_nan s l Hinv)].
    rewrite (Hbefore _ pb Hpb). apply negb_true_iff.
    apply bool_decide_eq_false_2. lia.
  - rewrite lookup_ins_gt in Hpa, Hpb by lia.
    rewrite !ins_score_old by by eapply ins_l_ne.
    apply (inv_sorted _ _ Hinv (a - 1)%nat (b - 1)%nat); [lia|done|done].
Qed.

Lemma ins_l_inj a b p : l !! a = Some p -> l !! b = Some p -> a = b.
Proof.
  intros Ha Hb.
  assert (S a = S b) by (by apply (inv_pos_inj s l Hinv (S a) (S b) p)).
  lia.
Qed.

Lemma ins_back a p :
  (take t l ++ x :: drop t l) !! a = Some p ->
  bwd hf p =
  Some (match a with
        | O => None
        | S a' => (take t l ++ x :: drop t l) !! a'
        end).
Proof.
  intros Ha. rewrite Hbwd.
  destruct (Nat.lt_trichotomy a t) as [Hat|[->|Hat]].
  - rewrite lookup_ins_lt in Ha by lia.
    rewrite decide_False.
    2: { intros Hq. pose proof (ins_l_inj _ _ _ Ha Hq). lia. }
    rewrite decide_False by by eapply ins_l_ne.
    rewrite (inv_back _ _ Hinv a p Ha). f_equal.
    destruct a as [|a']; [done|]. by rewrite lookup_ins_lt by lia.
  - rewrite lookup_ins_eq in Ha by lia. injection Ha as <-.
    rewrite decide_False.
    2: { intros Hq. by apply ins_l_ne in Hq. }
    rewrite decide_True by done. f_equal.
    destruct t as [|t']; [done|]. by rewrite lookup_ins_lt by lia.
  - rewrite lookup_ins_gt in Ha by lia.
    destruct a as [|a']; [lia|]. simpl in Ha. rewrite Nat.sub_0_r in Ha.
    destruct (decide (a' = t)) as [->|Hne].
    + rewrite decide_True by done. by rewrite lookup_ins_eq by lia.
    + rewrite decide_False.
      2: { intros Hq. pose proof (ins_l_inj _ _ _ Ha Hq). lia. }
      rewrite decide_False by by eapply ins_l_ne.
      rewrite (inv_back _ _ Hinv a' p Ha). f_equal.
      rewrite lookup_ins_gt by lia.
      destruct a' as [|a'']; [lia|]. simpl. by rewrite Nat.sub_0_r.
Qed.

Lemma ins_tail :
  match l !! t with Some _ => mTail s | None => Some x end =
  last (take t l ++ x :: drop t l).
Proof.
  rewrite last_lookup.
  rewrite length_app, length_take, length_cons, length_drop.
  replace (Init.Nat.pred (t `min` length l + S (length l - t)))%nat
    with (length l) by lia.
  destruct (l !! t) as [f|] eqn:Hf.
  - apply lookup_lt_Some in Hf.
    rewrite lookup_ins_gt by lia.
    rewrite (inv_tail _ _ Hinv), last_lookup. f_equal. lia.
  - apply lookup_ge_None_1 in Hf.
    assert (t = length l) as Heq by lia.
    rewrite <- Heq. by rewrite lookup_ins_eq.
Qed.

Lemma ins_perm : take t l ++ x :: drop t l ≡ₚ x :: l.
Proof.
  rewrite <- Permutation_middle. by rewrite take_drop.
Qed.

Lemma ins_inv :
  inv (mkSet hf (mHeader s)
         (match l !! t with Some _ => mTail s | None => Some x end)
         (wrap64 (mLength s + 1)) (mLevels s) (mDict s))
      (take t l ++ x :: drop t l).
Proof.
  pose proof ins_x_not_node as Hxn.
  destruct (inv_length _ _ Hinv) as [Hlen Hlenb].
  constructor; simpl.
  - rewrite ins_perm.
    pose proof (inv_nodup _ _ Hinv) as Hnd.
    apply NoDup_cons in Hnd as [Hhl Hndl].
    apply not_elem_of_cons in Hxn as [Hxh Hxl].
    apply NoDup_cons. split.
    + apply not_elem_of_cons. split; [congruence|done].
    + apply NoDup_cons. by split.
  - intros p. rewrite <- attrs_is_Some, Hattrs, ins_h2_attrs.
    rewrite ins_perm.
    destruct (decide (p = x)) as [->|Hpx].
    + split; [|eauto]. intros _. right. by left.
    + rewrite attrs_is_Some, (inv_dom _ _ Hinv).
      rewrite !elem_of_cons. intuition congruence.
  - rewrite ins_attrs_old; [apply Hinv|].
    by apply (ins_node_ne 0%nat).
  - intros p Hp. rewrite ins_perm in Hp.
    apply elem_of_cons in Hp as [->|Hp].
    + exists sc, key, level. split; [apply ins_attrs_x|]. split; [lia|done].
    + rewrite ins_attrs_old; [by apply (inv_node _ _ Hinv)|].
      intros ->. apply Hxn. by right.
  - apply Hinv.
  - rewrite wrap64_small by lia.
    rewrite length_app, length_take, length_cons, length_drop. lia.
  - apply ins_keeps_sorted.
  - apply ins_links.
  - apply ins_back.
  - apply ins_tail.
Qed.

End InsertInv.

Lemma insert_link_spec :
  exists x' s',
    insert_link level sc key update rank s = Some (x', s') /\
    inv s' (take t l ++ x' :: drop t l) /\
    (x' ∉ mHeader s :: l) /\
    attrs (heap s') x' = Some (false, sc, key, level) /\
    (forall p, p <> x' -> attrs (heap s') p = attrs (heap s) p) /\
    mDict s' = mDict s /\ mHeader s' = mHeader s /\
    mLevels s' = mLevels s.
Proof.
  destruct insert_link_run as (hf & Hrun & Hcells & Hattrs & Hbwd).
  exists x. eexists. split; [exact Hrun|]. simpl.
  split; [by apply ins_inv|]. split; [apply ins_x_not_node|].
  split; [by apply ins_attrs_x|]. split; [|done].
  intros p Hp. by apply ins_attrs_old.
Qed.

End InsertLink.

Section PrivateInsert.
Context {K : Type} `{Countable K} `{Inhabited K}.

Lemma add32_pos_sem (l : list ptr) a b acc :
  Z.of_nat (length l) < 2 ^ 32 ->
  (a < b <= length l)%nat -> acc = Z.of_nat a ->
  add32 acc (Z.of_nat b - Z.of_nat a) = Z.of_nat b.
Proof.
  intros Hlen Hab ->. unfold add32.
  replace (Z.of_nat a + (Z.of_nat b - Z.of_nat a)) with (Z.of_nat b) by lia.
  apply wrap32_small. lia.
Qed.

(** [private_insert] puts the new node before the first node whose score
    is not below the new score, and keeps the invariant. *)
Lemma private_insert_spec (s : SortedSet K) l level sc key :
  inv s l -> (1 <= level <= SKIPLIST_MAXLEVEL)%nat -> not_nan sc ->
  mLength s < 2 ^ 32 - 1 ->
  exists x s',
    private_insert level sc key s = Some (x, s') /\
    inv s' (take (prefix_len (fun p => flt (score_of (heap s) p) sc) l) l
            ++ x :: drop (prefix_len (fun p => flt (score_of (heap s) p) sc) l) l) /\
    (x ∉ mHeader s :: l) /\
    attrs (heap s') x = Some (false, sc, key, level) /\
    (forall p, p <> x -> attrs (heap s') p = attrs (heap s) p) /\
    mDict s' = mDict s /\ mHeader s' = mHeader s.
Proof.
  intros Hinv Hlevel Hsc Hroom.
  destruct (inv_length _ _ Hinv) as [Hlen Hlenb].
  set (t := prefix_len (fun p => flt (score_of (heap s) p) sc) l).
  unfold private_insert.
  destruct (descend_by_score s l Hinv (fun y => flt y sc) add32
              (fun a acc => acc = Z.of_nat a) (down_closed_flt sc)
              (fun a b acc => add32_pos_sem l a b acc Hlenb) 0 eq_refl)
    as (x0 & acc0 & update & rank & Hd & Hlu & Hlr & Hall & _ & _ & _ & _ & Ht).
  rewrite Hd. simpl.
  destruct (insert_raise_spec s l level t update rank Hinv Hlevel Hlu Hlr)
    as (update1 & rank1 & s1 & Hraise & Hinv1 & Hhd1 & Htl1 & Hlen1 & Hdict1
        & Hlev1 & Hsh1 & Hlu1 & Hall1).
  { intros i Hi. destruct (Hall i Hi) as (ai & ui & ri & Hu & Hr & Hn & Hl & ->).
    by exists ai, ui. }
  rewrite Hraise. simpl.
  destruct (insert_link_spec s1 l level t sc key update1 rank1 Hinv1)
    as (x & s' & Hlink & Hinv' & Hx & Hax & Haold & Hdict' & Hhd' & _).
  - pose proof (inv_levels _ _ Hinv1). lia.
  - done.
  - lia.
  - done.
  - intros i Hi. rewrite Hhd1. by apply Hall1.
  - intros j p Hp. rewrite (attrs_score_of (heap s) (heap s1)) by apply Hsh1.
    by apply (score_test_prefix s l Hinv (fun y => flt y sc) j p
                (down_closed_flt sc)).
  - exists x, s'. split; [done|]. split; [done|].
    split; [by rewrite <- Hhd1|]. split; [done|].
    split; [|split; congruence].
    intros p Hp. rewrite Haold by done. apply Hsh1.
Qed.

End PrivateInsert.

(** ** [private_delete_node] keeps the invariant *)

Section ShrinkLevel.
Context {K : Type} `{Countable K} `{Inhabited K}.

Lemma shrink_level_spec (hd : SkipListNode K) (L : nat) :
  (1 <= L <= length (mLevel hd))%nat ->
  exists L', shrink_level hd L = Some L' /\ (1 <= L' <= L)%nat /\
    (forall j, (L' <= j < L)%nat ->
       exists lv, mLevel hd !! j = Some lv /\ mForward lv = None) /\
    ((1 < L')%nat ->
       exists lv q, mLevel hd !! (L' - 1)%nat = Some lv /\ mForward lv = Some q).
Proof.
  induction L as [|L IH]; intros HL; [lia|].
  destruct L as [|L].
  { exists 1%nat. simpl. split; [done|]. split; [lia|]. split; intros; lia. }
  simpl.
  destruct (lookup_lt_is_Some_2 (mLevel hd) (S L)) as [lv Hlv]; [lia|].
  rewrite Hlv. simpl. destruct (mForward lv) as [q|] eqn:Hfw.
  - exists (S (S L)). split; [done|]. split; [lia|]. split; [intros; lia|].
    intros _. exists lv, q. split; [|done].
    by replace (S (S L) - 1)%nat with (S L) by lia.
  - destruct IH as (L' & Hs & HL' & Hnone & Hsome); [lia|].
    exists L'. split; [done|]. split; [lia|]. split; [|done].
    intros j Hj. destruct (decide (j = S L)) as [->|Hne]; [eauto|].
    apply Hnone. lia.
Qed.

End ShrinkLevel.

Section DeleteNode.
Context {K : Type} `{Countable K} `{Inhabited K}.

Variables (s : SortedSet K) (l : list ptr) (t : nat) (x : ptr).
Variable (update : list ptr).
Hypothesis Hinv : inv s l.
Hypothesis Hx : l !! t = Some x.
Hypothesis Hupd : update_ok (mHeader s :: l) (heap s) (mLevels s) t update.

Let nodes := mHeader s :: l.
Let nodes' := mHeader s :: (take t l ++ drop (S t) l).
Let U (i : nat) : ptr := default (mHeader s) (update !! i).

Lemma del_upd i :
  (i < mLevels s)%nat ->
  update !! i = Some (U i) /\
  exists ai, nodes !! ai = Some (U i) /\ lastle nodes (heap s) i t ai.
Proof.
  intros Hi. destruct (Hupd i Hi) as (ai & ui & Hu & Hn & Hl).
  unfold U. rewrite Hu. simpl. eauto.
Qed.

Lemma del_x_pos : nodes !! (S t) = Some x.
Proof. done. Qed.

Lemma del_t_lt : (t < length l)%nat.
Proof. by eapply lookup_lt_Some. Qed.

Lemma del_U_ne i : (i < mLevels s)%nat -> U i <> x.
Proof.
  intros Hi Heq. destruct (del_upd i Hi) as (_ & ai & Hn & Hle & _).
  rewrite Heq in Hn.
  pose proof (inv_pos_inj s l Hinv ai (S t) x Hn del_x_pos). lia.
Qed.

Lemma del_U_level i :
  (i < mLevels s)%nat -> is_Some (level_at (heap s) (U i) i).
Proof.
  intros Hi. destruct (del_upd i Hi) as (_ & ai & Hn & _ & (p & Hp & Hh) & _).
  apply hgt_level_at. unfold nodes in *. congruence.
Qed.

(** What the unlinking loop leaves at level [i]. *)
Let del_E (i : nat) (p : ptr) : option SkipListLevel :=
  if decide (p = U i) then
    ulv ← level_at (heap s) (U i) i;
    if decide (mForward ulv = Some x) then
      xlv ← level_at (heap s) x i;
      Some (mkLevel (mForward xlv)
              (wrap32 (mSpan ulv + wrap32 (mSpan xlv - 1))))
    else Some (set_span (wrap32 (mSpan ulv - 1)) ulv)
  else level_at (heap s) p i.

Lemma del_forward_x_level i ulv :
  (i < mLevels s)%nat -> level_at (heap s) (U i) i = Some ulv ->
  mForward ulv = Some x -> is_Some (level_at (heap s) x i).
Proof.
  intros Hi Hulv Hfw. destruct (del_upd i Hi) as (_ & ai & Hn & _).
  pose proof (inv_links _ _ Hinv ai (U i) i ulv Hn Hulv) as Hlk.
  unfold link_ok in Hlk. rewrite Hfw in Hlk.
  destruct Hlk as (b & _ & _ & Hh & _). by apply hgt_level_at.
Qed.

Lemma del_loop :
  exists h1,
    for_loop
      (fun i h =>
         u ← update !! i;
         ulv ← level_at h u i;
         if decide (mForward ulv = Some x) then
           xlv ← level_at h x i;
           upd_level u i
             (fun _ => mkLevel (mForward xlv)
                         (wrap32 (mSpan ulv + wrap32 (mSpan xlv - 1)))) h
         else
           upd_level u i (set_span (wrap32 (mSpan ulv - 1))) h)
      0 (mLevels s) (heap s) = Some h1 /\
    same_shape (heap s) h1 /\
    forall p j, level_at h1 p j =
      if decide (0 <= j < 0 + mLevels s)%nat then del_E j p
      else level_at (heap s) p j.
Proof.
  apply for_loop_cells. intros i hc Hi Hsh Hrow.
  destruct (del_upd i) as (Hu & _); [lia|].
  destruct (del_U_level i) as [ulv Hulv]; [lia|].
  rewrite Hu. simpl. rewrite (Hrow (U i)), Hulv. simpl.
  destruct (decide (mForward ulv = Some x)) as [Hfw|Hfw].
  - destruct (del_forward_x_level i ulv ltac:(lia) Hulv Hfw) as [xlv Hxlv].
    rewrite (Hrow x), Hxlv. simpl.
    destruct (upd_level_spec hc (U i) i
                (fun _ => mkLevel (mForward xlv)
                            (wrap32 (mSpan ulv + wrap32 (mSpan xlv - 1)))) ulv)
      as (h' & Hu1 & Hsh1 & Hc1).
    { by rewrite Hrow. }
    exists h'. split; [done|]. split; [done|]. split.
    + intros p. rewrite Hc1. unfold del_E.
      destruct (decide (p = U i)) as [->|Hpu].
      * rewrite decide_True by done. rewrite Hulv. simpl.
        rewrite decide_True by done. by rewrite Hxlv.
      * rewrite decide_False by (intros [? _]; done). apply Hrow.
    + intros p j Hj. rewrite Hc1.
      by rewrite decide_False by (intros [_ ?]; done).
  - destruct (upd_level_spec hc (U i) i
                (set_span (wrap32 (mSpan ulv - 1))) ulv)
      as (h' & Hu1 & Hsh1 & Hc1).
    { by rewrite Hrow. }
    exists h'. split; [done|]. split; [done|]. split.
    + intros p. rewrite Hc1. unfold del_E.
      destruct (decide (p = U i)) as [->|Hpu].
      * rewrite decide_True by done. rewrite Hulv. simpl.
        by rewrite decide_False by done.
      * rewrite decide_False by (intros [? _]; done). apply Hrow.
    + intros p j Hj. rewrite Hc1.
      by rewrite decide_False by (intros [_ ?]; done).
Qed.

Let bwd_x : option ptr := match t with O => None | S t' => l !! t' end.

Lemma del_run :
  exists hf L',
    private_delete_node x update s =
      Some (mkSet hf (mHeader s)
              (match l !! (S t) with Some _ => mTail s | None => bwd_x end)
              (wrap64 (mLength s - 1)) L' (mDict s)) /\
    (forall p j, level_at hf p j =
       if decide (j < mLevels s)%nat then del_E j p
       else level_at (heap s) p j) /\
    (forall p, attrs hf p = attrs (heap s) p) /\
    (forall p, bwd hf p =
       if decide (l !! (S t) = Some p) then Some bwd_x
       else bwd (heap s) p) /\
    (1 <= L' <= mLevels s)%nat /\
    (forall j, (L' <= j < mLevels s)%nat ->
       exists lv, level_at hf (mHeader s) j = Some lv /\ mForward lv = None).
Proof.
  unfold private_delete_node.
  destruct del_loop as (h1 & Hloop & Hsh1 & Hc1).
  rewrite Hloop. simpl.
  pose proof (inv_levels _ _ Hinv) as HL.
  destruct (inv_level0 s l Hinv (S t) x del_x_pos) as [xlv Hxlv].
  pose proof (inv_forward0 s l Hinv (S t) x xlv del_x_pos Hxlv) as Hfw.
  assert (forall p j, level_at h1 p j =
     if decide (j < mLevels s)%nat then del_E j p
     else level_at (heap s) p j) as Hcells.
  { intros p j. rewrite Hc1.
    destruct (decide (j < mLevels s)%nat).
    - by rewrite decide_True by lia.
    - by rewrite decide_False by lia. }
  assert (level_at h1 x 0 = Some xlv) as Hxlv1.
  { rewrite Hcells. rewrite decide_True by lia. unfold del_E.
    rewrite decide_False; [done|]. intros Heq.
    by apply (del_U_ne 0%nat ltac:(lia)). }
  rewrite Hxlv1. simpl.
  pose proof (inv_back _ _ Hinv t x Hx) as Hbx. fold bwd_x in Hbx.
  destruct (Hsh1 x) as [_ Hbx1]. rewrite Hbx in Hbx1.
  unfold bwd in Hbx1. destruct (h1 !! x) as [xn|] eqn:Hxn; [|done].
  simpl in Hbx1. injection Hbx1 as Hbx1. simpl. rewrite Hbx1, Hfw.
  destruct (inv_header _ _ Hinv) as (sc0 & k0 & Hhd).
  destruct (l !! (S t)) as [f|] eqn:Hf.
  - destruct (upd_backward_spec h1 f bwd_x) as (h2 & Hb2 & Hl2 & Ha2 & Hbw2).
    { apply (same_shape_dom _ _ f Hsh1). apply (inv_dom _ _ Hinv).
      right. by eapply list_elem_of_lookup_2. }
    rewrite Hb2. simpl.
    assert (attrs h2 (mHeader s) = Some (true, sc0, k0, SKIPLIST_MAXLEVEL))
      as Hhd2.
    { rewrite Ha2. by destruct (Hsh1 (mHeader s)) as [-> _]. }
    apply attrs_Some in Hhd2 as (_ & _ & _ & hd & Hhd2 & _ & _ & _ & Hlen).
    rewrite Hhd2. simpl.
    destruct (shrink_level_spec hd (mLevels s)) as (L' & Hs & HL' & Hnone & _).
    { rewrite Hlen. lia. }
    rewrite Hs. simpl. exists h2, L'. split; [done|].
    split; [|split; [|split; [|split; [done|]]]].
    + intros p j. rewrite Hl2. apply Hcells.
    + intros p. rewrite Ha2. by destruct (Hsh1 p) as [-> _].
    + intros p. rewrite Hbw2. destruct (decide (p = f)) as [->|Hpf].
      * by rewrite decide_True.
      * rewrite decide_False by congruence. by destruct (Hsh1 p) as [_ ->].
    + intros j Hj. destruct (Hnone j Hj) as (lv & Hlv & Hn).
      exists lv. split; [|done]. unfold level_at. by rewrite Hhd2.
  - assert (attrs h1 (mHeader s) = Some (true, sc0, k0, SKIPLIST_MAXLEVEL))
      as Hhd2.
    { by destruct (Hsh1 (mHeader s)) as [-> _]. }
    apply attrs_Some in Hhd2 as (_ & _ & _ & hd & Hhd2 & _ & _ & _ & Hlen).
    simpl. rewrite Hhd2. simpl.
    destruct (shrink_level_spec hd (mLevels s)) as (L' & Hs & HL' & Hnone & _).
    { rewrite Hlen. lia. }
    rewrite Hs. simpl. exists h1, L'. split; [done|].
    split; [|split; [|split; [|split; [done|]]]].
    + apply Hcells.
    + intros p. by destruct (Hsh1 p) as [-> _].
    + intros p. by destruct (Hsh1 p) as [_ ->].
    + intros j Hj. destruct (Hnone j Hj) as (lv & Hlv & Hn).
      exists lv. split; [|done]. unfold level_at. by rewrite Hhd2.
Qed.

Section DeleteInv.
Variables (hf : gmap ptr (SkipListNode K)) (L' : nat).
Hypothesis Hcells : forall p j, level_at hf p j =
  if decide (j < mLevels s)%nat then del_E j p else level_at (heap s) p j.
Hypothesis Hattrs : forall p, attrs hf p = attrs (heap s) p.
Hypothesis Hbwd : forall p, bwd hf p =
  if decide (l !! (S t) = Some p) then Some bwd_x else bwd (heap s) p.
Hypothesis HL' : (1 <= L' <= mLevels s)%nat.
Hypothesis Hnone : forall j, (L' <= j < mLevels s)%nat ->
  exists lv, level_at hf (mHeader s) j = Some lv /\ mForward lv = None.

Let hd := delete x hf.

Lemma del_hd_level p j :
  level_at hd p j = if decide (p = x) then None else level_at hf p j.
Proof.
  unfold level_at, hd. destruct (decide (p = x)) as [->|Hne].
  - by rewrite lookup_delete_eq.
  - by rewrite lookup_delete_ne.
Qed.

Lemma del_hd_attrs p :
  attrs hd p = if decide (p = x) then None else attrs (heap s) p.
Proof.
  unfold attrs at 1, hd. destruct (decide (p = x)) as [->|Hne].
  - by rewrite lookup_delete_eq.
  - rewrite lookup_delete_ne by done. apply Hattrs.
Qed.

Lemma del_hd_bwd p :
  p <> x ->
  bwd hd p = if decide (l !! (S t) = Some p) then Some bwd_x
             else bwd (heap s) p.
Proof.
  intros Hne. unfold bwd at 1, hd. rewrite lookup_delete_ne by done.
  apply Hbwd.
Qed.

Lemma del_hgt p : p <> x -> hgt hd p = hgt (heap s) p.
Proof.
  intros Hne. apply attrs_hgt. rewrite del_hd_attrs. by rewrite decide_False.
Qed.

Lemma del_nodes_le c : (c <= t)%nat -> nodes' !! c = nodes !! c.
Proof.
  intros Hc. unfold nodes', nodes. destruct c as [|c]; [done|].
  simpl. apply lookup_del_lt. lia.
Qed.

Lemma del_nodes_gt c : (t < c)%nat -> nodes' !! c = nodes !! (S c).
Proof.
  intros Hc. unfold nodes', nodes. destruct c as [|c]; [lia|].
  simpl. apply lookup_del_ge. lia.
Qed.

Lemma del_node_ne c pc : nodes !! c = Some pc -> c <> S t -> pc <> x.
Proof.
  intros Hc Hne ->. apply Hne.
  by apply (inv_pos_inj s l Hinv c (S t) x).
Qed.

Lemma del_hgt_le c pc : nodes !! c = Some pc -> (c <= t)%nat ->
  hgt hd pc = hgt (heap s) pc.
Proof. intros Hc Hle. apply del_hgt. apply (del_node_ne c); [done|lia]. Qed.

Lemma del_hgt_gt c pc : nodes !! c = Some pc -> (S t < c)%nat ->
  hgt hd pc = hgt (heap s) pc.
Proof. intros Hc Hle. apply del_hgt. apply (del_node_ne c); [done|lia]. Qed.

Lemma del_link_after a p j lv :
  (S t < a)%nat -> nodes !! a = Some p -> level_at (heap s) p j = Some lv ->
  link_ok nodes' hd (a - 1) j lv.
Proof.
  intros Hat Ha Hlv.
  pose proof (inv_links _ _ Hinv a p j lv Ha Hlv) as Hlk.
  unfold link_ok in *. destruct (mForward lv) as [q|].
  - destruct Hlk as (b & Hab & Hb & Hhq & Hmid & Hspan).
    exists (b - 1)%nat. split; [lia|]. split.
    { rewrite del_nodes_gt by lia. by replace (S (b - 1)) with b by lia. }
    split. { rewrite (del_hgt_gt b q Hb); [done|lia]. }
    split; [|lia].
    intros c pc Hc Hpc. rewrite del_nodes_gt in Hpc by lia.
    rewrite (del_hgt_gt _ _ Hpc) by lia. apply (Hmid (S c)); [lia|done].
  - intros c pc Hc Hpc. rewrite del_nodes_gt in Hpc by lia.
    rewrite (del_hgt_gt _ _ Hpc) by lia. apply (Hlk (S c)); [lia|done].
Qed.

Lemma del_link_before a p j lv a1 p1 :
  nodes !! a = Some p -> level_at (heap s) p j = Some lv ->
  (a < a1 <= t)%nat -> nodes !! a1 = Some p1 -> (j < hgt (heap s) p1)%nat ->
  link_ok nodes' hd a j lv.
Proof.
  intros Ha Hlv Ha1 Hp1 Hh1.
  pose proof (inv_links _ _ Hinv a p j lv Ha Hlv) as Hlk.
  unfold link_ok in *. destruct (mForward lv) as [q|].
  - destruct Hlk as (b & Hab & Hb & Hhq & Hmid & Hspan).
    assert (b <= a1)%nat as Hba1.
    { destruct (decide (b <= a1)%nat); [done|].
      specialize (Hmid a1 p1 ltac:(lia) Hp1). lia. }
    exists b. split; [lia|]. split.
    { rewrite del_nodes_le by lia. done. }
    split. { rewrite (del_hgt_le b q Hb); [done|lia]. }
    split; [|lia].
    intros c pc Hc Hpc. rewrite del_nodes_le in Hpc by lia.
    rewrite (del_hgt_le _ _ Hpc) by lia. by apply (Hmid c).
  - specialize (Hlk a1 p1 ltac:(lia) Hp1). lia.
Qed.

(** The heights behind a position in the new list, from the old list. *)
Lemma del_new_hgt_le c pc j :
  nodes' !! c = Some pc ->
  (forall c0 pc0, nodes !! c0 = Some pc0 ->
     ((c0 = c /\ c <= t) \/ (c0 = S c /\ t < c))%nat ->
     (hgt (heap s) pc0 <= j)%nat) ->
  (hgt hd pc <= j)%nat.
Proof.
  intros Hpc Hold. destruct (decide (c <= t)%nat) as [Hc|Hc].
  - rewrite del_nodes_le in Hpc by lia.
    rewrite (del_hgt_le _ _ Hpc) by lia. apply (Hold c pc Hpc). left. lia.
  - rewrite del_nodes_gt in Hpc by lia.
    rewrite (del_hgt_gt _ _ Hpc) by lia. apply (Hold _ pc Hpc). right. lia.
Qed.

Lemma del_link_pred j ai lv :
  (j < mLevels s)%nat -> nodes !! ai = Some (U j) ->
  lastle nodes (heap s) j t ai -> del_E j (U j) = Some lv ->
  link_ok nodes' hd ai j lv.
Proof.
  intros Hj Hn (Hat & _ & Hafter) HE.
  destruct (inv_length _ _ Hinv) as [_ Hlenb].
  destruct (del_U_level j Hj) as [ulv Hulv].
  pose proof (inv_links _ _ Hinv ai (U j) j ulv Hn Hulv) as Hlk.
  unfold del_E in HE. rewrite decide_True in HE by done.
  rewrite Hulv in HE. simpl in HE.
  destruct (decide (mForward ulv = Some x)) as [Hfw|Hfw].
  - destruct (level_at (heap s) x j) as [xlv|] eqn:Hxlv; [|done].
    simpl in HE. injection HE as <-.
    pose proof (inv_links _ _ Hinv (S t) x j xlv del_x_pos Hxlv) as Hlkx.
    unfold link_ok in Hlk. rewrite Hfw in Hlk.
    destruct Hlk as (b & Hab & Hb & Hhx & Hmid & Hspan).
    assert (b = S t) as -> by (by apply (inv_pos_inj s l Hinv b (S t) x)).
    unfold link_ok in *. simpl. destruct (mForward xlv) as [q|].
    + destruct Hlkx as (b2 & Hab2 & Hb2 & Hhq & Hmid2 & Hspan2).
      pose proof (inv_pos_bound s l _ _ Hb2) as Hbn.
      exists (b2 - 1)%nat. split; [lia|]. split.
      { rewrite del_nodes_gt by lia. by replace (S (b2 - 1)) with b2 by lia. }
      split. { rewrite (del_hgt_gt b2 q Hb2); [done|lia]. }
      split.
      * intros c pc Hc Hpc. apply (del_new_hgt_le c pc j Hpc).
        intros c0 pc0 Hpc0 [[-> Hle]|[-> Hgt]].
        -- apply (Hmid c pc0); [lia|done].
        -- apply (Hmid2 (S c) pc0); [lia|done].
      * rewrite Hspan, Hspan2.
        rewrite (wrap32_small (Z.of_nat b2 - Z.of_nat (S t) - 1)) by lia.
        rewrite wrap32_small by lia. lia.
    + intros c pc Hc Hpc. apply (del_new_hgt_le c pc j Hpc).
      intros c0 pc0 Hpc0 [[-> Hle]|[-> Hgt]].
      * apply (Hmid c pc0); [lia|done].
      * apply (Hlkx (S c) pc0); [lia|done].
  - injection HE as <-. unfold link_ok in *. simpl.
    destruct (mForward ulv) as [q|] eqn:Hq.
    + destruct Hlk as (b & Hab & Hb & Hhq & Hmid & Hspan).
      pose proof (inv_pos_bound s l _ _ Hb) as Hbn.
      assert (S t < b)%nat as Hb'.
      { destruct (decide (b <= t)%nat) as [Hle|Hgt].
        - specialize (Hafter b q ltac:(lia) Hb). lia.
        - destruct (decide (b = S t)) as [->|?]; [|lia].
          exfalso. apply Hfw. f_equal.
          pose proof del_x_pos. unfold nodes in *. congruence. }
      exists (b - 1)%nat. split; [lia|]. split.
      { rewrite del_nodes_gt by lia. by replace (S (b - 1)) with b by lia. }
      split. { rewrite (del_hgt_gt b q Hb); [done|lia]. }
      split.
      * intros c pc Hc Hpc. apply (del_new_hgt_le c pc j Hpc).
        intros c0 pc0 Hpc0 [[-> Hle]|[-> Hgt]].
        -- apply (Hmid c pc0); [lia|done].
        -- apply (Hmid (S c) pc0); [lia|done].
      * rewrite Hspan. rewrite wrap32_small by lia. lia.
    + intros c pc Hc Hpc. apply (del_new_hgt_le c pc j Hpc).
      intros c0 pc0 Hpc0 [[-> Hle]|[-> Hgt]].
      * apply (Hlk c pc0); [lia|done].
      * apply (Hlk (S c) pc0); [lia|done].
Qed.

Lemma del_link_top j lv :
  (mLevels s <= j)%nat -> level_at (heap s) (mHeader s) j = Some lv ->
  link_ok nodes' hd 0 j lv.
Proof.
  intros Hj Hlv.
  pose proof (header_level_None s l Hinv j lv Hj Hlv) as Hnone'.
  unfold link_ok. rewrite Hnone'.
  intros c pc Hc Hpc. apply (del_new_hgt_le c pc j Hpc).
  intros c0 pc0 Hpc0 Hc0. destruct c0 as [|c0]; [lia|].
  pose proof (inv_hgt_le s l Hinv c0 pc0 Hpc0). lia.
Qed.

Lemma del_old_cell a p j lv :
  nodes !! a = Some p ->
  (forall ai, (j < mLevels s)%nat -> nodes !! ai = Some (U j) -> a <> ai) ->
  level_at hf p j = Some lv -> level_at (heap s) p j = Some lv.
Proof.
  intros Ha Hne Hlv. rewrite Hcells in Hlv.
  destruct (decide (j < mLevels s)%nat) as [Hj|Hj]; [|exact Hlv].
  unfold del_E in Hlv. rewrite decide_False in Hlv; [done|].
  intros ->. destruct (del_upd j Hj) as (_ & ai & Hn & _).
  apply (Hne ai Hj Hn). by apply (inv_pos_inj s l Hinv a ai (U j)).
Qed.

Lemma del_links a' p j lv :
  nodes' !! a' = Some p -> level_at hd p j = Some lv ->
  link_ok nodes' hd a' j lv.
Proof.
  intros Ha' Hlv. rewrite del_hd_level in Hlv.
  destruct (decide (p = x)) as [|Hpx]; [done|].
  destruct (decide (a' <= t)%nat) as [Hle|Hgt].
  - rewrite del_nodes_le in Ha' by lia.
    destruct (decide (j < mLevels s)%nat) as [Hj|Hj].
    + destruct (del_upd j Hj) as (_ & ai & Hn & Hlast).
      destruct (decide (a' = ai)) as [->|Hne].
      * assert (p = U j) as -> by (unfold nodes in *; congruence).
        rewrite Hcells in Hlv. rewrite decide_True in Hlv by done.
        by apply del_link_pred.
      * apply del_old_cell with (a := a') in Hlv; [|done|].
        2: { intros ai' _ Hn' ->. apply Hne.
             by apply (inv_pos_inj s l Hinv ai' ai (U j)). }
        pose proof (level_at_hgt _ _ _ _ Hlv) as Hhp.
        destruct Hlast as (Hat & (pj & Hpj & Hhj) & Hafter).
        assert (a' < ai)%nat as Hlt'.
        { destruct (decide (a' < ai)%nat); [done|].
          specialize (Hafter a' p ltac:(lia) Ha'). lia. }
        by apply (del_link_before a' p j lv ai pj).
    + apply del_old_cell with (a := a') in Hlv; [|done|intros; lia].
      pose proof (level_at_hgt _ _ _ _ Hlv) as Hhp.
      destruct a' as [|a'].
      * injection Ha' as <-. apply del_link_top; [lia|done].
      * pose proof (inv_hgt_le s l Hinv a' p Ha'). lia.
  - rewrite del_nodes_gt in Ha' by lia.
    apply del_old_cell with (a := S a') in Hlv; [|done|].
    + assert (link_ok nodes' hd (S a' - 1) j lv) as Hres
        by (apply (del_link_after (S a') p j lv); [lia|done|done]).
      by replace (S a' - 1)%nat with a' in Hres by lia.
    + intros ai Hj Hn <-. destruct (del_upd j Hj) as (_ & ai' & Hn' & Hle' & _).
      pose proof (inv_pos_inj s l Hinv _ _ _ Hn Hn'). lia.
Qed.

Lemma del_hdr_ne : mHeader s <> x.
Proof. apply (del_node_ne 0%nat); [done|lia]. Qed.

Lemma del_hgt_L' c pc :
  nodes' !! (S c) = Some pc -> (hgt hd pc <= L')%nat.
Proof.
  intros Hpc. destruct (decide (L' = mLevels s)) as [Heq|Hne].
  - rewrite Heq. apply (del_new_hgt_le (S c) pc (mLevels s) Hpc).
    intros c0 pc0 Hpc0 Hc0. destruct c0 as [|c0]; [lia|].
    pose proof (inv_hgt_le s l Hinv c0 pc0 Hpc0). lia.
  - destruct (Hnone L') as (lv & Hlv & Hfw); [lia|].
    assert (level_at hd (mHeader s) L' = Some lv) as Hlv'.
    { rewrite del_hd_level. by rewrite decide_False by apply del_hdr_ne. }
    pose proof (del_links 0%nat (mHeader s) L' lv eq_refl Hlv') as Hlk.
    unfold link_ok in Hlk. rewrite Hfw in Hlk.
    apply (Hlk (S c) pc); [lia|done].
Qed.

Lemma del_l_le c : (c < t)%nat -> (take t l ++ drop (S t) l) !! c = l !! c.
Proof. apply lookup_del_lt. Qed.

Lemma del_l_ge c :
  (t <= c)%nat -> (take t l ++ drop (S t) l) !! c = l !! (S c).
Proof. apply lookup_del_ge. Qed.

Lemma del_l_elem p :
  p ∈ take t l ++ drop (S t) l <-> p ∈ l /\ p <> x.
Proof.
  split.
  - intros [c Hc]%list_elem_of_lookup_1.
    destruct (decide (c < t)%nat).
    + rewrite del_l_le in Hc by lia. split.
      * by eapply list_elem_of_lookup_2.
      * apply (del_node_ne (S c)); [done|lia].
    + rewrite del_l_ge in Hc by lia. split.
      * by eapply list_elem_of_lookup_2.
      * apply (del_node_ne (S (S c))); [done|lia].
  - intros [[c Hc]%list_elem_of_lookup_1 Hne].
    destruct (Nat.lt_trichotomy c t) as [Hlt|[->|Hgt]].
    + apply (list_elem_of_lookup_2 _ c). by rewrite del_l_le by lia.
    + congruence.
    + apply (list_elem_of_lookup_2 _ (c - 1)%nat).
      rewrite del_l_ge by lia. by replace (S (c - 1)) with c by lia.
Qed.

Lemma del_l_inj a b p : l !! a = Some p -> l !! b = Some p -> a = b.
Proof.
  intros Ha Hb.
  assert (S a = S b) by (by apply (inv_pos_inj s l Hinv (S a) (S b) p)).
  lia.
Qed.

Lemma del_back a p :
  (take t l ++ drop (S t) l) !! a = Some p ->
  bwd hd p =
  Some (match a with
        | O => None
        | S a' => (take t l ++ drop (S t) l) !! a'
        end).
Proof.
  intros Ha.
  assert (p <> x) as Hpx.
  { assert (p ∈ take t l ++ drop (S t) l) as Hin
      by (by eapply list_elem_of_lookup_2).
    by apply del_l_elem in Hin as [_ ?]. }
  rewrite del_hd_bwd by done.
  destruct (Nat.lt_trichotomy a t) as [Hat|[->|Hat]].
  - rewrite del_l_le in Ha by lia.
    rewrite decide_False.
    2: { intros Hq. pose proof (del_l_inj _ _ _ Ha Hq). lia. }
    rewrite (inv_back _ _ Hinv a p Ha). f_equal.
    destruct a as [|a']; [done|]. by rewrite del_l_le by lia.
  - rewrite del_l_ge in Ha by lia.
    rewrite decide_True by done. f_equal. unfold bwd_x.
    rewrite !match_pred_lookup. destruct (decide (t = 0)%nat); [done|].
    by rewrite del_l_le by lia.
  - rewrite del_l_ge in Ha by lia.
    rewrite decide_False.
    2: { intros Hq. pose proof (del_l_inj _ _ _ Ha Hq). lia. }
    rewrite (inv_back _ _ Hinv (S a) p Ha). f_equal.
    destruct a as [|a']; [lia|]. by rewrite del_l_ge by lia.
Qed.

Lemma del_tail :
  match l !! (S t) with Some _ => mTail s | None => bwd_x end =
  last (take t l ++ drop (S t) l).
Proof.
  pose proof del_t_lt as Htl.
  rewrite last_lookup.
  rewrite length_app, length_take, length_drop.
  replace (Init.Nat.pred (t `min` length l + (length l - S t)))%nat
    with (length l - 2)%nat by lia.
  destruct (l !! (S t)) as [f|] eqn:Hf.
  - apply lookup_lt_Some in Hf.
    rewrite del_l_ge by lia.
    rewrite (inv_tail _ _ Hinv), last_lookup. f_equal. lia.
  - apply lookup_ge_None_1 in Hf. unfold bwd_x.
    rewrite match_pred_lookup. destruct (decide (t = 0)%nat).
    + rewrite lookup_ge_None_2; [done|].
      rewrite length_app, length_take, length_drop. lia.
    + rewrite del_l_le by lia. f_equal. lia.
Qed.

Lemma del_inv :
  inv (mkSet hd (mHeader s)
         (match l !! (S t) with Some _ => mTail s | None => bwd_x end)
         (wrap64 (mLength s - 1)) L' (mDict s))
      (take t l ++ drop (S t) l).
Proof.
  pose proof del_t_lt as Htl.
  destruct (inv_length _ _ Hinv) as [Hlen Hlenb].
  pose proof (inv_nodup _ _ Hinv) as Hnd.
  apply NoDup_cons in Hnd as [Hhl Hndl].
  pose proof (inv_levels _ _ Hinv) as HL.
  constructor; simpl.
  - apply NoDup_cons. split.
    + intros Hin. apply del_l_elem in Hin as [Hin _]. done.
    + rewrite <- delete_take_drop.
      eapply sublist_NoDup; [exact Hndl|apply sublist_delete].
  - intros p. unfold hd.
    destruct (decide (p = x)) as [->|Hpx].
    + rewrite lookup_delete_eq. split; [by intros [? ?]|].
      intros Hin. apply elem_of_cons in Hin as [Hin|Hin].
      * by destruct del_hdr_ne.
      * by apply del_l_elem in Hin as [_ ?].
    + rewrite lookup_delete_ne by done.
      rewrite <- attrs_is_Some, Hattrs, attrs_is_Some, (inv_dom _ _ Hinv).
      rewrite !elem_of_cons, del_l_elem. tauto.
  - rewrite del_hd_attrs. rewrite decide_False by apply del_hdr_ne.
    apply Hinv.
  - intros p Hp. pose proof Hp as Hp'.
    apply del_l_elem in Hp as [Hp Hpx].
    rewrite del_hd_attrs. rewrite decide_False by done.
    destruct (inv_node _ _ Hinv p Hp) as (sc & k & n & Hn & Hl & Hnn).
    exists sc, k, n. split; [done|]. split; [|done].
    apply list_elem_of_lookup_1 in Hp' as [c Hc].
    pose proof (del_hgt_L' c p Hc) as HhL.
    rewrite del_hgt in HhL by done.
    apply attrs_Some in Hn as (Hh & _). lia.
  - lia.
  - rewrite wrap64_small by lia.
    rewrite length_app, length_take, length_drop. lia.
  - intros a b pa pb Hab Hpa Hpb.
    assert (forall p, p ∈ take t l ++ drop (S t) l ->
                      score_of hd p = score_of (heap s) p) as Hsc.
    { intros p [_ Hpx]%del_l_elem. apply attrs_score_of.
      rewrite del_hd_attrs. by rewrite decide_False. }
    rewrite !Hsc by by eapply list_elem_of_lookup_2.
    destruct (decide (a < t)%nat), (decide (b < t)%nat).
    + rewrite del_l_le in Hpa, Hpb by lia.
      by apply (inv_sorted _ _ Hinv a b).
    + rewrite del_l_le in Hpa by lia. rewrite del_l_ge in Hpb by lia.
      apply (inv_sorted _ _ Hinv a (S b)); [lia|done|done].
    + lia.
    + rewrite del_l_ge in Hpa, Hpb by lia.
      apply (inv_sorted _ _ Hinv (S a) (S b)); [lia|done|done].
  - apply del_links.
  - apply del_back.
  - apply del_tail.
Qed.

Lemma del_update_ok :
  update_ok nodes' hd L' t update.
Proof.
  intros i Hi. destruct (del_upd i ltac:(lia)) as (Hu & ai & Hn & Hlast).
  exists ai, (U i). split; [done|].
  destruct Hlast as (Hat & (p & Hp & Hhp) & Hafter).
  split; [by rewrite del_nodes_le|]. split; [done|]. split.
  - exists p. split; [by rewrite del_nodes_le|].
    rewrite (del_hgt_le ai p Hp); [done|lia].
  - intros c pc Hc Hpc. rewrite del_nodes_le in Hpc by lia.
    rewrite (del_hgt_le c pc Hpc) by lia. by apply (Hafter c).
Qed.

End DeleteInv.

(** Unlinking and freeing the node at position [t + 1]. *)
Lemma private_delete_node_spec :
  exists s',
    private_delete_node x update s = Some s' /\
    inv (set_heap (delete x (heap s')) s') (take t l ++ drop (S t) l) /\
    mDict s' = mDict s /\ mHeader s' = mHeader s /\
    (forall p, p <> x ->
       attrs (delete x (heap s')) p = attrs (heap s) p) /\
    update_ok (mHeader s :: take t l ++ drop (S t) l) (delete x (heap s'))
              (mLevels s') t update.
Proof.
  destruct del_run as (hf & L' & Hrun & Hcells & Hattrs & Hbwd & HL' & Hnone).
  eexists. split; [exact Hrun|]. simpl. unfold set_heap. simpl.
  split; [by apply del_inv|]. split; [done|]. split; [done|]. split.
  - intros p Hp. rewrite del_hd_attrs by done. by rewrite decide_False.
  - by apply del_update_ok.
Qed.

End DeleteNode.

(** ** [private_delete] and the range deletions *)

Section PrivateDelete.
Context {K : Type} `{Countable K} `{Inhabited K}.

(** The descents that only compare scores: [update] and the node reached. *)
Lemma descend_score_update (s : SortedSet K) l (P : score -> bool) :
  inv s l -> down_closed P ->
  exists x' acc' update rank,
    descend (fuel_of (heap s)) (heap s) (fun ny _ _ => P (mScore ny)) no_acc
            (mLevels s) (mHeader s) 0 = Some (x', acc', update, rank) /\
    update_ok (mHeader s :: l) (heap s) (mLevels s)
              (prefix_len (fun p => P (score_of (heap s) p)) l) update /\
    (mHeader s :: l) !! (prefix_len (fun p => P (score_of (heap s) p)) l)
      = Some x' /\
    (prefix_len (fun p => P (score_of (heap s) p)) l <= length l)%nat.
Proof.
  intros Hinv HP.
  destruct (descend_by_score s l Hinv P no_acc (fun _ _ => True) HP
              (fun a b acc _ _ => I) 0 I)
    as (x' & acc' & update & rank & Hd & Hlu & Hlr & Hall & _ & _ & Hx & _ & Ht).
  exists x', acc', update, rank. split; [done|]. split; [|done].
  intros i Hi. destruct (Hall i Hi) as (ai & ui & ri & Hu & _ & Hn & Hl & _).
  by exists ai, ui.
Qed.

Lemma private_delete_spec (s : SortedSet K) l sc key :
  inv s l ->
  exists r,
    private_delete sc key s = Some r /\
    ((exists y,
        l !! prefix_len (fun p => flt (score_of (heap s) p) sc) l = Some y /\
        feq sc (score_of (heap s) y) = true /\ key_of (heap s) y = key /\
        r.1 = true /\
        inv r.2 (take (prefix_len (fun p => flt (score_of (heap s) p) sc) l) l
                 ++ drop (S (prefix_len (fun p => flt (score_of (heap s) p) sc) l)) l) /\
        mDict r.2 = mDict s /\ mHeader r.2 = mHeader s /\
        (forall p, p <> y -> attrs (heap r.2) p = attrs (heap s) p)) \/
     ((forall y,
         l !! prefix_len (fun p => flt (score_of (heap s) p) sc) l = Some y ->
         feq sc (score_of (heap s) y)
           && bool_decide (key_of (heap s) y = key) = false) /\
      r = (false, s))).
Proof.
  intros Hinv. set (t := prefix_len (fun p => flt (score_of (heap s) p) sc) l).
  unfold private_delete.
  destruct (descend_score_update s l (fun y => flt y sc) Hinv
              (down_closed_flt sc))
    as (x' & acc' & update & rank & Hd & Hupd & Hx' & Ht).
  fold t in Hupd, Hx', Ht. rewrite Hd. simpl.
  destruct (inv_level0 s l Hinv t x' Hx') as [xlv Hxlv].
  rewrite Hxlv. simpl.
  rewrite (inv_forward0 s l Hinv t x' xlv Hx' Hxlv).
  destruct (l !! t) as [y|] eqn:Hy.
  2: { eexists. split; [done|]. right. split; [|done]. intros y' Hy'. done. }
  destruct (inv_lookup_node s l Hinv (S t) y Hy) as [ny Hny].
  rewrite Hny. simpl.
  assert (score_of (heap s) y = mScore ny) as Hsy
    by (unfold score_of; by rewrite Hny).
  assert (key_of (heap s) y = mKey ny) as Hky
    by (unfold key_of; by rewrite Hny).
  rewrite <- Hsy, <- Hky.
  destruct (feq sc (score_of (heap s) y)
            && bool_decide (key_of (heap s) y = key)) eqn:Htest.
  - apply andb_true_iff in Htest as [Hfeq Hkey].
    apply bool_decide_eq_true_1 in Hkey.
    destruct (private_delete_node_spec s l t y update Hinv Hy Hupd)
      as (s' & Hdel & Hinv' & Hdict & Hhd & Hattrs & _).
    rewrite Hdel. simpl. eexists. split; [done|]. left.
    exists y. simpl. split_and!; try done.
  - eexists. split; [done|]. right. split; [|done].
    intros y' [= <-]. done.
Qed.

End PrivateDelete.

Section DeleteRange.
Context {K : Type} `{Countable K} `{Inhabited K}.

Lemma inv_set_mDict (s : SortedSet K) l d : inv s l -> inv (set_mDict d s) l.
Proof. intros [? ? ? ? ? ? ? ? ? ?]. by constructor. Qed.

Lemma count_keep_ext (f g : ptr -> Z -> bool) (l : list ptr) tr :
  (forall p tr', p ∈ l -> f p tr' = g p tr') ->
  count_keep f l tr = count_keep g l tr.
Proof.
  revert tr. induction l as [|p l IH]; intros tr Hfg; [done|].
  simpl. rewrite (Hfg p tr) by by left.
  destruct (g p tr); [|done]. f_equal. apply IH.
  intros q tr' Hq. apply Hfg. by right.
Qed.

Lemma count_keep_le (f : ptr -> Z -> bool) (l : list ptr) tr :
  (count_keep f l tr <= length l)%nat.
Proof.
  revert tr. induction l as [|p l IH]; intros tr; simpl; [lia|].
  destruct (f p tr); [|lia]. specialize (IH (tr + 1)). lia.
Qed.

Lemma erase_keys_ext (h h' : gmap ptr (SkipListNode K)) ps d :
  (forall p, p ∈ ps -> key_of h' p = key_of h p) ->
  erase_keys h' ps d = erase_keys h ps d.
Proof.
  revert d. induction ps as [|p ps IH]; intros d Hk; [done|].
  unfold erase_keys in *. simpl. rewrite (Hk p) by by left.
  apply IH. intros q Hq. apply Hk. by right.
Qed.

Lemma delete_range_loop_spec (keep : SkipListNode K -> Z -> bool)
    (keepf : score -> Z -> bool) (update : list ptr) :
  (forall np tr, keep np tr = keepf (mScore np) tr) ->
  forall fuel (s : SortedSet K) l t traversed removed,
  inv s l ->
  update_ok (mHeader s :: l) (heap s) (mLevels s) t update ->
  (t <= length l)%nat -> (length l - t <= fuel)%nat ->
  0 <= traversed -> traversed + Z.of_nat (length l - t) < 2 ^ 64 ->
  0 <= removed -> removed + Z.of_nat (length l - t) < 2 ^ 64 ->
  exists s',
    delete_range_loop fuel keep update (l !! t) traversed removed s
    = Some (removed +
            Z.of_nat (count_keep (fun p => keepf (score_of (heap s) p))
                                 (drop t l) traversed), s') /\
    inv s' (take t l ++
            drop (t + count_keep (fun p => keepf (score_of (heap s) p))
                                 (drop t l) traversed) l) /\
    mDict s' =
      erase_keys (heap s)
        (take (count_keep (fun p => keepf (score_of (heap s) p))
                          (drop t l) traversed) (drop t l))
        (mDict s) /\
    mHeader s' = mHeader s /\
    (forall p, p ∈ take t l ++
                 drop (t + count_keep (fun p => keepf (score_of (heap s) p))
                                      (drop t l) traversed) l ->
               attrs (heap s') p = attrs (heap s) p).
Proof.
  intros Hkeep.
  induction fuel as [|fuel IH];
    intros s l t traversed removed Hinv Hupd Ht Hfuel Htr Htrb Hrm Hrmb.
  - assert (t = length l) as -> by lia.
    rewrite lookup_ge_None_2 by lia. rewrite drop_ge by lia. simpl.
    exists s. rewrite Z.add_0_r, Nat.add_0_r, drop_ge by lia.
    rewrite app_nil_r, take_ge by lia. by split_and!.
  - destruct (l !! t) as [p|] eqn:Hp.
    2: { apply lookup_ge_None_1 in Hp. rewrite drop_ge by lia. simpl.
         exists s. rewrite Z.add_0_r, Nat.add_0_r, drop_ge by lia.
         rewrite app_nil_r, take_ge by lia. by split_and!. }
    pose proof (lookup_lt_Some _ _ _ Hp) as Htl.
    rewrite (drop_S _ _ _ Hp). cbn [count_keep delete_range_loop].
    destruct (inv_lookup_node s l Hinv (S t) p Hp) as [np Hnp].
    rewrite Hnp. simpl.
    assert (score_of (heap s) p = mScore np) as Hsp
      by (unfold score_of; by rewrite Hnp).
    assert (key_of (heap s) p = mKey np) as Hkp
      by (unfold key_of; by rewrite Hnp).
    rewrite Hkeep, <- Hsp.
    destruct (keepf (score_of (heap s) p) traversed) eqn:Hk.
    2: { exists s. rewrite Z.add_0_r, Nat.add_0_r. simpl.
         rewrite take_drop. by split_and!. }
    destruct (inv_level0 s l Hinv (S t) p Hp) as [plv Hplv].
    pose proof (inv_forward0 s l Hinv (S t) p plv Hp Hplv) as Hfw.
    apply level_at_Some in Hplv as (np' & Hnp' & Hplv).
    assert (np' = np) as -> by congruence.
    rewrite Hplv. simpl.
    destruct (private_delete_node_spec s l t p update Hinv Hp Hupd)
      as (s1 & Hdel & Hinv1 & Hdict1 & Hhd1 & Hattrs1 & Hupd1).
    rewrite Hdel. simpl.
    set (l1 := take t l ++ drop (S t) l) in *.
    set (s2 := set_heap _ _).
    assert (inv s2 l1) as Hinv2.
    { apply (inv_set_mDict _ l1 (delete (mKey np) (mDict s1))) in Hinv1.
      exact Hinv1. }
    assert (length (take t l) = t) as Hlt by (rewrite length_take; lia).
    assert (length l1 = (length l - 1)%nat) as Hl1.
    { unfold l1. rewrite length_app, Hlt, length_drop. lia. }
    assert (drop t l1 = drop (S t) l) as Hdrop1.
    { unfold l1. rewrite <- Hlt at 1. by rewrite drop_app_length. }
    assert (l1 !! t = l !! S t) as Hl1t.
    { unfold l1. by rewrite lookup_del_ge by lia. }
    rewrite Hfw. rewrite <- Hl1t.
    destruct (IH s2 l1 t (wrap64 (traversed + 1)) (wrap64 (removed + 1)))
      as (s' & Hloop & Hinv' & Hdict' & Hhd' & Hattrs').
    + done.
    + subst s2. simpl. rewrite Hhd1. exact Hupd1.
    + lia.
    + lia.
    + rewrite wrap64_small by lia. lia.
    + rewrite wrap64_small by lia. lia.
    + rewrite wrap64_small by lia. lia.
    + rewrite wrap64_small by lia. lia.
    + assert (forall q, q ∈ l1 -> attrs (heap s2) q = attrs (heap s) q)
        as Hattrs2.
      { intros q Hq. subst s2. simpl. apply Hattrs1.
        intros ->. pose proof (inv_nodup _ _ Hinv2) as Hnd.
        assert (NoDup l) as Hndl.
        { pose proof (inv_nodup _ _ Hinv) as Hndl.
          by apply NoDup_cons in Hndl as [_ ?]. }
        unfold l1 in Hq. apply list_elem_of_lookup_1 in Hq as [c Hc].
        destruct (decide (c < t)%nat).
        - rewrite lookup_del_lt in Hc by lia.
          pose proof (NoDup_lookup _ _ _ _ Hndl Hc Hp). lia.
        - rewrite lookup_del_ge in Hc by lia.
          pose proof (NoDup_lookup _ _ _ _ Hndl Hc Hp). lia. }
      rewrite (wrap64_small (traversed + 1)) in Hloop, Hinv', Hdict', Hattrs'
        by lia.
      rewrite (wrap64_small (removed + 1)) in Hloop by lia.
      rewrite Hdrop1 in Hloop, Hinv', Hdict', Hattrs'.
      assert (count_keep (fun q => keepf (score_of (heap s2) q))
                (drop (S t) l) (traversed + 1)
              = count_keep (fun q => keepf (score_of (heap s) q))
                  (drop (S t) l) (traversed + 1)) as Hck.
      { apply count_keep_ext. intros q tr' Hq.
        rewrite (attrs_score_of (heap s) (heap s2)); [done|].
        apply Hattrs2. rewrite <- Hdrop1 in Hq. by eapply subseteq_drop. }
      rewrite Hck in Hloop, Hinv', Hdict', Hattrs'.
      set (k := count_keep _ _ _) in *.
      assert (take t l1 ++ drop (t + k) l1 = take t l ++ drop (t + S k) l)
        as Hlist.
      { unfold l1. rewrite <- Hlt at 1. rewrite take_app_length.
        f_equal. rewrite <- Hlt at 1. rewrite drop_app_add.
        rewrite drop_drop. f_equal. lia. }
      rewrite Hlist in Hinv', Hattrs'.
      exists s'. split.
      { rewrite !wrap64_small by lia. rewrite Hloop. do 2 f_equal. lia. }
      split; [done|]. split; [|split].
      * rewrite Hdict'. simpl. unfold erase_keys at 2. simpl.
        rewrite Hkp. subst s2. simpl. rewrite Hdict1.
        apply erase_keys_ext. intros q Hq. apply attrs_key_of.
        apply Hattrs2. rewrite <- Hdrop1 in Hq.
        apply subseteq_take in Hq. by eapply subseteq_drop.
      * rewrite Hhd'. subst s2. simpl. done.
      * intros q Hq. rewrite Hattrs' by done. apply Hattrs2.
        unfold l1. apply elem_of_app in Hq as [Hq|Hq].
        -- apply elem_of_app. by left.
        -- apply elem_of_app. right.
           replace (t + S k)%nat with (S t + k)%nat in Hq by lia.
           rewrite <- drop_drop in Hq. by eapply subseteq_drop.
Qed.

End DeleteRange.

Section RangeDeletes.
Context {K : Type} `{Countable K} `{Inhabited K}.

Lemma down_closed_min range :
  down_closed (fun y => if mMinex range then fle y (mMin range)
                        else flt y (mMin range)).
Proof.
  destruct (mMinex range); [apply down_closed_fle|apply down_closed_flt].
Qed.

Lemma private_delete_range_by_score_spec (s : SortedSet K) l range :
  inv s l ->
  exists s',
    private_delete_range_by_score range s =
      Some (Z.of_nat
              (count_keep
                 (fun p (_ : Z) =>
                    if mMaxex range then flt (score_of (heap s) p) (mMax range)
                    else fle (score_of (heap s) p) (mMax range))
                 (drop (prefix_len
                          (fun p => if mMinex range
                                    then fle (score_of (heap s) p) (mMin range)
                                    else flt (score_of (heap s) p) (mMin range))
                          l) l) 0), s') /\
    inv s'
      (take (prefix_len
               (fun p => if mMinex range
                         then fle (score_of (heap s) p) (mMin range)
                         else flt (score_of (heap s) p) (mMin range)) l) l ++
       drop (prefix_len
               (fun p => if mMinex range
                         then fle (score_of (heap s) p) (mMin range)
                         else flt (score_of (heap s) p) (mMin range)) l +
             count_keep
               (fun p (_ : Z) =>
                  if mMaxex range then flt (score_of (heap s) p) (mMax range)
                  else fle (score_of (heap s) p) (mMax range))
               (drop (prefix_len
                        (fun p => if mMinex range
                                  then fle (score_of (heap s) p) (mMin range)
                                  else flt (score_of (heap s) p) (mMin range))
                        l) l) 0) l) /\
    mHeader s' = mHeader s /\
    (count_keep
       (fun p (_ : Z) =>
          if mMaxex range then flt (score_of (heap s) p) (mMax range)
          else fle (score_of (heap s) p) (mMax range))
       (drop (prefix_len
                (fun p => if mMinex range
                          then fle (score_of (heap s) p) (mMin range)
                          else flt (score_of (heap s) p) (mMin range))
                l) l) 0 = 0%nat -> s' = s).
Proof.
  intros Hinv.
  set (t := prefix_len _ l). set (k := count_keep _ _ _).
  unfold private_delete_range_by_score.
  destruct (descend_score_update s l
              (fun y => if mMinex range then fle y (mMin range)
                        else flt y (mMin range)) Hinv (down_closed_min range))
    as (x' & acc' & update & rank & Hd & Hupd & Hx' & Ht).
  fold t in Hupd, Hx', Ht. rewrite Hd. simpl.
  destruct (inv_level0 s l Hinv t x' Hx') as [xlv Hxlv].
  rewrite Hxlv. simpl.
  rewrite (inv_forward0 s l Hinv t x' xlv Hx' Hxlv).
  destruct (inv_length _ _ Hinv) as [_ Hlenb].
  destruct (delete_range_loop_spec
              (fun np (_ : Z) =>
                 if mMaxex range then flt (mScore np) (mMax range)
                 else fle (mScore np) (mMax range))
              (fun sc (_ : Z) =>
                 if mMaxex range then flt sc (mMax range)
                 else fle sc (mMax range))
              update (fun _ _ => eq_refl)
              (fuel_of (heap s)) s l t 0 0 Hinv Hupd Ht)
    as (s' & Hloop & Hinv' & Hdict' & Hhd' & Hattrs');
    [rewrite (inv_fuel_of s l Hinv); lia|lia|lia|lia|lia|].
  fold k in Hloop, Hinv', Hdict', Hattrs'.
  rewrite Hloop. exists s'. split; [done|]. split; [done|]. split; [done|].
  intros Hk0. rewrite Hk0 in Hloop.
  destruct (l !! t) as [p|] eqn:Hp.
  - pose proof Hk0 as Hk0'. unfold k in Hk0'.
    rewrite (drop_S _ _ _ Hp) in Hk0'. simpl in Hk0'.
    destruct (inv_lookup_node s l Hinv (S t) p Hp) as [np Hnp].
    assert (score_of (heap s) p = mScore np) as Hsp
      by (unfold score_of; by rewrite Hnp).
    rewrite Hsp in Hk0'.
    rewrite (inv_fuel_of s l Hinv) in Hloop.
    cbn [delete_range_loop] in Hloop. rewrite Hnp in Hloop. simpl in Hloop.
    destruct (if mMaxex range then flt (mScore np) (mMax range)
              else fle (mScore np) (mMax range)); [lia|].
    congruence.
  - rewrite (inv_fuel_of s l Hinv) in Hloop.
    cbn [delete_range_loop] in Hloop. congruence.
Qed.

Lemma descend_by_rank (s : SortedSet K) l (strict : bool) (bound : Z) :
  inv s l -> 0 <= bound -> (strict = true -> 1 <= bound) ->
  exists x' update rank,
    descend (fuel_of (heap s)) (heap s) (rank_cond strict bound) add64
            (mLevels s) (mHeader s) 0
    = Some (x',
            Z.of_nat (Nat.min (if strict then Z.to_nat (bound - 1)
                       else Z.to_nat bound) (length l)),
            update, rank) /\
    update_ok (mHeader s :: l) (heap s) (mLevels s)
      (Nat.min (if strict then Z.to_nat (bound - 1) else Z.to_nat bound)
         (length l)) update /\
    (mHeader s :: l) !! (Nat.min (if strict then Z.to_nat (bound - 1)
                          else Z.to_nat bound) (length l)) = Some x'.
Proof.
  intros Hinv Hb Hstrict.
  set (t := if strict then Z.to_nat (bound - 1) else Z.to_nat bound).
  set (tm := Nat.min t (length l)).
  pose proof (inv_levels _ _ Hinv) as HL.
  destruct (descend_spec s l Hinv (rank_cond strict bound) add64
              (fun a acc => acc = Z.of_nat a) tm) with
    (k := mLevels s) (fuel := fuel_of (heap s)) (a := 0%nat)
    (x := mHeader s) (acc := 0)
    as (x' & acc' & update & rank & Hd & Hlu & Hlr & Hall & _ & Hnz).
  - intros a b pb nb acc Hab Hpb Hnb Hacc.
    rewrite (rank_cond_sem s l Hinv strict bound Hstrict a b pb nb acc)
      by done.
    pose proof (inv_pos_bound s l b pb Hpb).
    apply bool_decide_ext. fold t. unfold tm. lia.
  - intros a b acc Hab Hacc. by apply (rank_step_sem s l Hinv).
  - rewrite (inv_fuel_of s l Hinv). lia.
  - done.
  - rewrite (inv_hgt_header s l Hinv). lia.
  - lia.
  - done.
  - intros c pc Hc Hpc. destruct c as [|c]; [lia|].
    pose proof (inv_hgt_le s l Hinv c pc Hpc). lia.
  - destruct Hnz as [Hu0 Hr0]; [lia|].
    destruct (Hall 0%nat) as (a0 & u0 & r0 & Hu & Hr & Hn & Hl & Hai); [lia|].
    apply (lastle_zero s l Hinv tm a0) in Hl as Ha0; [|unfold tm; lia].
    subst a0. assert (acc' = Z.of_nat tm) as -> by congruence.
    exists x', update, rank. split; [done|]. split; [|congruence].
    intros i Hi. destruct (Hall i Hi) as (ai & ui & ri & Hu' & _ & Hn' & Hl' & _).
    by exists ai, ui.
Qed.

Lemma count_keep_rank (l : list ptr) (e tr : Z) :
  count_keep (fun _ tr' => tr' <=? e) l tr =
  Nat.min (length l) (Z.to_nat (e - tr + 1)).
Proof.
  revert tr. induction l as [|p l IH]; intros tr; [done|].
  cbn [count_keep length]. destruct (Z.leb_spec tr e).
  - rewrite IH. lia.
  - lia.
Qed.

Lemma private_delete_range_by_rank_spec (s : SortedSet K) l start end_ :
  inv s l -> 1 <= start ->
  let tm := Nat.min (Z.to_nat (start - 1)) (length l) in
  let k := Nat.min (length l - tm) (Z.to_nat (end_ - Z.of_nat tm)) in
  exists s',
    private_delete_range_by_rank start end_ s = Some (Z.of_nat k, s') /\
    inv s' (take tm l ++ drop (tm + k) l) /\
    mDict s' = erase_keys (heap s) (take k (drop tm l)) (mDict s) /\
    mHeader s' = mHeader s /\
    (forall p, p ∈ take tm l ++ drop (tm + k) l ->
               attrs (heap s') p = attrs (heap s) p).
Proof.
  intros Hinv Hstart tm k. subst k.
  unfold private_delete_range_by_rank.
  destruct (descend_by_rank s l true start Hinv ltac:(lia) ltac:(done))
    as (x' & update & rank & Hd & Hupd & Hx').
  fold tm in Hd, Hupd, Hx'.
  change (fun (_ : SkipListNode K) (span traversed : Z) =>
            wrap64 (traversed + span) <? start)
    with (@rank_cond K true start).
  rewrite Hd. simpl.
  destruct (inv_level0 s l Hinv tm x' Hx') as [xlv Hxlv].
  rewrite Hxlv. simpl.
  rewrite (inv_forward0 s l Hinv tm x' xlv Hx' Hxlv).
  destruct (inv_length _ _ Hinv) as [_ Hlenb].
  rewrite wrap64_small by (unfold tm; lia).
  destruct (delete_range_loop_spec
              (fun (_ : SkipListNode K) traversed => traversed <=? end_)
              (fun (_ : score) traversed => traversed <=? end_)
              update (fun _ _ => eq_refl)
              (fuel_of (heap s)) s l tm (Z.of_nat tm + 1) 0 Hinv Hupd)
    as (s' & Hloop & Hinv' & Hdict' & Hhd' & Hattrs');
    [unfold tm; lia|rewrite (inv_fuel_of s l Hinv); lia|lia|unfold tm; lia
    |lia|lia|].
  rewrite count_keep_rank in Hloop, Hinv', Hdict', Hattrs'.
  rewrite length_drop in Hloop, Hinv', Hdict', Hattrs'.
  replace (end_ - (Z.of_nat tm + 1) + 1) with (end_ - Z.of_nat tm)
    in Hloop, Hinv', Hdict', Hattrs' by lia.
  rewrite Hloop. exists s'. done.
Qed.

End RangeDeletes.

(** ** Every command keeps the invariant *)

Section Steps.
Context {K : Type} `{Countable K} `{Inhabited K}.

Lemma randomlevel_loop_ge draws level :
  (level <= randomlevel_loop draws level)%nat.
Proof.
  revert level. induction draws as [|r draws IH]; intros level; simpl; [lia|].
  destruct (draw_small r); [|lia]. specialize (IH (level + 1)%nat). lia.
Qed.

Lemma randomlevel_range draws :
  (1 <= randomlevel draws <= SKIPLIST_MAXLEVEL)%nat.
Proof.
  unfold randomlevel. pose proof (randomlevel_loop_ge draws 1).
  destruct (Nat.ltb_spec (randomlevel_loop draws 1) SKIPLIST_MAXLEVEL);
    unfold SKIPLIST_MAXLEVEL in *; lia.
Qed.

Lemma inv_empty : inv (empty_set : SortedSet K) [].
Proof.
  constructor; simpl.
  - apply NoDup_singleton.
  - intros p. rewrite lookup_singleton_is_Some, list_elem_of_singleton.
    split; congruence.
  - exists 0%float, inhabitant. unfold attrs.
    by rewrite lookup_singleton_eq.
  - intros p Hp. by apply elem_of_nil in Hp.
  - unfold SKIPLIST_MAXLEVEL. lia.
  - split; [done|]. simpl. lia.
  - intros a b pa pb _ Hpa. done.
  - intros a p i lv Ha Hlv. destruct a as [|a]; [|done].
    injection Ha as <-. unfold link_ok.
    apply level_at_Some in Hlv as (n & Hn & Hlv).
    rewrite lookup_singleton_eq in Hn. injection Hn as <-.
    change (mLevel header_node)
      with (replicate SKIPLIST_MAXLEVEL (mkLevel None 0)) in Hlv.
    apply lookup_replicate in Hlv as [-> _]. simpl.
    intros c pc Hc Hpc. destruct c as [|c]; [lia|done].
  - intros a p Ha. done.
  - done.
Qed.

Lemma zadd_generic_inv (s : SortedSet K) l level (key : K) (sc : score)
    (incr : bool) :
  inv s l -> (1 <= level <= SKIPLIST_MAXLEVEL)%nat ->
  not_nan (match mDict s !! key with
           | Some cur => if incr then PrimFloat.add sc cur else sc
           | None => sc
           end) ->
  mLength s < 2 ^ 32 - 1 ->
  exists s' l', zadd_generic level key sc incr s = Some s' /\ inv s' l'.
Proof.
  intros Hinv Hlevel Hnn Hroom. unfold zadd_generic.
  destruct (mDict s !! key) as [cur|] eqn:Hcur.
  - set (sc' := if incr then PrimFloat.add sc cur else sc) in *.
    destruct (feq sc' cur); simpl; [by exists s, l|].
    destruct (private_delete_spec s l cur key Hinv) as (r & Hdel & Hr).
    rewrite Hdel. simpl. destruct r as [b s1]. simpl in Hr.
    assert (exists l1, inv s1 l1 /\ mLength s1 <= mLength s) as (l1 & Hinv1 & Hlen1).
    { destruct Hr as [(y & Hy & _ & _ & _ & Hinv1 & _)|[_ [= -> ->]]].
      - eexists. split; [exact Hinv1|].
        destruct (inv_length _ _ Hinv1) as [-> _].
        destruct (inv_length _ _ Hinv) as [-> _].
        apply lookup_lt_Some in Hy.
        rewrite length_app, length_take, length_drop. lia.
      - exists l. split; [done|lia]. }
    destruct (private_insert_spec s1 l1 level sc' key Hinv1 Hlevel Hnn)
      as (x & s2 & Hins & Hinv2 & _); [lia|].
    rewrite Hins. simpl. eexists _, _. split; [done|].
    by apply inv_set_mDict.
  - destruct (private_insert_spec s l level sc key Hinv Hlevel Hnn Hroom)
      as (x & s2 & Hins & Hinv2 & _).
    rewrite Hins. simpl. eexists _, _. split; [done|].
    by apply inv_set_mDict.
Qed.

Lemma zrem_inv (s : SortedSet K) l key :
  inv s l -> exists s' l', zrem key s = Some s' /\ inv s' l'.
Proof.
  intros Hinv. unfold zrem.
  destruct (mDict s !! key) as [cur|]; [|by exists s, l].
  destruct (private_delete_spec s l cur key Hinv) as (r & Hdel & Hr).
  rewrite Hdel. simpl. destruct r as [b s1]. simpl in Hr.
  destruct Hr as [(y & Hy & _ & _ & _ & Hinv1 & _)|[_ [= -> ->]]].
  - eexists _, _. split; [done|]. by apply inv_set_mDict.
  - eexists _, _. split; [done|]. by apply inv_set_mDict.
Qed.

Lemma zremrangebyscore_inv (s : SortedSet K) l min max minex maxex :
  inv s l ->
  exists s' l', zremrangebyscore min max minex maxex s = Some s' /\ inv s' l'.
Proof.
  intros Hinv. unfold zremrangebyscore.
  destruct (private_delete_range_by_score_spec s l
              (mkRange min max minex maxex) Hinv)
    as (s' & Hdel & Hinv' & _).
  rewrite Hdel. simpl. by eexists _, _.
Qed.

(** The index normalisation shared by the commands that take ranks. *)
Lemma normalize_range (llen start end_ : Z) :
  0 <= llen ->
  let start1 := if start <? 0 then llen + start else start in
  let end1 := if end_ <? 0 then llen + end_ else end_ in
  let start2 := if start1 <? 0 then 0 else start1 in
  (end1 <? start2) || (llen <=? start2) = false ->
  0 <= start2 < llen /\
  start2 <= (if llen <=? end1 then llen - 1 else end1) < llen.
Proof.
  intros Hl start1 end1 start2 Hne.
  apply orb_false_iff in Hne as [H1 H2].
  apply Z.ltb_ge in H1. apply Z.leb_gt in H2.
  assert (0 <= start2) by (unfold start2; destruct (Z.ltb_spec start1 0); lia).
  destruct (Z.leb_spec llen end1); lia.
Qed.

Lemma zremrangebyrank_inv (s : SortedSet K) l start end_ :
  inv s l ->
  exists s' l', zremrangebyrank start end_ s = Some s' /\ inv s' l'.
Proof.
  intros Hinv. unfold zremrangebyrank.
  destruct (inv_length _ _ Hinv) as [Hlen Hlenb].
  rewrite to_long_small by (unfold is_long; lia).
  set (start1 := if start <? 0 then mLength s + start else start).
  set (end1 := if end_ <? 0 then mLength s + end_ else end_).
  set (start2 := if start1 <? 0 then 0 else start1).
  destruct ((end1 <? start2) || (mLength s <=? start2)) eqn:Hemp;
    [by exists s, l|].
  destruct (normalize_range (mLength s) start end_ ltac:(lia) Hemp)
    as [Hs He].
  fold start1 end1 start2 in Hs, He.
  set (end2 := if mLength s <=? end1 then mLength s - 1 else end1) in *.
  rewrite (wrap32_small (start2 + 1)) by lia.
  destruct (private_delete_range_by_rank_spec s l (start2 + 1)
              (wrap32 (end2 + 1)) Hinv ltac:(lia))
    as (s' & Hdel & Hinv' & _).
  rewrite Hdel. simpl. by eexists _, _.
Qed.

Lemma step_inv (s : SortedSet K) l o :
  inv s l -> op_ok s o -> exists s' l', step s o = Some s' /\ inv s' l'.
Proof.
  intros Hinv Hok. destruct o as [key sc d|key sc d|key|mn mx e1 e2|st en];
    simpl in *.
  - destruct Hok as [Hnn Hroom].
    apply (zadd_generic_inv s l); try done.
    + apply randomlevel_range.
    + by destruct (mDict s !! key).
  - destruct Hok as [Hnn Hroom].
    apply (zadd_generic_inv s l); try done.
    apply randomlevel_range.
  - by apply (zrem_inv s l).
  - by apply (zremrangebyscore_inv s l).
  - by apply (zremrangebyrank_inv s l).
Qed.

Lemma reachable_inv (s : SortedSet K) : reachable s -> exists l, inv s l.
Proof.
  induction 1 as [|s o s' Hr [l Hinv] Hok Hstep].
  - exists []. apply inv_empty.
  - destruct (step_inv s l o Hinv Hok) as (s'' & l' & Hstep' & Hinv').
    exists l'. congruence.
Qed.

(** No command fails in a reachable state. *)
Lemma step_progress (s : SortedSet K) o :
  reachable s -> op_ok s o -> is_Some (step s o).
Proof.
  intros [l Hinv]%reachable_inv Hok.
  destruct (step_inv s l o Hinv Hok) as (s' & _ & Hstep & _). eauto.
Qed.

End Steps.

(** ** The queries by rank *)

Section RankQueries.
Context {K : Type} `{Countable K} `{Inhabited K}.

Variables (s : SortedSet K) (l : list ptr).
Hypothesis Hinv : inv s l.

Lemma get_element_by_rank_from_spec (r : nat) :
  (r <= length l)%nat ->
  forall k a x,
  (1 <= k)%nat -> (mHeader s :: l) !! a = Some x ->
  (k <= hgt (heap s) x)%nat -> (a <= r)%nat ->
  (forall c pc, (a < c <= r)%nat -> (mHeader s :: l) !! c = Some pc ->
                (hgt (heap s) pc <= k)%nat) ->
  get_element_by_rank_from (fuel_of (heap s)) (heap s) (Z.of_nat r) k x
    (Z.of_nat a) = Some ((mHeader s :: l) !! r).
Proof.
  intros Hr. induction k as [|k IH]; intros a x Hk Ha Hh Har Htop; [lia|].
  cbn [get_element_by_rank_from].
  change (fun (_ : SkipListNode K) (span traversed : Z) =>
            wrap64 (traversed + span) <=? Z.of_nat r)
    with (@rank_cond K false (Z.of_nat r)).
  destruct (advance_spec s l Hinv (rank_cond false (Z.of_nat r)) add64
              (fun a acc => acc = Z.of_nat a) r) with
    (i := k) (fuel := fuel_of (heap s)) (a := a) (x := x) (acc := Z.of_nat a)
    as (a' & x' & acc' & Hadv & Ha' & Haa' & Hlast & ->).
  - intros a0 b pb nb acc Hab Hpb Hnb Hacc.
    rewrite (rank_cond_sem s l Hinv false (Z.of_nat r) ltac:(done)
               a0 b pb nb acc) by done.
    apply bool_decide_ext. lia.
  - intros a0 b acc Hab Hacc. by apply (rank_step_sem s l Hinv).
  - rewrite (inv_fuel_of s l Hinv). lia.
  - done.
  - lia.
  - done.
  - done.
  - rewrite Hadv. simpl.
    destruct (Z.eqb_spec (Z.of_nat a') (Z.of_nat r)) as [Heq|Hne].
    + apply Nat2Z.inj in Heq. subst a'. by rewrite Ha'.
    + destruct Hlast as (Ha'r & (p1 & Hp1 & Hhp1) & Hafter).
      assert (p1 = x') as -> by congruence.
      destruct k as [|k].
      { exfalso. apply Hne. f_equal.
        apply (lastle_zero s l Hinv r a' Hr). split; [done|]. split; eauto. }
      apply IH; try done; lia.
Qed.

Lemma get_element_by_rank_spec (r : Z) :
  0 <= r <= Z.of_nat (length l) ->
  get_element_by_rank r s = Some ((mHeader s :: l) !! Z.to_nat r).
Proof.
  intros Hr. unfold get_element_by_rank.
  pose proof (inv_levels _ _ Hinv) as HL.
  rewrite <- (Z2Nat.id r) at 1 by lia.
  apply (get_element_by_rank_from_spec (Z.to_nat r) ltac:(lia)
           (mLevels s) 0%nat (mHeader s)).
  - lia.
  - done.
  - rewrite (inv_hgt_header s l Hinv). lia.
  - lia.
  - intros c pc Hc Hpc. destruct c as [|c]; [lia|].
    pose proof (inv_hgt_le s l Hinv c pc Hpc). lia.
Qed.

Lemma node_at_lookup p n : heap s !! p = Some n -> node_at (heap s) p = n.
Proof. intros Hn. unfold node_at. by rewrite Hn. Qed.

Lemma range_walk_forward {A} (emit : SkipListNode K -> A) n : forall a,
  (a + n <= length l)%nat ->
  range_walk emit n (heap s) false (l !! a) =
  Some ((fun p => emit (node_at (heap s) p)) <$> take n (drop a l)).
Proof.
  induction n as [|n IH]; intros a Han; [done|].
  destruct (lookup_lt_is_Some_2 l a) as [p Hp]; [lia|].
  destruct (inv_lookup_node s l Hinv (S a) p Hp) as [np Hnp].
  destruct (inv_level0 s l Hinv (S a) p Hp) as [lv Hlv].
  pose proof (inv_forward0 s l Hinv (S a) p lv Hp Hlv) as Hfw.
  apply level_at_Some in Hlv as (np' & Hnp' & Hlv).
  assert (np' = np) as -> by congruence.
  cbn [range_walk]. rewrite Hp. simpl. rewrite Hnp. simpl.
  rewrite Hlv. simpl. rewrite Hfw, IH by lia. simpl.
  rewrite (drop_S _ _ _ Hp). simpl.
  by rewrite (node_at_lookup p np Hnp).
Qed.

Lemma range_walk_backward {A} (emit : SkipListNode K -> A) n : forall a,
  (n <= S a)%nat -> (a < length l)%nat ->
  range_walk emit n (heap s) true (l !! a) =
  Some ((fun p => emit (node_at (heap s) p))
          <$> List.rev (take n (drop (S a - n) l))).
Proof.
  induction n as [|n IH]; intros a Hna Hal; [done|].
  destruct (lookup_lt_is_Some_2 l a) as [p Hp]; [lia|].
  destruct (inv_lookup_node s l Hinv (S a) p Hp) as [np Hnp].
  pose proof (inv_back _ _ Hinv a p Hp) as Hb.
  unfold bwd in Hb. rewrite Hnp in Hb. simpl in Hb. injection Hb as Hb.
  cbn [range_walk]. rewrite Hp. simpl. rewrite Hnp. simpl. rewrite Hb.
  change (S a - S n)%nat with (a - n)%nat.
  assert (take (S n) (drop (a - n) l)
          = take n (drop (a - n) l) ++ [p]) as ->.
  { apply take_S_r. rewrite lookup_drop. rewrite <- Hp. f_equal. lia. }
  rewrite rev_unit. simpl. rewrite (node_at_lookup p np Hnp).
  destruct n as [|n]; [done|].
  destruct a as [|a]; [lia|].
  rewrite IH by lia. done.
Qed.

Lemma inv_mLength : mLength s = Z.of_nat (length l).
Proof. apply Hinv. Qed.

Lemma zrange_with_spec {A} (emit : SkipListNode K -> A) start end_ reverse :
  zrange_with emit start end_ reverse s =
  Some (zrange_abs (fun p => emit (node_at (heap s) p)) l start end_ reverse).
Proof.
  unfold zrange_with, zrange_abs, norm_range.
  destruct (inv_length _ _ Hinv) as [Hlen Hlenb].
  rewrite to_long_small by (unfold is_long; lia).
  rewrite Hlen.
  set (n := Z.of_nat (length l)) in *.
  assert (n = Z.of_nat (length l)) as Hn by done. clearbody n.
  set (start1 := if start <? 0 then n + start else start).
  set (end1 := if end_ <? 0 then n + end_ else end_).
  set (start2 := if start1 <? 0 then 0 else start1).
  destruct ((end1 <? start2) || (n <=? start2)) eqn:Hemp; [done|].
  destruct (normalize_range n start end_ ltac:(lia) Hemp) as [Hs He].
  fold start1 end1 start2 in Hs, He.
  set (end2 := if n <=? end1 then n - 1 else end1) in *.
  rewrite wrap64_small by lia.
  destruct reverse.
  - assert ((if 0 <? start2
             then get_element_by_rank (wrap64 (n - start2)) s
             else Some (mTail s))
            = Some (l !! (length l - 1 - Z.to_nat start2)%nat)) as ->.
    { destruct (Z.ltb_spec 0 start2).
      - rewrite wrap64_small by lia.
        rewrite get_element_by_rank_spec by lia.
        replace (Z.to_nat (n - start2))
          with (S (length l - 1 - Z.to_nat start2)) by lia.
        done.
      - rewrite (inv_tail _ _ Hinv), last_lookup. do 2 f_equal. lia. }
    simpl.
    rewrite range_walk_backward by lia.
    do 5 f_equal. lia.
  - assert ((if 0 <? start2
             then get_element_by_rank (wrap64 (start2 + 1)) s
             else level_at (heap s) (mHeader s) 0
                  ≫= fun hlv => Some (mForward hlv))
            = Some (l !! Z.to_nat start2)) as ->.
    { destruct (Z.ltb_spec 0 start2).
      - rewrite wrap64_small by lia.
        rewrite get_element_by_rank_spec by lia.
        replace (Z.to_nat (start2 + 1)) with (S (Z.to_nat start2)) by lia.
        done.
      - destruct (inv_level0 s l Hinv 0%nat (mHeader s) eq_refl) as [lv Hlv].
        rewrite Hlv. simpl.
        rewrite (inv_forward0 s l Hinv 0%nat _ lv eq_refl Hlv).
        do 2 f_equal. lia. }
    simpl. by rewrite range_walk_forward by lia.
Qed.

Section GetRank.
Variables (sc : score) (key : K) (j : nat) (p : ptr).
Hypothesis Hp : l !! j = Some p.
Hypothesis Hkey : key_of (heap s) p = key.
Hypothesis Hlast : prefix_len (fun q => fle (score_of (heap s) q) sc) l = S j.
Hypothesis Huniq : forall c q, (c <= j)%nat -> l !! c = Some q ->
  key_of (heap s) q = key -> c = j.

Lemma get_rank_from_spec : forall k a x,
  (1 <= k)%nat -> (mHeader s :: l) !! a = Some x ->
  (k <= hgt (heap s) x)%nat -> (a <= S j)%nat ->
  (forall c pc, (a < c <= S j)%nat -> (mHeader s :: l) !! c = Some pc ->
                (hgt (heap s) pc <= k)%nat) ->
  get_rank_from (fuel_of (heap s)) (heap s) sc key k x (Z.of_nat a)
  = Some (Z.of_nat (S j)).
Proof.
  pose proof (lookup_lt_Some _ _ _ Hp) as Hjl.
  induction k as [|k IH]; intros a x Hk Ha Hh Haj Htop; [lia|].
  cbn [get_rank_from].
  destruct (advance_spec s l Hinv (fun ny _ _ => fle (mScore ny) sc) add64
              (fun a acc => acc = Z.of_nat a) (S j)) with
    (i := k) (fuel := fuel_of (heap s)) (a := a) (x := x) (acc := Z.of_nat a)
    as (a' & x' & acc' & Hadv & Ha' & Haa' & Hlast' & ->).
  - intros a0 b pb nb acc Hab Hpb Hnb Hacc. rewrite <- Hlast.
    by apply (score_cond_sem s l Hinv (fun y => fle y sc)
                (fun a acc => acc = Z.of_nat a) (down_closed_fle sc)
                a0 b pb nb acc).
  - intros a0 b acc Hab Hacc. by apply (rank_step_sem s l Hinv).
  - rewrite (inv_fuel_of s l Hinv). lia.
  - done.
  - lia.
  - done.
  - done.
  - rewrite Hadv. simpl.
    destruct (inv_lookup_node s l Hinv a' x' Ha') as [nx Hnx].
    rewrite Hnx. simpl.
    destruct Hlast' as (Ha'j & (p1 & Hp1 & Hhp1) & Hafter).
    assert (p1 = x') as -> by congruence.
    assert (a' <> S j -> (1 <= k)%nat) as Hk1.
    { intros Hne. destruct k as [|k]; [|lia]. exfalso. apply Hne.
      apply (lastle_zero s l Hinv (S j) a'); [lia|].
      split; [done|]. split; eauto. }
    destruct a' as [|a'].
    + injection Ha' as <-.
      destruct (inv_header _ _ Hinv) as (sc0 & k0 & Hhd).
      apply attrs_Some in Hhd as (_ & _ & _ & hd & Hhd & Hih & _).
      assert (nx = hd) as -> by congruence. rewrite Hih. simpl.
      apply IH; try done; [apply Hk1|]; lia.
    + simpl in Ha'.
      destruct (inv_node _ _ Hinv x') as (sc1 & k1 & n1 & Hat & _);
        [by eapply list_elem_of_lookup_2|].
      apply attrs_Some in Hat as (_ & _ & Hk1' & nd & Hnd & Hih & _ & Hkk & _).
      assert (nx = nd) as -> by congruence. rewrite Hih. simpl.
      case_bool_decide as Hkeq.
      * f_equal. f_equal. f_equal. apply (Huniq a' x'); [lia|done|].
        congruence.
      * assert (S a' <> S j) as Hne.
        { intros [= ->]. apply Hkeq.
          assert (x' = p) as -> by congruence. congruence. }
        apply IH; try done; [by apply Hk1|lia].
Qed.

Lemma get_rank_spec : get_rank sc key s = Some (Z.of_nat (S j)).
Proof.
  unfold get_rank. pose proof (inv_levels _ _ Hinv) as HL.
  apply (get_rank_from_spec (mLevels s) 0%nat (mHeader s)).
  - lia.
  - done.
  - rewrite (inv_hgt_header s l Hinv). lia.
  - lia.
  - intros c pc Hc Hpc. destruct c as [|c]; [lia|].
    pose proof (inv_hgt_le s l Hinv c pc Hpc). lia.
Qed.

End GetRank.
End RankQueries.

(** ** The queries by score *)

Section ScoreQueries.
Context {K : Type} `{Countable K} `{Inhabited K}.

Variables (s : SortedSet K) (l : list ptr).
Hypothesis Hinv : inv s l.

Lemma score_of_lookup p n : heap s !! p = Some n -> mScore n = score_of (heap s) p.
Proof. intros Hn. unfold score_of. by rewrite Hn. Qed.

Lemma is_in_range_spec range :
  is_in_range range s
  = Some (in_range_abs range (score_of (heap s) <$> l)).
Proof.
  unfold is_in_range, in_range_abs. fold (range_is_empty range).
  destruct (range_is_empty range); [done|].
  rewrite (inv_tail _ _ Hinv), fmap_last.
  destruct (last l) as [t|] eqn:Hlast; [|done]. simpl.
  rewrite last_lookup in Hlast.
  destruct (inv_lookup_node s l Hinv (S (Init.Nat.pred (length l))) t Hlast)
    as [nt Hnt].
  rewrite Hnt. simpl. rewrite (score_of_lookup t nt Hnt).
  destruct (score_gte_min (score_of (heap s) t) range); [|done]. simpl.
  destruct (inv_level0 s l Hinv 0%nat (mHeader s) eq_refl) as [lv Hlv].
  rewrite Hlv. simpl.
  rewrite (inv_forward0 s l Hinv 0%nat _ lv eq_refl Hlv).
  rewrite head_lookup, list_lookup_fmap.
  destruct (l !! 0%nat) as [f|] eqn:Hf; [|done]. simpl.
  destruct (inv_lookup_node s l Hinv 1%nat f Hf) as [nf Hnf].
  rewrite Hnf. simpl. by rewrite (score_of_lookup f nf Hnf).
Qed.

Lemma down_closed_not_gte range :
  down_closed (fun y => negb (score_gte_min y range)).
Proof.
  unfold score_gte_min.
  destruct (mMinex range); [apply down_closed_not_flt|apply down_closed_not_fle].
Qed.

Lemma down_closed_lte range : down_closed (fun y => score_lte_max y range).
Proof.
  unfold score_lte_max.
  destruct (mMaxex range); [apply down_closed_flt|apply down_closed_fle].
Qed.

Lemma in_range_abs_tail range :
  in_range_abs range (score_of (heap s) <$> l) = true ->
  exists t, last l = Some t /\ score_gte_min (score_of (heap s) t) range = true.
Proof.
  unfold in_range_abs. destruct (range_is_empty range); [done|].
  rewrite fmap_last. destruct (last l) as [t|]; [|done]. simpl.
  destruct (score_gte_min (score_of (heap s) t) range) eqn:E; [|done].
  intros _. eauto.
Qed.

Lemma in_range_abs_head range :
  in_range_abs range (score_of (heap s) <$> l) = true ->
  exists f, l !! 0%nat = Some f /\
            score_lte_max (score_of (heap s) f) range = true.
Proof.
  unfold in_range_abs. destruct (range_is_empty range); [done|].
  rewrite fmap_last, head_lookup, list_lookup_fmap.
  destruct (last l) as [t|]; [|done]. simpl.
  destruct (score_gte_min (score_of (heap s) t) range); [|done]. simpl.
  destruct (l !! 0%nat) as [f|]; [|done]. simpl. intros Hf. eauto.
Qed.

Lemma first_in_range_spec range :
  first_in_range range s =
  Some (if in_range_abs range (score_of (heap s) <$> l)
        then y ← l !! prefix_len
                     (fun p => negb (score_gte_min (score_of (heap s) p) range)) l;
             if score_lte_max (score_of (heap s) y) range then Some y else None
        else None).
Proof.
  unfold first_in_range. rewrite is_in_range_spec. simpl.
  destruct (in_range_abs range (score_of (heap s) <$> l)) eqn:Hin; [|done].
  simpl. set (t := prefix_len _ l).
  destruct (descend_score_update s l
              (fun y => negb (score_gte_min y range)) Hinv
              (down_closed_not_gte range))
    as (x' & acc' & update & rank & Hd & Hupd & Hx' & Ht).
  fold t in Hupd, Hx', Ht. rewrite Hd. simpl.
  destruct (inv_level0 s l Hinv t x' Hx') as [xlv Hxlv].
  rewrite Hxlv. simpl.
  rewrite (inv_forward0 s l Hinv t x' xlv Hx' Hxlv).
  destruct (in_range_abs_tail range Hin) as (tl & Htl & Hgte).
  rewrite last_lookup in Htl.
  pose proof (score_test_prefix s l Hinv
                (fun y => negb (score_gte_min y range)) _ tl
                (down_closed_not_gte range) Htl) as Hpre.
  simpl in Hpre. rewrite Hgte in Hpre. simpl in Hpre.
  symmetry in Hpre. apply bool_decide_eq_false_1 in Hpre. fold t in Hpre.
  apply lookup_lt_Some in Htl.
  destruct (lookup_lt_is_Some_2 l t) as [y Hy]; [lia|].
  rewrite Hy. simpl.
  destruct (inv_lookup_node s l Hinv (S t) y Hy) as [ny Hny].
  rewrite Hny. simpl. rewrite (score_of_lookup y ny Hny).
  by destruct (score_lte_max (score_of (heap s) y) range).
Qed.

Lemma last_in_range_spec range :
  last_in_range range s =
  Some (if in_range_abs range (score_of (heap s) <$> l)
        then y ← l !! (prefix_len
                         (fun p => score_lte_max (score_of (heap s) p) range) l
                       - 1)%nat;
             if score_gte_min (score_of (heap s) y) range then Some y else None
        else None).
Proof.
  unfold last_in_range. rewrite is_in_range_spec. simpl.
  destruct (in_range_abs range (score_of (heap s) <$> l)) eqn:Hin; [|done].
  simpl. set (t := prefix_len _ l).
  destruct (descend_score_update s l
              (fun y => score_lte_max y range) Hinv (down_closed_lte range))
    as (x' & acc' & update & rank & Hd & Hupd & Hx' & Ht).
  fold t in Hupd, Hx', Ht. rewrite Hd. simpl.
  destruct (in_range_abs_head range Hin) as (f & Hf & Hlte).
  pose proof (score_test_prefix s l Hinv
                (fun y => score_lte_max y range) _ f
                (down_closed_lte range) Hf) as Hpre.
  simpl in Hpre. rewrite Hlte in Hpre.
  symmetry in Hpre. apply bool_decide_eq_true_1 in Hpre. fold t in Hpre.
  assert ((mHeader s :: l) !! t = l !! (t - 1)%nat) as Hpos.
  { destruct t as [|t']; [lia|]. simpl. by rewrite Nat.sub_0_r. }
  rewrite Hpos in Hx'. rewrite Hx'. simpl.
  destruct (inv_lookup_node s l Hinv (S (t - 1)) x' Hx') as [nx Hnx].
  rewrite Hnx. simpl. rewrite (score_of_lookup x' nx Hnx).
  by destruct (score_gte_min (score_of (heap s) x') range).
Qed.

Lemma byscore_walk_forward {A} (emit : SkipListNode K -> A) range :
  forall fuel a, (length l - a <= fuel)%nat ->
  byscore_walk emit fuel (heap s) range false (l !! a) =
  Some ((fun p => emit (node_at (heap s) p))
          <$> take (prefix_len
                      (fun p => score_lte_max (score_of (heap s) p) range)
                      (drop a l))
                   (drop a l)).
Proof.
  induction fuel as [|fuel IH]; intros a Hf.
  - rewrite lookup_ge_None_2 by lia. by rewrite drop_ge by lia.
  - destruct (l !! a) as [p|] eqn:Hp.
    2: { apply lookup_ge_None_1 in Hp. by rewrite drop_ge by lia. }
    destruct (inv_lookup_node s l Hinv (S a) p Hp) as [np Hnp].
    destruct (inv_level0 s l Hinv (S a) p Hp) as [lv Hlv].
    pose proof (inv_forward0 s l Hinv (S a) p lv Hp Hlv) as Hfw.
    apply level_at_Some in Hlv as (np' & Hnp' & Hlv).
    assert (np' = np) as -> by congruence.
    cbn [byscore_walk]. rewrite Hnp. simpl.
    rewrite (drop_S _ _ _ Hp). cbn [prefix_len].
    rewrite (score_of_lookup p np Hnp).
    destruct (score_lte_max (score_of (heap s) p) range); simpl; [|done].
    rewrite Hlv. simpl. rewrite Hfw, IH by lia. simpl.
    by rewrite (node_at_lookup s p np Hnp).
Qed.

Lemma zrangebyscore_forward_spec {A} (emit : SkipListNode K -> A)
    min max minex maxex :
  zrangebyscore_with emit min max false minex maxex s =
  Some (if in_range_abs (mkRange min max minex maxex) (score_of (heap s) <$> l)
        then (fun p => emit (node_at (heap s) p))
               <$> take (prefix_len
                           (fun p => score_lte_max (score_of (heap s) p)
                                       (mkRange min max minex maxex))
                           (drop (prefix_len
                                    (fun p => negb (score_gte_min
                                                      (score_of (heap s) p)
                                                      (mkRange min max minex maxex)))
                                    l) l))
                        (drop (prefix_len
                                 (fun p => negb (score_gte_min
                                                   (score_of (heap s) p)
                                                   (mkRange min max minex maxex)))
                                 l) l)
        else []).
Proof.
  unfold zrangebyscore_with. cbn [negb]. simpl.
  set (range := mkRange min max minex maxex).
  rewrite (first_in_range_spec range). simpl.
  destruct (in_range_abs range (score_of (heap s) <$> l)); [|done].
  set (t := prefix_len _ l).
  destruct (l !! t) as [y|] eqn:Hy; simpl.
  - destruct (score_lte_max (score_of (heap s) y) range) eqn:Hlte.
    + rewrite <- Hy. apply byscore_walk_forward.
      rewrite (inv_fuel_of s l Hinv). lia.
    + simpl. rewrite (drop_S _ _ _ Hy). cbn [prefix_len]. by rewrite Hlte.
  - apply lookup_ge_None_1 in Hy. by rewrite drop_ge by lia.
Qed.

End ScoreQueries.

(** ** The commands on the list of stored pairs *)

Section Contents.
Context {K : Type} `{Countable K} `{Inhabited K}.

Lemma omap_total {A B} (f : A -> option B) (g : A -> B) (l : list A) :
  (forall x, x ∈ l -> f x = Some (g x)) -> omap f l = g <$> l.
Proof.
  induction l as [|x l IH]; intros Hf; [done|].
  cbn [omap list_omap fmap list_fmap]. rewrite (Hf x) by by left.
  f_equal. apply IH. intros y Hy. apply Hf. by right.
Qed.

Lemma inv_contents (s : SortedSet K) l :
  inv s l -> contents s = ks_of (heap s) <$> l.
Proof.
  intros Hinv. unfold contents. rewrite (inv_node_list s l Hinv).
  apply omap_total. intros p Hp.
  destruct (proj2 (inv_dom _ _ Hinv p)) as [n Hn]; [by right|].
  unfold ks_of, key_of, score_of. by rewrite Hn.
Qed.

Lemma attrs_ks_of (h h' : gmap ptr (SkipListNode K)) p :
  attrs h' p = attrs h p -> ks_of h' p = ks_of h p.
Proof.
  intros Ha. unfold ks_of.
  by rewrite (attrs_key_of h h'), (attrs_score_of h h').
Qed.

Lemma fmap_ext_elem {A B} (f g : A -> B) (l : list A) :
  (forall x, x ∈ l -> f x = g x) -> f <$> l = g <$> l.
Proof.
  intros Hfg. apply list_eq. intros i. rewrite !list_lookup_fmap.
  destruct (l !! i) as [x|] eqn:Hx; [|done]. simpl. f_equal.
  apply Hfg. by eapply list_elem_of_lookup_2.
Qed.

Lemma private_insert_contents (s : SortedSet K) l level sc key :
  inv s l -> (1 <= level <= SKIPLIST_MAXLEVEL)%nat -> not_nan sc ->
  mLength s < 2 ^ 32 - 1 ->
  exists x s' l',
    private_insert level sc key s = Some (x, s') /\ inv s' l' /\
    contents s' = ins_sorted key sc (contents s) /\
    mDict s' = mDict s /\ length l' = S (length l).
Proof.
  intros Hinv Hlevel Hsc Hroom.
  destruct (private_insert_spec s l level sc key Hinv Hlevel Hsc Hroom)
    as (x & s' & Hins & Hinv' & Hx & Hax & Haold & Hdict & Hhd).
  set (t := prefix_len (fun p => flt (score_of (heap s) p) sc) l) in *.
  exists x, s', (take t l ++ x :: drop t l).
  split; [done|]. split; [done|]. split; [|split; [done|]].
  - rewrite (inv_contents s' _ Hinv'), (inv_contents s l Hinv).
    unfold ins_sorted. rewrite prefix_len_fmap. simpl. fold t.
    rewrite fmap_app, fmap_cons, <- fmap_take, <- fmap_drop.
    assert (forall p, p ∈ l -> ks_of (heap s') p = ks_of (heap s) p) as Hks.
    { intros p Hp. apply attrs_ks_of, Haold. intros ->. apply Hx. by right. }
    f_equal; [|f_equal].
    + apply fmap_ext_elem. intros p Hp. apply Hks. by eapply subseteq_take.
    + apply attrs_Some in Hax as (_ & Hs & Hk & _).
      unfold ks_of. by rewrite Hs, Hk.
    + apply fmap_ext_elem. intros p Hp. apply Hks. by eapply subseteq_drop.
  - assert (t <= length l)%nat by apply prefix_len_le.
    rewrite length_app, length_take, length_cons, length_drop. lia.
Qed.

Lemma zadd_fresh_spec (s : SortedSet K) l key sc draws :
  inv s l -> mDict s !! key = None -> not_nan sc ->
  mLength s < 2 ^ 32 - 1 ->
  exists s' l',
    zadd key sc draws s = Some s' /\ inv s' l' /\
    contents s' = ins_sorted key sc (contents s) /\
    mDict s' = <[key := sc]> (mDict s) /\ length l' = S (length l).
Proof.
  intros Hinv Hfresh Hsc Hroom.
  destruct (private_insert_contents s l (randomlevel draws) sc key Hinv
              (randomlevel_range draws) Hsc Hroom)
    as (x & s' & l' & Hins & Hinv' & Hc & Hdict & Hlen).
  exists (set_mDict (<[key := sc]> (mDict s')) s'), l'. split.
  { unfold zadd. unfold zadd_generic. by rewrite Hfresh, Hins. }
  split; [by apply inv_set_mDict|]. split; [|split; [|done]].
  - done.
  - simpl. by rewrite Hdict.
Qed.

Lemma run_app (ops1 ops2 : list (op K)) (s : SortedSet K) :
  run (ops1 ++ ops2) s = s' ← run ops1 s; run ops2 s'.
Proof.
  revert s. induction ops1 as [|o ops1 IH]; intros s; [done|].
  simpl. destruct (step s o) as [s1|]; [|done]. simpl. apply IH.
Qed.

End Contents.

(** ** The queries on the list of stored pairs *)

Section ContentsQueries.
Context {K : Type} `{Countable K} `{Inhabited K}.

Lemma fmap_rev {A B} (f : A -> B) (l : list A) :
  f <$> List.rev l = List.rev (f <$> l).
Proof.
  induction l as [|x l IH]; [done|].
  simpl. by rewrite fmap_app, IH.
Qed.

Lemma elem_of_rev {A} (x : A) (l : list A) : x ∈ List.rev l -> x ∈ l.
Proof.
  induction l as [|y l IH]; [done|]. simpl.
  rewrite elem_of_app, list_elem_of_singleton.
  intros [Hx| ->]; [right; auto|by left].
Qed.

Lemma zrange_abs_fmap {X Y A} (f : Y -> A) (g : X -> Y) (l : list X)
    start end_ reverse :
  zrange_abs f (g <$> l) start end_ reverse =
  zrange_abs (f ∘ g) l start end_ reverse.
Proof.
  unfold zrange_abs. rewrite length_fmap.
  destruct (norm_range _ _ _) as [[first last]|]; [|done].
  destruct reverse.
  - by rewrite <- fmap_drop, <- fmap_take, <- fmap_rev, <- list_fmap_compose.
  - by rewrite <- fmap_drop, <- fmap_take, <- list_fmap_compose.
Qed.

Lemma zrange_abs_ext {X A} (f g : X -> A) (l : list X) start end_ reverse :
  (forall x, x ∈ l -> f x = g x) ->
  zrange_abs f l start end_ reverse = zrange_abs g l start end_ reverse.
Proof.
  intros Hfg. unfold zrange_abs.
  destruct (norm_range _ _ _) as [[first last]|]; [|done].
  destruct reverse; apply fmap_ext_elem; intros x Hx; apply Hfg.
  - apply elem_of_rev in Hx. eapply subseteq_drop, subseteq_take, Hx.
  - eapply subseteq_drop, subseteq_take, Hx.
Qed.

Lemma zrange_abs_length {X A} (f : X -> A) (l : list X) start end_ reverse :
  length (zrange_abs f l start end_ reverse) =
  match norm_range (Z.of_nat (length l)) start end_ with
  | None => 0%nat
  | Some (first, last) => Z.to_nat (last - first + 1)
  end.
Proof.
  unfold zrange_abs.
  destruct (norm_range _ _ _) as [[first last]|] eqn:Hn; [|done].
  unfold norm_range in Hn.
  set (start1 := if start <? 0 then _ else start) in Hn.
  set (end1 := if end_ <? 0 then _ else end_) in Hn.
  destruct ((end1 <? (if start1 <? 0 then 0 else start1))
            || (Z.of_nat (length l) <=? (if start1 <? 0 then 0 else start1)))
    eqn:Hemp; [done|].
  destruct (normalize_range (Z.of_nat (length l)) start end_ ltac:(lia) Hemp)
    as [Hs He].
  fold start1 end1 in Hs, He. injection Hn as <- <-.
  destruct reverse.
  - rewrite length_fmap, length_rev, length_take, length_drop. lia.
  - rewrite length_fmap, length_take, length_drop. lia.
Qed.

Variables (s : SortedSet K) (l : list ptr).
Hypothesis Hinv : inv s l.

Lemma inv_node_at p :
  p ∈ l -> exists n, heap s !! p = Some n /\ node_at (heap s) p = n /\
                     ks_of (heap s) p = (mKey n, mScore n).
Proof.
  intros Hp. destruct (proj2 (inv_dom _ _ Hinv p)) as [n Hn]; [by right|].
  exists n. split; [done|]. unfold node_at, ks_of, key_of, score_of.
  by rewrite Hn.
Qed.

Lemma contents_length : length (contents s) = length l.
Proof. by rewrite (inv_contents s l Hinv), length_fmap. Qed.

Lemma zcard_contents : zcard s = Z.of_nat (length (contents s)).
Proof. rewrite contents_length. apply Hinv. Qed.

Lemma zrange_withscores_contents start end_ reverse :
  zrange_withscores_generic start end_ reverse s =
  Some (zrange_abs id (contents s) start end_ reverse).
Proof.
  unfold zrange_withscores_generic.
  rewrite (zrange_with_spec s l Hinv). f_equal.
  rewrite (inv_contents s l Hinv), zrange_abs_fmap.
  apply zrange_abs_ext. intros p Hp.
  destruct (inv_node_at p Hp) as (n & _ & -> & Hks). by rewrite <- Hks.
Qed.

Lemma zrange_contents start end_ reverse :
  zrange_generic start end_ reverse s =
  Some (zrange_abs fst (contents s) start end_ reverse).
Proof.
  unfold zrange_generic.
  rewrite (zrange_with_spec s l Hinv). f_equal.
  rewrite (inv_contents s l Hinv), zrange_abs_fmap.
  apply zrange_abs_ext. intros p Hp.
  destruct (inv_node_at p Hp) as (n & _ & -> & Hks).
  unfold compose. by rewrite Hks.
Qed.

Lemma contents_lookup j ks :
  contents s !! j = Some ks ->
  exists p n, l !! j = Some p /\ heap s !! p = Some n /\
              ks = (mKey n, mScore n) /\ ks_of (heap s) p = ks.
Proof.
  rewrite (inv_contents s l Hinv), list_lookup_fmap.
  destruct (l !! j) as [p|] eqn:Hp; [|done]. simpl. intros [= <-].
  destruct (inv_node_at p) as (n & Hn & _ & Hks);
    [by eapply list_elem_of_lookup_2|].
  by exists p, n.
Qed.

Lemma contents_sorted a b ka kb :
  (a <= b)%nat -> contents s !! a = Some ka -> contents s !! b = Some kb ->
  fle ka.2 kb.2 = true.
Proof.
  intros Hab Ha Hb.
  apply contents_lookup in Ha as (pa & na & Hpa & _ & _ & <-).
  apply contents_lookup in Hb as (pb & nb & Hpb & _ & _ & <-).
  simpl. by apply (inv_sorted _ _ Hinv a b).
Qed.

Lemma contents_not_nan j ks : contents s !! j = Some ks -> not_nan ks.2.
Proof.
  intros Hj. apply contents_lookup in Hj as (p & n & Hp & _ & _ & <-).
  simpl. by apply (inv_not_nan s l Hinv j).
Qed.

(** [get_rank] of a stored pair whose key is stored once before it and
    which is the last of the pairs with a score up to its own. *)
Lemma get_rank_contents j key sc :
  contents s !! j = Some (key, sc) ->
  (forall c ks, (c <= j)%nat -> contents s !! c = Some ks -> ks.1 = key ->
                c = j) ->
  prefix_len (fun ks => fle ks.2 sc) (contents s) = S j ->
  get_rank sc key s = Some (Z.of_nat (S j)).
Proof.
  intros Hj Huniq Hlast.
  destruct (contents_lookup j _ Hj) as (p & n & Hp & Hn & Hks & Hks').
  apply (get_rank_spec s l Hinv sc key j p Hp).
  - unfold ks_of in Hks'. by injection Hks' as -> _.
  - rewrite (inv_contents s l Hinv) in Hlast.
    by rewrite prefix_len_fmap in Hlast.
  - intros c q Hc Hq Hkq. apply (Huniq c (ks_of (heap s) q) Hc); [|done].
    by rewrite (inv_contents s l Hinv), list_lookup_fmap, Hq.
Qed.

(** The node that [get_element_by_rank] finds at a rank of the list. *)
Lemma get_element_by_rank_contents j ks :
  contents s !! j = Some ks ->
  exists p n, get_element_by_rank (Z.of_nat (S j)) s = Some (Some p) /\
              heap s !! p = Some n /\ (mKey n, mScore n) = ks.
Proof.
  intros Hj.
  destruct (contents_lookup j _ Hj) as (p & n & Hp & Hn & Hks & _).
  exists p, n. split; [|done].
  assert (j < length l)%nat by by eapply lookup_lt_Some.
  rewrite (get_element_by_rank_spec s l Hinv) by lia.
  rewrite Nat2Z.id. simpl. by rewrite Hp.
Qed.

Lemma zrangebyscore_contents {A} (emit : SkipListNode K -> A)
    (emit' : K * score -> A) min max minex maxex :
  (forall n, emit n = emit' (mKey n, mScore n)) ->
  zrangebyscore_with emit min max false minex maxex s =
  Some (emit' <$> byscore_abs (mkRange min max minex maxex) (contents s)).
Proof.
  intros Hemit. rewrite (zrangebyscore_forward_spec s l Hinv). f_equal.
  unfold byscore_abs. rewrite (inv_contents s l Hinv).
  rewrite <- list_fmap_compose.
  replace (snd ∘ ks_of (heap s)) with (score_of (heap s)) by done.
  destruct (in_range_abs _ _); [|done].
  rewrite prefix_len_fmap. simpl.
  rewrite <- fmap_drop, prefix_len_fmap. simpl.
  rewrite <- fmap_take, <- list_fmap_compose.
  apply fmap_ext_elem. intros p Hp.
  destruct (inv_node_at p) as (n & _ & -> & Hks);
    [eapply subseteq_drop, subseteq_take, Hp|].
  simpl. by rewrite Hemit, Hks.
Qed.

End ContentsQueries.

(** ** Runs of insertions, and the deletion of a range of ranks *)

Section Runs.
Context {K : Type} `{Countable K} `{Inhabited K}.

Lemma run_ok_reachable (ops : list (op K)) : forall s s',
  reachable s -> run_ok ops s = Some s' -> reachable s' /\ run ops s = Some s'.
Proof.
  induction ops as [|o ops IH]; intros s s' Hs Hrun; simpl in *.
  { by injection Hrun as <-. }
  destruct (op_okb s o) eqn:Hok; [|done].
  destruct (step s o) as [s1|] eqn:Hstep; [|done]. simpl in *.
  apply (IH s1); [|done]. apply (reachable_step s o s1); [done| |done].
  destruct o; simpl in *; try done.
  - apply andb_true_iff in Hok as [? ?%Z.ltb_lt]. by split.
  - apply andb_true_iff in Hok as [? ?%Z.ltb_lt]. by split.
  - unfold is_long.
    apply andb_true_iff in Hok as [Hok ?%Z.ltb_lt].
    apply andb_true_iff in Hok as [Hok ?%Z.leb_le].
    apply andb_true_iff in Hok as [?%Z.leb_le ?%Z.ltb_lt]. lia.
Qed.

Lemma reachable_state_after (ops : list (op K)) : reachable (state_after ops).
Proof.
  unfold state_after.
  destruct (run_ok ops empty_set) as [s|] eqn:Hrun; simpl.
  - by apply (run_ok_reachable ops empty_set s reachable_empty).
  - apply reachable_empty.
Qed.

Lemma ins_sorted_perm (key : K) sc c : ins_sorted key sc c ≡ₚ (key, sc) :: c.
Proof.
  unfold ins_sorted. rewrite <- Permutation_middle. by rewrite take_drop.
Qed.

Lemma prefix_len_all {A} (P : A -> bool) (l : list A) :
  Forall (fun x => P x = true) l -> prefix_len P l = length l.
Proof.
  induction 1 as [|x l Hx _ IH]; [done|]. simpl. by rewrite Hx, IH.
Qed.

Lemma ins_sorted_snoc (key : K) sc c :
  Forall (fun ks => flt ks.2 sc = true) c ->
  ins_sorted key sc c = c ++ [(key, sc)].
Proof.
  intros Hall. unfold ins_sorted.
  rewrite (prefix_len_all _ c) by done.
  by rewrite take_ge, drop_ge by lia.
Qed.

Lemma ins_all_perm (elems : list (K * score * list Z)) : forall c,
  ins_all c elems ≡ₚ c ++ elems.*1.
Proof.
  induction elems as [|e elems IH]; intros c; simpl.
  { by rewrite app_nil_r. }
  unfold ins_all in *. simpl. rewrite IH, ins_sorted_perm.
  rewrite <- Permutation_middle. by destruct e as [[k sc] d].
Qed.

Lemma ins_all_increasing (elems : list (K * score * list Z)) : forall c,
  increasing (c.*2 ++ elems.*1.*2) -> ins_all c elems = c ++ elems.*1.
Proof.
  induction elems as [|e elems IH]; intros c Hinc; simpl.
  { by rewrite app_nil_r. }
  destruct e as [[k sc] d].
  unfold ins_all in *. simpl in *. rewrite ins_sorted_snoc.
  - rewrite IH; [by rewrite <- app_assoc|].
    by rewrite fmap_app, <- app_assoc.
  - clear IH. induction c as [|x c IHc]; [done|].
    simpl in Hinc. destruct Hinc as [Hx Hinc]. constructor; [|by apply IHc].
    rewrite Forall_app in Hx. destruct Hx as [_ Hx]. simpl in Hx.
    by apply Forall_cons in Hx as [? _].
Qed.

Lemma contents_empty : contents (empty_set : SortedSet K) = [].
Proof. by rewrite (inv_contents _ [] inv_empty). Qed.

Lemma synced_empty : synced (empty_set : SortedSet K).
Proof.
  unfold synced. rewrite contents_empty. split; [constructor|].
  intros k sc. simpl. rewrite lookup_empty. split; [done|].
  by intros ?%elem_of_nil.
Qed.

Lemma synced_fresh (s : SortedSet K) k :
  synced s -> mDict s !! k = None -> k ∉ (contents s).*1.
Proof.
  intros [_ Hs] Hk Hin. apply list_elem_of_fmap in Hin as ([k' sc] & -> & Hin).
  apply Hs in Hin. simpl in *. congruence.
Qed.

Lemma zadd_fresh_synced (s : SortedSet K) l key sc draws :
  inv s l -> synced s -> mDict s !! key = None -> not_nan sc ->
  mLength s < 2 ^ 32 - 1 ->
  exists s' l',
    zadd key sc draws s = Some s' /\ inv s' l' /\ synced s' /\
    contents s' = ins_sorted key sc (contents s) /\
    mDict s' = <[key := sc]> (mDict s) /\ length l' = S (length l).
Proof.
  intros Hinv Hsync Hfresh Hsc Hroom.
  destruct (zadd_fresh_spec s l key sc draws Hinv Hfresh Hsc Hroom)
    as (s' & l' & Hadd & Hinv' & Hc & Hd & Hlen).
  exists s', l'. split_and!; try done.
  pose proof (synced_fresh s key Hsync Hfresh) as Hnotin.
  destruct Hsync as [Hnd Hs]. split.
  - rewrite Hc, ins_sorted_perm. simpl. by constructor.
  - intros k sc'. rewrite Hc, Hd, ins_sorted_perm, elem_of_cons.
    destruct (decide (k = key)) as [->|Hne].
    + rewrite lookup_insert_eq. split.
      * intros [= ->]. by left.
      * intros [[= ->]|Hin]; [done|]. exfalso. apply Hnotin.
        apply list_elem_of_fmap. by exists (key, sc').
    + rewrite lookup_insert_ne by done. rewrite Hs. split; [by right|].
      intros [[= -> _]|Hin]; done.
Qed.

Lemma adds_spec (elems : list (K * score * list Z)) : forall (s : SortedSet K) l,
  inv s l -> reachable s -> synced s ->
  NoDup elems.*1.*1 ->
  (forall k, k ∈ elems.*1.*1 -> mDict s !! k = None) ->
  Forall (fun e => not_nan e.1.2) elems ->
  Z.of_nat (length l + length elems) < 2 ^ 32 ->
  exists s' l',
    run (adds elems) s = Some s' /\ inv s' l' /\ reachable s' /\ synced s' /\
    contents s' = ins_all (contents s) elems /\
    length l' = (length l + length elems)%nat.
Proof.
  induction elems as [|e elems IH]; intros s l Hinv Hreach Hsync Hnd Hfresh
    Hnn Hroom.
  { exists s, l. split_and!; try done; lia. }
  simpl in *. apply NoDup_cons in Hnd as [Hne Hnd].
  apply Forall_cons in Hnn as [Hsc Hnn].
  assert (mLength s < 2 ^ 32 - 1) as Hlen.
  { rewrite (proj1 (inv_length _ _ Hinv)). lia. }
  destruct (zadd_fresh_synced s l e.1.1 e.1.2 e.2 Hinv Hsync
              (Hfresh _ ltac:(by left)) Hsc Hlen)
    as (s1 & l1 & Hadd & Hinv1 & Hsync1 & Hc1 & Hd1 & Hl1).
  destruct (IH s1 l1 Hinv1) as (s' & l' & Hrun & Hinv' & Hreach' & Hsync'
                                & Hc' & Hl'); try done.
  - by apply (reachable_step s (Zadd e.1.1 e.1.2 e.2) s1).
  - intros k Hk. rewrite Hd1, lookup_insert_ne; [apply Hfresh; by right|].
    intros <-. done.
  - lia.
  - exists s', l'. rewrite Hadd. simpl. split_and!; try done.
    + rewrite Hc', Hc1. done.
    + lia.
Qed.

Lemma adds_empty_spec (elems : list (K * score * list Z)) :
  NoDup elems.*1.*1 ->
  Forall (fun e => not_nan e.1.2) elems ->
  Z.of_nat (length elems) < 2 ^ 32 ->
  exists (s : SortedSet K) l,
    run (adds elems) empty_set = Some s /\ inv s l /\ reachable s /\
    synced s /\ contents s = ins_all [] elems /\
    length l = length elems.
Proof.
  intros Hnd Hnn Hroom.
  destruct (adds_spec elems empty_set [] inv_empty (reachable_empty)
              synced_empty Hnd) as (s & l & Hrun & Hinv & Hreach & Hsync
                                    & Hc & Hl); try done.
  exists s, l. rewrite contents_empty in Hc. by split_and!.
Qed.

End Runs.

(** ** Ranks and the deletion of a range of ranks on the stored pairs *)

Section RankRange.
Context {K : Type} `{Countable K} `{Inhabited K}.

Lemma increasing_sublist (l1 l2 : list score) :
  l1 `sublist_of` l2 -> increasing l2 -> increasing l1.
Proof.
  induction 1 as [|x l1 l2 Hsub IH|x l1 l2 Hsub IH]; simpl; [done| |].
  - intros [Hx Hinc]. split; [|by apply IH].
    apply Forall_forall. intros y Hy.
    apply (proj1 (Forall_forall _ _) Hx). by eapply elem_of_sublist.
  - intros [_ Hinc]. by apply IH.
Qed.

Lemma sublist_take_drop {A} (c : list A) a b :
  (a <= b)%nat -> take a c ++ drop b c `sublist_of` c.
Proof.
  intros Hab. rewrite <- (take_drop a c) at 3.
  apply sublist_app; [done|].
  replace b with (a + (b - a))%nat by lia. rewrite <- drop_drop.
  apply sublist_drop.
Qed.

Lemma increasing_not_nan (l : list score) x :
  (2 <= length l)%nat -> increasing l -> x ∈ l -> not_nan x.
Proof.
  destruct l as [|a [|b l]]; simpl; [lia|lia|]. intros _ [Ha Hinc] Hx.
  apply Forall_cons in Ha as [Hab Ha].
  apply elem_of_cons in Hx as [->|Hx]; [by eapply flt_not_nan_l|].
  apply elem_of_cons in Hx as [->|Hx]; [by eapply flt_not_nan_r|].
  eapply flt_not_nan_r. by eapply (proj1 (Forall_forall _ _) Ha).
Qed.

Lemma increasing_prefix_len (c : list (K * score)) : forall j k sc,
  increasing c.*2 -> not_nan sc -> c !! j = Some (k, sc) ->
  prefix_len (fun ks => fle ks.2 sc) c = S j.
Proof.
  induction c as [|x c IH]; intros j k sc Hinc Hsc Hj; [done|].
  simpl in Hinc. destruct Hinc as [Hx Hinc]. destruct j as [|j]; simpl in *.
  - injection Hj as ->. simpl. rewrite fle_refl by done. f_equal.
    destruct c as [|y c]; [done|]. simpl.
    apply Forall_cons in Hx as [Hy _].
    rewrite flt_fle_neg in Hy by (done || by eapply flt_not_nan_r).
    simpl in Hy. apply negb_true_iff in Hy. by rewrite Hy.
  - assert (flt x.2 sc = true) as Hlt.
    { apply (proj1 (Forall_forall _ _) Hx).
      apply list_elem_of_fmap. exists (k, sc). split; [done|].
      by eapply list_elem_of_lookup_2. }
    rewrite (flt_fle _ _ Hlt). f_equal. by eapply IH.
Qed.

Lemma zrange_abs_all {X A} (f : X -> A) (c : list X) :
  zrange_abs f c 0 (-1) false = f <$> c.
Proof.
  unfold zrange_abs, norm_range. simpl.
  destruct c as [|x c]; [done|].
  set (n := length (x :: c)). assert (1 <= n)%nat by (subst n; simpl; lia).
  replace (Z.of_nat n + -1 <? 0) with false by lia.
  replace (Z.of_nat n <=? 0) with false by lia.
  replace (Z.of_nat n <=? Z.of_nat n + -1) with false by lia.
  cbn [orb]. change (Z.to_nat 0) with 0%nat.
  rewrite drop_0, take_ge; [done|]. fold n. lia.
Qed.

Lemma zrange_abs_full {X A} (f : X -> A) (c : list X) reverse :
  zrange_abs f c 0 (Z.of_nat (length c) - 1) reverse =
  if reverse then List.rev (f <$> c) else f <$> c.
Proof.
  unfold zrange_abs, norm_range. simpl.
  destruct c as [|x c]; [by destruct reverse|].
  set (n := length (x :: c)). assert (1 <= n)%nat by (subst n; simpl; lia).
  replace (Z.of_nat n - 1 <? 0) with false by lia.
  replace (Z.of_nat n <=? 0) with false by lia.
  replace (Z.of_nat n <=? Z.of_nat n - 1) with false by lia.
  destruct (Z.ltb_spec (Z.of_nat n - 1) 0); [lia|].
  cbn [orb]. cbv iota. change (Z.to_nat 0) with 0%nat.
  replace (n - 1 - Z.to_nat (Z.of_nat n - 1))%nat with 0%nat by lia.
  rewrite drop_0, take_ge by (fold n; lia).
  destruct reverse; [by rewrite fmap_rev|done].
Qed.

Lemma lookup_erase_keys (h : gmap ptr (SkipListNode K)) ps : forall d k,
  erase_keys h ps d !! k =
  if decide (k ∈ key_of h <$> ps) then None else d !! k.
Proof.
  induction ps as [|p ps IH]; intros d k.
  { by destruct (decide _) as [?%elem_of_nil|]. }
  unfold erase_keys in *. simpl. rewrite IH.
  destruct (decide (k ∈ key_of h <$> ps)) as [Hin|Hin].
  - rewrite decide_True; [done|by right].
  - destruct (decide (k = key_of h p)) as [->|Hne].
    + rewrite decide_True by by left. apply lookup_delete_eq.
    + rewrite decide_False; [by rewrite lookup_delete_ne|].
      by intros [?|?]%elem_of_cons.
Qed.

Lemma synced_key_unique (s : SortedSet K) i j ki kj :
  synced s -> contents s !! i = Some ki -> contents s !! j = Some kj ->
  ki.1 = kj.1 -> i = j.
Proof.
  intros [Hnd _] Hi Hj Hk.
  apply (NoDup_lookup _ i j ki.1 Hnd); rewrite list_lookup_fmap.
  - by rewrite Hi.
  - rewrite Hj. simpl. by rewrite Hk.
Qed.

Lemma zrank_contents (s : SortedSet K) l j key sc :
  inv s l -> synced s -> contents s !! j = Some (key, sc) ->
  prefix_len (fun ks => fle ks.2 sc) (contents s) = S j ->
  zrank key s = Some (Some (Z.of_nat j)) /\
  zrevrank key s = Some (Some (zcard s - Z.of_nat (S j))).
Proof.
  intros Hinv Hsync Hj Hlast.
  assert (mDict s !! key = Some sc) as Hd.
  { apply Hsync. by eapply list_elem_of_lookup_2. }
  assert (get_rank sc key s = Some (Z.of_nat (S j))) as Hr.
  { apply (get_rank_contents s l Hinv j key sc Hj); [|done].
    intros c ks _ Hc Hk. by apply (synced_key_unique s c j ks (key, sc)). }
  assert (j < length l)%nat as Hjl.
  { rewrite <- (contents_length s l Hinv). by eapply lookup_lt_Some. }
  destruct (inv_length _ _ Hinv) as [Hlen Hlenb].
  unfold zrank, zrevrank, zrank_generic, zcard. rewrite Hd, Hr. simpl.
  split; do 2 f_equal; rewrite wrap64_small; lia.
Qed.

Lemma zremrangebyrank_spec (s : SortedSet K) l start end_ a b :
  inv s l -> synced s -> norm_range (zcard s) start end_ = Some (a, b) ->
  exists s' l',
    private_delete_range_by_rank (a + 1) (b + 1) s = Some (b - a + 1, s') /\
    zremrangebyrank start end_ s = Some s' /\ inv s' l' /\ synced s' /\
    contents s' = take (Z.to_nat a) (contents s)
                  ++ drop (Z.to_nat b + 1) (contents s) /\
    (forall k, k ∈ (take (Z.to_nat (b - a + 1))
                      (drop (Z.to_nat a) (contents s))).*1 ->
               mDict s' !! k = None) /\
    0 <= a <= b /\ b < zcard s.
Proof.
  intros Hinv Hsync Hnorm.
  destruct (inv_length _ _ Hinv) as [Hlen Hlenb].
  unfold zremrangebyrank. rewrite to_long_small by (unfold is_long; lia).
  unfold norm_range, zcard in Hnorm. unfold zcard.
  set (start1 := if start <? 0 then mLength s + start else start) in *.
  set (end1 := if end_ <? 0 then mLength s + end_ else end_) in *.
  set (start2 := if start1 <? 0 then 0 else start1) in *.
  destruct ((end1 <? start2) || (mLength s <=? start2)) eqn:Hemp; [done|].
  destruct (normalize_range (mLength s) start end_ ltac:(lia) Hemp)
    as [Hs He].
  fold start1 end1 start2 in Hs, He.
  set (end2 := if mLength s <=? end1 then mLength s - 1 else end1) in *.
  injection Hnorm as <- <-.
  rewrite (wrap32_small (start2 + 1)), (wrap32_small (end2 + 1)) by lia.
  destruct (private_delete_range_by_rank_spec s l (start2 + 1) (end2 + 1)
              Hinv ltac:(lia)) as (s' & Hdel & Hinv' & Hd & Hhd & Hat).
  assert (Nat.min (Z.to_nat (start2 + 1 - 1)) (length l) = Z.to_nat start2)
    as Etm by lia.
  rewrite Etm in Hdel, Hinv', Hd, Hat. clear Etm.
  assert (Nat.min (length l - Z.to_nat start2)
            (Z.to_nat (end2 + 1 - Z.of_nat (Z.to_nat start2)))
          = Z.to_nat (end2 - start2 + 1)) as Ek by lia.
  rewrite Ek in Hdel, Hinv', Hd, Hat. clear Ek.
  rewrite Z2Nat.id in Hdel by lia.
  replace (Z.to_nat start2 + Z.to_nat (end2 - start2 + 1))%nat
    with (Z.to_nat end2 + 1)%nat in Hinv', Hat by lia.
  set (ta := Z.to_nat start2) in *. set (tb := (Z.to_nat end2 + 1)%nat) in *.
  set (k := Z.to_nat (end2 - start2 + 1)) in *.
  assert (contents s' = take ta (contents s) ++ drop tb (contents s)) as Hc.
  { rewrite (inv_contents s' _ Hinv'), (inv_contents s l Hinv).
    rewrite <- fmap_take, <- fmap_drop, <- fmap_app.
    apply fmap_ext_elem. intros p Hp. by apply attrs_ks_of, Hat. }
  assert (contents s = take ta (contents s)
                       ++ take k (drop ta (contents s))
                       ++ drop tb (contents s)) as Hsplit.
  { rewrite <- (take_drop ta (contents s)) at 1. f_equal.
    rewrite <- (take_drop k (drop ta (contents s))) at 1. f_equal.
    rewrite drop_drop. f_equal. lia. }
  assert (key_of (heap s) <$> take k (drop ta l)
          = (take k (drop ta (contents s))).*1) as Hkeys.
  { rewrite (inv_contents s l Hinv), <- fmap_drop, <- fmap_take.
    by rewrite <- list_fmap_compose. }
  destruct Hsync as [Hnd Hsync].
  rewrite Hsplit, !fmap_app in Hnd.
  apply NoDup_app in Hnd as (Hnd1 & Hdisj1 & Hnd2).
  apply NoDup_app in Hnd2 as (Hnd2 & Hdisj2 & Hnd3).
  exists s', (take ta l ++ drop tb l). rewrite Hdel. simpl. split_and!; try done; try lia.
  - split.
    + rewrite Hc, fmap_app. apply NoDup_app. split_and!; try done.
      intros x Hx1 Hx3. apply (Hdisj1 x Hx1). apply elem_of_app. by right.
    + intros key sc. rewrite Hd, lookup_erase_keys, Hkeys, Hc.
      destruct (decide _) as [Hin|Hin].
      * split; [done|]. intros Hks. exfalso.
        apply elem_of_app in Hks as [Hks|Hks].
        -- apply (Hdisj1 key); [|apply elem_of_app; by left].
           apply list_elem_of_fmap. by exists (key, sc).
        -- apply (Hdisj2 key); [done|].
           apply list_elem_of_fmap. by exists (key, sc).
      * rewrite Hsync. rewrite Hsplit at 1. rewrite !elem_of_app.
        split; [|tauto]. intros [?|[Hmid|?]]; [by left| |by right].
        exfalso. apply Hin. apply list_elem_of_fmap. by exists (key, sc).
  - intros key Hkey. rewrite Hd, lookup_erase_keys, Hkeys.
    by rewrite decide_True.
Qed.

End RankRange.

(** ** Ranges of scores that hold no stored score *)

Section EmptyRange.
Context {K : Type} `{Countable K} `{Inhabited K}.

Lemma feq_not_nan_l x y : feq x y = true -> not_nan x.
Proof.
  unfold feq. rewrite FloatAxioms.eqb_spec. unfold SFeqb. intros Hxy.
  apply not_nan_spec. intros E. rewrite E in Hxy. discriminate.
Qed.

Lemma gte_min_not_nan y range :
  score_gte_min y range = true -> not_nan (mMin range) /\ not_nan y.
Proof.
  unfold score_gte_min. destruct (mMinex range); intros Hy.
  - split; [by eapply flt_not_nan_l|by eapply flt_not_nan_r].
  - split; [by eapply fle_not_nan_l|by eapply fle_not_nan_r].
Qed.

Lemma lte_max_not_nan y range :
  score_lte_max y range = true -> not_nan (mMax range).
Proof.
  unfold score_lte_max. destruct (mMaxex range); intros Hy.
  - by eapply flt_not_nan_r.
  - by eapply fle_not_nan_r.
Qed.

(** No score lies in a range that is structurally empty. *)
Lemma range_is_empty_in_range range y :
  range_is_empty range = true -> in_range range y = false.
Proof.
  intros Hemp. destruct (in_range range y) eqn:Hin; [exfalso|done].
  apply andb_true_iff in Hin as [Hge Hle].
  destruct (gte_min_not_nan _ _ Hge) as [Hmin Hy].
  pose proof (lte_max_not_nan _ _ Hle) as Hmax.
  unfold score_gte_min in Hge. unfold score_lte_max in Hle.
  unfold range_is_empty in Hemp.
  assert (fle (mMin range) (mMax range) = true) as Hmm.
  { apply (fle_trans _ y); try done.
    - destruct (mMinex range); [by apply flt_fle|done].
    - destruct (mMaxex range); [by apply flt_fle|done]. }
  apply orb_true_iff in Hemp as [Hlt|Heq].
  { rewrite flt_fle_neg, Hmm in Hlt by done. done. }
  apply andb_true_iff in Heq as [Heq Hex].
  rewrite feq_fle in Heq by done. apply andb_true_iff in Heq as [_ Hge'].
  assert (flt (mMin range) (mMax range) = true) as Hlt.
  { destruct (mMinex range).
    - apply (flt_fle_trans _ y); try done.
      destruct (mMaxex range); [by apply flt_fle|done].
    - destruct (mMaxex range); [|done].
      by apply (fle_flt_trans _ y). }
  rewrite flt_fle_neg, Hge' in Hlt by done. done.
Qed.

Lemma range_is_empty_not_nan range :
  range_is_empty range = true -> not_nan (mMin range).
Proof.
  unfold range_is_empty. intros [Hlt|Heq]%orb_true_iff.
  - by eapply flt_not_nan_r.
  - apply andb_true_iff in Heq as [Heq _]. by eapply feq_not_nan_l.
Qed.

Variables (s : SortedSet K) (l : list ptr) (range : RangeSpec).
Hypothesis Hinv : inv s l.
Hypothesis Hmin : not_nan (mMin range).
Hypothesis Hno : forall p, p ∈ l -> in_range range (score_of (heap s) p) = false.

Lemma first_in_range_none : first_in_range range s = Some None.
Proof.
  rewrite (first_in_range_spec s l Hinv). f_equal.
  destruct (in_range_abs _ _); [|done].
  set (P := fun p => negb (score_gte_min (score_of (heap s) p) range)).
  destruct (l !! prefix_len P l) as [y|] eqn:Hy; [|done]. simpl.
  pose proof (prefix_len_take_drop P l) as [_ Hd].
  rewrite (drop_S _ _ _ Hy) in Hd. unfold P in Hd.
  apply negb_false_iff in Hd.
  pose proof (Hno y ltac:(by eapply list_elem_of_lookup_2)) as Hin.
  unfold in_range in Hin. rewrite Hd in Hin. simpl in Hin. by rewrite Hin.
Qed.

Lemma last_in_range_none : last_in_range range s = Some None.
Proof.
  rewrite (last_in_range_spec s l Hinv). f_equal.
  destruct (in_range_abs _ _) eqn:Habs; [|done].
  destruct (in_range_abs_head s l range Habs) as (f & Hf & Hfle).
  set (P := fun p => score_lte_max (score_of (heap s) p) range).
  assert (1 <= prefix_len P l)%nat as Hpos.
  { destruct l as [|f' l']; [done|]. injection Hf as ->.
    simpl. unfold P at 1. rewrite Hfle. lia. }
  destruct (l !! (prefix_len P l - 1)%nat) as [y|] eqn:Hy; [|done]. simpl.
  pose proof (prefix_len_take_drop P l) as [Ht _].
  assert (P y = true) as HPy.
  { apply (proj1 (Forall_forall _ _) Ht).
    apply (list_elem_of_lookup_2 _ (prefix_len P l - 1)).
    rewrite lookup_take_lt by lia. done. }
  pose proof (Hno y ltac:(by eapply list_elem_of_lookup_2)) as Hin.
  unfold in_range in Hin. unfold P in HPy. rewrite HPy in Hin.
  rewrite andb_true_r in Hin. by rewrite Hin.
Qed.

Lemma private_delete_range_by_score_none :
  private_delete_range_by_score range s = Some (0, s).
Proof.
  destruct (private_delete_range_by_score_spec s l range Hinv)
    as (s' & Hdel & _ & _ & Hsame).
  set (P := fun p => if mMinex range
                     then fle (score_of (heap s) p) (mMin range)
                     else flt (score_of (heap s) p) (mMin range)) in *.
  set (keepf := fun p (_ : Z) =>
                  if mMaxex range then flt (score_of (heap s) p) (mMax range)
                  else fle (score_of (heap s) p) (mMax range)) in *.
  assert (count_keep keepf (drop (prefix_len P l) l) 0 = 0%nat) as Hcount.
  { destruct (drop (prefix_len P l) l) as [|y r] eqn:Hdrop; [done|].
    pose proof (prefix_len_take_drop P l) as [_ Hd]. rewrite Hdrop in Hd.
    assert (y ∈ l) as Hyl.
    { eapply subseteq_drop. rewrite Hdrop. by left. }
    assert (not_nan (score_of (heap s) y)) as Hy.
    { apply list_elem_of_lookup_1 in Hyl as [a Ha].
      by apply (inv_not_nan s l Hinv a). }
    assert (score_gte_min (score_of (heap s) y) range = true) as Hge.
    { unfold score_gte_min. unfold P in Hd. destruct (mMinex range).
      - rewrite flt_fle_neg by done. by rewrite Hd.
      - rewrite fle_flt_neg by done. by rewrite Hd. }
    pose proof (Hno y Hyl) as Hin. unfold in_range in Hin.
    rewrite Hge in Hin. simpl in Hin. unfold score_lte_max in Hin.
    simpl. unfold keepf at 1. by rewrite Hin. }
  rewrite Hdel, Hcount. simpl. by rewrite (Hsame Hcount).
Qed.

Lemma zrangebyscore_with_none {A} (emit : SkipListNode K -> A)
    (reverse : bool) :
  zrangebyscore_with emit
    (if reverse then mMax range else mMin range)
    (if reverse then mMin range else mMax range) reverse
    (if reverse then mMaxex range else mMinex range)
    (if reverse then mMinex range else mMaxex range) s = Some [].
Proof.
  unfold zrangebyscore_with.
  replace (mkRange _ _ _ _) with range by (by destruct range, reverse).
  destruct reverse.
  - rewrite last_in_range_none. simpl. by destruct (fuel_of _).
  - rewrite first_in_range_none. simpl. by destruct (fuel_of _).
Qed.

Lemma zcount_none :
  zcount (mMin range) (mMax range) (mMinex range) (mMaxex range) s = Some 0.
Proof.
  unfold zcount.
  replace (mkRange _ _ _ _) with range by (by destruct range).
  by rewrite first_in_range_none.
Qed.

Lemma zremrangebyscore_none :
  zremrangebyscore (mMin range) (mMax range) (mMinex range) (mMaxex range) s
  = Some s.
Proof.
  unfold zremrangebyscore.
  replace (mkRange _ _ _ _) with range by (by destruct range).
  by rewrite private_delete_range_by_score_none.
Qed.

End EmptyRange.

(** ** Ranks of stored pairs, and the place of a new pair *)

Section RankOfStored.
Context {K : Type} `{Countable K} `{Inhabited K}.

Lemma count_if_app {A} (P : A -> bool) (l1 l2 : list A) :
  count_if P (l1 ++ l2) = (count_if P l1 + count_if P l2)%nat.
Proof.
  induction l1 as [|x l1 IH]; [done|]. simpl. rewrite IH.
  by destruct (P x).
Qed.

Lemma count_if_none {A} (P : A -> bool) (l : list A) :
  (forall x, x ∈ l -> P x = false) -> count_if P l = 0%nat.
Proof.
  induction l as [|x l IH]; intros Hl; [done|]. simpl.
  rewrite (Hl x) by by left. apply IH. intros y Hy. apply Hl. by right.
Qed.

Lemma count_if_split {A} (P Q : A -> bool) (l : list A) :
  (forall x, x ∈ l -> Q x = negb (P x)) ->
  (count_if P l + count_if Q l)%nat = length l.
Proof.
  induction l as [|x l IH]; intros Hl; [done|]. simpl.
  rewrite (Hl x) by by left.
  assert (count_if P l + count_if Q l = length l)%nat as IH'.
  { apply IH. intros y Hy. apply Hl. by right. }
  destruct (P x); simpl; lia.
Qed.

Variables (c : list (K * score)) (j : nat) (key : K) (sc : score).
Hypothesis Hsorted : forall a b ka kb, (a <= b)%nat ->
  c !! a = Some ka -> c !! b = Some kb -> fle ka.2 kb.2 = true.
Hypothesis Hnn : forall i ks, c !! i = Some ks -> not_nan ks.2.
Hypothesis Hj : c !! j = Some (key, sc).

(** The position of a stored pair counts the pairs with a smaller score
    and the pairs with its score that come before it in the list. *)
Lemma rank_count :
  j = (count_if (fun ks => flt ks.2 sc) c
       + count_if (fun ks => feq ks.2 sc) (take j c))%nat.
Proof.
  pose proof (Hnn j _ Hj) as Hsc. simpl in Hsc.
  assert (j < length c)%nat as Hjc by by eapply lookup_lt_Some.
  rewrite <- (take_drop j c) at 1. rewrite count_if_app.
  rewrite (count_if_none _ (drop j c)).
  - rewrite Nat.add_0_r, count_if_split; [by rewrite length_take_le by lia|].
    intros x Hx. apply list_elem_of_lookup_1 in Hx as [i Hi].
    apply lookup_take_Some in Hi as [Hi Hij].
    pose proof (Hsorted i j x (key, sc) ltac:(lia) Hi Hj) as Hle.
    pose proof (Hnn i x Hi) as Hx. simpl in Hle.
    rewrite feq_fle, Hle, (flt_fle_neg x.2 sc) by done. simpl.
    by rewrite negb_involutive.
  - intros x Hx. apply list_elem_of_lookup_1 in Hx as [i Hi].
    rewrite lookup_drop in Hi.
    pose proof (Hsorted j (j + i) (key, sc) x ltac:(lia) Hj Hi) as Hle.
    pose proof (Hnn _ x Hi) as Hx. simpl in Hle.
    rewrite flt_fle_neg, Hle by done. done.
Qed.

(** The pairs with a score up to [sc] end at the last pair of score [sc]. *)
Lemma last_of_score_prefix_len :
  (forall i ks, (j < i)%nat -> c !! i = Some ks -> flt sc ks.2 = true) ->
  prefix_len (fun ks => fle ks.2 sc) c = S j.
Proof.
  intros Hlater. pose proof (Hnn j _ Hj) as Hsc. simpl in Hsc.
  apply prefix_len_eq.
  - apply lookup_lt_Some in Hj. lia.
  - intros i x Hi Hx. apply (Hsorted i j x (key, sc)); [lia|done|done].
  - intros y Hy. pose proof (Hlater (S j) y ltac:(lia) Hy) as Hlt.
    rewrite flt_fle_neg in Hlt by (done || by eapply Hnn).
    by apply negb_true_iff in Hlt.
Qed.

End RankOfStored.

Section Place.
Context {K : Type} `{Countable K} `{Inhabited K}.

(** [get_rank] of a stored pair that is the last of its score and whose
    key is stored once is its position, counted from 1. *)
Lemma get_rank_last_of_score (s : SortedSet K) l j key sc :
  inv s l -> contents s !! j = Some (key, sc) ->
  (forall i ks, contents s !! i = Some ks -> ks.1 = key -> i = j) ->
  (forall i ks, (j < i)%nat -> contents s !! i = Some ks ->
                flt sc ks.2 = true) ->
  get_rank sc key s = Some (Z.of_nat j + 1) /\
  exists p n, get_element_by_rank (Z.of_nat j + 1) s = Some (Some p) /\
              heap s !! p = Some n /\ mKey n = key /\ mScore n = sc.
Proof.
  intros Hinv Hj Huniq Hlater.
  replace (Z.of_nat j + 1) with (Z.of_nat (S j)) by lia. split.
  - apply (get_rank_contents s l Hinv j key sc Hj).
    + intros i ks _ Hi Hk. by apply (Huniq i ks).
    + apply (last_of_score_prefix_len (contents s) j key sc); try done.
      * apply (contents_sorted s l Hinv).
      * apply (contents_not_nan s l Hinv).
  - destruct (get_element_by_rank_contents s l Hinv j _ Hj)
      as (p & n & Hg & Hn & Hks).
    injection Hks as Hk Hs. by exists p, n.
Qed.

(** Where [ins_sorted] puts the new pair: after the pairs with a smaller
    score and before the first pair whose score is not smaller. *)
Lemma ins_sorted_place (key : K) sc (c : list (K * score)) :
  let t := prefix_len (fun ks => flt ks.2 sc) c in
  ins_sorted key sc c = take t c ++ (key, sc) :: drop t c /\
  Forall (fun ks => flt ks.2 sc = true) (take t c) /\
  (forall ks, head (drop t c) = Some ks -> flt ks.2 sc = false).
Proof.
  intros t. split; [done|].
  pose proof (prefix_len_take_drop (fun ks : K * score => flt ks.2 sc) c)
    as [Ht Hd].
  split; [done|]. fold t in Hd. intros ks Hks.
  destruct (drop t c) as [|y r]; [done|]. by injection Hks as <-.
Qed.

(** [zrem] of a key whose node is not the first of its score: the node
    stays in the list, and the dictionary loses the key. *)
Lemma zrem_not_first (s : SortedSet K) l key sc y other :
  inv s l -> mDict s !! key = Some sc ->
  prefix_len (fun ks => flt ks.2 sc) (contents s) = 0%nat ->
  contents s !! 0%nat = Some (other, y) -> other <> key ->
  zrem key s = Some (set_mDict (delete key (mDict s)) s).
Proof.
  intros Hinv Hd Ht Hfirst Hne. unfold zrem. rewrite Hd.
  destruct (private_delete_spec s l sc key Hinv) as (r & Hdel & Hr).
  rewrite (inv_contents s l Hinv), prefix_len_fmap in Ht. simpl in Ht.
  rewrite Ht in Hr.
  destruct (contents_lookup s l Hinv _ _ Hfirst) as (p & n & Hp & Hn & _ & Hks).
  rewrite Hdel. destruct Hr as [(p' & Hp' & _ & Hk & _)|[_ ->]]; [|done].
  exfalso. rewrite Hp in Hp'. injection Hp' as <-.
  unfold ks_of in Hks. injection Hks as Hko _. congruence.
Qed.

End Place.

(** * The claims *)

Section Claims.
Context {K : Type} `{Countable K} `{Inhabited K}.

(** C1: the parity of the dictionary and the list fails in a reachable
    state. After [zadd x 5], [zadd y 5] and [zrem x], whatever levels are
    drawn, [private_delete] looks at the first node of score 5 only, which
    holds [y], and deletes nothing; [zrem] erases [x] from the dictionary
    all the same. The list keeps both nodes, so [zcard] is 2 while the
    dictionary has one entry, and [zscore x] is absent although a node
    with the key [x] is in the list. *)
Theorem C1_zrem_leaves_node (x y : K) (d1 d2 : list Z) :
  x <> y ->
  exists s : SortedSet K,
    run [Zadd x 5%float d1; Zadd y 5%float d2; Zrem x] empty_set = Some s /\
    reachable s /\ zcard s = 2 /\ size (mDict s) = 1%nat /\
    contents s = [(y, 5%float); (x, 5%float)] /\ zscore x s = None.
Proof.
  intros Hxy.
  destruct (adds_empty_spec [(x, 5%float, d1); (y, 5%float, d2)])
    as (s & l & Hrun & Hinv & Hreach & Hsync & Hc & Hl).
  { simpl. apply NoDup_cons. split; [by intros ?%list_elem_of_singleton|].
    apply NoDup_singleton. }
  { by repeat constructor. }
  { simpl. lia. }
  assert (contents s = [(y, 5%float); (x, 5%float)]) as Hc'.
  { rewrite Hc. by vm_compute. }
  assert (mDict s !! x = Some 5%float) as Hdx.
  { apply Hsync. rewrite Hc'. right. by left. }
  assert (zrem x s = Some (set_mDict (delete x (mDict s)) s)) as Hrem.
  { apply (zrem_not_first s l x 5%float 5%float y Hinv Hdx).
    - rewrite Hc'. by vm_compute.
    - by rewrite Hc'.
    - done. }
  exists (set_mDict (delete x (mDict s)) s). split_and!.
  - change [Zadd x 5%float d1; Zadd y 5%float d2; Zrem x]
      with (adds [(x, 5%float, d1); (y, 5%float, d2)] ++ [Zrem x]).
    rewrite run_app, Hrun. simpl. by rewrite Hrem.
  - by apply (reachable_step s (Zrem x)).
  - unfold zcard. simpl. rewrite (proj1 (inv_length _ _ Hinv)), Hl. done.
  - simpl. replace (delete x (mDict s)) with ({[y := 5%float]} : gmap K score).
    { apply map_size_singleton. }
    apply map_eq. intros k. destruct (decide (k = x)) as [->|Hkx].
    { by rewrite lookup_delete_eq, lookup_singleton_ne. }
    rewrite lookup_delete_ne by done.
    destruct (decide (k = y)) as [->|Hky].
    { rewrite lookup_singleton_eq. symmetry. apply Hsync. rewrite Hc'. by left. }
    rewrite lookup_singleton_ne by done. symmetry.
    destruct (mDict s !! k) as [sc|] eqn:Hk; [exfalso|done].
    apply Hsync in Hk. rewrite Hc' in Hk.
    apply elem_of_cons in Hk as [[= -> _]|Hk]; [done|].
    apply list_elem_of_singleton in Hk as [= -> _]. done.
  - done.
  - unfold zscore. simpl. apply lookup_delete_eq.
Qed.

(** C4: the tie-break of the insertion. In every reachable state with
    room for a node, [private_insert] (at any level) and [zadd] of a new
    key with a score that is a number put the new pair after the stored
    pairs with a strictly smaller score and immediately before the first
    stored pair whose score is not strictly smaller; the place is found
    from the scores alone. In particular, after [zadd x 5] and [zadd y 5],
    whatever levels are drawn, both keys are stored, [zcard] is 2 and
    [zrangebyscore 5 5] returns both keys, the later one first. *)
Theorem C4_tie_break (s : SortedSet K) (key : K) (sc : score) :
  reachable s -> not_nan sc -> mLength s < 2 ^ 32 - 1 ->
  let t := prefix_len (fun ks => flt ks.2 sc) (contents s) in
  (Forall (fun ks => flt ks.2 sc = true) (take t (contents s)) /\
   (forall ks, head (drop t (contents s)) = Some ks -> flt ks.2 sc = false)) /\
  (forall level, (1 <= level <= SKIPLIST_MAXLEVEL)%nat ->
     exists x s',
       private_insert level sc key s = Some (x, s') /\
       contents s' = take t (contents s) ++ (key, sc) :: drop t (contents s)) /\
  (forall draws, mDict s !! key = None ->
     exists s',
       zadd key sc draws s = Some s' /\
       contents s' = take t (contents s) ++ (key, sc) :: drop t (contents s)) /\
  (forall (x y : K) (d1 d2 : list Z), x <> y ->
     exists s2 : SortedSet K,
       run [Zadd x 5%float d1; Zadd y 5%float d2] empty_set = Some s2 /\
       zcard s2 = 2 /\
       zscore x s2 = Some 5%float /\ zscore y s2 = Some 5%float /\
       contents s2 = [(y, 5%float); (x, 5%float)] /\
       zrangebyscore 5%float 5%float false false s2 = Some [y; x]).
Proof.
  intros Hreach Hsc Hroom t.
  destruct (reachable_inv s Hreach) as [l Hinv].
  destruct (ins_sorted_place key sc (contents s)) as (Hins & Hbefore & Hafter).
  fold t in Hins, Hbefore, Hafter. split_and!; try done.
  - intros level Hlevel.
    destruct (private_insert_contents s l level sc key Hinv Hlevel Hsc Hroom)
      as (x & s' & l' & Hpi & _ & Hc & _).
    exists x, s'. split; [done|]. by rewrite Hc.
  - intros draws Hfresh.
    destruct (zadd_fresh_spec s l key sc draws Hinv Hfresh Hsc Hroom)
      as (s' & l' & Hadd & _ & Hc & _).
    exists s'. split; [done|]. by rewrite Hc.
  - intros x y d1 d2 Hxy.
    destruct (adds_empty_spec [(x, 5%float, d1); (y, 5%float, d2)])
      as (s2 & l2 & Hrun & Hinv2 & Hreach2 & Hsync2 & Hc2 & Hl2).
    { simpl. apply NoDup_cons. split; [by intros ?%list_elem_of_singleton|].
      apply NoDup_singleton. }
    { by repeat constructor. }
    { simpl. lia. }
    assert (contents s2 = [(y, 5%float); (x, 5%float)]) as Hc'.
    { rewrite Hc2. by vm_compute. }
    exists s2. split_and!; try done.
    + unfold zcard. by rewrite (proj1 (inv_length _ _ Hinv2)), Hl2.
    + apply Hsync2. rewrite Hc'. right. by left.
    + apply Hsync2. rewrite Hc'. by left.
    + unfold zrangebyscore, zrangebyscore_generic.
      rewrite (zrangebyscore_contents s2 l2 Hinv2 mKey fst) by done.
      rewrite Hc'. by vm_compute.
Qed.

(** C5: the round trip through [zrange]. After one [zadd] per element of a
    list of [n] distinct keys with scores that are numbers ([n] below the
    range of the [unsigned int] spans), [zrange 0 (n-1)] returns the [n]
    keys in non-decreasing order of their scores, each key with the score
    it was added with, and [zrevrange 0 (n-1)] returns that sequence
    reversed. *)
Theorem C5_range_round_trip (elems : list (K * score * list Z)) :
  NoDup elems.*1.*1 ->
  Forall (fun e => not_nan e.1.2) elems ->
  Z.of_nat (length elems) < 2 ^ 32 ->
  let n := Z.of_nat (length elems) in
  exists (s : SortedSet K) (c : list (K * score)),
    run (adds elems) empty_set = Some s /\
    zrange_withscores 0 (n - 1) s = Some c /\
    c ≡ₚ elems.*1 /\
    (forall a b ka kb, (a <= b)%nat -> c !! a = Some ka -> c !! b = Some kb ->
                       fle ka.2 kb.2 = true) /\
    (forall k sc, (k, sc) ∈ c -> zscore k s = Some sc) /\
    zrange 0 (n - 1) s = Some c.*1 /\
    zrevrange 0 (n - 1) s = Some (List.rev c.*1).
Proof.
  intros Hnd Hnn Hroom n.
  destruct (adds_empty_spec elems Hnd Hnn Hroom)
    as (s & l & Hrun & Hinv & Hreach & Hsync & Hc & Hl).
  assert (n = Z.of_nat (length (contents s))) as Hn.
  { by rewrite (contents_length s l Hinv), Hl. }
  exists s, (contents s). split_and!.
  - done.
  - unfold zrange_withscores.
    rewrite (zrange_withscores_contents s l Hinv), Hn, zrange_abs_full.
    by rewrite list_fmap_id.
  - rewrite Hc. apply (ins_all_perm elems []).
  - apply (contents_sorted s l Hinv).
  - intros k sc Hk. by apply Hsync.
  - unfold zrange.
    by rewrite (zrange_contents s l Hinv), Hn, zrange_abs_full.
  - unfold zrevrange.
    by rewrite (zrange_contents s l Hinv), Hn, zrange_abs_full.
Qed.

(** C6: the deletion of a range of ranks. In a set built by ten [zadd]s of
    distinct keys with strictly increasing scores, [zremrangebyrank 2 4]
    normalises its arguments to the indexes 2 and 4, calls
    [private_delete_range_by_rank 3 5], which removes exactly 3 nodes, and
    leaves the keys of the first two and the last five elements, whose
    0-based ranks are their positions in that order: the sixth element
    added has rank 2. The keys of the removed elements are gone from the
    dictionary. *)
Theorem C6_remove_range_by_rank (elems : list (K * score * list Z)) :
  length elems = 10%nat ->
  NoDup elems.*1.*1 ->
  increasing elems.*1.*2 ->
  let keys := elems.*1.*1 in
  exists s s' : SortedSet K,
    run (adds elems) empty_set = Some s /\ zcard s = 10 /\
    norm_range (zcard s) 2 4 = Some (2, 4) /\
    private_delete_range_by_rank 3 5 s = Some (3, s') /\
    zremrangebyrank 2 4 s = Some s' /\ zcard s' = 7 /\
    zrange 0 (-1) s' = Some (take 2 keys ++ drop 5 keys) /\
    (forall i k, (take 2 keys ++ drop 5 keys) !! i = Some k ->
                 zrank k s' = Some (Some (Z.of_nat i))) /\
    (forall k, keys !! 5%nat = Some k -> zrank k s' = Some (Some 2)) /\
    (forall k, k ∈ take 3 (drop 2 keys) -> zscore k s' = None).
Proof.
  intros Hlen Hnd Hinc keys.
  assert (Forall (fun e => not_nan e.1.2) elems) as Hnn.
  { apply Forall_forall. intros e He.
    apply (increasing_not_nan elems.*1.*2); [|done|].
    - rewrite !length_fmap. lia.
    - apply list_elem_of_fmap. exists e.1. split; [done|].
      apply list_elem_of_fmap. by exists e. }
  destruct (adds_empty_spec elems Hnd Hnn ltac:(lia))
    as (s & l & Hrun & Hinv & Hreach & Hsync & Hc & Hl).
  rewrite (ins_all_increasing elems []) in Hc by done. simpl in Hc.
  assert (zcard s = 10) as Hcard.
  { unfold zcard. rewrite (proj1 (inv_length _ _ Hinv)), Hl, Hlen. done. }
  assert (norm_range (zcard s) 2 4 = Some (2, 4)) as Hnorm.
  { by rewrite Hcard. }
  destruct (zremrangebyrank_spec s l 2 4 2 4 Hinv Hsync Hnorm)
    as (s' & l' & Hdel & Hrem & Hinv' & Hsync' & Hc' & Hgone & _).
  change (2 + 1) with 3 in Hdel. change (4 + 1) with 5 in Hdel.
  change (4 - 2 + 1) with 3 in Hdel.
  change (Z.to_nat 2) with 2%nat in Hc', Hgone.
  change (Z.to_nat 4 + 1)%nat with 5%nat in Hc'.
  change (Z.to_nat (4 - 2 + 1)) with 3%nat in Hgone.
  rewrite Hc in Hc', Hgone.
  assert ((contents s').*1 = take 2 keys ++ drop 5 keys) as Hkeys.
  { by rewrite Hc', fmap_app, fmap_take, fmap_drop. }
  assert (forall i k, (take 2 keys ++ drop 5 keys) !! i = Some k ->
                      zrank k s' = Some (Some (Z.of_nat i))) as Hranks.
  { intros i k Hi. rewrite <- Hkeys, list_lookup_fmap in Hi.
    destruct (contents s' !! i) as [[k' sc]|] eqn:Hi'; [|done].
    simpl in Hi. injection Hi as ->.
    apply (zrank_contents s' l' i k sc Hinv' Hsync' Hi').
    apply (increasing_prefix_len _ i k sc); [| |done].
    - rewrite Hc'. eapply increasing_sublist; [|exact Hinc].
      apply fmap_sublist, sublist_take_drop. lia.
    - by apply (contents_not_nan s' l' Hinv' i (k, sc)). }
  exists s, s'. split_and!; try done.
  - rewrite (zcard_contents s' l' Hinv'), Hc'.
    rewrite length_app, length_take, length_drop, !length_fmap, Hlen. done.
  - unfold zrange.
    by rewrite (zrange_contents s' l' Hinv'), zrange_abs_all, Hkeys.
  - intros k Hk. apply (Hranks 2%nat).
    rewrite lookup_app_r; rewrite length_take; unfold keys;
      rewrite !length_fmap, Hlen; [|simpl; lia].
    rewrite lookup_drop. exact Hk.
  - intros k Hk. apply Hgone. by rewrite fmap_take, fmap_drop.
Qed.

(** C7: a key that is not in the dictionary. In every state, [zrem] of
    such a key returns the state as it is, [zscore] returns the absent
    result, and [zrank] and [zrevrank] return the result [false]; none of
    them fails. *)
Theorem C7_absent_key (s : SortedSet K) (key : K) :
  mDict s !! key = None ->
  zrem key s = Some s /\ zscore key s = None /\
  forall reverse, zrank_generic key reverse s = Some None.
Proof.
  intros Hk. unfold zrem, zscore, zrank_generic. by rewrite Hk.
Qed.

(** C8: ranges of scores that hold no stored score. In every reachable
    state, for a range that is structurally empty ([max < min], or
    [min = max] with a bound excluded), or whose lower bound is a number
    and which no stored score lies in, [zrangebyscore] and its variants
    (with scores, reversed) return the empty sequence, [zcount] returns 0,
    and [zremrangebyscore] removes nothing and returns the state as it is;
    none of them fails. *)
Theorem C8_empty_range (s : SortedSet K) (min max : score)
    (minex maxex : bool) :
  reachable s ->
  let range := mkRange min max minex maxex in
  range_is_empty range = true \/
  (not_nan min /\
   Forall (fun ks => in_range range ks.2 = false) (contents s)) ->
  zrangebyscore min max minex maxex s = Some [] /\
  zrangebyscore_withscores min max minex maxex s = Some [] /\
  zrevrangebyscore max min maxex minex s = Some [] /\
  zrevrangebyscore_withscores max min maxex minex s = Some [] /\
  zcount min max minex maxex s = Some 0 /\
  private_delete_range_by_score range s = Some (0, s) /\
  zremrangebyscore min max minex maxex s = Some s.
Proof.
  intros Hreach range Hemp.
  destruct (reachable_inv s Hreach) as [l Hinv].
  assert (not_nan (mMin range) /\
          forall p, p ∈ l -> in_range range (score_of (heap s) p) = false)
    as [Hmin Hno].
  { destruct Hemp as [Hemp|[Hmin Hall]].
    - split; [by apply range_is_empty_not_nan|].
      intros p _. by apply range_is_empty_in_range.
    - split; [done|]. intros p Hp.
      rewrite (inv_contents s l Hinv) in Hall.
      apply (proj1 (Forall_forall _ _) Hall (ks_of (heap s) p)).
      apply list_elem_of_fmap. by exists p. }
  split_and!.
  - apply (zrangebyscore_with_none s l range Hinv Hmin Hno mKey false).
  - apply (zrangebyscore_with_none s l range Hinv Hmin Hno
             (fun n => (mKey n, mScore n)) false).
  - apply (zrangebyscore_with_none s l range Hinv Hmin Hno mKey true).
  - apply (zrangebyscore_with_none s l range Hinv Hmin Hno
             (fun n => (mKey n, mScore n)) true).
  - apply (zcount_none s l range Hinv Hmin Hno).
  - apply (private_delete_range_by_score_none s l range Hinv Hmin Hno).
  - apply (zremrangebyscore_none s l range Hinv Hmin Hno).
Qed.

(** C10: the walks over a range of ranks. In every reachable state and for
    all [long] arguments, [zrange], [zrevrange] and their variants with
    scores return a result (the walk never meets a null node while nodes
    are left to visit), and the result has one entry per rank of the
    normalised range. *)
Theorem C10_range_walk_safe (s : SortedSet K) (start end_ : Z)
    (reverse : bool) :
  reachable s -> is_long start -> is_long end_ ->
  exists (ks : list K) (kss : list (K * score)),
    zrange_generic start end_ reverse s = Some ks /\
    length ks = rangelen s start end_ /\
    zrange_withscores_generic start end_ reverse s = Some kss /\
    length kss = rangelen s start end_.
Proof.
  intros Hreach _ _. destruct (reachable_inv s Hreach) as [l Hinv].
  exists (zrange_abs fst (contents s) start end_ reverse),
         (zrange_abs id (contents s) start end_ reverse).
  unfold rangelen. rewrite (zcard_contents s l Hinv).
  split_and!.
  - apply (zrange_contents s l Hinv).
  - apply zrange_abs_length.
  - apply (zrange_withscores_contents s l Hinv).
  - apply zrange_abs_length.
Qed.

End Claims.

(** C2: [get_rank] of a stored pair can be 0. After [zadd x 5] and
    [zadd y 5] with one level each the list is y, x. [get_rank 5 y] passes
    both nodes, whose scores are [<= 5], compares the key at the last one
    only, and returns 0, the result for a pair that is not stored, although
    the comment of [get_rank] promises the rank in that case;
    [get_element_by_rank 0] is the header, not the node of [y]. The rank of
    [x] is 2, its position. *)
Theorem C2_rank_of_stored_is_zero :
  exists s : SortedSet string,
    run tie_ops empty_set = Some s /\ reachable s /\
    contents s = [("y", 5%float); ("x", 5%float)] /\
    zscore "y" s = Some 5%float /\
    get_rank 5%float "y" s = Some 0 /\
    get_element_by_rank 0 s = Some (Some (mHeader s)) /\
    get_rank 5%float "x" s = Some 2.
Proof.
  exists (state_after tie_ops). split_and!.
  - by vm_compute.
  - apply reachable_state_after.
  - by vm_compute.
  - by vm_compute.
  - by vm_compute.
  - by vm_compute.
  - by vm_compute.
Qed.

(** C3: [zcount] can exceed the number of stored elements. After
    [zadd x 5] and [zadd y 5] with one level each, [zcount 5 5] takes the
    rank 0 that [get_rank] returns for the first node in the range and
    returns 3 for a set of 2 elements. With three distinct scores 1, 2, 3
    the count of the range from 1.5 to 3 is 2, as in the scenario. *)
Theorem C3_count_of_tied_scores :
  (exists s : SortedSet string,
     run tie_ops empty_set = Some s /\ reachable s /\ zcard s = 2 /\
     zcount 5%float 5%float false false s = Some 3) /\
  (exists s : SortedSet string,
     run abc_ops empty_set = Some s /\ reachable s /\
     zcount 1.5%float 3%float false false s = Some 2).
Proof.
  split.
  - exists (state_after tie_ops). split_and!; try by vm_compute.
    apply reachable_state_after.
  - exists (state_after abc_ops). split_and!; try by vm_compute.
    apply reachable_state_after.
Qed.

(** C9: the results of the queries depend on the levels drawn. The same
    two commands, [zadd x 5] and [zadd y 5], leave a state in which
    [zrank y] is 2^64 - 1 and [zcount 5 5] is 3 when both nodes get one
    level, and a state in which [zrank y] is 0 and [zcount 5 5] is 2 when
    the node of [y] gets two levels. *)
Theorem C9_rank_depends_on_levels :
  exists s1 s2 : SortedSet string,
    run tie_ops empty_set = Some s1 /\ run tie_ops_tall empty_set = Some s2 /\
    reachable s1 /\ reachable s2 /\
    zrank "y" s1 = Some (Some (2 ^ 64 - 1)) /\ zrank "y" s2 = Some (Some 0) /\
    zcount 5%float 5%float false false s1 = Some 3 /\
    zcount 5%float 5%float false false s2 = Some 2.
Proof.
  exists (state_after tie_ops), (state_after tie_ops_tall).
  split_and!; try by vm_compute.
  - apply reachable_state_after.
  - apply reachable_state_after.
Qed.

(** ** The theorems at concrete inputs *)

Lemma C1_zrem_leaves_node_witness :
  exists s : SortedSet string,
    run [Zadd "x" 5%float lvl1; Zadd "y" 5%float lvl2; Zrem "x"] empty_set
      = Some s /\
    reachable s /\ zcard s = 2 /\ size (mDict s) = 1%nat /\
    contents s = [("y", 5%float); ("x", 5%float)] /\ zscore "x" s = None.
Proof.
  apply (C1_zrem_leaves_node "x" "y" lvl1 lvl2). discriminate.
Defined.

Lemma C4_tie_break_witness :
  exists s' : SortedSet string,
    zadd "y" 5%float lvl1 (state_after [Zadd "x" 5%float lvl1]) = Some s' /\
    contents s' = [("y", 5%float); ("x", 5%float)].
Proof.
  destruct (C4_tie_break (state_after [Zadd "x" 5%float lvl1]) "y" 5%float)
    as (_ & _ & Hadd & _).
  - apply reachable_state_after.
  - reflexivity.
  - vm_compute. reflexivity.
  - apply (Hadd lvl1). vm_compute. reflexivity.
Defined.

Lemma C5_range_round_trip_witness :
  exists (s : SortedSet string) (c : list (string * score)),
    run (adds bac) empty_set = Some s /\
    zrange_withscores 0 (3 - 1) s = Some c /\
    c ≡ₚ bac.*1 /\
    (forall a b ka kb, (a <= b)%nat -> c !! a = Some ka -> c !! b = Some kb ->
                       fle ka.2 kb.2 = true) /\
    (forall k sc, (k, sc) ∈ c -> zscore k s = Some sc) /\
    zrange 0 (3 - 1) s = Some c.*1 /\
    zrevrange 0 (3 - 1) s = Some (List.rev c.*1).
Proof.
  apply (C5_range_round_trip bac).
  - apply (bool_decide_unpack _). vm_compute. exact I.
  - repeat constructor.
  - vm_compute. reflexivity.
Defined.

Lemma C6_remove_range_by_rank_witness :
  exists s s' : SortedSet string,
    run (adds ten) empty_set = Some s /\ zcard s = 10 /\
    norm_range (zcard s) 2 4 = Some (2, 4) /\
    private_delete_range_by_rank 3 5 s = Some (3, s') /\
    zremrangebyrank 2 4 s = Some s' /\ zcard s' = 7 /\
    zrange 0 (-1) s' = Some ["k0"; "k1"; "k5"; "k6"; "k7"; "k8"; "k9"] /\
    (forall i k, ["k0"; "k1"; "k5"; "k6"; "k7"; "k8"; "k9"] !! i = Some k ->
                 zrank k s' = Some (Some (Z.of_nat i))) /\
    (forall k, Some "k5" = Some k -> zrank k s' = Some (Some 2)) /\
    (forall k, k ∈ ["k2"; "k3"; "k4"] -> zscore k s' = None).
Proof.
  apply (C6_remove_range_by_rank ten).
  - reflexivity.
  - apply (bool_decide_unpack _). vm_compute. exact I.
  - simpl. repeat (first [split | constructor]).
Defined.

Lemma C7_absent_key_witness :
  zrem "z" (state_after abc_ops) = Some (state_after abc_ops) /\
  zscore "z" (state_after abc_ops) = None /\
  forall reverse, zrank_generic "z" reverse (state_after abc_ops) = Some None.
Proof.
  apply (C7_absent_key (state_after abc_ops) "z"). vm_compute. reflexivity.
Defined.

Lemma C8_empty_range_witness :
  zrangebyscore 5%float 9%float false false (state_after abc_ops) = Some [] /\
  zrangebyscore_withscores 5%float 9%float false false (state_after abc_ops)
    = Some [] /\
  zrevrangebyscore 9%float 5%float false false (state_after abc_ops)
    = Some [] /\
  zrevrangebyscore_withscores 9%float 5%float false false
    (state_after abc_ops) = Some [] /\
  zcount 5%float 9%float false false (state_after abc_ops) = Some 0 /\
  private_delete_range_by_score (mkRange 5%float 9%float false false)
    (state_after abc_ops) = Some (0, state_after abc_ops) /\
  zremrangebyscore 5%float 9%float false false (state_after abc_ops)
    = Some (state_after abc_ops).
Proof.
  apply (C8_empty_range (state_after abc_ops) 5%float 9%float false false).
  - apply reachable_state_after.
  - right. split; [reflexivity|].
    vm_compute. repeat constructor.
Defined.

Lemma C10_range_walk_safe_witness :
  exists (ks : list string) (kss : list (string * score)),
    zrange_generic 1 (-1) true (state_after abc_ops) = Some ks /\
    length ks = rangelen (state_after abc_ops) 1 (-1) /\
    zrange_withscores_generic 1 (-1) true (state_after abc_ops) = Some kss /\
    length kss = rangelen (state_after abc_ops) 1 (-1).
Proof.
  apply (C10_range_walk_safe (state_after abc_ops) 1 (-1) true).
  - apply reachable_state_after.
  - unfold is_long. lia.
  - unfold is_long. lia.
Defined.

(** * The commands as functions on the stored pairs and the dictionary *)

Section Effects.
Context {K : Type} `{Countable K} `{Inhabited K}.

Lemma erase_keys_all (h : gmap ptr (SkipListNode K)) ps d :
  erase_keys h ps d = erase_all (ks_of h <$> ps) d.
Proof.
  revert d. induction ps as [|p ps IH]; intros d; [done|].
  unfold erase_keys, erase_all in *. simpl. apply IH.
Qed.

(** [private_delete] on the stored pairs. *)
Lemma private_delete_contents (s : SortedSet K) l sc key :
  inv s l ->
  exists b s' l',
    private_delete sc key s = Some (b, s') /\ inv s' l' /\
    contents s' = del_first key sc (contents s) /\
    mDict s' = mDict s /\ (length l' <= length l)%nat /\
    (b = false -> s' = s).
Proof.
  intros Hinv.
  destruct (private_delete_spec s l sc key Hinv) as ([b s'] & Hdel & Hr).
  simpl in Hr.
  pose proof (inv_contents s l Hinv) as Hc.
  set (t := prefix_len (fun p => flt (score_of (heap s) p) sc) l) in *.
  assert (prefix_len (fun ks : K * score => flt ks.2 sc) (contents s) = t)
    as Ht by (rewrite Hc; apply prefix_len_fmap).
  unfold del_first. rewrite Ht.
  destruct Hr as [(y & Hy & Hfeq & Hkey & -> & Hinv' & Hd & _ & Hat)
                 |[Hno [= -> ->]]].
  - exists true, s', (take t l ++ drop (S t) l).
    split; [done|]. split; [done|]. split_and!; try done.
    + rewrite Hc, list_lookup_fmap, Hy. simpl.
      rewrite Hfeq. rewrite bool_decide_true by done. simpl.
      rewrite (inv_contents s' _ Hinv'), <- Hc.
      rewrite Hc, <- fmap_take, <- fmap_drop, <- fmap_app.
      apply fmap_ext_elem. intros p Hp. apply attrs_ks_of, Hat.
      intros ->. pose proof (inv_nodup _ _ Hinv) as Hnd.
      apply NoDup_cons in Hnd as [_ Hnd].
      apply elem_of_app in Hp as [Hp|Hp];
        apply list_elem_of_lookup_1 in Hp as [i Hi].
      * apply lookup_take_Some in Hi as [Hi Hlt].
        pose proof (NoDup_lookup _ _ _ _ Hnd Hi Hy). lia.
      * rewrite lookup_drop in Hi.
        pose proof (NoDup_lookup _ _ _ _ Hnd Hi Hy). lia.
    + apply lookup_lt_Some in Hy.
      rewrite length_app, length_take, length_drop. lia.
  - exists false, s, l. split_and!; try done.
    rewrite Hc, list_lookup_fmap.
    destruct (l !! t) as [y|] eqn:Hy; [|done]. simpl.
    by rewrite (Hno y eq_refl).
Qed.

(** [zadd_generic] on the stored pairs and the dictionary. *)
Lemma zadd_generic_abs (s : SortedSet K) l level (key : K) (sc : score)
    (incr : bool) :
  inv s l -> (1 <= level <= SKIPLIST_MAXLEVEL)%nat ->
  not_nan (match mDict s !! key with
           | Some cur => if incr then PrimFloat.add sc cur else sc
           | None => sc
           end) ->
  mLength s < 2 ^ 32 - 1 ->
  exists s' l', zadd_generic level key sc incr s = Some s' /\ inv s' l' /\
                abs_of s' = abs_zadd_generic key sc incr (abs_of s).
Proof.
  intros Hinv Hlevel Hnn Hroom. unfold zadd_generic, abs_zadd_generic.
  unfold abs_of. cbn [fst snd].
  destruct (mDict s !! key) as [cur|] eqn:Hcur.
  - set (sc' := if incr then PrimFloat.add sc cur else sc) in *.
    destruct (feq sc' cur); simpl; [by exists s, l|].
    destruct (private_delete_contents s l cur key Hinv)
      as (b & s1 & l1 & Hdel & Hinv1 & Hc1 & Hd1 & Hl1 & _).
    rewrite Hdel. simpl.
    assert (mLength s1 < 2 ^ 32 - 1) as Hroom1.
    { rewrite (proj1 (inv_length _ _ Hinv1)).
      rewrite (proj1 (inv_length _ _ Hinv)) in Hroom. lia. }
    destruct (private_insert_contents s1 l1 level sc' key Hinv1 Hlevel Hnn
                Hroom1) as (x & s2 & l2 & Hins & Hinv2 & Hc2 & Hd2 & _).
    rewrite Hins. simpl. eexists _, l2. split; [done|].
    split; [by apply inv_set_mDict|].
    unfold abs_of. simpl. f_equal.
    + change (contents s2 = ins_sorted key sc' (del_first key cur (contents s))).
      by rewrite Hc2, Hc1.
    + by rewrite Hd2, Hd1.
  - destruct (private_insert_contents s l level sc key Hinv Hlevel Hnn Hroom)
      as (x & s2 & l2 & Hins & Hinv2 & Hc2 & Hd2 & _).
    rewrite Hins. simpl. eexists _, l2. split; [done|].
    split; [by apply inv_set_mDict|].
    unfold abs_of. simpl. f_equal.
    + exact Hc2.
    + by rewrite Hd2.
Qed.

Lemma zrem_abs (s : SortedSet K) l key :
  inv s l ->
  exists s' l', zrem key s = Some s' /\ inv s' l' /\
                abs_of s' = abs_zrem key (abs_of s).
Proof.
  intros Hinv. unfold zrem, abs_zrem. unfold abs_of. cbn [fst snd].
  destruct (mDict s !! key) as [cur|]; [|by exists s, l].
  destruct (private_delete_contents s l cur key Hinv)
    as (b & s1 & l1 & Hdel & Hinv1 & Hc1 & Hd1 & _).
  rewrite Hdel. simpl. eexists _, l1. split; [done|].
  split; [by apply inv_set_mDict|].
  unfold abs_of. simpl. f_equal.
  - exact Hc1.
  - by rewrite Hd1.
Qed.

Lemma count_keep_prefix_len (P : ptr -> bool) (l : list ptr) tr :
  count_keep (fun p (_ : Z) => P p) l tr = prefix_len P l.
Proof.
  revert tr. induction l as [|p l IH]; intros tr; [done|].
  simpl. by rewrite IH.
Qed.

Lemma private_delete_range_by_score_abs (s : SortedSet K) l range :
  inv s l ->
  exists s' l',
    private_delete_range_by_score range s
    = Some (Z.of_nat (length (contents s) - length (contents s')), s') /\
    inv s' l' /\
    abs_of s' = abs_zremrangebyscore range (abs_of s).
Proof.
  intros Hinv.
  pose proof (inv_contents s l Hinv) as Hc.
  unfold private_delete_range_by_score.
  destruct (descend_score_update s l
              (fun y => if mMinex range then fle y (mMin range)
                        else flt y (mMin range)) Hinv (down_closed_min range))
    as (x' & acc' & update & rank & Hd & Hupd & Hx' & Ht).
  set (t := prefix_len _ l) in *. rewrite Hd. simpl.
  destruct (inv_level0 s l Hinv t x' Hx') as [xlv Hxlv].
  rewrite Hxlv. simpl.
  rewrite (inv_forward0 s l Hinv t x' xlv Hx' Hxlv).
  destruct (inv_length _ _ Hinv) as [_ Hlenb].
  destruct (delete_range_loop_spec
              (fun np (_ : Z) =>
                 if mMaxex range then flt (mScore np) (mMax range)
                 else fle (mScore np) (mMax range))
              (fun sc (_ : Z) =>
                 if mMaxex range then flt sc (mMax range)
                 else fle sc (mMax range))
              update (fun _ _ => eq_refl)
              (fuel_of (heap s)) s l t 0 0 Hinv Hupd Ht)
    as (s' & Hloop & Hinv' & Hdict' & Hhd' & Hattrs');
    [rewrite (inv_fuel_of s l Hinv); lia|lia|lia|lia|lia|].
  rewrite (count_keep_prefix_len
             (fun p => if mMaxex range then flt (score_of (heap s) p) (mMax range)
                       else fle (score_of (heap s) p) (mMax range)))
    in Hloop, Hinv', Hdict', Hattrs'.
  set (k := prefix_len _ (drop t l)) in *.
  assert (k <= length l - t)%nat as Hk.
  { unfold k. etrans; [apply prefix_len_le|]. by rewrite length_drop. }
  assert (contents s' = take t (contents s) ++ drop (t + k) (contents s))
    as Hc'.
  { rewrite (inv_contents s' _ Hinv'), Hc.
    rewrite <- fmap_take, <- fmap_drop, <- fmap_app.
    apply fmap_ext_elem. intros p Hp. by apply attrs_ks_of, Hattrs'. }
  rewrite Hloop. exists s', (take t l ++ drop (t + k) l).
  split_and!; [|done|].
  - do 2 f_equal. rewrite Hc', Hc.
    rewrite length_app, length_take, length_drop, !length_fmap. lia.
  - unfold abs_of, abs_zremrangebyscore. cbn [fst snd].
    assert (prefix_len
              (fun ks : K * score => if mMinex range then fle ks.2 (mMin range)
                                     else flt ks.2 (mMin range)) (contents s)
            = t) as -> by (rewrite Hc; apply prefix_len_fmap).
    assert (prefix_len
              (fun ks : K * score => if mMaxex range then flt ks.2 (mMax range)
                                     else fle ks.2 (mMax range))
              (drop t (contents s)) = k) as ->.
    { rewrite Hc, <- fmap_drop. apply prefix_len_fmap. }
    f_equal; [done|].
    rewrite Hdict', erase_keys_all, Hc. by rewrite fmap_take, fmap_drop.
Qed.

Lemma zremrangebyrank_abs (s : SortedSet K) l start end_ :
  inv s l ->
  exists s' l', zremrangebyrank start end_ s = Some s' /\ inv s' l' /\
                abs_of s' = abs_zremrangebyrank start end_ (abs_of s).
Proof.
  intros Hinv.
  destruct (inv_length _ _ Hinv) as [Hlen Hlenb].
  pose proof (inv_contents s l Hinv) as Hc.
  unfold zremrangebyrank, abs_zremrangebyrank, norm_range.
  unfold abs_of. cbn [fst snd].
  rewrite to_long_small by (unfold is_long; lia).
  rewrite (contents_length s l Hinv), <- Hlen.
  set (start1 := if start <? 0 then mLength s + start else start).
  set (end1 := if end_ <? 0 then mLength s + end_ else end_).
  set (start2 := if start1 <? 0 then 0 else start1).
  destruct ((end1 <? start2) || (mLength s <=? start2)) eqn:Hemp;
    [by exists s, l|].
  destruct (normalize_range (mLength s) start end_ ltac:(lia) Hemp)
    as [Hs He].
  fold start1 end1 start2 in Hs, He.
  set (end2 := if mLength s <=? end1 then mLength s - 1 else end1) in *.
  rewrite (wrap32_small (start2 + 1)), (wrap32_small (end2 + 1)) by lia.
  destruct (private_delete_range_by_rank_spec s l (start2 + 1) (end2 + 1)
              Hinv ltac:(lia)) as (s' & Hdel & Hinv' & Hd & Hhd & Hat).
  assert (Nat.min (Z.to_nat (start2 + 1 - 1)) (length l) = Z.to_nat start2)
    as Etm by lia.
  rewrite Etm in Hdel, Hinv', Hd, Hat. clear Etm.
  assert (Nat.min (length l - Z.to_nat start2)
            (Z.to_nat (end2 + 1 - Z.of_nat (Z.to_nat start2)))
          = Z.to_nat (end2 - start2 + 1)) as Ek by lia.
  rewrite Ek in Hdel, Hinv', Hd, Hat. clear Ek.
  replace (Z.to_nat start2 + Z.to_nat (end2 - start2 + 1))%nat
    with (Z.to_nat end2 + 1)%nat in Hinv', Hat by lia.
  rewrite Hdel. simpl.
  exists s', (take (Z.to_nat start2) l ++ drop (Z.to_nat end2 + 1) l).
  split; [done|]. split; [exact Hinv'|].
  f_equal.
  - rewrite (inv_contents s' _ Hinv'), Hc.
    rewrite <- fmap_take, <- fmap_drop, <- fmap_app.
    apply fmap_ext_elem. intros p Hp. by apply attrs_ks_of, Hat.
  - rewrite Hd, erase_keys_all, Hc. by rewrite fmap_take, fmap_drop.
Qed.

(** Every command, run where it is [op_ok], returns a state, and the
    stored pairs and the dictionary of that state are those of
    [abs_step]. *)
Lemma step_abs (s : SortedSet K) l o :
  inv s l -> op_ok s o ->
  exists s' l', step s o = Some s' /\ inv s' l' /\
                abs_of s' = abs_step (abs_of s) o.
Proof.
  intros Hinv Hok. destruct o as [key sc d|key sc d|key|mn mx me xe|st en];
    simpl in *.
  - destruct Hok as [Hnn Hroom].
    apply (zadd_generic_abs s l (randomlevel d) key sc false Hinv
             (randomlevel_range d)); [|done].
    by destruct (mDict s !! key).
  - destruct Hok as [Hnn Hroom].
    by apply (zadd_generic_abs s l (randomlevel d) key sc true Hinv
                (randomlevel_range d)).
  - by apply (zrem_abs s l).
  - unfold zremrangebyscore.
    destruct (private_delete_range_by_score_abs s l (mkRange mn mx me xe) Hinv)
      as (s' & l' & Hdel & Hinv' & Habs).
    rewrite Hdel. simpl. by exists s', l'.
  - by apply (zremrangebyrank_abs s l).
Qed.

Lemma run_ok_abs (ops : list (op K)) : forall (s s' : SortedSet K) l,
  inv s l -> run_ok ops s = Some s' ->
  abs_of s' = abs_run ops (abs_of s) /\ exists l', inv s' l'.
Proof.
  induction ops as [|o ops IH]; intros s s' l Hinv Hrun; simpl in *.
  { injection Hrun as <-. split; [done|by exists l]. }
  destruct (op_okb s o) eqn:Hok; [|done].
  destruct (step s o) as [s1|] eqn:Hstep; [|done]. simpl in Hrun.
  assert (op_ok s o) as Hok'.
  { destruct o; simpl in *; try done.
    - apply andb_true_iff in Hok as [? ?%Z.ltb_lt]. by split.
    - apply andb_true_iff in Hok as [? ?%Z.ltb_lt]. by split.
    - unfold is_long.
      apply andb_true_iff in Hok as [Hok ?%Z.ltb_lt].
      apply andb_true_iff in Hok as [Hok ?%Z.leb_le].
      apply andb_true_iff in Hok as [?%Z.leb_le ?%Z.ltb_lt]. lia. }
  destruct (step_abs s l o Hinv Hok') as (s1' & l1 & Hstep' & Hinv1 & Habs).
  rewrite Hstep in Hstep'. injection Hstep' as <-.
  unfold abs_run in *. simpl. rewrite <- Habs. by apply (IH s1 s' l1).
Qed.

End Effects.

(** * Ranges of scores as filters of the list of stored pairs *)

Section Filters.
Context {K : Type} `{Countable K} `{Inhabited K}.

Lemma prefix_closed_tail {A} (P : A -> bool) x (c : list A) :
  prefix_closed P (x :: c) -> prefix_closed P c.
Proof.
  intros HP i j a b Hij Hi Hj. apply (HP (S i) (S j)); [lia|done|done].
Qed.

Lemma filter_prefix {A} (P : A -> bool) (c : list A) :
  prefix_closed P c ->
  List.filter P c = take (prefix_len P c) c /\
  List.filter (fun x => negb (P x)) c = drop (prefix_len P c) c.
Proof.
  induction c as [|x c IH]; intros HP; [done|].
  destruct (IH (prefix_closed_tail P x c HP)) as [IH1 IH2].
  simpl. destruct (P x) eqn:Hx; simpl.
  - by rewrite IH1, IH2.
  - assert (forall y, y ∈ c -> P y = false) as Hnone.
    { intros y Hy. apply list_elem_of_lookup_1 in Hy as [j Hj].
      destruct (P y) eqn:Hy; [|done].
      rewrite <- Hx. symmetry.
      apply (HP 0%nat (S j) x y); [lia|done|done|done]. }
    split.
    + clear IH IH1 IH2 HP. induction c as [|y c IHc]; [done|]. simpl.
      rewrite (Hnone y) by by left. apply IHc.
      intros z Hz. apply Hnone. by right.
    + f_equal. clear IH IH1 IH2 HP. induction c as [|y c IHc]; [done|].
      simpl. rewrite (Hnone y) by by left. simpl. f_equal. apply IHc.
      intros z Hz. apply Hnone. by right.
Qed.

Lemma prefix_closed_drop {A} (P : A -> bool) (c : list A) n :
  prefix_closed P c -> prefix_closed P (drop n c).
Proof.
  intros HP i j a b Hij Hi Hj. rewrite lookup_drop in Hi, Hj.
  apply (HP (n + i)%nat (n + j)%nat); [lia|done|done].
Qed.

Lemma filter_and {A} (P Q : A -> bool) (c : list A) :
  List.filter (fun x => P x && Q x) c = List.filter Q (List.filter P c).
Proof.
  induction c as [|x c IH]; [done|]. simpl.
  destruct (P x); simpl; [|done]. destruct (Q x); by rewrite IH.
Qed.

Lemma filter_ext_elem {A} (P Q : A -> bool) (c : list A) :
  (forall x, x ∈ c -> P x = Q x) -> List.filter P c = List.filter Q c.
Proof.
  induction c as [|x c IH]; intros HPQ; [done|]. simpl.
  rewrite (HPQ x) by by left. rewrite IH; [done|].
  intros y Hy. apply HPQ. by right.
Qed.

Lemma prefix_len_ext_elem {A} (P Q : A -> bool) (c : list A) :
  (forall x, x ∈ c -> P x = Q x) -> prefix_len P c = prefix_len Q c.
Proof.
  induction c as [|x c IH]; intros HPQ; [done|]. simpl.
  rewrite (HPQ x) by by left. rewrite IH; [done|].
  intros y Hy. apply HPQ. by right.
Qed.

Lemma filter_none {A} (P : A -> bool) (c : list A) :
  (forall x, x ∈ c -> P x = false) -> List.filter P c = [].
Proof.
  induction c as [|x c IH]; intros Hno; [done|]. simpl.
  rewrite (Hno x) by by left. apply IH. intros y Hy. apply Hno. by right.
Qed.

Lemma filter_length_count {A} (P : A -> bool) (c : list A) :
  length (List.filter P c) = count_if P c.
Proof.
  induction c as [|x c IH]; [done|]. simpl.
  destruct (P x); simpl; by rewrite IH.
Qed.

(** *** Lists of pairs sorted by score *)

Lemma inv_sorted_pairs (s : SortedSet K) l :
  inv s l -> sorted_pairs (contents s).
Proof.
  intros Hinv. split.
  - apply (contents_sorted s l Hinv).
  - apply (contents_not_nan s l Hinv).
Qed.

Lemma sorted_prefix_closed (P : score -> bool) (c : list (K * score)) :
  sorted_pairs c -> down_closed P -> prefix_closed (fun ks => P ks.2) c.
Proof.
  intros [Hs Hn] HP i j x y Hij Hi Hj. apply HP.
  - by eapply Hn.
  - by eapply Hn.
  - by eapply Hs.
Qed.

Lemma in_range_abs_false range (c : list (K * score)) :
  sorted_pairs c -> in_range_abs range c.*2 = false ->
  forall ks, ks ∈ c -> in_range range ks.2 = false.
Proof.
  intros Hsorted Habs ks Hks. unfold in_range_abs in Habs.
  destruct (range_is_empty range) eqn:Hemp;
    [by apply range_is_empty_in_range|].
  apply list_elem_of_lookup_1 in Hks as [i Hi].
  pose proof (lookup_lt_Some _ _ _ Hi) as Hlt.
  rewrite fmap_last, head_lookup, list_lookup_fmap in Habs.
  rewrite last_lookup in Habs.
  destruct (c !! Nat.pred (length c)) as [kt|] eqn:Hlast;
    [|apply lookup_ge_None_1 in Hlast; lia].
  destruct (c !! 0%nat) as [kf|] eqn:Hfirst;
    [|apply lookup_ge_None_1 in Hfirst; lia].
  simpl in Habs. unfold in_range.
  destruct (score_gte_min kt.2 range) eqn:Hge; simpl in Habs.
  - destruct (score_lte_max ks.2 range) eqn:Hle; [|by rewrite andb_false_r].
    exfalso.
    assert (score_lte_max kf.2 range = true) as Hc; [|congruence].
    apply (sorted_prefix_closed (fun y => score_lte_max y range) c Hsorted
             (down_closed_lte range) 0%nat i kf ks); [lia|done|done|done].
  - destruct (score_gte_min ks.2 range) eqn:Hge'; [|done]. exfalso.
    assert (negb (score_gte_min ks.2 range) = true) as Hc.
    { apply (sorted_prefix_closed (fun y => negb (score_gte_min y range)) c
               Hsorted (down_closed_not_gte range) i (Nat.pred (length c))
               ks kt); [lia|done|done|]. by rewrite Hge. }
    by rewrite Hge' in Hc.
Qed.

(** [byscore_abs] is the filter of the pairs with a score in the range. *)
Lemma byscore_abs_filter range (c : list (K * score)) :
  sorted_pairs c ->
  byscore_abs range c = List.filter (fun ks => in_range range ks.2) c.
Proof.
  intros Hsorted. unfold byscore_abs.
  destruct (in_range_abs range c.*2) eqn:Habs.
  - unfold in_range.
    rewrite (filter_and (fun ks => score_gte_min ks.2 range)
                        (fun ks => score_lte_max ks.2 range)).
    pose proof (filter_prefix (fun ks : K * score =>
                                 negb (score_gte_min ks.2 range)) c
                  (sorted_prefix_closed _ c Hsorted (down_closed_not_gte range)))
      as [_ Hdrop].
    rewrite (filter_ext_elem (fun ks => score_gte_min ks.2 range)
               (fun ks => negb (negb (score_gte_min ks.2 range))))
      by (intros; by rewrite negb_involutive).
    rewrite Hdrop.
    set (t := prefix_len _ c).
    pose proof (filter_prefix (fun ks : K * score => score_lte_max ks.2 range)
                  (drop t c)
                  (prefix_closed_drop _ c t
                     (sorted_prefix_closed _ c Hsorted (down_closed_lte range))))
      as [Htake _].
    by rewrite Htake.
  - symmetry. apply filter_none. by apply in_range_abs_false.
Qed.

(** What [abs_zremrangebyscore] leaves and what it removes, for a lower
    bound that is a number. *)
Lemma abs_zremrangebyscore_filter range (c : list (K * score)) d :
  sorted_pairs c -> not_nan (mMin range) ->
  abs_zremrangebyscore range (c, d) =
  (List.filter (fun ks => negb (in_range range ks.2)) c,
   erase_all (List.filter (fun ks => in_range range ks.2) c) d).
Proof.
  intros Hsorted Hmin. unfold abs_zremrangebyscore. cbn [fst snd].
  assert (forall ks, ks ∈ c ->
            (if mMinex range then fle ks.2 (mMin range)
             else flt ks.2 (mMin range))
            = negb (score_gte_min ks.2 range)) as Hpmin.
  { intros ks Hks. apply list_elem_of_lookup_1 in Hks as [i Hi].
    pose proof (proj2 Hsorted i ks Hi) as Hnn.
    unfold score_gte_min. destruct (mMinex range).
    - rewrite (flt_fle_neg (mMin range)) by done.
      by rewrite negb_involutive.
    - rewrite (fle_flt_neg (mMin range)) by done.
      by rewrite negb_involutive. }
  rewrite (prefix_len_ext_elem _ _ c Hpmin).
  set (A := fun ks : K * score => negb (score_gte_min ks.2 range)).
  set (B := fun ks : K * score => score_lte_max ks.2 range).
  change (fun ks : K * score => if mMaxex range then flt ks.2 (mMax range)
                                else fle ks.2 (mMax range)) with B.
  set (t := prefix_len A c).
  pose proof (sorted_prefix_closed _ c Hsorted (down_closed_not_gte range))
    as HA.
  pose proof (sorted_prefix_closed _ c Hsorted (down_closed_lte range)) as HB.
  destruct (filter_prefix A c HA) as [HA1 HA2]. fold t in HA1, HA2.
  destruct (filter_prefix B (drop t c) (prefix_closed_drop B c t HB))
    as [HB1 HB2].
  set (k := prefix_len B (drop t c)) in *.
  assert (forall ks, ks ∈ take t c -> A ks = true) as Htake.
  { intros ks Hks. rewrite <- HA1 in Hks.
    rewrite list_elem_of_In in Hks. by apply List.filter_In in Hks as [_ ?]. }
  assert (forall ks, ks ∈ drop t c -> A ks = false) as Hdrop.
  { intros ks Hks. rewrite <- HA2 in Hks.
    rewrite list_elem_of_In in Hks. apply List.filter_In in Hks as [_ ?].
    by apply negb_true_iff. }
  f_equal.
  - rewrite <- (take_drop t c) at 3. rewrite List.filter_app. f_equal.
    + rewrite (filter_ext_elem _ (fun _ => true) (take t c)).
      * generalize (take t c). clear. intros r.
        induction r as [|x r IH]; [done|]. simpl. by rewrite <- IH.
      * intros ks Hks. unfold in_range.
        pose proof (Htake ks Hks) as Hk. unfold A in Hk.
        apply negb_true_iff in Hk. by rewrite Hk.
    + rewrite <- drop_drop, <- HB2.
      apply filter_ext_elem. intros ks Hks.
      pose proof (Hdrop ks Hks) as Hk. unfold A in Hk.
      apply negb_false_iff in Hk. unfold in_range, B. by rewrite Hk.
  - f_equal. rewrite <- HB1, <- HA2. unfold in_range.
    rewrite (filter_and (fun ks => score_gte_min ks.2 range)
                        (fun ks => score_lte_max ks.2 range)).
    f_equal. apply filter_ext_elem. intros ks _. unfold A.
    by rewrite negb_involutive.
Qed.

End Filters.

(** * More on the searches and the walks *)

Section Walks.
Context {K : Type} `{Countable K} `{Inhabited K}.

Lemma prefix_len_drop {A} (P : A -> bool) (c : list A) : forall t,
  prefix_closed P c ->
  prefix_len P (drop t c) = (prefix_len P c - t)%nat.
Proof.
  induction c as [|x c IH]; intros t HP; [by destruct t|].
  destruct t as [|t]; [simpl; lia|]. simpl.
  rewrite IH by by eapply prefix_closed_tail.
  destruct (P x) eqn:Hx; [done|].
  destruct c as [|y c]; [done|]. simpl.
  destruct (P y) eqn:Hy; [|done].
  rewrite (HP 0%nat 1%nat x y) in Hx; [done|lia|done|done|done].
Qed.

Lemma slice_prefix {A} (P : A -> bool) (c : list A) t :
  prefix_closed P c ->
  take (prefix_len P (drop t c)) (drop t c) = drop t (take (prefix_len P c) c).
Proof.
  intros HP. rewrite prefix_len_drop by done.
  destruct (decide (t <= prefix_len P c)%nat) as [Hle|Hgt].
  - rewrite take_drop_commute. do 2 f_equal. lia.
  - replace (prefix_len P c - t)%nat with 0%nat by lia.
    rewrite (drop_ge (take _ _)); [done|]. rewrite length_take. lia.
Qed.

Variables (s : SortedSet K) (l : list ptr).
Hypothesis Hinv : inv s l.

Lemma byscore_walk_back_step {A} (emit : SkipListNode K -> A) range a fuel p :
  l !! a = Some p ->
  byscore_walk emit (S fuel) (heap s) range true (Some p) =
  if bool_decide (a < prefix_len
                        (fun p => negb (score_gte_min (score_of (heap s) p)
                                          range)) l)%nat
  then Some []
  else rest ← byscore_walk emit fuel (heap s) range true
                (match a with O => None | S a' => l !! a' end);
       Some (emit (node_at (heap s) p) :: rest).
Proof.
  intros Hp.
  destruct (inv_lookup_node s l Hinv (S a) p Hp) as [np Hnp].
  pose proof (inv_back _ _ Hinv a p Hp) as Hb.
  unfold bwd in Hb. rewrite Hnp in Hb. simpl in Hb. injection Hb as Hb.
  pose proof (score_test_prefix s l Hinv
                (fun y => negb (score_gte_min y range)) a p
                (down_closed_not_gte range) Hp) as Htest.
  simpl in Htest. rewrite (inv_score_of s p np Hnp) in Htest.
  cbn [byscore_walk]. rewrite Hnp. simpl. rewrite Htest.
  case_bool_decide; [done|]. simpl. rewrite Hb.
  by rewrite (node_at_lookup s p np Hnp).
Qed.

Lemma byscore_walk_backward {A} (emit : SkipListNode K -> A) range :
  forall a fuel, (a < fuel)%nat -> (a < length l)%nat ->
  byscore_walk emit fuel (heap s) range true (l !! a) =
  Some ((fun p => emit (node_at (heap s) p))
          <$> List.rev
                (drop (prefix_len
                         (fun p => negb (score_gte_min (score_of (heap s) p)
                                           range)) l)
                      (take (S a) l))).
Proof.
  set (t := prefix_len _ l).
  induction a as [|a IH]; intros fuel Hf Hal;
    (destruct fuel as [|fuel]; [lia|]);
    (destruct (lookup_lt_is_Some_2 l _ Hal) as [p Hp]);
    rewrite Hp, (byscore_walk_back_step emit range _ fuel p Hp); fold t;
    (case_bool_decide as Ht;
     [rewrite drop_ge; [done|]; rewrite length_take; lia|]).
  - replace t with 0%nat by lia.
    rewrite drop_0, (take_S_r _ _ _ Hp). simpl. by destruct fuel.
  - rewrite IH by lia. simpl.
    rewrite (take_S_r _ (S a) _ Hp).
    rewrite drop_app_le by (rewrite length_take; lia).
    by rewrite rev_unit.
Qed.

(** [zrangebyscore] and its variants return the stored pairs with a score
    in the range, in the order of the list or in the reverse order. *)
Lemma zrangebyscore_filter {A} (emit : SkipListNode K -> A)
    (emit' : K * score -> A) min max (reverse minex maxex : bool) :
  (forall n, emit n = emit' (mKey n, mScore n)) ->
  zrangebyscore_with emit
    (if reverse then max else min) (if reverse then min else max) reverse
    (if reverse then maxex else minex) (if reverse then minex else maxex) s =
  Some (emit' <$>
        (if reverse
         then List.rev (List.filter
                          (fun ks => in_range (mkRange min max minex maxex) ks.2)
                          (contents s))
         else List.filter
                (fun ks => in_range (mkRange min max minex maxex) ks.2)
                (contents s))).
Proof.
  intros Hemit. pose proof (inv_sorted_pairs s l Hinv) as Hsorted.
  rewrite <- (byscore_abs_filter _ _ Hsorted).
  destruct reverse.
  2: { by apply (zrangebyscore_contents s l Hinv). }
  unfold zrangebyscore_with. cbn [negb]. simpl.
  set (range := mkRange min max minex maxex).
  rewrite (last_in_range_spec s l Hinv range). simpl.
  assert (in_range_abs range (contents s).*2
          = in_range_abs range (score_of (heap s) <$> l)) as Eabs.
  { by rewrite (inv_contents s l Hinv), <- list_fmap_compose. }
  unfold byscore_abs. rewrite Eabs. rewrite (inv_contents s l Hinv).
  destruct (in_range_abs range (score_of (heap s) <$> l)) eqn:Habs.
  2: { simpl. by destruct (fuel_of _). }
  rewrite prefix_len_fmap. simpl. rewrite <- fmap_drop, prefix_len_fmap.
  simpl. rewrite <- fmap_take, <- fmap_rev, <- list_fmap_compose.
  set (A' := fun p => negb (score_gte_min (score_of (heap s) p) range)).
  set (B' := fun p => score_lte_max (score_of (heap s) p) range).
  assert (prefix_closed B' l) as HB.
  { intros i j x y Hij Hi Hj.
    apply (down_closed_lte range); try by eapply (inv_not_nan s l Hinv).
    by eapply (inv_sorted _ _ Hinv). }
  rewrite (slice_prefix B' l _ HB).
  set (t := prefix_len A' l). set (t' := prefix_len B' l).
  destruct (in_range_abs_head s l range Habs) as (f & Hf & Hfle).
  assert (1 <= t' <= length l)%nat as Ht'.
  { split; [|apply prefix_len_le]. unfold t'.
    destruct l as [|f' l']; [done|]. injection Hf as ->.
    simpl. unfold B' at 1. rewrite Hfle. lia. }
  destruct (lookup_lt_is_Some_2 l (t' - 1)) as [y Hy]; [lia|].
  rewrite Hy. simpl.
  assert (emit' ∘ ks_of (heap s) <$> List.rev (drop t (take t' l))
          = (fun p => emit (node_at (heap s) p))
              <$> List.rev (drop t (take t' l))) as ->.
  { apply fmap_ext_elem. intros p Hp. apply elem_of_rev in Hp.
    destruct (inv_node_at s l Hinv p) as (n & _ & -> & Hks);
      [eapply subseteq_take, subseteq_drop, Hp|].
    unfold compose. by rewrite Hks, Hemit. }
  pose proof (score_test_prefix s l Hinv
                (fun sc => negb (score_gte_min sc range)) _ y
                (down_closed_not_gte range) Hy) as Htest.
  fold A' in Htest. fold t in Htest.
  destruct (score_gte_min (score_of (heap s) y) range) eqn:Hge; simpl.
  - rewrite <- Hy.
    rewrite (byscore_walk_backward emit range (t' - 1))
      by (rewrite ?(inv_fuel_of s l Hinv); lia).
    fold A'. fold t. by replace (S (t' - 1)) with t' by lia.
  - simpl in Htest. rewrite Hge in Htest. simpl in Htest.
    symmetry in Htest. apply bool_decide_eq_true_1 in Htest.
    change (t' - 1 < t)%nat in Htest.
    rewrite (drop_ge (take t' l)) by (rewrite length_take; lia).
    simpl. by destruct (fuel_of _).
Qed.

(** [get_rank] returns 0 or a position, counted from 1, of a node with the
    key among the nodes with a score up to [sc]. *)
Lemma get_rank_from_sound sc key : forall k a x,
  (mHeader s :: l) !! a = Some x -> (k <= hgt (heap s) x)%nat ->
  (a <= prefix_len (fun q => fle (score_of (heap s) q) sc) l)%nat ->
  exists r,
    get_rank_from (fuel_of (heap s)) (heap s) sc key k x (Z.of_nat a)
    = Some (Z.of_nat r) /\
    (r = 0%nat \/
     ((1 <= r <= prefix_len (fun q => fle (score_of (heap s) q) sc) l)%nat /\
      exists p, l !! (r - 1)%nat = Some p /\ key_of (heap s) p = key)).
Proof.
  set (t := prefix_len _ l).
  induction k as [|k IH]; intros a x Ha Hh Hat.
  { exists 0%nat. split; [done|by left]. }
  cbn [get_rank_from].
  destruct (advance_spec s l Hinv (fun ny _ _ => fle (mScore ny) sc) add64
              (fun a acc => acc = Z.of_nat a) t) with
    (i := k) (fuel := fuel_of (heap s)) (a := a) (x := x) (acc := Z.of_nat a)
    as (a' & x' & acc' & Hadv & Ha' & Haa' & Hlast' & ->).
  - intros a0 b pb nb acc Hab Hpb Hnb Hacc.
    by apply (score_cond_sem s l Hinv (fun y => fle y sc)
                (fun a acc => acc = Z.of_nat a) (down_closed_fle sc)
                a0 b pb nb acc).
  - intros a0 b acc Hab Hacc. by apply (rank_step_sem s l Hinv).
  - rewrite (inv_fuel_of s l Hinv). lia.
  - done.
  - lia.
  - done.
  - done.
  - rewrite Hadv. simpl.
    destruct (inv_lookup_node s l Hinv a' x' Ha') as [nx Hnx].
    rewrite Hnx. simpl.
    destruct Hlast' as (Ha't & (p1 & Hp1 & Hhp1) & _).
    assert (p1 = x') as -> by congruence.
    destruct (negb (mIsHeader nx) && bool_decide (mKey nx = key)) eqn:Hm.
    + exists a'. split; [done|]. right.
      apply andb_true_iff in Hm as [Hnh Hk].
      apply bool_decide_eq_true_1 in Hk.
      destruct a' as [|a'].
      { exfalso. injection Ha' as <-.
        destruct (inv_header _ _ Hinv) as (sc0 & k0 & Hhd).
        apply attrs_Some in Hhd as (_ & _ & _ & hd & Hhd & Hih & _).
        assert (nx = hd) as -> by congruence. by rewrite Hih in Hnh. }
      split; [lia|]. exists x'. simpl in Ha'.
      replace (S a' - 1)%nat with a' by lia. split; [done|].
      unfold key_of. by rewrite Hnx.
    + apply IH; [done|lia|done].
Qed.

Lemma get_rank_sound sc key :
  exists r,
    get_rank sc key s = Some (Z.of_nat r) /\
    (r = 0%nat \/
     ((1 <= r <= prefix_len (fun q => fle (score_of (heap s) q) sc) l)%nat /\
      exists p, l !! (r - 1)%nat = Some p /\ key_of (heap s) p = key)).
Proof.
  unfold get_rank. pose proof (inv_levels _ _ Hinv) as HL.
  apply (get_rank_from_sound sc key (mLevels s) 0%nat (mHeader s)).
  - done.
  - rewrite (inv_hgt_header s l Hinv). lia.
  - lia.
Qed.

(** [get_element_by_rank] of a rank beyond the length is null. *)
Lemma get_element_by_rank_from_beyond (r : Z) :
  Z.of_nat (length l) < r ->
  forall k a x,
  (mHeader s :: l) !! a = Some x -> (k <= hgt (heap s) x)%nat ->
  get_element_by_rank_from (fuel_of (heap s)) (heap s) r k x (Z.of_nat a)
  = Some None.
Proof.
  intros Hr. induction k as [|k IH]; intros a x Ha Hh; [done|].
  cbn [get_element_by_rank_from].
  change (fun (_ : SkipListNode K) (span traversed : Z) =>
            wrap64 (traversed + span) <=? r)
    with (@rank_cond K false r).
  pose proof (inv_pos_bound s l a x Ha) as Hal.
  destruct (advance_spec s l Hinv (rank_cond false r) add64
              (fun a acc => acc = Z.of_nat a) (Z.to_nat r)) with
    (i := k) (fuel := fuel_of (heap s)) (a := a) (x := x) (acc := Z.of_nat a)
    as (a' & x' & acc' & Hadv & Ha' & Haa' & Hlast & ->).
  - intros a0 b pb nb acc Hab Hpb Hnb Hacc.
    by rewrite (rank_cond_sem s l Hinv false r ltac:(done) a0 b pb nb acc).
  - intros a0 b acc Hab Hacc. by apply (rank_step_sem s l Hinv).
  - rewrite (inv_fuel_of s l Hinv). lia.
  - done.
  - lia.
  - lia.
  - done.
  - rewrite Hadv. simpl.
    pose proof (inv_pos_bound s l a' x' Ha') as Hal'.
    destruct (Z.eqb_spec (Z.of_nat a') r) as [Heq|Hne]; [lia|].
    destruct Hlast as (_ & (p1 & Hp1 & Hhp1) & _).
    assert (p1 = x') as -> by congruence.
    apply IH; [done|lia].
Qed.

Lemma get_element_by_rank_beyond (r : Z) :
  Z.of_nat (length l) < r -> get_element_by_rank r s = Some None.
Proof.
  intros Hr. unfold get_element_by_rank.
  pose proof (inv_levels _ _ Hinv) as HL.
  apply (get_element_by_rank_from_beyond r Hr (mLevels s) 0%nat (mHeader s)).
  - done.
  - rewrite (inv_hgt_header s l Hinv). lia.
Qed.

End Walks.

(** * What holds for every run, and what holds without equal scores *)

Section DictInList.
Context {K : Type} `{Countable K} `{Inhabited K}.

Lemma lookup_erase_all (ks : list (K * score)) : forall (d : gmap K score) k,
  erase_all ks d !! k = if decide (k ∈ ks.*1) then None else d !! k.
Proof.
  induction ks as [|x ks IH]; intros d k.
  { by destruct (decide _) as [?%elem_of_nil|]. }
  unfold erase_all in *. simpl. rewrite IH.
  destruct (decide (k ∈ ks.*1)) as [Hin|Hin].
  - rewrite decide_True; [done|by right].
  - destruct (decide (k = x.1)) as [->|Hne].
    + rewrite decide_True by by left. apply lookup_delete_eq.
    + rewrite decide_False; [by rewrite lookup_delete_ne|].
      by intros [?|?]%elem_of_cons.
Qed.

Lemma del_first_sublist (key : K) sc c : del_first key sc c `sublist_of` c.
Proof.
  unfold del_first. destruct (c !! _) as [ks|]; [|done].
  destruct (_ && _); [|done]. apply sublist_take_drop. lia.
Qed.

Lemma del_first_other (key : K) sc c ks :
  ks ∈ c -> ks.1 <> key -> ks ∈ del_first key sc c.
Proof.
  intros Hks Hne. unfold del_first.
  set (t := prefix_len _ c). destruct (c !! t) as [x|] eqn:Hx; [|done].
  destruct (feq sc x.2 && bool_decide (x.1 = key)) eqn:Hm; [|done].
  apply andb_true_iff in Hm as [_ Hk]. apply bool_decide_eq_true_1 in Hk.
  rewrite <- (take_drop t c), (drop_S _ _ _ Hx) in Hks.
  rewrite elem_of_app, elem_of_cons in Hks. rewrite elem_of_app.
  destruct Hks as [?|[->|?]]; [by left|done|by right].
Qed.

Lemma dict_sub_insert (key : K) sc c d :
  (forall k y, k <> key -> d !! k = Some y -> (k, y) ∈ c) ->
  dict_sub (ins_sorted key sc c, <[key := sc]> d).
Proof.
  intros Hsub k y. simpl. rewrite ins_sorted_perm, elem_of_cons.
  destruct (decide (k = key)) as [->|Hne].
  - rewrite lookup_insert_eq. intros [= ->]. by left.
  - rewrite lookup_insert_ne by done. intros Hk. right. by apply Hsub.
Qed.

Lemma dict_sub_segment (c1 mid c3 : list (K * score)) d :
  dict_sub (c1 ++ mid ++ c3, d) -> dict_sub (c1 ++ c3, erase_all mid d).
Proof.
  intros Hsub k y. simpl. rewrite lookup_erase_all.
  destruct (decide _) as [|Hnot]; [done|]. intros Hk.
  apply Hsub in Hk. simpl in Hk. rewrite !elem_of_app in Hk.
  rewrite elem_of_app. destruct Hk as [?|[Hmid|?]]; [by left| |by right].
  exfalso. apply Hnot. apply list_elem_of_fmap. by exists (k, y).
Qed.

Lemma split_segment {A} (c : list A) (t k : nat) :
  c = take t c ++ take k (drop t c) ++ drop (t + k) c.
Proof.
  rewrite <- (take_drop t c) at 1. f_equal.
  rewrite <- (take_drop k (drop t c)) at 1. f_equal. by rewrite drop_drop.
Qed.

Lemma abs_step_dict_sub (st : abs_state K) (o : op K) :
  dict_sub st -> dict_sub (abs_step st o).
Proof.
  destruct st as [c d]. intros Hsub.
  assert (forall key sc, dict_sub (abs_zadd_generic key sc false (c, d)) /\
                         dict_sub (abs_zadd_generic key sc true (c, d)))
    as Hadd.
  { intros key sc. unfold abs_zadd_generic. simpl.
    destruct (d !! key) as [cur|] eqn:Hcur.
    - split.
      + destruct (feq sc cur); simpl; [done|].
        apply dict_sub_insert. intros k y Hne Hk.
        apply (del_first_other key cur c (k, y)); [by apply Hsub|done].
      + destruct (feq (PrimFloat.add sc cur) cur); simpl; [done|].
        apply dict_sub_insert. intros k y Hne Hk.
        apply (del_first_other key cur c (k, y)); [by apply Hsub|done].
    - split; apply dict_sub_insert; intros k y _ Hk; by apply Hsub. }
  destruct o as [key sc dr|key sc dr|key|mn mx me xe|st en]; simpl.
  - apply Hadd.
  - apply Hadd.
  - unfold abs_zrem. simpl. destruct (d !! key) as [cur|]; [|done].
    intros k y. simpl. destruct (decide (k = key)) as [->|Hne].
    + by rewrite lookup_delete_eq.
    + rewrite lookup_delete_ne by done. intros Hk.
      apply (del_first_other key cur c (k, y)); [by apply Hsub|done].
  - unfold abs_zremrangebyscore. cbn [fst snd].
    apply dict_sub_segment. by rewrite <- split_segment.
  - unfold abs_zremrangebyrank. cbn [fst snd].
    destruct (norm_range _ _ _) as [[a b]|] eqn:Hn; [|done].
    assert (0 <= a <= b) as Hab.
    { unfold norm_range in Hn.
      set (start1 := if st <? 0 then _ else st) in Hn.
      set (end1 := if en <? 0 then _ else en) in Hn.
      destruct ((end1 <? (if start1 <? 0 then 0 else start1))
                || (Z.of_nat (length c) <=? (if start1 <? 0 then 0 else start1)))
        eqn:Hemp; [done|].
      destruct (normalize_range (Z.of_nat (length c)) st en ltac:(lia) Hemp)
        as [Hs He].
      fold start1 end1 in Hs, He. injection Hn as <- <-. lia. }
    replace (Z.to_nat b + 1)%nat
      with (Z.to_nat a + Z.to_nat (b - a + 1))%nat by lia.
    apply dict_sub_segment. by rewrite <- split_segment.
Qed.

Lemma reachable_dict_sub (s : SortedSet K) :
  reachable s -> dict_sub (abs_of s).
Proof.
  induction 1 as [|s o s' Hreach IH Hok Hstep].
  - intros k sc. simpl. by rewrite lookup_empty.
  - destruct (reachable_inv s Hreach) as [l Hinv].
    destruct (step_abs s l o Hinv Hok) as (s1 & l1 & Hstep1 & _ & Habs).
    rewrite Hstep in Hstep1. injection Hstep1 as <-.
    rewrite Habs. by apply abs_step_dict_sub.
Qed.

End DictInList.

Section TieFree.
Context {K : Type} `{Countable K} `{Inhabited K}.

Lemma increasing_app (l1 l2 : list score) :
  increasing (l1 ++ l2) <->
  increasing l1 /\ increasing l2 /\
  forall x y, x ∈ l1 -> y ∈ l2 -> flt x y = true.
Proof.
  induction l1 as [|a l1 IH]; simpl.
  - split; [intros ?; split_and!; try done; by intros ? ? ?%elem_of_nil|].
    by intros (_ & ? & _).
  - rewrite Forall_app, IH. split.
    + intros ((Ha1 & Ha2) & (Hi1 & Hi2 & Hc)). split_and!; try done.
      intros x y [->|Hx]%elem_of_cons Hy.
      * by apply (proj1 (Forall_forall _ _) Ha2).
      * by apply Hc.
    + intros ((Ha1 & Hi1) & Hi2 & Hc). split_and!; try done.
      * apply Forall_forall. intros y Hy. apply Hc; [by left|done].
      * intros x y Hx Hy. apply Hc; [by right|done].
Qed.

Lemma flt_total x y :
  not_nan x -> not_nan y -> flt x y = false -> feq x y = false ->
  flt y x = true.
Proof.
  intros Hx Hy Hlt Heq. rewrite feq_fle in Heq by done.
  rewrite (fle_flt_neg y x), Hlt in Heq by done. simpl in Heq.
  rewrite andb_true_r in Heq. rewrite flt_fle_neg by done. by rewrite Heq.
Qed.

Lemma abs_good_sorted (st : abs_state K) : abs_good st -> sorted_pairs st.1.
Proof.
  intros (_ & _ & Hinc & Hnn). split.
  - intros a b ka kb Hab Ha Hb.
    destruct (decide (a = b)) as [->|Hne].
    { assert (ka = kb) as -> by congruence. apply fle_refl, Hnn.
      by eapply list_elem_of_lookup_2. }
    apply flt_fle.
    rewrite <- (take_drop b st.1), fmap_app in Hinc.
    apply increasing_app in Hinc as (_ & _ & Hc). apply Hc.
    + apply list_elem_of_fmap. exists ka. split; [done|].
      apply (list_elem_of_lookup_2 _ a). rewrite lookup_take_lt by lia. done.
    + apply list_elem_of_fmap. exists kb. split; [done|].
      apply (list_elem_of_lookup_2 _ 0%nat). rewrite lookup_drop.
      by rewrite Nat.add_0_r.
  - intros i ks Hi. apply Hnn. by eapply list_elem_of_lookup_2.
Qed.

Lemma good_insert_fresh (key : K) sc c d :
  abs_good (c, d) -> d !! key = None -> not_nan sc ->
  (forall k y, (k, y) ∈ c -> feq y sc = false) ->
  abs_good (ins_sorted key sc c, <[key := sc]> d).
Proof.
  intros Hgood Hfresh Hsc Hne.
  pose proof (abs_good_sorted _ Hgood) as [Hsorted _]. simpl in Hsorted.
  destruct Hgood as (Hnd & Hsync & Hinc & Hnn). simpl in *.
  assert (key ∉ c.*1) as Hnotin.
  { intros Hin. apply list_elem_of_fmap in Hin as ([k y] & -> & Hin).
    apply Hsync in Hin. simpl in *. congruence. }
  split_and!; simpl.
  - rewrite ins_sorted_perm. simpl. by constructor.
  - intros k y. rewrite ins_sorted_perm, elem_of_cons.
    destruct (decide (k = key)) as [->|Hk].
    + rewrite lookup_insert_eq. split.
      * intros [= ->]. by left.
      * intros [[= ->]|Hin]; [done|]. exfalso. apply Hnotin.
        apply list_elem_of_fmap. by exists (key, y).
    + rewrite lookup_insert_ne by done. rewrite Hsync. split; [by right|].
      intros [[= -> _]|Hin]; done.
  - unfold ins_sorted. set (t := prefix_len _ c).
    destruct (prefix_len_take_drop (fun ks : K * score => flt ks.2 sc) c)
      as [Htake Hdrop]. fold t in Htake, Hdrop.
    rewrite <- (take_drop t c), fmap_app in Hinc.
    apply increasing_app in Hinc as (Hi1 & Hi2 & Hc).
    assert (forall y, y ∈ drop t c -> flt sc y.2 = true) as Hafter.
    { intros y Hy. destruct (drop t c) as [|y0 r] eqn:Hd; [by apply elem_of_nil in Hy|].
      assert (y0 ∈ c /\ y ∈ c) as [Hy0c Hyc].
      { split; eapply subseteq_drop; rewrite Hd; [by left|done]. }
      apply list_elem_of_lookup_1 in Hy as [i Hi].
      assert (fle y0.2 y.2 = true) as Hle.
      { apply (Hsorted t (t + i)%nat); [lia| |].
        - rewrite <- (Nat.add_0_r t), <- lookup_drop, Hd. done.
        - by rewrite <- lookup_drop, Hd. }
      apply flt_total; [by apply Hnn|done| |].
      - destruct (flt y.2 sc) eqn:Hlt; [|done].
        rewrite <- Hdrop. symmetry.
        apply (fle_flt_trans y0.2 y.2 sc); try done; by apply Hnn.
      - destruct y as [k y]. by apply (Hne k). }
    rewrite fmap_app, fmap_cons. apply increasing_app. split_and!.
    + done.
    + simpl. split; [|done]. apply Forall_forall. intros y Hy.
      apply list_elem_of_fmap in Hy as (ks & -> & Hks). by apply Hafter.
    + intros x y Hx [->|Hy]%elem_of_cons.
      * apply list_elem_of_fmap in Hx as (ks & -> & Hks).
        by apply (proj1 (Forall_forall _ _) Htake).
      * by apply Hc.
  - intros ks. rewrite ins_sorted_perm, elem_of_cons.
    intros [->|Hks]; [done|by apply Hnn].
Qed.

Lemma good_remove_segment (c1 mid c3 : list (K * score)) d :
  abs_good (c1 ++ mid ++ c3, d) -> abs_good (c1 ++ c3, erase_all mid d).
Proof.
  intros (Hnd & Hsync & Hinc & Hnn). simpl in *.
  rewrite !fmap_app in Hnd.
  apply NoDup_app in Hnd as (Hnd1 & Hdisj1 & Hnd2).
  apply NoDup_app in Hnd2 as (Hnd2 & Hdisj2 & Hnd3).
  split_and!; simpl.
  - rewrite fmap_app. apply NoDup_app. split_and!; try done.
    intros x Hx1 Hx3. apply (Hdisj1 x Hx1). apply elem_of_app. by right.
  - intros key sc. rewrite lookup_erase_all.
    destruct (decide _) as [Hin|Hin].
    + split; [done|]. intros Hks. exfalso.
      apply elem_of_app in Hks as [Hks|Hks].
      * apply (Hdisj1 key); [|apply elem_of_app; by left].
        apply list_elem_of_fmap. by exists (key, sc).
      * apply (Hdisj2 key); [done|].
        apply list_elem_of_fmap. by exists (key, sc).
    + rewrite Hsync. rewrite !elem_of_app.
      split; [|tauto]. intros [?|[Hmid|?]]; [by left| |by right].
      exfalso. apply Hin. apply list_elem_of_fmap. by exists (key, sc).
  - eapply increasing_sublist; [|exact Hinc].
    apply fmap_sublist, sublist_app; [done|]. by apply sublist_inserts_l.
  - intros ks Hks. apply Hnn. rewrite !elem_of_app.
    apply elem_of_app in Hks as [?|?]; auto.
Qed.

Lemma good_delete_key (key : K) cur c d :
  abs_good (c, d) -> d !! key = Some cur ->
  exists j, c !! j = Some (key, cur) /\
            del_first key cur c = take j c ++ drop (S j) c /\
            abs_good (take j c ++ drop (S j) c, delete key d).
Proof.
  intros Hgood Hcur. pose proof Hgood as (Hnd & Hsync & Hinc & Hnn).
  simpl in *.
  pose proof (proj1 (Hsync key cur) Hcur) as Hin.
  apply list_elem_of_lookup_1 in Hin as [j Hj].
  assert (not_nan cur) as Hnc.
  { apply (Hnn (key, cur)). by eapply list_elem_of_lookup_2. }
  exists j. split; [done|].
  assert (prefix_len (fun ks : K * score => flt ks.2 cur) c = j) as Ht.
  { apply prefix_len_eq.
    - apply lookup_lt_Some in Hj. lia.
    - intros i x Hi Hx.
      rewrite <- (take_drop j c), fmap_app in Hinc.
      apply increasing_app in Hinc as (_ & _ & Hc). apply Hc.
      + apply list_elem_of_fmap. exists x. split; [done|].
        apply (list_elem_of_lookup_2 _ i). by rewrite lookup_take_lt by lia.
      + apply list_elem_of_fmap. exists (key, cur). split; [done|].
        apply (list_elem_of_lookup_2 _ 0%nat). rewrite lookup_drop.
        by rewrite Nat.add_0_r.
    - intros y Hy. assert (y = (key, cur)) as -> by congruence. simpl.
      rewrite flt_fle_neg by done. by rewrite fle_refl. }
  split.
  - unfold del_first. rewrite Ht, Hj. simpl.
    rewrite bool_decide_true by done. unfold not_nan in Hnc. by rewrite Hnc.
  - assert (erase_all [(key, cur)] d = delete key d) as <- by done.
    apply good_remove_segment. simpl.
    rewrite <- (drop_S _ _ _ Hj). by rewrite take_drop.
Qed.

Lemma abs_zadd_generic_good (key : K) sc (incr : bool) (st : abs_state K) :
  abs_good st ->
  not_nan (match st.2 !! key with
           | Some cur => if incr then PrimFloat.add sc cur else sc
           | None => sc
           end) ->
  (forall k y, (k, y) ∈ st.1 -> k <> key ->
     feq y (match st.2 !! key with
            | Some cur => if incr then PrimFloat.add sc cur else sc
            | None => sc
            end) = false) ->
  abs_good (abs_zadd_generic key sc incr st).
Proof.
  destruct st as [c d]. intros Hgood Hnn Hne. unfold abs_zadd_generic.
  simpl in *. destruct (d !! key) as [cur|] eqn:Hcur.
  - set (sc' := if incr then PrimFloat.add sc cur else sc) in *.
    destruct (feq sc' cur) eqn:Hsame; simpl; [done|].
    destruct (good_delete_key key cur c d Hgood Hcur)
      as (j & Hj & -> & Hgood1).
    replace (<[key := sc']> d) with (<[key := sc']> (delete key d))
      by apply insert_delete_eq.
    apply good_insert_fresh; [done|apply lookup_delete_eq|done|].
    intros k y Hky. apply (Hne k).
    + rewrite <- (take_drop j c), (drop_S _ _ _ Hj).
      rewrite elem_of_app, elem_of_cons. rewrite elem_of_app in Hky. tauto.
    + intros ->. destruct Hgood1 as (_ & Hsync1 & _). simpl in Hsync1.
      apply (proj2 (Hsync1 key y)) in Hky.
      by rewrite lookup_delete_eq in Hky.
  - apply good_insert_fresh; [done|done|done|].
    intros k y Hky. apply (Hne k); [done|]. intros ->.
    destruct Hgood as (_ & Hsync & _). simpl in Hsync.
    apply (proj2 (Hsync key y)) in Hky.
    assert (Some y = None) as Habs; [|done].
    etrans; [symmetry; exact Hky|exact Hcur].
Qed.

Lemma abs_step_good (s : SortedSet K) (o : op K) :
  abs_good (abs_of s) -> op_ok s o -> tie_free_op s o ->
  abs_good (abs_step (abs_of s) o).
Proof.
  intros Hgood Hok Htf.
  destruct o as [key sc dr|key sc dr|key|mn mx me xe|st en]; simpl in *.
  - apply abs_zadd_generic_good; [done| |]; simpl.
    + destruct Hok as [Hnn _]. by destruct (mDict s !! key).
    + intros k y Hk Hne. destruct (mDict s !! key); by apply (Htf k).
  - apply abs_zadd_generic_good; [done| |]; simpl.
    + by destruct Hok as [Hnn _].
    + done.
  - unfold abs_zrem. simpl. destruct (mDict s !! key) as [cur|] eqn:Hcur;
      [|done].
    by destruct (good_delete_key key cur (contents s) (mDict s) Hgood Hcur)
      as (j & _ & -> & Hgood1).
  - unfold abs_zremrangebyscore. cbn [fst snd].
    apply good_remove_segment. by rewrite <- split_segment.
  - unfold abs_zremrangebyrank. unfold abs_of in *. cbn [fst snd] in *.
    destruct (norm_range _ _ _) as [[a b]|] eqn:Hn; [|done].
    assert (0 <= a <= b) as Hab.
    { unfold norm_range in Hn.
      set (start1 := if st <? 0 then _ else st) in Hn.
      set (end1 := if en <? 0 then _ else en) in Hn.
      destruct ((end1 <? (if start1 <? 0 then 0 else start1))
                || (Z.of_nat (length (contents s))
                    <=? (if start1 <? 0 then 0 else start1)))
        eqn:Hemp; [done|].
      destruct (normalize_range (Z.of_nat (length (contents s))) st en
                  ltac:(lia) Hemp) as [Hs He].
      fold start1 end1 in Hs, He. injection Hn as <- <-. lia. }
    replace (Z.to_nat b + 1)%nat
      with (Z.to_nat a + Z.to_nat (b - a + 1))%nat by lia.
    apply good_remove_segment. by rewrite <- split_segment.
Qed.

Lemma reachable_tf_reachable (s : SortedSet K) : reachable_tf s -> reachable s.
Proof.
  induction 1 as [|s o s' _ IH Hok _ Hstep]; [apply reachable_empty|].
  by apply (reachable_step s o s').
Qed.

Lemma reachable_tf_good (s : SortedSet K) :
  reachable_tf s -> abs_good (abs_of s).
Proof.
  induction 1 as [|s o s' Hreach IH Hok Htf Hstep].
  - unfold abs_of. rewrite contents_empty. split_and!; simpl.
    + constructor.
    + intros k sc. rewrite lookup_empty. split; [done|].
      by intros ?%elem_of_nil.
    + done.
    + by intros ks ?%elem_of_nil.
  - destruct (reachable_inv s (reachable_tf_reachable s Hreach)) as [l Hinv].
    destruct (step_abs s l o Hinv Hok) as (s1 & l1 & Hstep1 & _ & Habs).
    rewrite Hstep in Hstep1. injection Hstep1 as <-.
    rewrite Habs. by apply abs_step_good.
Qed.

Lemma op_okb_ok (s : SortedSet K) (o : op K) : op_okb s o = true -> op_ok s o.
Proof.
  intros Hok. destruct o; simpl in *; try done.
  - apply andb_true_iff in Hok as [? ?%Z.ltb_lt]. by split.
  - apply andb_true_iff in Hok as [? ?%Z.ltb_lt]. by split.
  - unfold is_long.
    apply andb_true_iff in Hok as [Hok ?%Z.ltb_lt].
    apply andb_true_iff in Hok as [Hok ?%Z.leb_le].
    apply andb_true_iff in Hok as [?%Z.leb_le ?%Z.ltb_lt]. lia.
Qed.

Lemma tie_free_opb_ok (s : SortedSet K) (o : op K) :
  tie_free_opb s o = true -> tie_free_op s o.
Proof.
  intros Htf. destruct o as [key sc dr|key sc dr| | |]; simpl in *; try done.
  - intros k y Hk Hne. rewrite forallb_forall in Htf.
    apply list_elem_of_In, Htf in Hk. simpl in Hk.
    rewrite bool_decide_false in Hk by done. by apply negb_true_iff in Hk.
  - intros k y Hk Hne. rewrite forallb_forall in Htf.
    apply list_elem_of_In, Htf in Hk. simpl in Hk.
    rewrite bool_decide_false in Hk by done. by apply negb_true_iff in Hk.
Qed.

Lemma run_tf_reachable (ops : list (op K)) : forall s s',
  reachable_tf s -> run_tf ops s = Some s' -> reachable_tf s'.
Proof.
  induction ops as [|o ops IH]; intros s s' Hs Hrun; simpl in *.
  { by injection Hrun as <-. }
  destruct (op_okb s o && tie_free_opb s o) eqn:Hok; [|done].
  apply andb_true_iff in Hok as [Hok Htf].
  destruct (step s o) as [s1|] eqn:Hstep; [|done]. simpl in *.
  apply (IH s1); [|done].
  apply (reachable_tf_step s o s1);
    [done|by apply op_okb_ok|by apply tie_free_opb_ok|done].
Qed.

Lemma reachable_tf_state_tf (ops : list (op K)) : reachable_tf (state_tf ops).
Proof.
  unfold state_tf. destruct (run_tf ops empty_set) as [s|] eqn:Hrun; simpl.
  - by apply (run_tf_reachable ops empty_set s reachable_tf_empty).
  - apply reachable_tf_empty.
Qed.

Lemma abs_good_synced (s : SortedSet K) : abs_good (abs_of s) -> synced s.
Proof. intros (Hnd & Hsync & _). by split. Qed.

End TieFree.

(** * The destructor, reversed ranges and the random levels *)

Section More.
Context {K : Type} `{Countable K} `{Inhabited K}.

Lemma rev_is_reverse {A} (c : list A) : List.rev c = reverse c.
Proof.
  induction c as [|x c IH]; [done|]. simpl. by rewrite reverse_cons, IH.
Qed.

(** A walk backwards over a range of ranks is the walk forwards over the
    reversed list. *)
Lemma zrange_abs_reverse {X A} (f : X -> A) (c : list X) start end_ :
  zrange_abs f c start end_ true = zrange_abs f (List.rev c) start end_ false.
Proof.
  unfold zrange_abs. rewrite length_rev.
  destruct (norm_range _ _ _) as [[first last]|] eqn:Hn; [|done].
  unfold norm_range in Hn.
  set (start1 := if start <? 0 then _ else start) in Hn.
  set (end1 := if end_ <? 0 then _ else end_) in Hn.
  destruct ((end1 <? (if start1 <? 0 then 0 else start1))
            || (Z.of_nat (length c) <=? (if start1 <? 0 then 0 else start1)))
    eqn:Hemp; [done|].
  destruct (normalize_range (Z.of_nat (length c)) start end_ ltac:(lia) Hemp)
    as [Hs He].
  fold start1 end1 in Hs, He. injection Hn as <- <-.
  set (first := if start1 <? 0 then 0 else start1) in *.
  set (last := if Z.of_nat (length c) <=? end1
               then Z.of_nat (length c) - 1 else end1) in *.
  f_equal. rewrite !rev_is_reverse.
  rewrite reverse_take, reverse_drop, length_drop.
  replace (length c - (length c - 1 - Z.to_nat last))%nat
    with (Z.to_nat first + Z.to_nat (last - first + 1))%nat by lia.
  replace (Z.to_nat first + Z.to_nat (last - first + 1)
           - Z.to_nat (last - first + 1))%nat with (Z.to_nat first) by lia.
  by rewrite take_drop_commute.
Qed.

Lemma abs_step_erase_draws (st : abs_state K) (o : op K) :
  abs_step st (erase_draws o) = abs_step st o.
Proof. by destruct o. Qed.

Lemma abs_run_erase_draws (ops : list (op K)) : forall st : abs_state K,
  abs_run (erase_draws <$> ops) st = abs_run ops st.
Proof.
  induction ops as [|o ops IH]; intros st; [done|].
  unfold abs_run in *. simpl. by rewrite abs_step_erase_draws, IH.
Qed.

Variables (s : SortedSet K) (l : list ptr).
Hypothesis Hinv : inv s l.

Lemma free_chain_spec : forall fuel a (hh : gmap ptr (SkipListNode K)),
  (length l - a <= fuel)%nat ->
  (forall q, hh !! q = if decide (q ∈ drop a l) then heap s !! q else None) ->
  free_chain fuel hh (l !! a) = Some ∅.
Proof.
  pose proof (inv_nodup _ _ Hinv) as Hnd.
  apply NoDup_cons in Hnd as [_ Hnd].
  induction fuel as [|fuel IH]; intros a hh Hf Hhh.
  - rewrite lookup_ge_None_2 by lia. simpl. f_equal.
    apply map_eq. intros q. rewrite Hhh, lookup_empty.
    rewrite drop_ge by lia. by destruct (decide _) as [?%elem_of_nil|].
  - destruct (l !! a) as [p|] eqn:Hp.
    2: { simpl. f_equal. apply map_eq. intros q.
         rewrite Hhh, lookup_empty. apply lookup_ge_None_1 in Hp.
         rewrite drop_ge by lia. by destruct (decide _) as [?%elem_of_nil|]. }
    destruct (inv_lookup_node s l Hinv (S a) p Hp) as [np Hnp].
    destruct (inv_level0 s l Hinv (S a) p Hp) as [lv Hlv].
    pose proof (inv_forward0 s l Hinv (S a) p lv Hp Hlv) as Hfw.
    apply level_at_Some in Hlv as (np' & Hnp' & Hlv).
    assert (np' = np) as -> by congruence.
    cbn [free_chain]. rewrite Hhh.
    rewrite decide_True by (rewrite (drop_S _ _ _ Hp); by left).
    rewrite Hnp. simpl. rewrite Hlv. simpl. rewrite Hfw.
    apply IH; [lia|]. intros q.
    rewrite (drop_S _ _ _ Hp) in Hhh.
    destruct (decide (q = p)) as [->|Hqp].
    + rewrite lookup_delete_eq. rewrite decide_False; [done|].
      intros Hin. apply list_elem_of_lookup_1 in Hin as [i Hi].
      rewrite lookup_drop in Hi.
      pose proof (NoDup_lookup _ _ _ _ Hnd Hi Hp). lia.
    + rewrite lookup_delete_ne by done. rewrite Hhh.
      destruct (decide (q ∈ drop (S a) l)) as [Hin|Hnin].
      * rewrite decide_True; [done|by right].
      * rewrite decide_False; [done|]. by intros [?|?]%elem_of_cons.
Qed.

(** The destructor frees every node, each once. *)
Lemma destroy_spec : destroy s = Some ∅.
Proof.
  unfold destroy.
  destruct (inv_level0 s l Hinv 0%nat (mHeader s) eq_refl) as [lv Hlv].
  pose proof (inv_forward0 s l Hinv 0%nat (mHeader s) lv eq_refl Hlv) as Hfw.
  destruct (inv_lookup_node s l Hinv 0%nat (mHeader s) eq_refl) as [hd Hhd].
  rewrite Hlv. simpl. rewrite Hhd. simpl. rewrite Hfw.
  apply free_chain_spec.
  - rewrite (inv_fuel_of s l Hinv). lia.
  - intros q. rewrite drop_0.
    pose proof (inv_nodup _ _ Hinv) as Hnd.
    apply NoDup_cons in Hnd as [Hhl _].
    destruct (decide (q = mHeader s)) as [->|Hne].
    + rewrite lookup_delete_eq. by rewrite decide_False.
    + rewrite lookup_delete_ne by done.
      destruct (decide (q ∈ l)) as [|Hnin]; [done|].
      destruct (heap s !! q) as [n|] eqn:Hq; [exfalso|done].
      assert (q ∈ mHeader s :: l) as Hin.
      { apply (inv_dom _ _ Hinv). by rewrite Hq. }
      by apply elem_of_cons in Hin as [?|?].
Qed.

End More.

(** * Ranks and counts where the scores increase strictly *)

Section GoodQueries.
Context {K : Type} `{Countable K} `{Inhabited K}.

Variables (s : SortedSet K) (l : list ptr).
Hypothesis Hinv : inv s l.
Hypothesis Hgood : abs_good (abs_of s).

Lemma get_rank_good j key sc :
  contents s !! j = Some (key, sc) ->
  get_rank sc key s = Some (Z.of_nat j + 1).
Proof.
  intros Hj. pose proof (abs_good_synced s Hgood) as Hsync.
  destruct Hgood as (_ & _ & Hinc & _). simpl in Hinc.
  replace (Z.of_nat j + 1) with (Z.of_nat (S j)) by lia.
  apply (get_rank_contents s l Hinv j key sc Hj).
  - intros c ks _ Hc Hk. by apply (synced_key_unique s c j ks (key, sc)).
  - apply (increasing_prefix_len _ j key sc); [done| |done].
    by apply (contents_not_nan s l Hinv j (key, sc)).
Qed.

Lemma zrank_good j key sc :
  contents s !! j = Some (key, sc) ->
  zrank key s = Some (Some (Z.of_nat j)) /\
  zrevrank key s = Some (Some (zcard s - 1 - Z.of_nat j)).
Proof.
  intros Hj. pose proof (abs_good_synced s Hgood) as Hsync.
  destruct Hgood as (_ & _ & Hinc & _). simpl in Hinc.
  destruct (zrank_contents s l j key sc Hinv Hsync Hj) as [Hr Hrr].
  - apply (increasing_prefix_len _ j key sc); [done| |done].
    by apply (contents_not_nan s l Hinv j (key, sc)).
  - split; [done|]. rewrite Hrr. do 2 f_equal. lia.
Qed.

(** [zcount] is the number of stored pairs with a score in the range. *)
Lemma zcount_good min max minex maxex :
  zcount min max minex maxex s =
  Some (Z.of_nat (count_if
                    (fun ks => in_range (mkRange min max minex maxex) ks.2)
                    (contents s))).
Proof.
  set (range := mkRange min max minex maxex).
  pose proof (inv_sorted_pairs s l Hinv) as Hsorted.
  pose proof (inv_contents s l Hinv) as Hc.
  destruct (inv_length _ _ Hinv) as [Hlen Hlenb].
  rewrite <- filter_length_count, <- (byscore_abs_filter _ _ Hsorted).
  assert (in_range_abs range (contents s).*2
          = in_range_abs range (score_of (heap s) <$> l)) as Eabs.
  { by rewrite Hc, <- list_fmap_compose. }
  unfold zcount. fold range.
  rewrite (first_in_range_spec s l Hinv range). simpl.
  unfold byscore_abs. rewrite Eabs.
  destruct (in_range_abs range (score_of (heap s) <$> l)) eqn:Habs; [|done].
  set (A' := fun p => negb (score_gte_min (score_of (heap s) p) range)).
  set (B' := fun p => score_lte_max (score_of (heap s) p) range).
  assert (prefix_len (fun ks : K * score => negb (score_gte_min ks.2 range))
            (contents s) = prefix_len A' l) as ->
    by (by rewrite Hc, prefix_len_fmap).
  set (t := prefix_len A' l).
  assert (prefix_closed (fun ks : K * score => score_lte_max ks.2 range)
            (contents s)) as HB
    by apply (sorted_prefix_closed _ _ Hsorted (down_closed_lte range)).
  rewrite (slice_prefix _ _ t HB).
  assert (prefix_len (fun ks : K * score => score_lte_max ks.2 range)
            (contents s) = prefix_len B' l) as ->
    by (by rewrite Hc, prefix_len_fmap).
  set (t' := prefix_len B' l).
  assert (t' <= length l)%nat as Ht'l by apply prefix_len_le.
  rewrite length_drop, length_take, (contents_length s l Hinv).
  replace (Nat.min t' (length l)) with t' by lia.
  destruct (l !! t) as [y|] eqn:Hy; simpl.
  2: { apply lookup_ge_None_1 in Hy. do 2 f_equal. lia. }
  pose proof (score_test_prefix s l Hinv (fun sc => score_lte_max sc range)
                t y (down_closed_lte range) Hy) as HBy.
  simpl in HBy. rewrite HBy. change (prefix_len _ l) with t'.
  clear HBy. destruct (decide (t < t')%nat) as [Htt'|Htt'].
  2: { rewrite bool_decide_eq_false_2 by done. f_equal. lia. }
  rewrite bool_decide_eq_true_2 by done.
  destruct (inv_lookup_node s l Hinv (S t) y Hy) as [ny Hny].
  rewrite Hny. simpl.
  assert (contents s !! t = Some (mKey ny, mScore ny)) as Hct.
  { rewrite Hc, list_lookup_fmap, Hy. simpl. unfold ks_of, key_of, score_of.
    by rewrite Hny. }
  rewrite (get_rank_good t _ _ Hct). simpl.
  rewrite (last_in_range_spec s l Hinv range). simpl. rewrite Habs.
  fold B'. fold t'.
  destruct (lookup_lt_is_Some_2 l (t' - 1)) as [y' Hy']; [lia|].
  rewrite Hy'. simpl.
  pose proof (score_test_prefix s l Hinv
                (fun sc => negb (score_gte_min sc range)) (t' - 1) y'
                (down_closed_not_gte range) Hy') as HAy.
  simpl in HAy. change (prefix_len _ l) with t in HAy.
  rewrite bool_decide_eq_false_2 in HAy by lia.
  apply negb_false_iff in HAy. rewrite HAy. simpl.
  destruct (inv_lookup_node s l Hinv (S (t' - 1)) y' Hy') as [ny' Hny'].
  rewrite Hny'. simpl.
  assert (contents s !! (t' - 1)%nat = Some (mKey ny', mScore ny')) as Hct'.
  { rewrite Hc, list_lookup_fmap, Hy'. simpl. unfold ks_of, key_of, score_of.
    by rewrite Hny'. }
  rewrite (get_rank_good (t' - 1) _ _ Hct'). simpl.
  rewrite Hlen. do 2 f_equal.
  rewrite (wrap64_small (Z.of_nat t + 1 - 1)) by lia.
  rewrite (wrap64_small (Z.of_nat (length l) - (Z.of_nat t + 1 - 1))) by lia.
  rewrite (wrap64_small (Z.of_nat (length l) - (Z.of_nat (t' - 1) + 1)))
    by lia.
  rewrite wrap64_small by lia. lia.
Qed.

End GoodQueries.

(** * Further properties of the commands and the queries *)

Section Extras.
Context {K : Type} `{Countable K} `{Inhabited K}.

Lemma del_first_length (key : K) sc c :
  (length c - 1 <= length (del_first key sc c) <= length c)%nat.
Proof.
  unfold del_first. set (t := prefix_len _ c).
  destruct (c !! t) as [ks|] eqn:Hks; [|lia].
  destruct (_ && _); [|lia]. apply lookup_lt_Some in Hks.
  rewrite length_app, length_take, length_drop. lia.
Qed.

(** X1: in every reachable state the pairs along level 0 are in
    non-decreasing order of their scores, every stored score is a number,
    and [zcard] is the number of nodes of the list, which is below 2^32. *)
Theorem X1_reachable_sorted (s : SortedSet K) :
  reachable s ->
  sorted_pairs (contents s) /\
  zcard s = Z.of_nat (length (contents s)) /\ zcard s < 2 ^ 32.
Proof.
  intros Hreach. destruct (reachable_inv s Hreach) as [l Hinv].
  split; [by apply (inv_sorted_pairs s l)|].
  rewrite (zcard_contents s l Hinv), (contents_length s l Hinv).
  split; [done|]. apply (inv_length _ _ Hinv).
Qed.

(** X2: a command run in a reachable state with arguments that are
    [op_ok] returns a state: no link that is followed is null, no array is
    read outside its bounds and every loop ends. The state is reachable
    again. *)
Theorem X2_commands_return (s : SortedSet K) (o : op K) :
  reachable s -> op_ok s o ->
  exists s', step s o = Some s' /\ reachable s'.
Proof.
  intros Hreach Hok. destruct (reachable_inv s Hreach) as [l Hinv].
  destruct (step_abs s l o Hinv Hok) as (s' & l' & Hstep & _).
  exists s'. split; [done|]. by apply (reachable_step s o s').
Qed.

(** X3: the stored pairs and the dictionary after a command are those of
    [abs_step], the command written on a list of pairs and a finite map:
    the levels drawn and the spans do not show in them. *)
Theorem X3_step_refines (s : SortedSet K) (o : op K) :
  reachable s -> op_ok s o ->
  exists s', step s o = Some s' /\ abs_of s' = abs_step (abs_of s) o.
Proof.
  intros Hreach Hok. destruct (reachable_inv s Hreach) as [l Hinv].
  destruct (step_abs s l o Hinv Hok) as (s' & l' & Hstep & _ & Habs).
  by exists s'.
Qed.

(** X4: [zadd] then [zscore]. After [zadd key sc], [zscore key] returns a
    score that [==] finds equal to [sc] (the stored score is kept when it
    is equal to [sc]), and the score of every other key is as before; for
    a key that was not in the dictionary [zcard] grows by one. *)
Theorem X4_zadd_then_zscore (s : SortedSet K) (key : K) (sc : score)
    (draws : list Z) :
  reachable s -> not_nan sc -> mLength s < 2 ^ 32 - 1 ->
  exists s' y,
    zadd key sc draws s = Some s' /\
    zscore key s' = Some y /\ feq sc y = true /\
    (forall k, k <> key -> zscore k s' = zscore k s) /\
    (zscore key s = None -> zcard s' = zcard s + 1).
Proof.
  intros Hreach Hsc Hroom. destruct (reachable_inv s Hreach) as [l Hinv].
  destruct (zadd_generic_abs s l (randomlevel draws) key sc false Hinv
              (randomlevel_range draws)) as (s' & l' & Hadd & Hinv' & Habs);
    [by destruct (mDict s !! key)|done|].
  unfold abs_of, abs_zadd_generic in Habs. cbn [fst snd] in Habs.
  pose proof (zcard_contents s l Hinv) as Hz.
  pose proof (zcard_contents s' l' Hinv') as Hz'.
  unfold zscore in *. fold (zadd key sc draws s) in Hadd.
  destruct (mDict s !! key) as [cur|] eqn:Hcur.
  - destruct (feq sc cur) eqn:Hsame; simpl in Habs; injection Habs as Hc Hd.
    + exists s', cur. rewrite Hd. split_and!; try done.
    + exists s', sc. rewrite Hd. split_and!; try done.
      * by rewrite lookup_insert_eq.
      * intros k Hk. by rewrite lookup_insert_ne.
  - injection Habs as Hc Hd. exists s', sc. rewrite Hd.
    split_and!; try done.
    + by rewrite lookup_insert_eq.
    + intros k Hk. by rewrite lookup_insert_ne.
    + intros _. rewrite Hz, Hz', Hc.
      rewrite (Permutation_length (ins_sorted_perm key sc _)).
      simpl. lia.
Qed.

(** X5: [zincrby] then [zscore]. After [zincrby key sc], [zscore key]
    returns a score equal to the sum of [sc] and the score stored before
    ([sc] itself for a key that was not in the dictionary), and the score
    of every other key is as before. *)
Theorem X5_zincrby_then_zscore (s : SortedSet K) (key : K) (sc : score)
    (draws : list Z) :
  reachable s -> op_ok s (Zincrby key sc draws) ->
  exists s' y,
    zincrby key sc draws s = Some s' /\
    zscore key s' = Some y /\
    feq (match zscore key s with
         | Some cur => PrimFloat.add sc cur
         | None => sc
         end) y = true /\
    (forall k, k <> key -> zscore k s' = zscore k s).
Proof.
  intros Hreach [Hsc Hroom]. destruct (reachable_inv s Hreach) as [l Hinv].
  destruct (zadd_generic_abs s l (randomlevel draws) key sc true Hinv
              (randomlevel_range draws)) as (s' & l' & Hadd & Hinv' & Habs);
    [done|done|].
  unfold abs_of, abs_zadd_generic in Habs. cbn [fst snd] in Habs.
  unfold zscore in *. fold (zincrby key sc draws s) in Hadd.
  destruct (mDict s !! key) as [cur|] eqn:Hcur.
  - destruct (feq (PrimFloat.add sc cur) cur) eqn:Hsame; simpl in Habs;
      injection Habs as Hc Hd.
    + exists s', cur. rewrite Hd. split_and!; try done.
    + exists s', (PrimFloat.add sc cur). rewrite Hd. split_and!; try done.
      * by rewrite lookup_insert_eq.
      * intros k Hk. by rewrite lookup_insert_ne.
  - injection Habs as Hc Hd. exists s', sc. rewrite Hd.
    split_and!; try done.
    + by rewrite lookup_insert_eq.
    + intros k Hk. by rewrite lookup_insert_ne.
Qed.

(** X6: [zrem] then [zscore]. In every reachable state [zrem key] returns
    a state in which [zscore key] is absent and the score of every other
    key is as before; it removes at most one node. *)
Theorem X6_zrem_then_zscore (s : SortedSet K) (key : K) :
  reachable s ->
  exists s',
    zrem key s = Some s' /\ zscore key s' = None /\
    (forall k, k <> key -> zscore k s' = zscore k s) /\
    zcard s - 1 <= zcard s' <= zcard s.
Proof.
  intros Hreach. destruct (reachable_inv s Hreach) as [l Hinv].
  destruct (zrem_abs s l key Hinv) as (s' & l' & Hrem & Hinv' & Habs).
  unfold abs_of, abs_zrem in Habs. cbn [fst snd] in Habs.
  exists s'. split; [done|]. unfold zscore.
  rewrite (zcard_contents s l Hinv), (zcard_contents s' l' Hinv').
  destruct (mDict s !! key) as [cur|] eqn:Hcur; injection Habs as Hc Hd.
  - rewrite Hd, Hc. split_and!.
    + apply lookup_delete_eq.
    + intros k Hk. by rewrite lookup_delete_ne.
    + pose proof (del_first_length key cur (contents s)). lia.
    + pose proof (del_first_length key cur (contents s)). lia.
  - rewrite Hd, Hc. split_and!; try done; lia.
Qed.

(** X7: in every reachable state each entry of the dictionary has a node
    in the list with its key and its score, so the dictionary never has
    more entries than the list has nodes. *)
Theorem X7_dict_in_list (s : SortedSet K) :
  reachable s ->
  (forall k sc, zscore k s = Some sc -> (k, sc) ∈ contents s) /\
  Z.of_nat (size (mDict s)) <= zcard s.
Proof.
  intros Hreach. destruct (reachable_inv s Hreach) as [l Hinv].
  pose proof (reachable_dict_sub s Hreach) as Hsub.
  split; [exact Hsub|].
  rewrite (zcard_contents s l Hinv), <- length_map_to_list.
  apply inj_le, submseteq_length, NoDup_submseteq.
  - apply NoDup_map_to_list.
  - intros [k sc] Hk. apply elem_of_map_to_list in Hk. by apply Hsub.
Qed.

(** X8: the levels drawn do not show in the stored pairs. Two runs from
    the empty set of the same commands, with whatever values of
    [random()], end with the same list of pairs and the same dictionary,
    so [zcard], [zscore], [zrange] and [zrangebyscore] and their variants
    return the same results in both. *)
Theorem X8_draws_independent (ops1 ops2 : list (op K))
    (s1 s2 : SortedSet K) :
  erase_draws <$> ops1 = erase_draws <$> ops2 ->
  run_ok ops1 empty_set = Some s1 -> run_ok ops2 empty_set = Some s2 ->
  contents s1 = contents s2 /\ mDict s1 = mDict s2 /\
  zcard s1 = zcard s2 /\
  (forall key, zscore key s1 = zscore key s2) /\
  (forall start end_ reverse,
     zrange_generic start end_ reverse s1
     = zrange_generic start end_ reverse s2 /\
     zrange_withscores_generic start end_ reverse s1
     = zrange_withscores_generic start end_ reverse s2) /\
  (forall min max reverse minex maxex,
     zrangebyscore_generic min max reverse minex maxex s1
     = zrangebyscore_generic min max reverse minex maxex s2 /\
     zrangebyscore_withscores_generic min max reverse minex maxex s1
     = zrangebyscore_withscores_generic min max reverse minex maxex s2).
Proof.
  intros Hops Hrun1 Hrun2.
  destruct (run_ok_abs ops1 empty_set s1 [] inv_empty Hrun1)
    as [Habs1 [l1 Hinv1]].
  destruct (run_ok_abs ops2 empty_set s2 [] inv_empty Hrun2)
    as [Habs2 [l2 Hinv2]].
  assert (abs_of s1 = abs_of s2) as Habs.
  { rewrite Habs1, Habs2, <- (abs_run_erase_draws ops1),
      <- (abs_run_erase_draws ops2). by rewrite Hops. }
  injection Habs as Hc Hd.
  split; [done|]. split; [done|].
  split; [by rewrite (zcard_contents s1 l1 Hinv1),
            (zcard_contents s2 l2 Hinv2), Hc|].
  split; [intros key; unfold zscore; by rewrite Hd|]. split.
  - intros start end_ reverse.
    rewrite (zrange_contents s1 l1 Hinv1), (zrange_contents s2 l2 Hinv2).
    rewrite (zrange_withscores_contents s1 l1 Hinv1),
      (zrange_withscores_contents s2 l2 Hinv2). by rewrite Hc.
  - intros min max reverse minex maxex.
    unfold zrangebyscore_generic, zrangebyscore_withscores_generic.
    pose proof (fun A emit emit' He s l Hi =>
                  @zrangebyscore_filter K _ _ _ s l Hi A emit emit'
                    (if reverse then max else min)
                    (if reverse then min else max) reverse
                    (if reverse then maxex else minex)
                    (if reverse then minex else maxex) He) as Hf.
    assert (forall (a b : score), (if reverse then if reverse then a else b
                                   else if reverse then b else a) = a) as Es
      by (by destruct reverse).
    assert (forall (a b : bool), (if reverse then if reverse then a else b
                                  else if reverse then b else a) = a) as Eb
      by (by destruct reverse).
    rewrite !Es in Hf. rewrite !Eb in Hf.
    rewrite (Hf _ mKey fst ltac:(done) s1 l1 Hinv1),
      (Hf _ mKey fst ltac:(done) s2 l2 Hinv2).
    rewrite (Hf _ (fun n => (mKey n, mScore n)) id ltac:(done) s1 l1 Hinv1),
      (Hf _ (fun n => (mKey n, mScore n)) id ltac:(done) s2 l2 Hinv2).
    by rewrite Hc.
Qed.

(** X9: [zrange] and [zrevrange]. In every reachable state [zrange start
    end] returns the keys at the normalised indexes of the list, in the
    order of the list, and [zrevrange start end] returns what [zrange
    start end] returns on the reversed list; the variants with scores
    return the pairs. [zrange 0 (-1)] is the whole list and
    [zrevrange 0 (-1)] the whole list reversed. *)
Theorem X9_zrange_slice (s : SortedSet K) (start end_ : Z) :
  reachable s ->
  zrange start end_ s
  = Some (zrange_abs fst (contents s) start end_ false) /\
  zrevrange start end_ s
  = Some (zrange_abs fst (List.rev (contents s)) start end_ false) /\
  zrange_withscores start end_ s
  = Some (zrange_abs id (contents s) start end_ false) /\
  zrevrange_withscores start end_ s
  = Some (zrange_abs id (List.rev (contents s)) start end_ false) /\
  zrange 0 (-1) s = Some (contents s).*1 /\
  zrevrange 0 (-1) s = Some (List.rev (contents s).*1).
Proof.
  intros Hreach. destruct (reachable_inv s Hreach) as [l Hinv].
  unfold zrange, zrevrange, zrange_withscores, zrevrange_withscores.
  rewrite !(zrange_contents s l Hinv), !(zrange_withscores_contents s l Hinv).
  rewrite !zrange_abs_reverse, !zrange_abs_all.
  by rewrite fmap_rev.
Qed.

(** X10: [get_element_by_rank]. In every reachable state rank 0 is the
    header, a rank from 1 to the length is the node at that place of the
    list, and a rank beyond the length is null. *)
Theorem X10_get_element_by_rank (s : SortedSet K) :
  reachable s ->
  get_element_by_rank 0 s = Some (Some (mHeader s)) /\
  (forall j ks, contents s !! j = Some ks ->
     exists p n, get_element_by_rank (Z.of_nat j + 1) s = Some (Some p) /\
                 heap s !! p = Some n /\ (mKey n, mScore n) = ks) /\
  (forall r, zcard s < r -> get_element_by_rank r s = Some None).
Proof.
  intros Hreach. destruct (reachable_inv s Hreach) as [l Hinv].
  split_and!.
  - by rewrite (get_element_by_rank_spec s l Hinv 0) by lia.
  - intros j ks Hj.
    replace (Z.of_nat j + 1) with (Z.of_nat (S j)) by lia.
    by apply (get_element_by_rank_contents s l Hinv).
  - intros r Hr. apply (get_element_by_rank_beyond s l Hinv).
    rewrite (zcard_contents s l Hinv), (contents_length s l Hinv) in Hr.
    done.
Qed.

(** X11: [get_rank] never fails, and a rank that is not 0 is the place,
    counted from 1, of a node of the list that holds the key with a score
    up to the score asked for. *)
Theorem X11_get_rank_sound (s : SortedSet K) (sc : score) (key : K) :
  reachable s ->
  exists r : nat,
    get_rank sc key s = Some (Z.of_nat r) /\
    (r <= length (contents s))%nat /\
    (r = 0%nat \/
     exists y, contents s !! (r - 1)%nat = Some (key, y) /\
               fle y sc = true).
Proof.
  intros Hreach. destruct (reachable_inv s Hreach) as [l Hinv].
  destruct (get_rank_sound s l Hinv sc key) as (r & Hr & Hcase).
  exists r. split; [done|].
  set (P := fun q => fle (score_of (heap s) q) sc) in *.
  pose proof (prefix_len_le P l) as Hle.
  rewrite (contents_length s l Hinv).
  destruct Hcase as [->|(Hrt & p & Hp & Hk)].
  { split; [lia|by left]. }
  split; [lia|]. right. exists (score_of (heap s) p). split.
  - rewrite (inv_contents s l Hinv), list_lookup_fmap, Hp. simpl.
    unfold ks_of. by rewrite Hk.
  - destruct (prefix_len_take_drop P l) as [Htake _].
    apply (proj1 (Forall_forall _ _) Htake p).
    apply (list_elem_of_lookup_2 _ (r - 1)).
    by rewrite lookup_take_lt by lia.
Qed.

(** X12: the early exit of the searches by score. [is_in_range] returns
    a result in every reachable state, and when it returns [false] no
    stored score lies in the range. *)
Theorem X12_is_in_range_sound (s : SortedSet K) (range : RangeSpec) :
  reachable s ->
  exists b, is_in_range range s = Some b /\
            (b = false ->
             forall ks, ks ∈ contents s -> in_range range ks.2 = false).
Proof.
  intros Hreach. destruct (reachable_inv s Hreach) as [l Hinv].
  exists (in_range_abs range (score_of (heap s) <$> l)).
  split; [apply (is_in_range_spec s l Hinv)|].
  intros Habs. apply in_range_abs_false; [by apply (inv_sorted_pairs s l)|].
  by rewrite (inv_contents s l Hinv), <- list_fmap_compose.
Qed.

(** X13: [zrangebyscore] and its variants. In every reachable state
    [zrangebyscore min max] returns the keys of the stored pairs whose
    score lies in the range, in the order of the list, and
    [zrevrangebyscore max min] returns them in the reverse order; the
    variants with scores return the pairs. *)
Theorem X13_zrangebyscore_filter (s : SortedSet K) (min max : score)
    (minex maxex : bool) :
  reachable s ->
  let hits := List.filter
                (fun ks => in_range (mkRange min max minex maxex) ks.2)
                (contents s) in
  zrangebyscore min max minex maxex s = Some hits.*1 /\
  zrangebyscore_withscores min max minex maxex s = Some hits /\
  zrevrangebyscore max min maxex minex s = Some (List.rev hits).*1 /\
  zrevrangebyscore_withscores max min maxex minex s = Some (List.rev hits).
Proof.
  intros Hreach hits. destruct (reachable_inv s Hreach) as [l Hinv].
  unfold zrangebyscore, zrangebyscore_withscores, zrevrangebyscore,
    zrevrangebyscore_withscores, zrangebyscore_generic,
    zrangebyscore_withscores_generic.
  split_and!.
  - apply (zrangebyscore_filter s l Hinv mKey fst min max false). done.
  - rewrite (zrangebyscore_filter s l Hinv (fun n => (mKey n, mScore n)) id
               min max false) by done.
    by rewrite list_fmap_id.
  - apply (zrangebyscore_filter s l Hinv mKey fst min max true). done.
  - rewrite (zrangebyscore_filter s l Hinv (fun n => (mKey n, mScore n)) id
               min max true) by done.
    by rewrite list_fmap_id.
Qed.

(** X14: [zremrangebyscore]. In every reachable state, for a lower bound
    that is a number, it removes from the list the pairs whose score lies
    in the range and no other, erases their keys from the dictionary, and
    [private_delete_range_by_score] returns their number. *)
Theorem X14_zremrangebyscore_filter (s : SortedSet K) (min max : score)
    (minex maxex : bool) :
  reachable s -> not_nan min ->
  let range := mkRange min max minex maxex in
  exists s',
    private_delete_range_by_score range s
    = Some (Z.of_nat (count_if (fun ks => in_range range ks.2) (contents s)),
            s') /\
    zremrangebyscore min max minex maxex s = Some s' /\
    contents s'
    = List.filter (fun ks => negb (in_range range ks.2)) (contents s) /\
    mDict s'
    = erase_all (List.filter (fun ks => in_range range ks.2) (contents s))
                (mDict s).
Proof.
  intros Hreach Hmin range. destruct (reachable_inv s Hreach) as [l Hinv].
  destruct (private_delete_range_by_score_abs s l range Hinv)
    as (s' & l' & Hdel & Hinv' & Habs).
  unfold abs_of in Habs.
  rewrite (abs_zremrangebyscore_filter range (contents s) (mDict s)
             (inv_sorted_pairs s l Hinv) Hmin) in Habs.
  injection Habs as Hc Hd. exists s'.
  unfold zremrangebyscore. fold range. rewrite Hdel. simpl.
  split_and!; try done. do 3 f_equal. rewrite Hc.
  pose proof (count_if_split (fun ks : K * score => in_range range ks.2)
                (fun ks => negb (in_range range ks.2)) (contents s)
                ltac:(done)) as Hsplit.
  rewrite filter_length_count. lia.
Qed.

(** X15: [zremrangebyrank]. In every reachable state it removes from the
    list the pairs at the normalised indexes and no other, and [zcard]
    falls by the length of the normalised range. *)
Theorem X15_zremrangebyrank_slice (s : SortedSet K) (start end_ : Z) :
  reachable s ->
  exists s',
    zremrangebyrank start end_ s = Some s' /\
    zcard s' = zcard s - Z.of_nat (rangelen s start end_) /\
    contents s' = match norm_range (zcard s) start end_ with
                  | None => contents s
                  | Some (first, last) =>
                      take (Z.to_nat first) (contents s)
                      ++ drop (Z.to_nat last + 1) (contents s)
                  end.
Proof.
  intros Hreach. destruct (reachable_inv s Hreach) as [l Hinv].
  destruct (zremrangebyrank_abs s l start end_ Hinv)
    as (s' & l' & Hrem & Hinv' & Habs).
  exists s'. split; [done|].
  unfold abs_of, abs_zremrangebyrank in Habs. cbn [fst snd] in Habs.
  unfold rangelen.
  rewrite (zcard_contents s' l' Hinv'), (zcard_contents s l Hinv).
  destruct (norm_range _ _ _) as [[first last]|] eqn:Hn.
  - injection Habs as Hc Hd. split; [|done]. rewrite Hc.
    unfold norm_range in Hn.
    set (start1 := if start <? 0 then _ else start) in Hn.
    set (end1 := if end_ <? 0 then _ else end_) in Hn.
    destruct ((end1 <? (if start1 <? 0 then 0 else start1))
              || (Z.of_nat (length (contents s))
                  <=? (if start1 <? 0 then 0 else start1)))
      eqn:Hemp; [done|].
    destruct (normalize_range (Z.of_nat (length (contents s))) start end_
                ltac:(lia) Hemp) as [Hs He].
    fold start1 end1 in Hs, He. injection Hn as <- <-.
    rewrite length_app, length_take, length_drop. lia.
  - injection Habs as Hc Hd. rewrite Hc. split; [lia|done].
Qed.

Lemma reachable_tf_parity (s : SortedSet K) :
  reachable_tf s ->
  NoDup (contents s).*1 /\
  (forall k sc, mDict s !! k = Some sc <-> (k, sc) ∈ contents s) /\
  zcard s = Z.of_nat (size (mDict s)) /\
  increasing (contents s).*2.
Proof.
  intros Htf. pose proof (reachable_tf_good s Htf) as Hgood.
  destruct (reachable_inv s (reachable_tf_reachable s Htf)) as [l Hinv].
  destruct Hgood as (Hnd & Hsync & Hinc & _). simpl in *.
  split_and!; try done.
  rewrite (zcard_contents s l Hinv), <- length_map_to_list. f_equal.
  apply Permutation_length, NoDup_Permutation.
  - by eapply NoDup_fmap_1.
  - apply NoDup_map_to_list.
  - intros [k sc]. by rewrite elem_of_map_to_list, Hsync.
Qed.

(** X16: parity without equal scores. In every state reached by
    commands that never store a score equal to the score of another key,
    every key is stored once, the dictionary and the list hold the same
    pairs, [zcard] is the number of entries of the dictionary, and the
    scores increase strictly along the list. *)
Theorem X16_tie_free_parity (s : SortedSet K) :
  reachable_tf s ->
  NoDup (contents s).*1 /\
  (forall k sc, zscore k s = Some sc <-> (k, sc) ∈ contents s) /\
  zcard s = Z.of_nat (size (mDict s)) /\
  increasing (contents s).*2.
Proof. intros Htf. by apply reachable_tf_parity. Qed.

(** X17: ranks without equal scores. In such a state the key of the
    pair at place [j] of the list has [zrank] [j] and [zrevrank]
    [zcard - 1 - j], [get_rank] of the pair is [j + 1], never 0, and
    [get_element_by_rank] of that rank is the node of the pair. *)
Theorem X17_tie_free_rank (s : SortedSet K) (j : nat) (key : K)
    (sc : score) :
  reachable_tf s -> contents s !! j = Some (key, sc) ->
  zrank key s = Some (Some (Z.of_nat j)) /\
  zrevrank key s = Some (Some (zcard s - 1 - Z.of_nat j)) /\
  get_rank sc key s = Some (Z.of_nat j + 1) /\
  exists p n, get_element_by_rank (Z.of_nat j + 1) s = Some (Some p) /\
              heap s !! p = Some n /\ mKey n = key /\ mScore n = sc.
Proof.
  intros Htf Hj. pose proof (reachable_tf_good s Htf) as Hgood.
  destruct (reachable_inv s (reachable_tf_reachable s Htf)) as [l Hinv].
  destruct (zrank_good s l Hinv Hgood j key sc Hj) as [Hr Hrr].
  split; [done|]. split; [done|].
  split; [by apply (get_rank_good s l Hinv Hgood)|].
  destruct (get_element_by_rank_contents s l Hinv j _ Hj)
    as (p & n & Hg & Hn & Hks).
  replace (Z.of_nat j + 1) with (Z.of_nat (S j)) by lia.
  injection Hks as Hk Hs. by exists p, n.
Qed.

(** X18: [zcount] without equal scores is the number of stored pairs
    whose score lies in the range. *)
Theorem X18_tie_free_zcount (s : SortedSet K) (min max : score)
    (minex maxex : bool) :
  reachable_tf s ->
  zcount min max minex maxex s =
  Some (Z.of_nat (count_if
                    (fun ks => in_range (mkRange min max minex maxex) ks.2)
                    (contents s))).
Proof.
  intros Htf. pose proof (reachable_tf_good s Htf) as Hgood.
  destruct (reachable_inv s (reachable_tf_reachable s Htf)) as [l Hinv].
  by apply (zcount_good s l).
Qed.

(** X19: [zrem] without equal scores removes the node of the key: the
    pair leaves the list, no pair with the key stays, [zcard] falls by
    one, and the state is again one without equal scores. *)
Theorem X19_tie_free_zrem (s : SortedSet K) (key : K) (cur : score) :
  reachable_tf s -> zscore key s = Some cur ->
  exists s' j,
    zrem key s = Some s' /\ reachable_tf s' /\
    contents s !! j = Some (key, cur) /\
    contents s' = take j (contents s) ++ drop (S j) (contents s) /\
    (key ∉ (contents s').*1) /\ zcard s' = zcard s - 1.
Proof.
  intros Htf Hcur. pose proof (reachable_tf_good s Htf) as Hgood.
  destruct (reachable_inv s (reachable_tf_reachable s Htf)) as [l Hinv].
  destruct (zrem_abs s l key Hinv) as (s' & l' & Hrem & Hinv' & Habs).
  unfold abs_of, abs_zrem in Habs. cbn [fst snd] in Habs.
  unfold zscore in Hcur. rewrite Hcur in Habs. injection Habs as Hc Hd.
  destruct (good_delete_key key cur (contents s) (mDict s) Hgood Hcur)
    as (j & Hj & Hdel & Hgood').
  rewrite Hdel in Hc. exists s', j. split_and!; try done.
  - by apply (reachable_tf_step s (Zrem key) s').
  - rewrite <- Hc, <- Hd in Hgood'.
    destruct Hgood' as (_ & Hsync' & _). simpl in Hsync'.
    intros Hin. apply list_elem_of_fmap in Hin as ([k y] & -> & Hin).
    apply Hsync' in Hin. simpl in Hin. rewrite Hd in Hin.
    by rewrite lookup_delete_eq in Hin.
  - rewrite (zcard_contents s' l' Hinv'), (zcard_contents s l Hinv), Hc.
    apply lookup_lt_Some in Hj.
    rewrite length_app, length_take, length_drop. lia.
Qed.

(** X20: [zadd] of a key that is stored, with a new score that no other
    key has: the key is stored once, with the new score, and [zcard] is as
    before. *)
Theorem X20_tie_free_zadd_update (s : SortedSet K) (key : K)
    (cur sc : score) (draws : list Z) :
  reachable_tf s -> zscore key s = Some cur ->
  op_ok s (Zadd key sc draws) -> tie_free_op s (Zadd key sc draws) ->
  exists s',
    zadd key sc draws s = Some s' /\ reachable_tf s' /\
    zcard s' = zcard s /\
    (forall y, (key, y) ∈ contents s' <-> feq sc cur = false /\ y = sc
                                          \/ feq sc cur = true /\ y = cur).
Proof.
  intros Htf Hcur Hok Htie. pose proof (reachable_tf_reachable s Htf) as Hr.
  destruct (reachable_tf_parity s Htf) as (_ & Hsync & Hcard & _).
  destruct (reachable_inv s Hr) as [l Hinv].
  destruct (step_abs s l (Zadd key sc draws) Hinv Hok)
    as (s' & l' & Hstep & Hinv' & Habs).
  assert (reachable_tf s') as Htf'
    by by apply (reachable_tf_step s (Zadd key sc draws) s').
  destruct (reachable_tf_parity s' Htf') as (_ & Hsync' & Hcard' & _).
  simpl in Hstep, Habs. unfold abs_of, abs_zadd_generic in Habs.
  cbn [fst snd] in Habs. unfold zscore in *. rewrite Hcur in Habs.
  exists s'. split; [done|]. split; [done|].
  destruct (feq sc cur) eqn:Hsame; simpl in Habs; injection Habs as Hc Hd.
  - split; [by rewrite Hcard, Hcard', Hd|].
    intros y. rewrite <- Hsync', Hd, Hcur. split.
    + intros [= ->]. by right.
    + by intros [[? _]|[_ ->]].
  - split.
    + rewrite Hcard, Hcard', Hd. f_equal.
      by rewrite map_size_insert_Some by by rewrite Hcur.
    + intros y. rewrite <- Hsync', Hd, lookup_insert_eq. split.
      * intros [= ->]. by left.
      * by intros [[_ ->]|[? _]].
Qed.

(** X21: the destructor. In every reachable state it frees the header
    and every node of the list, each once, and reads no node that it has
    freed: no node is left in the heap. *)
Theorem X21_destroy_frees_all (s : SortedSet K) :
  reachable s -> destroy s = Some ∅.
Proof.
  intros Hreach. destruct (reachable_inv s Hreach) as [l Hinv].
  by apply (destroy_spec s l).
Qed.

Lemma randomlevel_loop_count (draws : list Z) : forall level,
  randomlevel_loop draws level = (level + prefix_len draw_small draws)%nat.
Proof.
  induction draws as [|r draws IH]; intros level; simpl; [lia|].
  destruct (draw_small r); [|lia]. rewrite IH. lia.
Qed.

Lemma all_in_block_spec (f : Z -> bool) : forall d lo,
  all_in_block d lo f = true ->
  forall n, lo <= n < lo + 2 ^ Z.of_nat d -> f n = true.
Proof.
  induction d as [|d IH]; intros lo Hall n Hn.
  { simpl in *. by replace n with lo by lia. }
  cbn [all_in_block] in Hall. apply andb_true_iff in Hall as [H1 H2].
  rewrite Nat2Z.inj_succ, Z.pow_succ_r in Hn by lia.
  destruct (Z.lt_ge_cases n (lo + 2 ^ Z.of_nat d)).
  - apply (IH lo); [done|lia].
  - apply (IH (lo + 2 ^ Z.of_nat d)); [done|lia].
Qed.

Lemma draw_small_table :
  all_in_block 16 0
    (fun n => Bool.eqb (draw_small n) (n <? 16384)) = true.
Proof. vm_compute. reflexivity. Qed.

(** X22: [randomlevel]. A value of [random()] raises the level when its
    low 16 bits are below 16384, a quarter of the 65536 values; the level
    returned is one more than the number of such values before the first
    other one, cut at [SKIPLIST_MAXLEVEL], so it is between 1 and 32. *)
Theorem X22_randomlevel (draws : list Z) :
  (forall r, draw_small r = (Z.land r 65535 <? 16384)) /\
  randomlevel draws
  = Nat.min (1 + prefix_len draw_small draws) SKIPLIST_MAXLEVEL /\
  (1 <= randomlevel draws <= SKIPLIST_MAXLEVEL)%nat.
Proof.
  split; [|split].
  - intros r. unfold draw_small.
    assert (0 <= Z.land r 65535 < 65536) as Hn.
    { split; [apply Z.land_nonneg; lia|].
      change 65535 with (Z.ones 16). rewrite Z.land_ones by lia.
      apply Z.mod_pos_bound. lia. }
    pose proof (all_in_block_spec _ 16 0 draw_small_table
                  (Z.land r 65535) ltac:(simpl; lia)) as Hin.
    apply Bool.eqb_prop in Hin. rewrite <- Hin. unfold draw_small.
    by rewrite <- Z.land_assoc, Z.land_diag.
  - unfold randomlevel. rewrite randomlevel_loop_count.
    destruct (Nat.ltb_spec (1 + prefix_len draw_small draws)
                SKIPLIST_MAXLEVEL); lia.
  - apply randomlevel_range.
Qed.

End Extras.

(** ** The properties at concrete inputs *)

Lemma X1_reachable_sorted_witness :
  sorted_pairs (contents (state_after abc_ops)) /\
  zcard (state_after abc_ops)
  = Z.of_nat (length (contents (state_after abc_ops))) /\
  zcard (state_after abc_ops) < 2 ^ 32.
Proof.
  apply (X1_reachable_sorted (state_after abc_ops)).
  apply reachable_state_after.
Defined.

Lemma X2_commands_return_witness :
  exists s', step (state_after abc_ops) (Zremrangebyrank 0 (-2)) = Some s' /\
             reachable s'.
Proof.
  apply (X2_commands_return (state_after abc_ops) (Zremrangebyrank 0 (-2))).
  - apply reachable_state_after.
  - simpl. unfold is_long. lia.
Defined.

Lemma X3_step_refines_witness :
  exists s',
    step (state_after abc_ops) (Zadd "b" 5%float lvl2) = Some s' /\
    abs_of s' = abs_step (abs_of (state_after abc_ops))
                         (Zadd "b" 5%float lvl2).
Proof.
  apply (X3_step_refines (state_after abc_ops) (Zadd "b" 5%float lvl2)).
  - apply reachable_state_after.
  - split; [reflexivity|vm_compute; reflexivity].
Defined.

Lemma X4_zadd_then_zscore_witness :
  exists s' y,
    zadd "d" 2.5%float lvl2 (state_after abc_ops) = Some s' /\
    zscore "d" s' = Some y /\ feq 2.5%float y = true /\
    (forall k, k <> "d" -> zscore k s' = zscore k (state_after abc_ops)) /\
    (zscore "d" (state_after abc_ops) = None ->
     zcard s' = zcard (state_after abc_ops) + 1).
Proof.
  apply (X4_zadd_then_zscore (state_after abc_ops) "d" 2.5%float lvl2).
  - apply reachable_state_after.
  - reflexivity.
  - vm_compute. reflexivity.
Defined.

Lemma X5_zincrby_then_zscore_witness :
  exists s' y,
    zincrby "b" 1.5%float lvl1 (state_after abc_ops) = Some s' /\
    zscore "b" s' = Some y /\
    feq (match zscore "b" (state_after abc_ops) with
         | Some cur => PrimFloat.add 1.5%float cur
         | None => 1.5%float
         end) y = true /\
    (forall k, k <> "b" -> zscore k s' = zscore k (state_after abc_ops)).
Proof.
  apply (X5_zincrby_then_zscore (state_after abc_ops) "b" 1.5%float lvl1).
  - apply reachable_state_after.
  - split; vm_compute; reflexivity.
Defined.

Lemma X6_zrem_then_zscore_witness :
  exists s',
    zrem "x" (state_after tie_ops) = Some s' /\ zscore "x" s' = None /\
    (forall k, k <> "x" -> zscore k s' = zscore k (state_after tie_ops)) /\
    zcard (state_after tie_ops) - 1 <= zcard s' <= zcard (state_after tie_ops).
Proof.
  apply (X6_zrem_then_zscore (state_after tie_ops) "x").
  apply reachable_state_after.
Defined.

Lemma X7_dict_in_list_witness :
  (forall k sc, zscore k (state_after tie_ops) = Some sc ->
                (k, sc) ∈ contents (state_after tie_ops)) /\
  Z.of_nat (size (mDict (state_after tie_ops))) <= zcard (state_after tie_ops).
Proof.
  apply (X7_dict_in_list (state_after tie_ops)).
  apply reachable_state_after.
Defined.

Lemma X8_draws_independent_witness :
  contents (state_after tie_ops) = contents (state_after tie_ops_tall) /\
  mDict (state_after tie_ops) = mDict (state_after tie_ops_tall).
Proof.
  destruct (X8_draws_independent tie_ops tie_ops_tall (state_after tie_ops)
              (state_after tie_ops_tall)) as (Hc & Hd & _).
  - reflexivity.
  - vm_compute. reflexivity.
  - vm_compute. reflexivity.
  - by split.
Defined.

Lemma X9_zrange_slice_witness :
  zrange 1 (-1) (state_after abc_ops)
  = Some (zrange_abs fst (contents (state_after abc_ops)) 1 (-1) false) /\
  zrevrange 1 (-1) (state_after abc_ops)
  = Some (zrange_abs fst (List.rev (contents (state_after abc_ops)))
                     1 (-1) false) /\
  zrange_withscores 1 (-1) (state_after abc_ops)
  = Some (zrange_abs id (contents (state_after abc_ops)) 1 (-1) false) /\
  zrevrange_withscores 1 (-1) (state_after abc_ops)
  = Some (zrange_abs id (List.rev (contents (state_after abc_ops)))
                     1 (-1) false) /\
  zrange 0 (-1) (state_after abc_ops)
  = Some (contents (state_after abc_ops)).*1 /\
  zrevrange 0 (-1) (state_after abc_ops)
  = Some (List.rev (contents (state_after abc_ops)).*1).
Proof.
  apply (X9_zrange_slice (state_after abc_ops) 1 (-1)).
  apply reachable_state_after.
Defined.

Lemma X10_get_element_by_rank_witness :
  get_element_by_rank 0 (state_after abc_ops)
  = Some (Some (mHeader (state_after abc_ops))) /\
  (forall j ks, contents (state_after abc_ops) !! j = Some ks ->
     exists p n,
       get_element_by_rank (Z.of_nat j + 1) (state_after abc_ops)
       = Some (Some p) /\
       heap (state_after abc_ops) !! p = Some n /\ (mKey n, mScore n) = ks) /\
  (forall r, zcard (state_after abc_ops) < r ->
             get_element_by_rank r (state_after abc_ops) = Some None).
Proof.
  apply (X10_get_element_by_rank (state_after abc_ops)).
  apply reachable_state_after.
Defined.

Lemma X11_get_rank_sound_witness :
  exists r : nat,
    get_rank 5%float "y" (state_after tie_ops) = Some (Z.of_nat r) /\
    (r <= length (contents (state_after tie_ops)))%nat /\
    (r = 0%nat \/
     exists y, contents (state_after tie_ops) !! (r - 1)%nat = Some ("y", y) /\
               fle y 5%float = true).
Proof.
  apply (X11_get_rank_sound (state_after tie_ops) 5%float "y").
  apply reachable_state_after.
Defined.

Lemma X12_is_in_range_sound_witness :
  exists b,
    is_in_range (mkRange 5%float 9%float false false) (state_after abc_ops)
    = Some b /\
    (b = false ->
     forall ks, ks ∈ contents (state_after abc_ops) ->
                in_range (mkRange 5%float 9%float false false) ks.2 = false).
Proof.
  apply (X12_is_in_range_sound (state_after abc_ops)).
  apply reachable_state_after.
Defined.

Lemma X13_zrangebyscore_filter_witness :
  let hits := List.filter
                (fun ks => in_range (mkRange 5%float 5%float false false) ks.2)
                (contents (state_after tie_ops)) in
  zrangebyscore 5%float 5%float false false (state_after tie_ops)
  = Some hits.*1 /\
  zrangebyscore_withscores 5%float 5%float false false (state_after tie_ops)
  = Some hits /\
  zrevrangebyscore 5%float 5%float false false (state_after tie_ops)
  = Some (List.rev hits).*1 /\
  zrevrangebyscore_withscores 5%float 5%float false false
    (state_after tie_ops) = Some (List.rev hits).
Proof.
  apply (X13_zrangebyscore_filter (state_after tie_ops) 5%float 5%float
           false false).
  apply reachable_state_after.
Defined.

Lemma X14_zremrangebyscore_filter_witness :
  let range := mkRange 1.5%float 3%float false true in
  exists s',
    private_delete_range_by_score range (state_after abc_ops)
    = Some (Z.of_nat (count_if (fun ks => in_range range ks.2)
                               (contents (state_after abc_ops))), s') /\
    zremrangebyscore 1.5%float 3%float false true (state_after abc_ops)
    = Some s' /\
    contents s'
    = List.filter (fun ks => negb (in_range range ks.2))
                  (contents (state_after abc_ops)) /\
    mDict s'
    = erase_all (List.filter (fun ks => in_range range ks.2)
                             (contents (state_after abc_ops)))
                (mDict (state_after abc_ops)).
Proof.
  apply (X14_zremrangebyscore_filter (state_after abc_ops) 1.5%float 3%float
           false true).
  - apply reachable_state_after.
  - reflexivity.
Defined.

Lemma X15_zremrangebyrank_slice_witness :
  exists s',
    zremrangebyrank (-2) 7 (state_after abc_ops) = Some s' /\
    zcard s' = zcard (state_after abc_ops)
               - Z.of_nat (rangelen (state_after abc_ops) (-2) 7) /\
    contents s'
    = match norm_range (zcard (state_after abc_ops)) (-2) 7 with
      | None => contents (state_after abc_ops)
      | Some (first, last) =>
          take (Z.to_nat first) (contents (state_after abc_ops))
          ++ drop (Z.to_nat last + 1) (contents (state_after abc_ops))
      end.
Proof.
  apply (X15_zremrangebyrank_slice (state_after abc_ops) (-2) 7).
  apply reachable_state_after.
Defined.

Lemma X16_tie_free_parity_witness :
  NoDup (contents (state_tf abc_ops)).*1 /\
  (forall k sc, zscore k (state_tf abc_ops) = Some sc
                <-> (k, sc) ∈ contents (state_tf abc_ops)) /\
  zcard (state_tf abc_ops) = Z.of_nat (size (mDict (state_tf abc_ops))) /\
  increasing (contents (state_tf abc_ops)).*2.
Proof.
  apply (X16_tie_free_parity (state_tf abc_ops)).
  apply reachable_tf_state_tf.
Defined.

Lemma X17_tie_free_rank_witness :
  zrank "b" (state_tf abc_ops) = Some (Some (Z.of_nat 1)) /\
  zrevrank "b" (state_tf abc_ops)
  = Some (Some (zcard (state_tf abc_ops) - 1 - Z.of_nat 1)) /\
  get_rank 2%float "b" (state_tf abc_ops) = Some (Z.of_nat 1 + 1) /\
  exists p n,
    get_element_by_rank (Z.of_nat 1 + 1) (state_tf abc_ops) = Some (Some p) /\
    heap (state_tf abc_ops) !! p = Some n /\
    mKey n = "b" /\ mScore n = 2%float.
Proof.
  apply (X17_tie_free_rank (state_tf abc_ops) 1 "b" 2%float).
  - apply reachable_tf_state_tf.
  - vm_compute. reflexivity.
Defined.

Lemma X18_tie_free_zcount_witness :
  zcount 1.5%float 3%float false false (state_tf abc_ops) =
  Some (Z.of_nat (count_if
                    (fun ks => in_range (mkRange 1.5%float 3%float false false)
                                        ks.2)
                    (contents (state_tf abc_ops)))).
Proof.
  apply (X18_tie_free_zcount (state_tf abc_ops) 1.5%float 3%float false false).
  apply reachable_tf_state_tf.
Defined.

Lemma X19_tie_free_zrem_witness :
  exists s' j,
    zrem "b" (state_tf abc_ops) = Some s' /\ reachable_tf s' /\
    contents (state_tf abc_ops) !! j = Some ("b", 2%float) /\
    contents s' = take j (contents (state_tf abc_ops))
                  ++ drop (S j) (contents (state_tf abc_ops)) /\
    ("b" ∉ (contents s').*1) /\ zcard s' = zcard (state_tf abc_ops) - 1.
Proof.
  apply (X19_tie_free_zrem (state_tf abc_ops) "b" 2%float).
  - apply reachable_tf_state_tf.
  - vm_compute. reflexivity.
Defined.

Lemma X20_tie_free_zadd_update_witness :
  exists s',
    zadd "a" 2.5%float lvl2 (state_tf abc_ops) = Some s' /\
    reachable_tf s' /\ zcard s' = zcard (state_tf abc_ops) /\
    (forall y, (("a" : string), y) ∈ contents s'
               <-> feq 2.5%float 1%float = false /\ y = 2.5%float
                   \/ feq 2.5%float 1%float = true /\ y = 1%float).
Proof.
  apply (X20_tie_free_zadd_update (state_tf abc_ops) "a" 1%float 2.5%float
           lvl2).
  - apply reachable_tf_state_tf.
  - vm_compute. reflexivity.
  - apply op_okb_ok. vm_compute. reflexivity.
  - apply tie_free_opb_ok. vm_compute. reflexivity.
Defined.

Lemma X21_destroy_frees_all_witness : destroy (state_after abc_ops) = Some ∅.
Proof.
  apply (X21_destroy_frees_all (state_after abc_ops)).
  apply reachable_state_after.
Defined.

(** * The shape of the heap, the empty set, and the ends of a range *)

Section Structure.
Context {K : Type} `{Countable K} `{Inhabited K}.

(** X23: the ends of a range of scores. In every reachable state
    [first_in_range] returns the first node of the list, and
    [last_in_range] the last node, whose score lies in the range, and
    null when there is none; the assertions in them never fail. *)
Theorem X23_range_ends (s : SortedSet K) (range : RangeSpec) :
  reachable s ->
  let hits := List.filter (fun ks => in_range range ks.2) (contents s) in
  let pair_at (r : option ptr) : option (K * score) :=
    p ← r; n ← heap s !! p; Some (mKey n, mScore n) in
  exists r1 r2,
    first_in_range range s = Some r1 /\ pair_at r1 = head hits /\
    last_in_range range s = Some r2 /\ pair_at r2 = last hits.
Proof.
  intros Hreach hits pair_at. destruct (reachable_inv s Hreach) as [l Hinv].
  pose proof (inv_sorted_pairs s l Hinv) as Hsorted.
  pose proof (inv_contents s l Hinv) as Hc.
  assert (forall i p, l !! i = Some p ->
            pair_at (Some p) = contents s !! i) as Hpair.
  { intros i p Hp. unfold pair_at. simpl.
    destruct (inv_node_at s l Hinv p) as (n & Hn & _ & Hks);
      [by eapply list_elem_of_lookup_2|].
    rewrite Hn. simpl. by rewrite Hc, list_lookup_fmap, Hp, <- Hks. }
  assert (in_range_abs range (contents s).*2
          = in_range_abs range (score_of (heap s) <$> l)) as Eabs.
  { by rewrite Hc, <- list_fmap_compose. }
  unfold hits. rewrite <- (byscore_abs_filter _ _ Hsorted).
  rewrite (first_in_range_spec s l Hinv), (last_in_range_spec s l Hinv).
  unfold byscore_abs. rewrite Eabs.
  destruct (in_range_abs range (score_of (heap s) <$> l)) eqn:Habs.
  2: { by exists None, None. }
  set (A' := fun p => negb (score_gte_min (score_of (heap s) p) range)).
  set (B' := fun p => score_lte_max (score_of (heap s) p) range).
  assert (prefix_len (fun ks : K * score => negb (score_gte_min ks.2 range))
            (contents s) = prefix_len A' l) as Et
    by (by rewrite Hc, prefix_len_fmap).
  assert (prefix_len (fun ks : K * score => score_lte_max ks.2 range)
            (contents s) = prefix_len B' l) as Et'
    by (by rewrite Hc, prefix_len_fmap).
  assert (prefix_closed (fun ks : K * score => score_lte_max ks.2 range)
            (contents s)) as HB
    by apply (sorted_prefix_closed _ _ Hsorted (down_closed_lte range)).
  rewrite Et. set (t := prefix_len A' l).
  rewrite (slice_prefix _ _ t HB), Et'. set (t' := prefix_len B' l).
  assert (t' <= length l)%nat as Ht'l by apply prefix_len_le.
  destruct (in_range_abs_head s l range Habs) as (f & Hf & Hfle).
  assert (1 <= t')%nat as Ht'.
  { unfold t'. destruct l as [|f' l']; [done|]. injection Hf as ->.
    simpl. unfold B' at 1. rewrite Hfle. lia. }
  eexists _, _. split; [reflexivity|]. split; [|split; [reflexivity|]].
  - rewrite head_lookup, lookup_drop, Nat.add_0_r.
    destruct (l !! t) as [y|] eqn:Hy; simpl.
    + pose proof (score_test_prefix s l Hinv
                    (fun sc => score_lte_max sc range) t y
                    (down_closed_lte range) Hy) as HBy.
      simpl in HBy. change (prefix_len _ l) with t' in HBy. rewrite HBy.
      destruct (decide (t < t')%nat) as [Hlt|Hge].
      * rewrite bool_decide_eq_true_2 by done.
        rewrite lookup_take_lt by done. by apply (Hpair t).
      * rewrite bool_decide_eq_false_2 by done.
        by rewrite lookup_take_ge by lia.
    + apply lookup_ge_None_1 in Hy. symmetry. apply lookup_ge_None_2.
      rewrite length_take, (contents_length s l Hinv). lia.
  - destruct (lookup_lt_is_Some_2 l (t' - 1)) as [y Hy]; [lia|].
    rewrite Hy. simpl.
    pose proof (score_test_prefix s l Hinv
                  (fun sc => negb (score_gte_min sc range)) (t' - 1) y
                  (down_closed_not_gte range) Hy) as HAy.
    simpl in HAy. change (prefix_len _ l) with t in HAy.
    rewrite last_lookup, length_drop, length_take,
      (contents_length s l Hinv).
    replace (Nat.min t' (length l)) with t' by lia.
    destruct (decide (t' - 1 < t)%nat) as [Hlt|Hge].
    + rewrite bool_decide_eq_true_2 in HAy by done.
      apply negb_true_iff in HAy. rewrite HAy. simpl.
      symmetry. apply lookup_ge_None_2.
      rewrite length_drop, length_take. lia.
    + rewrite bool_decide_eq_false_2 in HAy by done.
      apply negb_false_iff in HAy. rewrite HAy.
      rewrite (Hpair (t' - 1)%nat y Hy), lookup_drop.
      rewrite lookup_take_lt by lia. f_equal. lia.
Qed.

(** X24: the empty set. On the set that the constructor builds every
    query returns the empty result, for all arguments, and every deletion
    returns the set as it is. *)
Theorem X24_empty_set (start end_ : Z) (min max : score)
    (reverse minex maxex : bool) (key : K) :
  zcard (empty_set : SortedSet K) = 0 /\
  zscore key empty_set = None /\
  zrank_generic key reverse empty_set = Some None /\
  zrange_generic start end_ reverse (empty_set : SortedSet K) = Some [] /\
  zrangebyscore_generic min max reverse minex maxex
    (empty_set : SortedSet K) = Some [] /\
  zcount min max minex maxex (empty_set : SortedSet K) = Some 0 /\
  zrem key empty_set = Some empty_set /\
  zremrangebyscore min max minex maxex (empty_set : SortedSet K)
  = Some empty_set /\
  zremrangebyrank start end_ (empty_set : SortedSet K) = Some empty_set.
Proof.
  pose proof (@inv_empty K _ _ _) as Hinv.
  assert (forall a b, norm_range 0 a b = None) as Hnorm.
  { intros a b. unfold norm_range. rewrite !Z.add_0_l.
    replace (if a <? 0 then a else a) with a by (by destruct (a <? 0)).
    replace (0 <=? (if a <? 0 then 0 else a)) with true
      by (destruct (Z.ltb_spec a 0); lia).
    by rewrite orb_true_r. }
  assert (forall range, in_range_abs range ((fun p : ptr =>
            score_of (heap (empty_set : SortedSet K)) p) <$> []) = false)
    as Habs.
  { intros range. unfold in_range_abs. simpl.
    by destruct (range_is_empty range). }
  split; [reflexivity|].
  split; [unfold zscore; simpl; apply lookup_empty|].
  split; [unfold zrank_generic; simpl; by rewrite lookup_empty|].
  split_and!.
  - rewrite (zrange_contents empty_set [] Hinv), contents_empty.
    unfold zrange_abs. simpl. by rewrite Hnorm.
  - unfold zrangebyscore_generic, zrangebyscore_with.
    rewrite (first_in_range_spec empty_set [] Hinv),
      (last_in_range_spec empty_set [] Hinv), !Habs.
    by destruct reverse.
  - unfold zcount. rewrite (first_in_range_spec empty_set [] Hinv), Habs.
    done.
  - unfold zrem. simpl. by rewrite lookup_empty.
  - unfold zremrangebyscore.
    destruct (private_delete_range_by_score_spec empty_set []
                (mkRange min max minex maxex) Hinv)
      as (s' & Hdel & _ & _ & Hsame).
    rewrite Hdel. simpl. by rewrite (Hsame eq_refl).
  - unfold zremrangebyrank.
    change (to_long (mLength (empty_set : SortedSet K))) with 0.
    pose proof (Hnorm start end_) as Hn. unfold norm_range in Hn.
    by destruct (_ || _).
Qed.

(** X25: the heap holds the header and the nodes of the list and nothing
    else, each once: a node that a command deletes is freed, and no freed
    node stays linked at level 0. *)
Theorem X25_heap_is_list (s : SortedSet K) :
  reachable s ->
  NoDup (mHeader s :: node_list s) /\
  forall p, is_Some (heap s !! p) <-> p ∈ mHeader s :: node_list s.
Proof.
  intros Hreach. destruct (reachable_inv s Hreach) as [l Hinv].
  rewrite (inv_node_list s l Hinv). split.
  - apply (inv_nodup _ _ Hinv).
  - apply (inv_dom _ _ Hinv).
Qed.

(** X26: the list is doubly linked. In every reachable state [mTail] is
    the last node of the list (null for the empty list), and [mBackward]
    of a node is the node before it, null for the first node. *)
Theorem X26_backward_links (s : SortedSet K) :
  reachable s ->
  mTail s = last (node_list s) /\
  forall a p n, node_list s !! a = Some p -> heap s !! p = Some n ->
    mBackward n = match a with
                  | O => None
                  | S a' => node_list s !! a'
                  end.
Proof.
  intros Hreach. destruct (reachable_inv s Hreach) as [l Hinv].
  rewrite (inv_node_list s l Hinv). split; [apply (inv_tail _ _ Hinv)|].
  intros a p n Hp Hn. pose proof (inv_back _ _ Hinv a p Hp) as Hb.
  unfold bwd in Hb. rewrite Hn in Hb. simpl in Hb. by injection Hb.
Qed.

(** X27: the spans. In every reachable state a link at any level of the
    header or of a node, when it is not null, leads to a node further
    along the list, and its span is the number of steps at level 0
    between the two. *)
Theorem X27_spans (s : SortedSet K) (a i : nat) (p q : ptr)
    (lv : SkipListLevel) :
  reachable s ->
  (mHeader s :: node_list s) !! a = Some p ->
  level_at (heap s) p i = Some lv -> mForward lv = Some q ->
  1 <= mSpan lv /\
  (mHeader s :: node_list s) !! (a + Z.to_nat (mSpan lv))%nat = Some q.
Proof.
  intros Hreach. destruct (reachable_inv s Hreach) as [l Hinv].
  rewrite (inv_node_list s l Hinv). intros Hp Hlv Hq.
  pose proof (inv_links _ _ Hinv a p i lv Hp Hlv) as Hlk.
  unfold link_ok in Hlk. rewrite Hq in Hlk.
  destruct Hlk as (b & Hab & Hb & _ & _ & Hspan).
  split; [lia|]. rewrite Hspan.
  by replace (a + Z.to_nat (Z.of_nat b - Z.of_nat a))%nat with b by lia.
Qed.

End Structure.

Lemma X23_range_ends_witness :
  let range := mkRange 1.5%float 3%float false false in
  let hits := List.filter (fun ks => in_range range ks.2)
                          (contents (state_after abc_ops)) in
  let pair_at (r : option ptr) : option (string * score) :=
    p ← r; n ← heap (state_after abc_ops) !! p; Some (mKey n, mScore n) in
  exists r1 r2,
    first_in_range range (state_after abc_ops) = Some r1 /\
    pair_at r1 = head hits /\
    last_in_range range (state_after abc_ops) = Some r2 /\
    pair_at r2 = last hits.
Proof.
  apply (X23_range_ends (state_after abc_ops)
           (mkRange 1.5%float 3%float false false)).
  apply reachable_state_after.
Defined.

Lemma X25_heap_is_list_witness :
  NoDup (mHeader (state_after abc_ops) :: node_list (state_after abc_ops)) /\
  forall p, is_Some (heap (state_after abc_ops) !! p)
            <-> p ∈ mHeader (state_after abc_ops)
                    :: node_list (state_after abc_ops).
Proof.
  apply (X25_heap_is_list (state_after abc_ops)).
  apply reachable_state_after.
Defined.

Lemma X26_backward_links_witness :
  mTail (state_after abc_ops) = last (node_list (state_after abc_ops)) /\
  forall a p n,
    node_list (state_after abc_ops) !! a = Some p ->
    heap (state_after abc_ops) !! p = Some n ->
    mBackward n = match a with
                  | O => None
                  | S a' => node_list (state_after abc_ops) !! a'
                  end.
Proof.
  apply (X26_backward_links (state_after abc_ops)).
  apply reachable_state_after.
Defined.

Lemma X27_spans_witness :
  1 <= mSpan (mkLevel (Some 2%nat) 2) /\
  (mHeader (state_after abc_ops) :: node_list (state_after abc_ops))
    !! (0 + Z.to_nat (mSpan (mkLevel (Some 2%nat) 2)))%nat = Some 2%nat.
Proof.
  apply (X27_spans (state_after abc_ops) 0 1 0%nat 2%nat
           (mkLevel (Some 2%nat) 2)).
  - apply reachable_state_after.
  - vm_compute. reflexivity.
  - vm_compute. reflexivity.
  - reflexivity.
Defined.
